(** * buildpy: the staleness rule, the job table, the graph walk and the
      worker pool of the [v4] and [vx] revisions

    The development embeds the two revisions of the build engine that the
    repository ships, [buildpy/v4/__init__.py] and [buildpy/vx/__init__.py].
    Python dictionaries are [gmap]s, Python sets are [gset]s iterated in an
    order the program does not control, objects with identity (jobs, tasks)
    live in a store indexed by natural numbers, and every function that can
    raise returns a [result].

    Timestamps are the finite doubles returned by [os.path.getmtime] and the
    like; the code only compares them ([min], [max], [>]), and the order on
    finite doubles is the order of the integers they are multiples of, so a
    timestamp is a [Z]. *)

From Stdlib Require Import ZArith Lia List Bool Zify ZifyNat ZifyClasses.
From stdpp Require Import base option list gmap strings fin_maps sorting relations.

Set Warnings "-clear-no-such-hyp".

Open Scope Z_scope.

(** ** Python values, exceptions and results *)

(** The option values that the metadata table holds: [keep=True],
    [credential="path"], and [None]. *)
Inductive pyval :=
| VNone
| VBool (b : bool)
| VStr (s : string).

#[global] Instance pyval_eq_dec : EqDecision pyval.
Proof. solve_decision. Defined.

(** Python truthiness, as used by [meta["keep"]] in a condition. *)
Definition truthy (v : pyval) : bool :=
  match v with
  | VNone => false
  | VBool b => b
  | VStr s => negb (String.eqb s "")
  end.

(** What an [Err] says.  Targets are strings; a job is named by its index
    in the job store. *)
Inductive err_msg :=
| MsgKeyInDict (k : string)                       (* "{k} in {d}" *)
| MsgOverwriteMeta (k : string) (old new : pyval) (* "Tried to overwrite meta[k]" *)
| MsgCircular (t : string) (chain : list string)  (* v4: target and call chain *)
| MsgCircularJob (j : nat) (chain : list nat)     (* vx: job and call chain *)
| MsgNoRule (t : string)                          (* "No rule to make {t}" *)
| MsgMustNotHappen (t : string)
| MsgPhonyMultiple
| MsgNetloc (uri : string)
| MsgOverwritten                                  (* "{f} for {j} is overwritten by {g}" *)
| MsgExecutionFailed.

(** The exception classes the code raises or handles by name. *)
Inductive exn :=
| Err (m : err_msg)            (* buildpy Err *)
| NotFound                     (* buildpy NotFound, a subclass of Err *)
| GoogleNotFound               (* google.cloud.exceptions.NotFound *)
| OSError
| KeyError
| ValueError
| NotImplementedError
| AssertionError
| RecursionError               (* the interpreter's recursion limit *)
| OtherException.              (* any other subclass of Exception *)

#[global] Instance err_msg_eq_dec : EqDecision err_msg.
Proof. solve_decision. Defined.
#[global] Instance exn_eq_dec : EqDecision exn.
Proof. solve_decision. Defined.

Inductive result (A : Type) :=
| Ok (a : A)
| Raise (e : exn).
Arguments Ok {A} a.
Arguments Raise {A} e.

#[global] Instance result_ret : MRet result := fun A a => Ok a.
#[global] Instance result_bind : MBind result := fun A B k r =>
  match r with
  | Ok a => k a
  | Raise e => Raise e
  end.

(** [except (OSError, google.cloud.exceptions.NotFound, NotFound)]: the
    handler that [need_update] and [rm_targets] both use. *)
Definition is_missing (e : exn) : bool :=
  match e with
  | OSError | GoogleNotFound | NotFound => true
  | _ => false
  end.

(** A parsed locator. *)
Record URI := {
  scheme : string; netloc : string; path : string;
  params : string; query : string; fragment : string;
}.

(** What the engine does that others wait for or observe, in the order
    in which it does it. *)
Inductive event :=
| EvEnq (j : nat)                (* the job is put on a queue of the pool *)
| EvAction (j : nat)             (* [self.f(self)] is called *)
| EvRaised (j : nat)             (* [j.execute()] raised *)
| EvRm (j : nat) (t : string)    (* [self.dsl.rm(t)] is called *)
| EvKeep (j : nat) (t : string)  (* [t] is marked [keep]: [rm] is not called *)
| EvDefer (j : nat)              (* [deferred_errors.put((j, e_str))] *)
| EvDie                          (* [self._die(e_str)] *)
| EvDoneSet (j : nat)            (* [j.done.set()] *)
| EvTaskPut (j : nat)            (* [j.task.put()], by a worker *)
| EvRequeue (p c : nat).         (* the task of [p], which waited for the
                                    task of [c], is put back on the queue *)

#[global] Instance event_eq_dec : EqDecision event.
Proof. solve_decision. Defined.

(** ** Code that mutates shared state and may raise

    [ST S A]: a computation over the state [S]; the state it has reached is
    kept when it raises. *)
Definition ST (S A : Type) : Type := S -> S * result A.

#[global] Instance ST_ret {S} : MRet (ST S) := fun A a s => (s, Ok a).
#[global] Instance ST_bind {S} : MBind (ST S) := fun A B k m s =>
  match m s with
  | (s1, Ok a) => k a s1
  | (s1, Raise e) => (s1, Raise e)
  end.

Definition lift {S A} (r : result A) : ST S A := fun s => (s, r).
Definition get_state {S} : ST S S := fun s => (s, Ok s).
Definition put_state {S} (s' : S) : ST S unit := fun _ => (s', Ok ()).

(** ** The staleness rule

    [_FileJob.need_update] of v4 and [_FileJob._need_update] of vx have the
    same body, from the [try] on; they differ in the sequences they iterate
    and in how a probe is made, which are the parameters here. *)
Section NeedUpdate.
Context {S : Type}.
(** [mtime_of(uri=t, use_hash=False, credential=self._credential_of(t))] *)
Variable probe_target : string -> ST S Z.
(** [self._time_of_dep_from_cache(d)] *)
Variable probe_dep : string -> ST S Z.

(** The values of a generator expression [(probe(x) for x in xs)], as
    far as it gets. *)
Fixpoint gen_values (probe : string -> ST S Z) (xs : list string)
    : ST S (list Z) :=
  match xs with
  | [] => mret []
  | x :: xs' => t ← probe x; l ← gen_values probe xs'; mret (t :: l)
  end.

(** [min(iterable)]: [ValueError] on an empty one. *)
Definition py_min (l : list Z) : result Z :=
  match l with
  | [] => Raise ValueError
  | x :: l' => Ok (fold_left Z.min l' x)
  end.

(** [max(iterable, default=-float('inf'))]: [None] stands for -inf. *)
Definition py_max_default (l : list Z) : option Z :=
  match l with
  | [] => None
  | x :: l' => Some (fold_left Z.max l' x)
  end.

(** [m > t] for [m] a time or -inf. *)
Definition gt_time (m : option Z) (t : Z) : bool :=
  match m with
  | None => false
  | Some m => bool_decide (m > t)
  end.

Definition need_update_body (ts ds : list string) : ST S bool := fun s =>
  match (l ← gen_values probe_target ts; lift (py_min l)) s with
  | (s1, Raise e) =>
      if is_missing e then
        (* Intentionally create hash caches. *)
        (_ ← gen_values probe_dep ds; mret true) s1
      else (s1, Raise e)
  | (s1, Ok t_ts) =>
      (l ← gen_values probe_dep ds;
       mret (gt_time (py_max_default l) t_ts)) s1
  end.
End NeedUpdate.

(** ** The priority queue

    [queue.PriorityQueue] keeps its items in a list ordered as a binary
    heap: [put] is [heapq.heappush] and [get] is [heapq.heappop], and both
    compare items with [<] only.  The functions below follow [heapq.py];
    the list is updated by index as the Python list is. *)
Module Heapq.
Section Heap.
Context {A : Type}.
Variable lt : A -> A -> bool.       (* [item.__lt__(other)] *)

(** The [while pos > startpos] loop of [_siftdown]; it returns the list
    and the position at which the loop stops.  A turn moves [pos] to its
    parent, so [pos] turns are enough. *)
Fixpoint _siftdown_loop (turns : nat) (heap : list A) (startpos pos : nat)
    (newitem : A) : list A * nat :=
  match turns with
  | O => (heap, pos)
  | S turns' =>
      if bool_decide (startpos < pos)%nat then
        let parentpos := ((pos - 1) / 2)%nat in
        match heap !! parentpos with
        | Some parent =>
            if lt newitem parent then
              _siftdown_loop turns' (<[pos := parent]> heap) startpos
                parentpos newitem
            else (heap, pos)
        | None => (heap, pos)
        end
      else (heap, pos)
  end.

Definition _siftdown (heap : list A) (startpos pos : nat) : list A :=
  match heap !! pos with
  | Some newitem =>
      let '(heap', pos') := _siftdown_loop pos heap startpos pos newitem in
      <[pos' := newitem]> heap'
  | None => heap
  end.

(** The [while childpos < endpos] loop of [_siftup]: the smaller child
    moves up until a leaf is hit.  A turn moves [pos] to a child, so
    [endpos] turns are enough. *)
Fixpoint _siftup_loop (turns : nat) (heap : list A) (endpos pos : nat)
    : list A * nat :=
  match turns with
  | O => (heap, pos)
  | S turns' =>
      let childpos := (2 * pos + 1)%nat in
      if bool_decide (childpos < endpos)%nat then
        let rightpos := (childpos + 1)%nat in
        let childpos :=
          match heap !! childpos, heap !! rightpos with
          | Some l, Some r =>
              if bool_decide (rightpos < endpos)%nat && negb (lt l r)
              then rightpos else childpos
          | _, _ => childpos
          end in
        match heap !! childpos with
        | Some c => _siftup_loop turns' (<[pos := c]> heap) endpos childpos
        | None => (heap, pos)
        end
      else (heap, pos)
  end.

Definition _siftup (heap : list A) (pos : nat) : list A :=
  let endpos := length heap in
  let startpos := pos in
  match heap !! pos with
  | Some newitem =>
      let '(heap', pos') := _siftup_loop endpos heap endpos pos in
      _siftdown (<[pos' := newitem]> heap') startpos pos'
  | None => heap
  end.

(** [heappush(heap, item)]. *)
Definition heappush (heap : list A) (item : A) : list A :=
  _siftdown (heap ++ [item]) 0 (length heap).

(** [heappop(heap)]: [None] when [heap.pop()] raises [IndexError]. *)
Definition heappop (heap : list A) : option (A * list A) :=
  match last heap with
  | None => None
  | Some lastelt =>
      let heap := removelast heap in
      match heap with
      | [] => Some (lastelt, [])
      | returnitem :: _ =>
          Some (returnitem, _siftup (<[0%nat := lastelt]> heap) 0)
      end
  end.

(** [PriorityQueue.put] and the non-blocking [PriorityQueue.get] on the
    list that the queue holds. *)
Definition put (q : list A) (item : A) : list A := heappush q item.
Definition get (q : list A) : option (A * list A) := heappop q.
End Heap.
End Heapq.

(** ** Revision v4 *)

Module V4.

(** [_unique(xs)]: the loop keeps a [seen] set and appends to [ret]. *)
Fixpoint _unique_loop (xs : list string) (seen : gset string)
    (ret : list string) : list string :=
  match xs with
  | [] => ret
  | x :: xs' =>
      if decide (x ∈ seen) then _unique_loop xs' seen ret
      else _unique_loop xs' ({[x]} ∪ seen) (ret ++ [x])
  end.

Definition _unique (xs : list string) : list string :=
  _unique_loop xs ∅ [].

(** [_set_unique(d, k, v)]. *)
Definition _set_unique {V} (d : gmap string V) (k : string) (v : V)
    : result (gmap string V) :=
  match d !! k with
  | Some _ => Raise (Err (MsgKeyInDict k))
  | None => Ok (<[k := v]> d)
  end.

(** *** The metadata table

    [self.data["meta"]] is a [_TDefaultDict(_TDict)]: reading a missing key
    stores and returns a fresh empty dictionary. *)
Definition TDefaultDict_getitem (tbl : gmap string (gmap string pyval))
    (name : string) : gmap string (gmap string pyval) * gmap string pyval :=
  match tbl !! name with
  | Some m => (tbl, m)
  | None => (<[name := ∅]> tbl, ∅)
  end.

(** The body of [DSL.meta]: the loop over [kwargs.items()], writing into the
    dictionary [_meta] in place.  The dictionary keeps what was written
    before a raise. *)
Fixpoint meta_loop (_meta : gmap string pyval) (kwargs : list (string * pyval))
    : gmap string pyval * result unit :=
  match kwargs with
  | [] => (_meta, Ok ())
  | (k, v) :: rest =>
      match _meta !! k with
      | Some old =>
          if decide (old = v) then meta_loop (<[k := v]> _meta) rest
          else (_meta, Raise (Err (MsgOverwriteMeta k old v)))
      | None => meta_loop (<[k := v]> _meta) rest
      end
  end.

(** [DSL.meta(name, **kwargs)]: returns the table after the call and
    [name], or the exception. *)
Definition meta (tbl : gmap string (gmap string pyval)) (name : string)
    (kwargs : list (string * pyval))
    : gmap string (gmap string pyval) * result string :=
  let '(tbl1, _meta) := TDefaultDict_getitem tbl name in
  let '(_meta', r) := meta_loop _meta kwargs in
  (<[name := _meta']> tbl1, _ ← r; Ok name).

(** *** Jobs *)

(** The callable of a job: a function of the build script, [_do_nothing],
    or one of the two closures that [_make_graph] declares for a leaf. *)
Inductive action :=
| ActUser (n : nat)
| ActDoNothing
| ActNoRule (t : string)
| ActMustNotHappen (t : string).

Inductive job_kind := FileJob | PhonyJob.

(** [_Job] with the fields of [_FileJob]; a phony job leaves
    [_use_hash] and [_serial] at [false]. *)
Record job := {
  kind : job_kind;
  f : action;
  ts : list string;
  ds : list string;
  descs : list string;
  priority : Z;
  unique_ds : list string;
  _n_rest : Z;
  visited : bool;
  _dry_run : bool;
  _use_hash : bool;
  _serial : bool;
}.

(** [_Job.dry_run_set_self_or(x)]. *)
Definition dry_run_set_self_or (j : job) (x : bool) : job :=
  {| kind := kind j; f := f j; ts := ts j; ds := ds j; descs := descs j;
     priority := priority j; unique_ds := unique_ds j; _n_rest := _n_rest j;
     visited := visited j; _dry_run := _dry_run j || x;
     _use_hash := _use_hash j; _serial := _serial j |}.

(** [[desc for desc in descs if desc is not None]]. *)
Definition descs_of (ds : list (option string)) : list string :=
  omap id ds.

(** [_Job.__init__]. *)
Definition new_job (k : job_kind) (f : action) (ts ds : list string)
    (descs : list (option string)) (priority : Z) (use_hash serial : bool)
    : job :=
  {| kind := k; f := f; ts := ts; ds := ds; descs := descs_of descs;
     priority := priority; unique_ds := _unique ds;
     _n_rest := Z.of_nat (length (_unique ds));
     visited := false; _dry_run := false;
     _use_hash := use_hash; _serial := serial |}.

(** [_PhonyJob.__init__]. *)
Definition new_phony_job (f : action) (ts ds : list string)
    (descs : list (option string)) (priority : Z) : result job :=
  if decide (length ts = 1%nat)
  then Ok (new_job PhonyJob f ts ds descs priority false false)
  else Raise (Err MsgPhonyMultiple).

Definition _PRIORITY_DEFAULT : Z := 0.

(** The declarations a [DSL] object holds.  A job object is its index in
    [jobs]; [_deps_of_phony] and [_descs_of_phony] are dictionaries that are
    iterated, so they keep their insertion order. *)
Record dsl := {
  jobs : list job;
  _job_of_target : gmap string nat;
  _f_of_phony : gmap string action;
  _deps_of_phony : list (string * list string);
  _descs_of_phony : list (string * list (option string));
  _priority_of_phony : gmap string Z;
  dsl_use_hash : bool;
}.

Definition DSL_init (use_hash : bool) : dsl :=
  {| jobs := []; _job_of_target := ∅; _f_of_phony := ∅;
     _deps_of_phony := []; _descs_of_phony := [];
     _priority_of_phony := ∅; dsl_use_hash := use_hash |}.

(** [for t in targets: _set_unique(self._job_of_target, t, j)]. *)
Fixpoint set_unique_each (d : gmap string nat) (targets : list string)
    (j : nat) : gmap string nat * result unit :=
  match targets with
  | [] => (d, Ok ())
  | t :: rest =>
      match _set_unique d t j with
      | Ok d' => set_unique_each d' rest j
      | Raise e => (d, Raise e)
      end
  end.

(** [DSL.file(targets, deps, ...)(f)]: the job is built, then bound to
    each of its targets. *)
Definition file (σ : dsl) (targets deps : list string) (desc : option string)
    (use_hash : option bool) (serial : bool) (priority : Z) (fn : action)
    : dsl * result unit :=
  let use_hash := default (dsl_use_hash σ) use_hash in
  let j := new_job FileJob fn targets deps [desc] priority use_hash serial in
  let id := length (jobs σ) in
  let '(d, r) := set_unique_each (_job_of_target σ) targets id in
  ({| jobs := jobs σ ++ [j]; _job_of_target := d;
      _f_of_phony := _f_of_phony σ; _deps_of_phony := _deps_of_phony σ;
      _descs_of_phony := _descs_of_phony σ;
      _priority_of_phony := _priority_of_phony σ;
      dsl_use_hash := dsl_use_hash σ |}, r).

(** [d.setdefault(k, []).extend(xs)] on an insertion-ordered dictionary. *)
Fixpoint setdefault_extend {A} (d : list (string * list A)) (k : string)
    (xs : list A) : list (string * list A) :=
  match d with
  | [] => [(k, xs)]
  | (k', ys) :: rest =>
      if decide (k' = k) then (k', ys ++ xs) :: rest
      else (k', ys) :: setdefault_extend rest k xs
  end.

Fixpoint alist_get {A} (d : list (string * A)) (k : string) : option A :=
  match d with
  | [] => None
  | (k', y) :: rest => if decide (k' = k) then Some y else alist_get rest k
  end.

(** [DSL.phony(target, deps, desc, priority)]: the call itself. *)
Definition phony (σ : dsl) (target : string) (deps : list string)
    (desc : option string) (priority : option Z) : dsl :=
  {| jobs := jobs σ; _job_of_target := _job_of_target σ;
     _f_of_phony := _f_of_phony σ;
     _deps_of_phony := setdefault_extend (_deps_of_phony σ) target deps;
     _descs_of_phony := setdefault_extend (_descs_of_phony σ) target [desc];
     _priority_of_phony :=
       match priority with
       | Some p => <[target := p]> (_priority_of_phony σ)
       | None => _priority_of_phony σ
       end;
     dsl_use_hash := dsl_use_hash σ |}.

(** The decorator that [phony] returns, applied to [fn]. *)
Definition phony_decorate (σ : dsl) (target : string) (fn : action)
    : result dsl :=
  d ← _set_unique (_f_of_phony σ) target fn;
  Ok {| jobs := jobs σ; _job_of_target := _job_of_target σ;
        _f_of_phony := d; _deps_of_phony := _deps_of_phony σ;
        _descs_of_phony := _descs_of_phony σ;
        _priority_of_phony := _priority_of_phony σ;
        dsl_use_hash := dsl_use_hash σ |}.

(** [_collect_phonies]: one phony job per key of [deps_of_phony], in
    insertion order.  [descs_of_phony[target]] raises [KeyError] on a
    missing key. *)
Fixpoint _collect_phonies_loop (js : list job) (job_of_target : gmap string nat)
    (items : list (string * list string)) (f_of_phony : gmap string action)
    (descs_of_phony : list (string * list (option string)))
    (priority_of_phony : gmap string Z)
    : list job * gmap string nat * result unit :=
  match items with
  | [] => (js, job_of_target, Ok ())
  | (target, deps) :: rest =>
      match alist_get descs_of_phony target with
      | None => (js, job_of_target, Raise KeyError)
      | Some descs =>
          match new_phony_job (default ActDoNothing (f_of_phony !! target))
                  [target] deps descs
                  (default _PRIORITY_DEFAULT (priority_of_phony !! target)) with
          | Raise e => (js, job_of_target, Raise e)
          | Ok j =>
              match _set_unique job_of_target target (length js) with
              | Raise e => (js ++ [j], job_of_target, Raise e)
              | Ok d =>
                  _collect_phonies_loop (js ++ [j]) d rest f_of_phony
                    descs_of_phony priority_of_phony
              end
          end
      end
  end.

Definition _collect_phonies (σ : dsl) : dsl * result unit :=
  let '(js, d, r) :=
    _collect_phonies_loop (jobs σ) (_job_of_target σ) (_deps_of_phony σ)
      (_f_of_phony σ) (_descs_of_phony σ) (_priority_of_phony σ) in
  ({| jobs := js; _job_of_target := d;
      _f_of_phony := _f_of_phony σ; _deps_of_phony := _deps_of_phony σ;
      _descs_of_phony := _descs_of_phony σ;
      _priority_of_phony := _priority_of_phony σ;
      dsl_use_hash := dsl_use_hash σ |}, r).

(** *** Resources and the hash-time cache *)

(** What [_load_hash_time_cache] would return or raise for a cache file,
    and the file's own modification time. *)
Record cache_file := {
  st_mtime : Z;
  content : result (Z * string);
}.

(** The world outside the engine, as one staleness check sees it. *)
Record env := {
  urlparse : string -> URI;            (* urllib.parse.urlparse *)
  CACHE_DIR : string;
  jp : string -> list string -> string;      (* DSL.jp *)
  abspath : string -> string;          (* os.path.abspath *)
  getmtime : string -> result Z;       (* os.path.getmtime *)
  lexists : string -> bool;            (* os.path.lexists *)
  _hash_of_path : string -> result string;
  (* bucket, blob name, credential: the blob's creation time and MD5 *)
  gs_get_blob : string -> string -> pyval -> result (option (Z * string));
  (* netloc, credential: the table's modification time *)
  bq_get_table : string -> pyval -> result Z;
  time_time : Z;                       (* time.time() *)
}.

(** What the engine itself mutates during a check. *)
Record world := {
  meta_tbl : gmap string (gmap string pyval);   (* dsl.data["meta"] *)
  time_of_dep_cache : gmap string Z;            (* dsl.time_of_dep_cache *)
  cache_files : gmap string cache_file;         (* the files under CACHE_DIR *)
}.

Definition set_meta_tbl (w : world) m : world :=
  {| meta_tbl := m; time_of_dep_cache := time_of_dep_cache w;
     cache_files := cache_files w |}.
Definition set_time_of_dep_cache (w : world) c : world :=
  {| meta_tbl := meta_tbl w; time_of_dep_cache := c;
     cache_files := cache_files w |}.
Definition set_cache_files (w : world) c : world :=
  {| meta_tbl := meta_tbl w; time_of_dep_cache := time_of_dep_cache w;
     cache_files := c |}.

Section Staleness.
Variable E : env.

(** [_uriparse]. *)
Definition _uriparse (uri : string) : result URI :=
  let puri := urlparse E uri in
  let scheme := if decide (scheme puri = "") then "file" else scheme puri in
  let netloc :=
    if decide (scheme = "file" ∧ netloc puri = "") then "localhost"
    else netloc puri in
  if decide (scheme = "file" ∧ netloc ≠ "localhost")
  then Raise (Err (MsgNetloc uri))
  else Ok {| scheme := scheme; netloc := netloc; path := path puri;
             params := params puri; query := query puri;
             fragment := fragment puri |}.

Definition assert (b : bool) : result unit :=
  if b then Ok () else Raise AssertionError.

(** [_dump_hash_time_cache]: the file is rewritten now. *)
Definition _dump_hash_time_cache (cache_path : string) (t_path : Z)
    (h_path : string) : ST world unit := fun w =>
  (set_cache_files w
     (<[cache_path := {| st_mtime := time_time E;
                         content := Ok (t_path, h_path) |}]> (cache_files w)),
   Ok ()).

(** [os.utime(cache_path, (t_now, t_now))]. *)
Definition utime (cache_path : string) (t_now : Z) : ST world unit := fun w =>
  match cache_files w !! cache_path with
  | None => (w, Raise OSError)
  | Some c =>
      (set_cache_files w
         (<[cache_path := {| st_mtime := t_now; content := content c |}]>
            (cache_files w)), Ok ())
  end.

(** [_min_of_t_uri_and_t_cache(t_uri, force_hash, puri)]. *)
Definition _min_of_t_uri_and_t_cache (t_uri : Z)
    (force_hash : unit -> result string) (puri : URI) : ST world Z :=
  let refresh cache_path : ST world Z :=
    h_path ← lift (force_hash ());
    _ ← _dump_hash_time_cache cache_path t_uri h_path;
    mret t_uri in
  _ ← lift (assert (negb (String.eqb (path puri) "")));
  let cache_path :=
    jp E (CACHE_DIR E) [scheme puri; netloc puri; abspath E (path puri)] in
  w ← get_state;
  match cache_files w !! cache_path with
  | None => refresh cache_path                       (* os.stat: OSError *)
  | Some cache_path_stat =>
      match content cache_path_stat with
      | Raise OSError | Raise KeyError => refresh cache_path
      | Raise e => lift (Raise e)
      | Ok (t_cache, h_cache) =>
          if bool_decide (st_mtime cache_path_stat > t_uri) then mret t_cache
          else
            h_path ← lift (force_hash ());
            if decide (h_path = h_cache) then
              let t_now := time_time E in
              _ ← utime cache_path t_now;
              mret t_cache
            else
              _ ← _dump_hash_time_cache cache_path t_uri h_path;
              mret t_uri
      end
  end.

(** The asserts that open every adapter method. *)
Definition assert_plain (sch : string) (puri : URI) : result unit :=
  _ ← assert (bool_decide (scheme puri = sch));
  _ ← assert (bool_decide (params puri = ""));
  _ ← assert (bool_decide (query puri = ""));
  assert (bool_decide (fragment puri = "")).

(** [LocalFile.mtime_of]. *)
Definition LocalFile_mtime_of (uri : string) (credential : pyval)
    (use_hash : bool) : ST world Z :=
  puri ← lift (_uriparse uri);
  _ ← lift (assert (bool_decide (scheme puri = "file")));
  _ ← lift (assert (bool_decide (netloc puri = "localhost")));
  _ ← lift (assert (bool_decide (params puri = "")));
  _ ← lift (assert (bool_decide (query puri = "")));
  _ ← lift (assert (bool_decide (fragment puri = "")));
  t_uri ← lift (getmtime E (path puri));
  if negb use_hash then mret t_uri
  else _min_of_t_uri_and_t_cache t_uri
         (fun _ => _hash_of_path E (path puri)) puri.

(** [s[1:]]. *)
Definition drop_first (s : string) : string :=
  match s with
  | EmptyString => EmptyString
  | String _ r => r
  end.

(** [GoogleCloudStorage.mtime_of]. *)
Definition GoogleCloudStorage_mtime_of (uri : string) (credential : pyval)
    (use_hash : bool) : ST world Z :=
  puri ← lift (_uriparse uri);
  _ ← lift (assert_plain "gs" puri);
  blob ← lift (gs_get_blob E (netloc puri) (drop_first (path puri)) credential);
  match blob with
  | None => lift (Raise NotFound)
  | Some (time_created, md5_hash) =>
      let t_uri := time_created in
      if negb use_hash then mret t_uri
      else _min_of_t_uri_and_t_cache t_uri (fun _ => Ok md5_hash) puri
  end.

(** [BigQuery.mtime_of]: BigQuery does not provide a hash. *)
Definition BigQuery_mtime_of (uri : string) (credential : pyval)
    (use_hash : bool) : ST world Z :=
  puri ← lift (_uriparse uri);
  _ ← lift (assert_plain "bq" puri);
  lift (bq_get_table E (netloc puri) credential).

(** [mtime_of(uri, use_hash, credential)], with [RESOURCE_OF_SCHEME]. *)
Definition mtime_of (uri : string) (use_hash : bool) (credential : pyval)
    : ST world Z :=
  puri ← lift (_uriparse uri);
  _ ← lift (if decide (scheme puri = "file")
            then assert (bool_decide (netloc puri = "localhost"))
            else Ok ());
  if decide (scheme puri = "file") then
    LocalFile_mtime_of uri credential use_hash
  else if decide (scheme puri = "bq") then
    BigQuery_mtime_of uri credential use_hash
  else if decide (scheme puri = "gs") then
    GoogleCloudStorage_mtime_of uri credential use_hash
  else lift (Raise NotImplementedError).

(** [_FileJob._credential_of]. *)
Definition _credential_of (uri : string) : ST world pyval := fun w =>
  let '(tbl, m) := TDefaultDict_getitem (meta_tbl w) uri in
  (set_meta_tbl w tbl, Ok (default VNone (m !! "credential"))).

(** [_Cache.get(k, make_val)]. *)
Definition Cache_get (k : string) (make_val : ST world Z) : ST world Z :=
  w ← get_state;
  match time_of_dep_cache w !! k with
  | Some v => mret v
  | None =>
      val ← make_val;
      w' ← get_state;
      _ ← put_state (set_time_of_dep_cache w' (<[k := val]> (time_of_dep_cache w')));
      mret val
  end.

(** [_FileJob._time_of_dep_from_cache]: the credential is looked up
    before [get] is called. *)
Definition _time_of_dep_from_cache (j : job) (d : string) : ST world Z :=
  credential ← _credential_of d;
  Cache_get d (mtime_of d (_use_hash j) credential).

Definition probe_target (t : string) : ST world Z :=
  credential ← _credential_of t;
  mtime_of t false credential.

(** [_FileJob.need_update]. *)
Definition need_update (j : job) : ST world bool :=
  if _dry_run j then mret true
  else need_update_body probe_target (_time_of_dep_from_cache j)
         (ts j) (unique_ds j).
End Staleness.

(** *** The graph builder *)

(** What [finish] passes to [_make_graph] and what [_make_graph] mutates:
    the declarations, the metadata table, the reverse edges and the leaves. *)
Record gstate := {
  g_dsl : dsl;
  g_meta : gmap string (gmap string pyval);
  dependent_jobs : gmap string (list nat);
  leaf_jobs : list nat;
}.

Definition set_g_dsl (g : gstate) σ : gstate :=
  {| g_dsl := σ; g_meta := g_meta g; dependent_jobs := dependent_jobs g;
     leaf_jobs := leaf_jobs g |}.

(** [j.visited = True]. *)
Definition set_visited (σ : dsl) (id : nat) : dsl :=
  {| jobs := alter (fun j =>
       {| kind := kind j; f := f j; ts := ts j; ds := ds j; descs := descs j;
          priority := priority j; unique_ds := unique_ds j;
          _n_rest := _n_rest j; visited := true; _dry_run := _dry_run j;
          _use_hash := _use_hash j; _serial := _serial j |}) id (jobs σ);
     _job_of_target := _job_of_target σ;
     _f_of_phony := _f_of_phony σ; _deps_of_phony := _deps_of_phony σ;
     _descs_of_phony := _descs_of_phony σ;
     _priority_of_phony := _priority_of_phony σ;
     dsl_use_hash := dsl_use_hash σ |}.

(** [_key_to_sort_unique_ds]: a priority, or [math.inf] ([None]). *)
Definition _key_to_sort_unique_ds (σ : dsl) (dep : string) : option Z :=
  match _job_of_target σ !! dep with
  | Some id => priority <$> (jobs σ !! id)
  | None => None
  end.

(** [k1 <= k2] on such keys. *)
Definition key_le (k1 k2 : option Z) : bool :=
  match k1, k2 with
  | _, None => true
  | None, Some _ => false
  | Some a, Some b => bool_decide (a <= b)
  end.

(** [sorted(xs, key=key)]: a stable sort. *)
Fixpoint insert_sorted {A} (key : A -> option Z) (x : A) (l : list A) : list A :=
  match l with
  | [] => [x]
  | y :: l' =>
      if key_le (key x) (key y) then x :: y :: l'
      else y :: insert_sorted key x l'
  end.

Definition sorted {A} (key : A -> option Z) (l : list A) : list A :=
  foldr (insert_sorted key) [] l.

Section MakeGraph.
Variable E : env.

(** [@file([meta(target, keep=True)], []) def _(j): ...] *)
Definition declare_leaf (target : string) (fn : action) : ST gstate unit :=
  fun g =>
    match meta (g_meta g) target [("keep", VBool true)] with
    | (tbl, Raise e) =>
        ({| g_dsl := g_dsl g; g_meta := tbl;
            dependent_jobs := dependent_jobs g; leaf_jobs := leaf_jobs g |},
         Raise e)
    | (tbl, Ok name) =>
        let '(σ, r) := file (g_dsl g) [name] [] None None false
                         _PRIORITY_DEFAULT fn in
        ({| g_dsl := σ; g_meta := tbl;
            dependent_jobs := dependent_jobs g; leaf_jobs := leaf_jobs g |},
         r)
    end.

(** [dependent_jobs.setdefault(dep, []).append(j)]. *)
Definition add_dependent (dep : string) (j : nat) : ST gstate unit := fun g =>
  ({| g_dsl := g_dsl g; g_meta := g_meta g;
      dependent_jobs :=
        <[dep := default [] (dependent_jobs g !! dep) ++ [j]]>
          (dependent_jobs g);
      leaf_jobs := leaf_jobs g |}, Ok ()).

Definition add_leaf (j : nat) : ST gstate unit := fun g =>
  ({| g_dsl := g_dsl g; g_meta := g_meta g;
      dependent_jobs := dependent_jobs g;
      leaf_jobs := leaf_jobs g ++ [j] |}, Ok ()).

(** The branch [if target not in job_of_target]. *)
Definition make_leaf_job (target : string) : ST gstate unit :=
  g ← get_state;
  _ ← lift (assert (bool_decide
               (alist_get (_deps_of_phony (g_dsl g)) target = None)));
  ptarget ← lift (_uriparse E target);
  if decide (scheme ptarget = "file" ∧ netloc ptarget = "localhost") then
    if lexists E target then declare_leaf target (ActMustNotHappen target)
    else lift (Raise (Err (MsgNoRule target)))
  else declare_leaf target (ActNoRule target).

(** The loop [for dep in sorted(...)] of [_make_graph] for the job [id];
    [rec] is the recursive call. *)
Fixpoint make_graph_deps (rec : string -> ST gstate unit) (id : nat)
    (deps : list string) : ST gstate unit :=
  match deps with
  | [] => mret ()
  | dep :: deps' =>
      _ ← add_dependent dep id;
      _ ← rec dep;
      make_graph_deps rec id deps'
  end.

(** [_make_graph]; [fuel] is the depth of recursion that the interpreter
    allows. *)
Fixpoint _make_graph (fuel : nat) (target : string)
    (call_chain : list string) : ST gstate unit :=
  match fuel with
  | O => lift (Raise RecursionError)
  | S fuel' =>
      if decide (target ∈ call_chain) then
        lift (Raise (Err (MsgCircular target call_chain)))
      else
        g ← get_state;
        _ ← (if decide (is_Some (_job_of_target (g_dsl g) !! target))
             then mret () else make_leaf_job target);
        g ← get_state;
        match _job_of_target (g_dsl g) !! target with
        | None => lift (Raise KeyError)
        | Some id =>
            match jobs (g_dsl g) !! id with
            | None => lift (Raise KeyError)
            | Some j =>
                if visited j then mret ()
                else
                  _ ← put_state (set_g_dsl g (set_visited (g_dsl g) id));
                  let current_call_chain := target :: call_chain in
                  _ ← make_graph_deps
                        (fun dep => _make_graph fuel' dep current_call_chain)
                        id
                        (sorted (_key_to_sort_unique_ds (g_dsl g))
                           (unique_ds j));
                  match unique_ds j with
                  | [] => add_leaf id
                  | _ => mret ()
                  end
            end
        end
  end.

(** The loop of [finish] over the root targets. *)
Fixpoint make_graphs (fuel : nat) (targets : list string) : ST gstate unit :=
  match targets with
  | [] => mret ()
  | t :: rest => _ ← _make_graph fuel t []; make_graphs fuel rest
  end.
End MakeGraph.

End V4.

(** ** Revision vx *)

Module VX.

(** Where the generator [task_of_invoke] of a job stands:
    - [AtWait i]: about to evaluate [this.wait(child.task)] for the child
      of index [i] (or to leave the [for] loop);
    - [AtAll i]: inside [all(child.successed for child in children)], about
      to read the flag of the child of index [i];
    - [AtEnq]: about to call [self._enq()];
    - [AtAssert]: suspended at [yield self._enq()];
    - [AtDoneSet]: about to call [self.done.set()] in the [else] branch;
    - [Finished]: the generator has returned or raised. *)
Inductive gen_pc :=
| AtWait (i : nat)
| AtAll (i : nat)
| AtEnq
| AtAssert
| AtDoneSet
| Finished.

(** [_Task]; [children] is the variable that [task_of_invoke] closes over.
    A job has at most one task, so a task is named by its job. *)
Record task := {
  children : list nat;
  pc : gen_pc;
  waited : list nat;          (* queue.Queue of the tasks waiting for it *)
  t_done : bool;              (* _Task.done *)
  error : option exn;
}.

Inductive action :=
| ActUser (n : nat)
| ActNoRule (d : string).    (* raise exception.Err(f"No rule to make {d}") *)

#[global] Instance action_eq_dec : EqDecision action.
Proof. solve_decision. Defined.

Inductive job_kind := FileJob | PhonyJob.

(** [_Job], with the fields of [_FileJob]. *)
Record job := {
  kind : job_kind;
  _f : option action;
  ts : list string;
  ds : list string;
  desc : option string;
  priority : Z;
  ts_unique : gset string;    (* set(self.ts) *)
  ds_unique : gset string;    (* set(self.ds) *)
  _use_hash : bool;
  serial : bool;
  done : bool;                (* threading.Event *)
  executed : bool;
  successed : bool;
  jtask : option task;        (* self.task *)
}.

(** [_Job.__lt__]. *)
Definition __lt__ (self other : job) : bool :=
  bool_decide (priority self < priority other).

Definition set_task (j : job) (t : option task) : job :=
  {| kind := kind j; _f := _f j; ts := ts j; ds := ds j; desc := desc j;
     priority := priority j; ts_unique := ts_unique j;
     ds_unique := ds_unique j; _use_hash := _use_hash j; serial := serial j;
     done := done j; executed := executed j; successed := successed j;
     jtask := t |}.
Definition set_done (j : job) : job :=
  {| kind := kind j; _f := _f j; ts := ts j; ds := ds j; desc := desc j;
     priority := priority j; ts_unique := ts_unique j;
     ds_unique := ds_unique j; _use_hash := _use_hash j; serial := serial j;
     done := true; executed := executed j; successed := successed j;
     jtask := jtask j |}.
Definition set_executed (j : job) : job :=
  {| kind := kind j; _f := _f j; ts := ts j; ds := ds j; desc := desc j;
     priority := priority j; ts_unique := ts_unique j;
     ds_unique := ds_unique j; _use_hash := _use_hash j; serial := serial j;
     done := done j; executed := true; successed := successed j;
     jtask := jtask j |}.
Definition set_successed (j : job) : job :=
  {| kind := kind j; _f := _f j; ts := ts j; ds := ds j; desc := desc j;
     priority := priority j; ts_unique := ts_unique j;
     ds_unique := ds_unique j; _use_hash := _use_hash j; serial := serial j;
     done := done j; executed := executed j; successed := true;
     jtask := jtask j |}.
Definition set_f (j : job) (fn : action) : job :=
  {| kind := kind j; _f := Some fn; ts := ts j; ds := ds j; desc := desc j;
     priority := priority j; ts_unique := ts_unique j;
     ds_unique := ds_unique j; _use_hash := _use_hash j; serial := serial j;
     done := done j; executed := executed j; successed := successed j;
     jtask := jtask j |}.

(** [_Job.__init__] followed by the two assignments of
    [_FileJob.__init__], without the registration loop. *)
Definition new_job (k : job_kind) (ts ds : list string) (desc : option string)
    (priority : Z) (use_hash serial : bool) : job :=
  {| kind := k; _f := None; ts := ts; ds := ds; desc := desc;
     priority := priority; ts_unique := list_to_set ts;
     ds_unique := list_to_set ds; _use_hash := use_hash; serial := serial;
     done := false; executed := false; successed := false; jtask := None |}.

(** The declarations of a [DSL] object and the queue of its task context.
    A job object is its index in [job_objs]; [jobs] is [self.jobs]. *)
Record dsl := {
  dry_run : bool;                               (* self.args.dry_run *)
  job_objs : list job;
  jobs : gset nat;
  job_of_target : gmap string nat;
  dsl_use_hash : bool;
  time_of_dep_cache : gmap string Z;
  metadata : gmap string (gmap string pyval);
  ctx_queue : list nat;                         (* task_context.queue *)
}.

Definition set_job_objs (σ : dsl) js : dsl :=
  {| dry_run := dry_run σ; job_objs := js; jobs := jobs σ;
     job_of_target := job_of_target σ; dsl_use_hash := dsl_use_hash σ;
     time_of_dep_cache := time_of_dep_cache σ; metadata := metadata σ;
     ctx_queue := ctx_queue σ |}.
Definition set_jobs (σ : dsl) js : dsl :=
  {| dry_run := dry_run σ; job_objs := job_objs σ; jobs := js;
     job_of_target := job_of_target σ; dsl_use_hash := dsl_use_hash σ;
     time_of_dep_cache := time_of_dep_cache σ; metadata := metadata σ;
     ctx_queue := ctx_queue σ |}.
Definition set_job_of_target (σ : dsl) m : dsl :=
  {| dry_run := dry_run σ; job_objs := job_objs σ; jobs := jobs σ;
     job_of_target := m; dsl_use_hash := dsl_use_hash σ;
     time_of_dep_cache := time_of_dep_cache σ; metadata := metadata σ;
     ctx_queue := ctx_queue σ |}.
Definition set_time_of_dep_cache (σ : dsl) c : dsl :=
  {| dry_run := dry_run σ; job_objs := job_objs σ; jobs := jobs σ;
     job_of_target := job_of_target σ; dsl_use_hash := dsl_use_hash σ;
     time_of_dep_cache := c; metadata := metadata σ;
     ctx_queue := ctx_queue σ |}.
Definition set_metadata (σ : dsl) m : dsl :=
  {| dry_run := dry_run σ; job_objs := job_objs σ; jobs := jobs σ;
     job_of_target := job_of_target σ; dsl_use_hash := dsl_use_hash σ;
     time_of_dep_cache := time_of_dep_cache σ; metadata := m;
     ctx_queue := ctx_queue σ |}.
Definition set_ctx_queue (σ : dsl) q : dsl :=
  {| dry_run := dry_run σ; job_objs := job_objs σ; jobs := jobs σ;
     job_of_target := job_of_target σ; dsl_use_hash := dsl_use_hash σ;
     time_of_dep_cache := time_of_dep_cache σ; metadata := metadata σ;
     ctx_queue := q |}.

Definition DSL_init (dry_run use_hash : bool) : dsl :=
  {| dry_run := dry_run; job_objs := []; jobs := ∅; job_of_target := ∅;
     dsl_use_hash := use_hash; time_of_dep_cache := ∅; metadata := ∅;
     ctx_queue := [] |}.

(** Modelled from the spec: [_tval.NonOverwritableDict.__setitem__], whose
    module is not among the sources.  The spec: "Every target appears in
    [job_of_target] at most once: re-declaring the same target is an
    error." *)
Definition NonOverwritableDict_setitem (d : gmap string nat) (k : string)
    (v : nat) : result (gmap string nat) :=
  match d !! k with
  | Some _ => Raise (Err (MsgKeyInDict k))
  | None => Ok (<[k := v]> d)
  end.

(** Modelled from the spec: [_tval.TDefaultDict.__getitem__], whose module
    is not among the sources; the table maps a URI to an options map, and
    the code reads [metadata[uri]] for URIs never passed to [meta], so a
    missing key reads as a fresh empty map that the table keeps (as
    [_TDefaultDict] of v4 does). *)
Definition TDefaultDict_getitem (tbl : gmap string (gmap string pyval))
    (name : string) : gmap string (gmap string pyval) * gmap string pyval :=
  match tbl !! name with
  | Some m => (tbl, m)
  | None => (<[name := ∅]> tbl, ∅)
  end.

(** [DSL.meta(uri, **kwargs)]: [self.metadata[uri] = kwargs]. *)
Definition meta (uri : string) (kwargs : list (string * pyval)) : ST dsl string :=
  fun σ =>
    (set_metadata σ (<[uri := list_to_map kwargs]> (metadata σ)), Ok uri).

(** The loop [for t in self.ts: self.dsl.job_of_target[t] = self]. *)
Fixpoint register_targets (d : gmap string nat) (ts : list string) (j : nat)
    : gmap string nat * result unit :=
  match ts with
  | [] => (d, Ok ())
  | t :: rest =>
      match NonOverwritableDict_setitem d t j with
      | Ok d' => register_targets d' rest j
      | Raise e => (d, Raise e)
      end
  end.

(** The constructor of a job: the object is allocated and its targets are
    bound in order; the new object is returned. *)
Definition construct (j : job) : ST dsl nat := fun σ =>
  let id := length (job_objs σ) in
  let '(d, r) := register_targets (job_of_target σ) (ts j) id in
  (set_job_of_target (set_job_objs σ (job_objs σ ++ [j])) d,
   _ ← r; Ok id).

(** [DSL.file(targets, deps, ...)] with [cut=False]. *)
Definition file (targets deps : list string) (desc : option string)
    (use_hash : option bool) (serial : bool) (priority : Z) : ST dsl nat :=
  σ ← get_state;
  j ← construct (new_job FileJob targets deps desc priority
                   (default (dsl_use_hash σ) use_hash) serial);
  σ ← get_state;
  _ ← put_state (set_jobs σ ({[j]} ∪ jobs σ));
  mret j.

(** [DSL.phony(target, deps, ...)] with [cut=False]; the list [[target]]
    has one element, so [_PhonyJob.__init__] does not raise. *)
Definition phony (target : string) (deps : list string) (desc : option string)
    (priority : Z) : ST dsl nat :=
  j ← construct (new_job PhonyJob [target] deps desc priority false false);
  σ ← get_state;
  _ ← put_state (set_jobs σ ({[j]} ∪ jobs σ));
  mret j.

(** [j(f)]: [_Job.__call__] and the setter of [f]. *)
Definition decorate (j : nat) (fn : action) : ST dsl nat := fun σ =>
  match job_objs σ !! j with
  | None => (σ, Raise KeyError)
  | Some jb =>
      match _f jb with
      | None => (set_job_objs σ (<[j := set_f jb fn]> (job_objs σ)), Ok j)
      | Some g =>
          if decide (g = fn) then (σ, Ok j)
          else (σ, Raise (Err MsgOverwritten))
      end
  end.

(** *** Staleness, cleanup and the walk of [invoke]

    The modules [resource] and [_convenience] are not among the sources:
    the adapters and [uriparse] are parameters, and an adapter works on a
    state [R] of its own. *)
Record adapter (R : Type) := {
  a_rm : string -> pyval -> ST R unit;                 (* rm(uri, credential) *)
  a_mtime_of : string -> pyval -> bool -> ST R Z;      (* mtime_of(uri, credential, use_hash) *)
}.
Arguments a_rm {R} _ _ _.
Arguments a_mtime_of {R} _ _ _ _.

Record env (R : Type) := {
  uriparse : string -> result URI;                     (* DSL.uriparse *)
  of_scheme : string -> option (adapter R);            (* resource.of_scheme *)
  set_iter : gset string -> list string;               (* [for x in a_set] *)
}.
Arguments uriparse {R} _ _.
Arguments of_scheme {R} _ _.
Arguments set_iter {R} _ _.

(** The state of the sequential code: the [DSL] object, the resources, and
    the calls of [rm] made so far, the latest first. *)
Record world (R : Type) := {
  w_dsl : dsl;
  w_res : R;
  w_log : list event;
}.
Arguments w_dsl {R} _.
Arguments w_res {R} _.
Arguments w_log {R} _.

Section Sequential.
Context {R : Type}.
Variable E : env R.

Definition on_dsl {A} (m : ST dsl A) : ST (world R) A := fun w =>
  let '(σ, r) := m (w_dsl w) in
  ({| w_dsl := σ; w_res := w_res w; w_log := w_log w |}, r).
Definition on_res {A} (m : ST R A) : ST (world R) A := fun w =>
  let '(x, r) := m (w_res w) in
  ({| w_dsl := w_dsl w; w_res := x; w_log := w_log w |}, r).
Definition log (e : event) : ST (world R) unit := fun w =>
  ({| w_dsl := w_dsl w; w_res := w_res w; w_log := e :: w_log w |}, Ok ()).

(** [self.metadata[uri]]. *)
Definition metadata_getitem (uri : string) : ST dsl (gmap string pyval) :=
  fun σ =>
    let '(tbl, m) := TDefaultDict_getitem (metadata σ) uri in
    (set_metadata σ tbl, Ok m).

Definition assert (b : bool) : result unit :=
  if b then Ok () else Raise AssertionError.

(** [DSL.rm(uri)]. *)
Definition rm (uri : string) : ST (world R) unit :=
  puri ← lift (uriparse E uri);
  meta ← on_dsl (metadata_getitem uri);
  let credential := default VNone (meta !! "credential") in
  _ ← lift (if decide (scheme puri = "file")
            then assert (bool_decide (netloc puri = "localhost"))
            else Ok ());
  match of_scheme E (scheme puri) with
  | Some a => on_res (a_rm a uri credential)
  | None => lift (Raise NotImplementedError)
  end.

(** [("keep" in meta) and meta["keep"]]. *)
Definition keeps (meta : gmap string pyval) : bool :=
  match meta !! "keep" with
  | Some v => truthy v
  | None => false
  end.

(** One turn of the loop of [_FileJob.rm_targets], for the target [t]
    of the job [j]. *)
Definition try_rm (t : string) : ST (world R) unit := fun w =>
  match rm t w with
  | (w1, Raise e) => if is_missing e then (w1, Ok ()) else (w1, Raise e)
  | (w1, Ok _) => (w1, Ok ())
  end.

Definition rm_target (j : nat) (t : string) : ST (world R) unit :=
  meta ← on_dsl (metadata_getitem t);
  if keeps meta then mret ()
  else _ ← log (EvRm j t); try_rm t.

Fixpoint rm_each (j : nat) (ts : list string) : ST (world R) unit :=
  match ts with
  | [] => mret ()
  | t :: rest => _ ← rm_target j t; rm_each j rest
  end.

(** [_FileJob.rm_targets]; [_Job.rm_targets] does nothing. *)
Definition rm_targets (j : nat) : ST (world R) unit :=
  w ← get_state;
  match job_objs (w_dsl w) !! j with
  | None => lift (Raise KeyError)
  | Some jb =>
      match kind jb with
      | FileJob => rm_each j (set_iter E (ts_unique jb))
      | PhonyJob => mret ()
      end
  end.

(** [mtime_of(uri, use_hash, credential)]. *)
Definition mtime_of (uri : string) (use_hash : bool) (credential : pyval)
    : ST (world R) Z :=
  puri ← lift (uriparse E uri);
  _ ← lift (if decide (scheme puri = "file")
            then assert (bool_decide (netloc puri = "localhost"))
            else Ok ());
  match of_scheme E (scheme puri) with
  | Some a => on_res (a_mtime_of a uri credential use_hash)
  | None => lift (Raise NotImplementedError)
  end.

(** [_FileJob._credential_of]. *)
Definition _credential_of (uri : string) : ST (world R) pyval :=
  meta ← on_dsl (metadata_getitem uri);
  mret (default VNone (meta !! "credential")).

(** Modelled from the spec: [_tval.Cache.get(k, make_val)], whose module
    is not among the sources.  The spec: "An in-memory, per-run
    time-of-dep cache memoizes the oracle's answer per URI; repeated
    lookups within one run do not re-hash." *)
Definition Cache_get (k : string) (make_val : ST (world R) Z)
    : ST (world R) Z :=
  w ← get_state;
  match time_of_dep_cache (w_dsl w) !! k with
  | Some v => mret v
  | None =>
      val ← make_val;
      _ ← on_dsl (fun σ =>
             (set_time_of_dep_cache σ (<[k := val]> (time_of_dep_cache σ)),
              Ok ()));
      mret val
  end.

(** [_FileJob._time_of_dep_from_cache]. *)
Definition _time_of_dep_from_cache (jb : job) (d : string) : ST (world R) Z :=
  credential ← _credential_of d;
  Cache_get d (mtime_of d (_use_hash jb) credential).

Definition probe_target (t : string) : ST (world R) Z :=
  credential ← _credential_of t;
  mtime_of t false credential.

(** [_FileJob._need_update]. *)
Definition _need_update (jb : job) : ST (world R) bool :=
  need_update_body probe_target (_time_of_dep_from_cache jb)
    (set_iter E (ts_unique jb)) (set_iter E (ds_unique jb)).

(** The loop of [_FileJob.need_update] under [dry_run]: [true] when it
    returns from inside the loop. *)
Fixpoint dep_executed (σ : dsl) (deps : list string) : bool :=
  match deps with
  | [] => false
  | d :: rest =>
      match job_of_target σ !! d with
      | Some c =>
          match job_objs σ !! c with
          | Some cb => if executed cb then true else dep_executed σ rest
          | None => dep_executed σ rest
          end
      | None => dep_executed σ rest                    (* KeyError: pass *)
      end
  end.

(** [need_update]: [_Job.need_update] for a phony job, otherwise
    [_FileJob.need_update]. *)
Definition need_update (jb : job) : ST (world R) bool :=
  match kind jb with
  | PhonyJob => mret true
  | FileJob =>
      w ← get_state;
      if dry_run (w_dsl w) && dep_executed (w_dsl w) (set_iter E (ds_unique jb))
      then mret true
      else _need_update jb
  end.

(** [_Task.__lt__], on the tasks of two jobs; the priority of a task is
    the priority of its job. *)
Definition task_lt (σ : dsl) (a b : nat) : bool :=
  match job_objs σ !! a, job_objs σ !! b with
  | Some ja, Some jb => __lt__ ja jb
  | _, _ => false
  end.

(** [_Task.put]: [self._ctx.queue.put(self)]. *)
Definition task_put (t : nat) : ST dsl unit := fun σ =>
  (set_ctx_queue σ (Heapq.put (task_lt σ) (ctx_queue σ) t), Ok ()).

(** [_Task(self.dsl.task_context, task_of_invoke, data=self, ...)]. *)
Definition new_task (children : list nat) : task :=
  {| children := children; pc := AtWait 0; waited := []; t_done := false;
     error := None |}.

(** [self.dsl.job_of_target[d]], and the [except KeyError] branch of
    [invoke] that declares a job for [d]. *)
Definition child_of (d : string) : ST dsl nat :=
  σ ← get_state;
  match job_of_target σ !! d with
  | Some child => mret child
  | None =>
      u ← meta d [("keep", VBool true)];
      j ← file [u] [] None None false 0;
      _ ← decorate j (ActNoRule d);
      σ ← get_state;
      match job_of_target σ !! d with
      | Some child => mret child
      | None => lift (Raise KeyError)
      end
  end.

(** The loop [for d in self.ds_unique] of [invoke], which builds
    [children]; [rec] is the call [child.invoke(cc)]. *)
Fixpoint invoke_children (rec : nat -> ST dsl nat) (deps : list string)
    : ST dsl (list nat) :=
  match deps with
  | [] => mret []
  | d :: deps' =>
      child ← child_of d;
      c ← rec child;
      rest ← invoke_children rec deps';
      mret (c :: rest)
  end.

(** [_Job.invoke(call_chain)]; [fuel] is the depth of recursion that the
    interpreter allows. *)
Fixpoint invoke (fuel : nat) (self : nat) (call_chain : list nat)
    : ST dsl nat :=
  match fuel with
  | O => lift (Raise RecursionError)
  | S fuel' =>
      if decide (self ∈ call_chain) then
        lift (Raise (Err (MsgCircularJob self call_chain)))
      else
        σ ← get_state;
        match job_objs σ !! self with
        | None => lift (Raise KeyError)
        | Some jb =>
            match jtask jb with
            | Some _ => mret self
            | None =>
                let cc := self :: call_chain in
                children ←
                  invoke_children (fun child => invoke fuel' child cc)
                    (set_iter E (ds_unique jb));
                σ ← get_state;
                _ ← put_state
                      (set_job_objs σ
                         (alter (fun jb => set_task jb (Some (new_task children)))
                            self (job_objs σ)));
                _ ← task_put self;
                mret self
            end
        end
  end.
End Sequential.

(** *** The coordinator and the worker pool as a transition system

    Three kinds of thread run at once: the main thread, which walks the
    graph and creates the tasks; the thread of [_TaskContext], which steps
    the tasks; the threads of [_ThreadPool], which run the jobs.  A step of
    the system is a step of one of them, between two accesses to what they
    share.  What the world answers (does the action raise, is the target
    stale, is the load high) comes with the step. *)

(** [_ThreadPool]. *)
Record pool := {
  deferred_errors : list nat;
  _keep_going : bool;
  _n_max : nat;
  _load_average_finite : bool;       (* math.isfinite(self._load_average) *)
  _threads : gset nat;
  _unwaited_threads : gset nat;
  _queue : list nat;
  _serial_queue : list nat;
  _serial_queue_lock : nat;          (* the value of the semaphore *)
  _n_running : Z;
  stop : bool;
}.

Definition pool_init (keep_going : bool) (n_max n_serial_max : nat)
    (load_average_finite : bool) : pool :=
  {| deferred_errors := []; _keep_going := keep_going; _n_max := n_max;
     _load_average_finite := load_average_finite; _threads := ∅;
     _unwaited_threads := ∅; _queue := []; _serial_queue := [];
     _serial_queue_lock := n_serial_max; _n_running := 0; stop := false |}.

Definition set_deferred_errors (p : pool) x : pool :=
  {| deferred_errors := x; _keep_going := _keep_going p; _n_max := _n_max p;
     _load_average_finite := _load_average_finite p; _threads := _threads p;
     _unwaited_threads := _unwaited_threads p; _queue := _queue p;
     _serial_queue := _serial_queue p;
     _serial_queue_lock := _serial_queue_lock p; _n_running := _n_running p;
     stop := stop p |}.
Definition set_threads (p : pool) x y : pool :=
  {| deferred_errors := deferred_errors p; _keep_going := _keep_going p;
     _n_max := _n_max p; _load_average_finite := _load_average_finite p;
     _threads := x; _unwaited_threads := y; _queue := _queue p;
     _serial_queue := _serial_queue p;
     _serial_queue_lock := _serial_queue_lock p; _n_running := _n_running p;
     stop := stop p |}.
Definition set_queue (p : pool) x : pool :=
  {| deferred_errors := deferred_errors p; _keep_going := _keep_going p;
     _n_max := _n_max p; _load_average_finite := _load_average_finite p;
     _threads := _threads p; _unwaited_threads := _unwaited_threads p;
     _queue := x; _serial_queue := _serial_queue p;
     _serial_queue_lock := _serial_queue_lock p; _n_running := _n_running p;
     stop := stop p |}.
Definition set_serial_queue (p : pool) x : pool :=
  {| deferred_errors := deferred_errors p; _keep_going := _keep_going p;
     _n_max := _n_max p; _load_average_finite := _load_average_finite p;
     _threads := _threads p; _unwaited_threads := _unwaited_threads p;
     _queue := _queue p; _serial_queue := x;
     _serial_queue_lock := _serial_queue_lock p; _n_running := _n_running p;
     stop := stop p |}.
Definition set_serial_queue_lock (p : pool) x : pool :=
  {| deferred_errors := deferred_errors p; _keep_going := _keep_going p;
     _n_max := _n_max p; _load_average_finite := _load_average_finite p;
     _threads := _threads p; _unwaited_threads := _unwaited_threads p;
     _queue := _queue p; _serial_queue := _serial_queue p;
     _serial_queue_lock := x; _n_running := _n_running p; stop := stop p |}.
Definition set_n_running (p : pool) x : pool :=
  {| deferred_errors := deferred_errors p; _keep_going := _keep_going p;
     _n_max := _n_max p; _load_average_finite := _load_average_finite p;
     _threads := _threads p; _unwaited_threads := _unwaited_threads p;
     _queue := _queue p; _serial_queue := _serial_queue p;
     _serial_queue_lock := _serial_queue_lock p; _n_running := x;
     stop := stop p |}.
Definition set_stop (p : pool) : pool :=
  {| deferred_errors := deferred_errors p; _keep_going := _keep_going p;
     _n_max := _n_max p; _load_average_finite := _load_average_finite p;
     _threads := _threads p; _unwaited_threads := _unwaited_threads p;
     _queue := _queue p; _serial_queue := _serial_queue p;
     _serial_queue_lock := _serial_queue_lock p; _n_running := _n_running p;
     stop := true |}.

(** Where a thread of [_ThreadPool._worker] stands; the job it holds. *)
Inductive worker_pc :=
| WTop                       (* [if self.stop: break] *)
| WSerial                    (* has a serial slot: [_serial_queue.get(block=False)] *)
| WGeneral                   (* [_queue.get(block=True, timeout=0.01)] *)
| WNeedUpdate (j : nat)      (* [if j.need_update():] *)
| WSkip (j : nat)            (* the [else]: [j.successed = True] *)
| WGate (j : nat)            (* the load-average loop, then [_n_running.inc()] *)
| WExecute (j : nat)         (* [j.execute()], up to the call of the action *)
| WRunning (j : nat)         (* inside [self.f(self)] *)
| WSetExecuted (j : nat)     (* [j.executed = True] *)
| WSetSuccessed (j : nat)    (* [j.successed = True] *)
| WRmTargets (j : nat) (rest : list string)   (* inside [j.rm_targets()] *)
| WAfterRm (j : nat)         (* [if self._keep_going:] *)
| WDec (j : nat)             (* [self._n_running.dec()] *)
| WDoneSet (j : nat)         (* [j.done.set()] *)
| WTaskPut (j : nat)         (* [j.task.put()] *)
| WRelease (j : nat)         (* [if j.serial: ... release()] *)
| WLeave                     (* after [break] *)
| WExited.                   (* the thread has returned *)

(** Where the thread of [_TaskContext._loop] stands. *)
Inductive coord_pc :=
| CIdle                      (* [while not self.stop: task = self.queue.get()] *)
| CNext (t : nat)            (* inside [next(task)] *)
| CExited.

Record sys := {
  s_dsl : dsl;
  ctx_stop : bool;                  (* task_context.stop *)
  coord : coord_pc;
  thread_pool : pool;
  workers : list worker_pc;         (* a thread is its index *)
  trace : list event;               (* the latest event first *)
}.

Definition with_dsl (s : sys) σ : sys :=
  {| s_dsl := σ; ctx_stop := ctx_stop s; coord := coord s;
     thread_pool := thread_pool s; workers := workers s; trace := trace s |}.
Definition with_ctx_stop (s : sys) : sys :=
  {| s_dsl := s_dsl s; ctx_stop := true; coord := coord s;
     thread_pool := thread_pool s; workers := workers s; trace := trace s |}.
Definition with_coord (s : sys) c : sys :=
  {| s_dsl := s_dsl s; ctx_stop := ctx_stop s; coord := c;
     thread_pool := thread_pool s; workers := workers s; trace := trace s |}.
Definition with_pool (s : sys) p : sys :=
  {| s_dsl := s_dsl s; ctx_stop := ctx_stop s; coord := coord s;
     thread_pool := p; workers := workers s; trace := trace s |}.
Definition with_workers (s : sys) ws : sys :=
  {| s_dsl := s_dsl s; ctx_stop := ctx_stop s; coord := coord s;
     thread_pool := thread_pool s; workers := ws; trace := trace s |}.
Definition emit (s : sys) (e : event) : sys :=
  {| s_dsl := s_dsl s; ctx_stop := ctx_stop s; coord := coord s;
     thread_pool := thread_pool s; workers := workers s;
     trace := e :: trace s |}.

(** What the world answers to the step that asks. *)
Inductive answer := Yes | No | Fails.

#[global] Instance answer_eq_dec : EqDecision answer.
Proof. solve_decision. Defined.

Inductive label :=
| LChild (d : string)                (* main thread: a job is looked up or declared for [d] *)
| LTask (j : nat) (cs : list nat)    (* main thread: the task of [j] is created and put *)
| LCoord (a : answer)                (* the coordinator thread moves *)
| LWorker (w : nat) (a : answer).    (* the worker thread [w] moves *)

Section System.
Context {R : Type}.
Variable E : env R.

Definition job_of (s : sys) (j : nat) : option job := job_objs (s_dsl s) !! j.
Definition task_of (s : sys) (j : nat) : option task :=
  jb ← job_of s j; jtask jb.

Definition upd_job (s : sys) (j : nat) (g : job -> job) : sys :=
  with_dsl s (set_job_objs (s_dsl s) (alter g j (job_objs (s_dsl s)))).
Definition upd_task (s : sys) (j : nat) (g : task -> task) : sys :=
  upd_job s j (fun jb => set_task jb (g <$> jtask jb)).

Definition set_pc (t : task) (p : gen_pc) : task :=
  {| children := children t; pc := p; waited := waited t;
     t_done := t_done t; error := error t |}.
Definition set_waited (t : task) (ws : list nat) : task :=
  {| children := children t; pc := pc t; waited := ws;
     t_done := t_done t; error := error t |}.
(** The generator is over: [self.done.set()] of [_Task.__next__]. *)
Definition set_t_done (t : task) (e : option exn) : task :=
  {| children := children t; pc := Finished; waited := waited t;
     t_done := true; error := e |}.

(** [_Job.__lt__], on two jobs of the store. *)
Definition job_lt (s : sys) (a b : nat) : bool := task_lt (s_dsl s) a b.

(** [task.put()] for the task of [t]. *)
Definition ctx_put (s : sys) (t : nat) : sys :=
  with_dsl s (set_ctx_queue (s_dsl s)
                (Heapq.put (job_lt s) (ctx_queue (s_dsl s)) t)).

(** [_Task._put_waited] of the task of [c]: every waiting task is put
    back, in the order in which they came. *)
Fixpoint put_each (s : sys) (c : nat) (ps : list nat) : sys :=
  match ps with
  | [] => s
  | p :: rest => put_each (emit (ctx_put s p) (EvRequeue p c)) c rest
  end.
Definition _put_waited (s : sys) (c : nat) : sys :=
  match task_of s c with
  | Some t => put_each (upd_task s c (fun t => set_waited t [])) c (waited t)
  | None => s
  end.

(** [StopIteration] leaves the generator of [t]: the branch
    [except StopIteration] of [_Task.__next__], and the loop goes on. *)
Definition finish_task (s : sys) (t : nat) : sys :=
  with_coord (_put_waited (upd_task s t (fun tk => set_t_done tk None)) t)
    CIdle.

(** [_ThreadPool._die] with the hook [DSL._cleaup]. *)
Definition _die (s : sys) : sys :=
  with_pool (with_ctx_stop (emit s EvDie)) (set_stop (thread_pool s)).

(** [_ThreadPool.push_job(j)]; [a] is [Yes] when the load average is at
    most [self._load_average]. *)
Definition push_job (s : sys) (j : nat) (a : answer) : sys :=
  let p := thread_pool s in
  if stop p then s
  else
    let serial_j := default false (serial <$> job_of s j) in
    let p :=
      if serial_j
      then set_serial_queue p (Heapq.put (job_lt s) (_serial_queue p) j)
      else set_queue p (Heapq.put (job_lt s) (_queue p) j) in
    let s := emit (with_pool s p) (EvEnq j) in
    if bool_decide (size (_threads p) < 1)%nat
       || (bool_decide (size (_threads p) < _n_max p)%nat
           && bool_decide (a = Yes))
    then
      let t := length (workers s) in
      with_pool (with_workers s (workers s ++ [WTop]))
        (set_threads p ({[t]} ∪ _threads p) ({[t]} ∪ _unwaited_threads p))
    else s.

(** One step of the coordinator thread. *)
Definition coord_step (a : answer) (s : sys) : option sys :=
  match coord s with
  | CExited => None
  | CIdle =>
      if ctx_stop s then Some (with_coord s CExited)
      else
        match Heapq.get (job_lt s) (ctx_queue (s_dsl s)) with
        | None => None                                  (* blocked *)
        | Some (t, q) =>
            Some (with_coord (with_dsl s (set_ctx_queue (s_dsl s) q)) (CNext t))
        end
  | CNext t =>
      match task_of s t with
      | None => Some (with_coord s CExited)             (* no such task *)
      | Some tk =>
          if t_done tk then Some (with_coord s CIdle)   (* raise StopIteration *)
          else
            match pc tk with
            | AtWait i =>
                match children tk !! i with
                | None => Some (upd_task s t (fun tk => set_pc tk (AtAll 0)))
                | Some c =>
                    match task_of s c with
                    | None =>                           (* child.task is None *)
                        Some (with_coord
                                (upd_task s t (fun tk => set_t_done tk (Some OtherException)))
                                CExited)
                    | Some ck =>
                        let s := upd_task s t (fun tk => set_pc tk (AtWait (S i))) in
                        if t_done ck then
                          (* yield False: the loop puts the task back *)
                          Some (with_coord (ctx_put s t) CIdle)
                        else
                          (* child.waited.put(self); yield self *)
                          Some (with_coord
                                  (upd_task s c (fun ck => set_waited ck (waited ck ++ [t])))
                                  CIdle)
                    end
                end
            | AtAll i =>
                match children tk !! i with
                | None => Some (upd_task s t (fun tk => set_pc tk AtEnq))
                | Some c =>
                    match job_of s c with
                    | None => Some (with_coord s CExited)
                    | Some cb =>
                        if successed cb
                        then Some (upd_task s t (fun tk => set_pc tk (AtAll (S i))))
                        else Some (upd_task s t (fun tk => set_pc tk AtDoneSet))
                    end
                end
            | AtEnq =>
                (* yield self._enq() *)
                Some (with_coord
                        (upd_task (push_job s t a) t (fun tk => set_pc tk AtAssert))
                        CIdle)
            | AtAssert =>
                match job_of s t with
                | None => Some (with_coord s CExited)
                | Some jb =>
                    if done jb then Some (finish_task s t)
                    else
                      Some (with_coord
                              (upd_task s t (fun tk => set_t_done tk (Some AssertionError)))
                              CExited)
                end
            | AtDoneSet =>
                Some (finish_task (emit (upd_job s t set_done) (EvDoneSet t)) t)
            | Finished => Some (with_coord s CIdle)
            end
      end
  end.

Definition set_worker (s : sys) (w : nat) (p : worker_pc) : sys :=
  with_workers s (<[w := p]> (workers s)).

(** The handler [except Exception] around the loop of [_worker]. *)
Definition worker_dies (s : sys) (w : nat) : sys :=
  set_worker (_die s) w WExited.

(** One step of the worker thread [w]. *)
Definition worker_step (w : nat) (a : answer) (s : sys) : option sys :=
  let p := thread_pool s in
  match workers s !! w with
  | None => None
  | Some WExited => None
  | Some WTop =>
      if stop p then Some (set_worker s w WLeave)
      else
        match _serial_queue_lock p with
        | S n =>
            Some (set_worker (with_pool s (set_serial_queue_lock p n)) w WSerial)
        | O => Some (set_worker s w WGeneral)
        end
  | Some WSerial =>
      match Heapq.get (job_lt s) (_serial_queue p) with
      | Some (j, q) =>
          let s := with_pool s (set_serial_queue p q) in
          if default false (serial <$> job_of s j)
          then Some (set_worker s w (WNeedUpdate j))
          else Some (worker_dies s w)                  (* assert j.serial *)
      | None =>
          Some (set_worker
                  (with_pool s (set_serial_queue_lock p (S (_serial_queue_lock p))))
                  w WGeneral)
      end
  | Some WGeneral =>
      match Heapq.get (job_lt s) (_queue p) with
      | Some (j, q) =>
          Some (set_worker (with_pool s (set_queue p q)) w (WNeedUpdate j))
      | None => Some (set_worker s w WLeave)           (* queue.Empty: break *)
      end
  | Some (WNeedUpdate j) =>
      match a with
      | Yes => Some (set_worker s w (WGate j))
      | No => Some (set_worker s w (WSkip j))
      | Fails => Some (worker_dies s w)
      end
  | Some (WSkip j) =>
      Some (set_worker (upd_job s j set_successed) w (WDoneSet j))
  | Some (WGate j) =>
      if bool_decide (_n_running p < 0) then Some (worker_dies s w)
      else if _load_average_finite p && bool_decide (0 < _n_running p)
              && bool_decide (a = Yes)
      then Some s                                       (* time.sleep(1) *)
      else
        Some (set_worker (with_pool s (set_n_running p (_n_running p + 1)))
                w (WExecute j))
  | Some (WExecute j) =>
      match job_of s j with
      | None => Some (worker_dies s w)
      | Some jb =>
          if done jb then                               (* assert not done *)
            Some (set_worker (emit s (EvRaised j)) w
                    (WRmTargets j
                       (match kind jb with
                        | FileJob => set_iter E (ts_unique jb)
                        | PhonyJob => []
                        end)))
          else if dry_run (s_dsl s) then
            Some (set_worker s w (WSetExecuted j))      (* self.write() *)
          else Some (set_worker (emit s (EvAction j)) w (WRunning j))
      end
  | Some (WRunning j) =>
      match job_of s j with
      | None => Some (worker_dies s w)
      | Some jb =>
          match a with
          | Yes => Some (set_worker s w (WSetExecuted j))
          | _ =>
              Some (set_worker (emit s (EvRaised j)) w
                      (WRmTargets j
                         (match kind jb with
                          | FileJob => set_iter E (ts_unique jb)
                          | PhonyJob => []
                          end)))
          end
      end
  | Some (WSetExecuted j) =>
      Some (set_worker (upd_job s j set_executed) w (WSetSuccessed j))
  | Some (WSetSuccessed j) =>
      Some (set_worker (upd_job s j set_successed) w (WDec j))
  | Some (WRmTargets j []) => Some (set_worker s w (WAfterRm j))
  | Some (WRmTargets j (t :: rest)) =>
      let '(σ, r) := metadata_getitem t (s_dsl s) in
      let s := with_dsl s σ in
      match r with
      | Raise _ => Some (worker_dies s w)
      | Ok meta =>
          if keeps meta
          then Some (set_worker (emit s (EvKeep j t)) w (WRmTargets j rest))
          else
            let s := emit s (EvRm j t) in
            match a with
            | Fails => Some (worker_dies s w)           (* not caught *)
            | _ => Some (set_worker s w (WRmTargets j rest))
            end
      end
  | Some (WAfterRm j) =>
      if _keep_going p then
        Some (set_worker
                (emit (with_pool s (set_deferred_errors p (deferred_errors p ++ [j])))
                   (EvDefer j))
                w (WDec j))
      else Some (set_worker (_die s) w (WDec j))
  | Some (WDec j) =>
      Some (set_worker (with_pool s (set_n_running p (_n_running p - 1)))
              w (WDoneSet j))
  | Some (WDoneSet j) =>
      Some (set_worker (emit (upd_job s j set_done) (EvDoneSet j)) w (WTaskPut j))
  | Some (WTaskPut j) =>
      match task_of s j with
      | None => Some (worker_dies s w)
      | Some _ => Some (set_worker (emit (ctx_put s j) (EvTaskPut j)) w (WRelease j))
      end
  | Some (WRelease j) =>
      if default false (serial <$> job_of s j) then
        Some (set_worker
                (with_pool s (set_serial_queue_lock p (S (_serial_queue_lock p))))
                w WTop)
      else Some (set_worker s w WTop)
  | Some WLeave =>
      Some (set_worker
              (with_pool s (set_threads p (_threads p ∖ {[w]})
                              (_unwaited_threads p ∖ {[w]})))
              w WExited)
  end.

(** The main thread, inside [invoke]: the end of the [with self.lock]
    block for the job [j].  Its children [cs], the jobs that the deps of
    [j] are bound to, have all been invoked: each has a task. *)
Definition main_task (j : nat) (cs : list nat) (s : sys) : option sys :=
  match job_of s j with
  | None => None
  | Some jb =>
      match jtask jb with
      | Some _ => None
      | None =>
          if bool_decide
               (mapM (fun d => job_of_target (s_dsl s) !! d)
                  (set_iter E (ds_unique jb)) = Some cs)
             && forallb (fun c => bool_decide (is_Some (task_of s c))) cs
          then
            Some (ctx_put (upd_job s j (fun jb => set_task jb (Some (new_task cs)))) j)
          else None
      end
  end.

(** The main thread, inside the loop of [invoke]: [child_of]. *)
Definition main_child (d : string) (s : sys) : option sys :=
  match child_of d (s_dsl s) with
  | (σ, Ok _) => Some (with_dsl s σ)
  | (_, Raise _) => None
  end.

Definition step_of (l : label) (s : sys) : option sys :=
  match l with
  | LChild d => main_child d s
  | LTask j cs => main_task j cs s
  | LCoord a => coord_step a s
  | LWorker w a => worker_step w a s
  end.

Definition step (s s' : sys) : Prop := exists l, step_of l s = Some s'.

(** A run is a sequence of steps. *)
Fixpoint run (ls : list label) (s : sys) : option sys :=
  match ls with
  | [] => Some s
  | l :: ls' => s' ← step_of l s; run ls' s'
  end.

(** Where a run starts: the jobs are declared, none has a task, a flag
    set, or a place in a queue, and no worker thread exists yet. *)
Definition sys_init (σ : dsl) (keep_going : bool) (n_max n_serial_max : nat)
    (load_average_finite : bool) : sys :=
  {| s_dsl := σ; ctx_stop := false; coord := CIdle;
     thread_pool := pool_init keep_going n_max n_serial_max load_average_finite;
     workers := []; trace := [] |}.
End System.

End VX.

(** ** Deduplication: the words of the statements *)

(** The position of the first occurrence of [x] in [l]. *)
Fixpoint first_index (x : string) (l : list string) : option nat :=
  match l with
  | [] => None
  | y :: l' => if decide (y = x) then Some 0%nat else S <$> first_index x l'
  end.

(** What the loop adds to [ret], as a function of what it has seen. *)
Fixpoint fresh_of (seen : gset string) (xs : list string) : list string :=
  match xs with
  | [] => []
  | x :: xs' =>
      if decide (x ∈ seen) then fresh_of seen xs'
      else x :: fresh_of ({[x]} ∪ seen) xs'
  end.

(** The order in which a set is iterated is a list without duplicates of
    its elements; nothing else is known of it. *)
Definition set_iter_ok {R} (E : VX.env R) : Prop :=
  forall X : gset string,
    NoDup (VX.set_iter E X) ∧ forall x, x ∈ VX.set_iter E X <-> x ∈ X.

(** An environment for the examples: every URI is a local file, no
    adapter is registered, and a set is iterated as [elements] lists it. *)
Definition E_elements : VX.env unit :=
  {| VX.uriparse := fun s =>
       Ok {| scheme := "file"; netloc := "localhost"; path := s;
             params := ""; query := ""; fragment := "" |};
     VX.of_scheme := fun _ => None;
     VX.set_iter := elements |}.

(** ** A local file system for the examples

    The resources are the files that exist, with their modification
    times; the only adapter is the one of the scheme [file]. *)
Definition local_adapter : VX.adapter (gmap string Z) :=
  {| VX.a_rm := fun uri _ fs =>
       match fs !! uri with
       | Some _ => (delete uri fs, Ok ())
       | None => (fs, Raise OSError)
       end;
     VX.a_mtime_of := fun uri _ _ fs =>
       match fs !! uri with
       | Some t => (fs, Ok t)
       | None => (fs, Raise OSError)
       end |}.

Definition E_local : VX.env (gmap string Z) :=
  {| VX.uriparse := fun s =>
       Ok {| scheme := "file"; netloc := "localhost"; path := s;
             params := ""; query := ""; fragment := "" |};
     VX.of_scheme := fun sch =>
       if decide (sch = "file") then Some local_adapter else None;
     VX.set_iter := elements |}.

(** The options of [uri] as the code reads them: a URI without an entry
    reads as one with no option. *)
Definition options_of (tbl : gmap string (gmap string pyval)) (uri : string)
    : gmap string pyval :=
  default ∅ (tbl !! uri).

(** ** Staleness: the words of the statements *)

Definition is_max_of (m : Z) (l : list Z) : Prop :=
  m ∈ l ∧ forall x, x ∈ l -> x <= m.
Definition is_min_of (m : Z) (l : list Z) : Prop :=
  m ∈ l ∧ forall x, x ∈ l -> m <= x.

(** The rule of the spec, on what the probes of the targets gave ([rt]:
    their times, or the exception that ended the probing) and on the times
    [ld] that the oracle gave for the deps. *)
Definition stale (rt : result (list Z)) (ld : list Z) : Prop :=
  (exists e, rt = Raise e) ∨
  (exists lt m t, rt = Ok lt ∧ is_max_of m ld ∧ is_min_of t lt ∧ m > t).

(** A v4 world for the examples: local files only, given with their
    modification times and digests. *)
Definition E4_local (fs : gmap string (Z * string)) (now : Z) : V4.env :=
  {| V4.urlparse := fun s =>
       {| scheme := ""; netloc := ""; path := s;
          params := ""; query := ""; fragment := "" |};
     V4.CACHE_DIR := ".cache/buildpy";
     V4.jp := fun d l => foldl (fun a b => a +:+ "/" +:+ b) d l;
     V4.abspath := fun s => s;
     V4.getmtime := fun p =>
       match fs !! p with Some (t, _) => Ok t | None => Raise OSError end;
     V4.lexists := fun p => bool_decide (is_Some (fs !! p));
     V4._hash_of_path := fun p =>
       match fs !! p with Some (_, h) => Ok h | None => Raise OSError end;
     V4.gs_get_blob := fun _ _ _ => Raise OtherException;
     V4.bq_get_table := fun _ _ => Raise OtherException;
     V4.time_time := now |}.

Definition w4_empty : V4.world :=
  {| V4.meta_tbl := ∅; V4.time_of_dep_cache := ∅; V4.cache_files := ∅ |}.

(** ** The hash-time cache: the words of the statements *)

(** [cache_path] of [_min_of_t_uri_and_t_cache]. *)
Definition cache_path_of (E : V4.env) (puri : URI) : string :=
  V4.jp E (V4.CACHE_DIR E)
    [scheme puri; netloc puri; V4.abspath E (path puri)].

(** The parsed form of a path for [E4_local]. *)
Definition local_uri (p : string) : URI :=
  {| scheme := "file"; netloc := "localhost"; path := p;
     params := ""; query := ""; fragment := "" |}.

(** The dep ["d"], last changed at 10 with digest ["h"], and the record
    that the first run left at time 20. *)
Definition w4_cached : V4.world :=
  {| V4.meta_tbl := ∅; V4.time_of_dep_cache := ∅;
     V4.cache_files :=
       {[ cache_path_of (E4_local ∅ 0) (local_uri "d") :=
            {| V4.st_mtime := 20; V4.content := Ok (10, "h") |} ]} |}.

(** ** The priority queue: the words of the statements *)

(** The list is ordered as a heap: no item is below its parent. *)
Definition heap_ok {A} (key : A -> Z) (h : list A) : Prop :=
  forall (i : nat) x y, (0 < i)%nat ->
    h !! i = Some x -> h !! ((i - 1) / 2)%nat = Some y -> key y <= key x.

(** The lists that a [PriorityQueue] can hold: what [put] and [get] make
    of the empty list. *)
Inductive queue_of {A} (lt : A -> A -> bool) : list A -> Prop :=
| queue_empty : queue_of lt []
| queue_put q x : queue_of lt q -> queue_of lt (Heapq.put lt q x)
| queue_get q x q' :
    queue_of lt q -> Heapq.get lt q = Some (x, q') -> queue_of lt q'.

(** The heap property around a hole at [pos], whose content does not
    count: the items away from the hole are in order, and the children of
    the hole are not below its parent. *)
Definition hole {A} (key : A -> Z) (h : list A) (pos : nat) : Prop :=
  (pos < length h)%nat ∧
  (forall (i : nat) a b, (0 < i)%nat -> i ≠ pos -> ((i - 1) / 2)%nat ≠ pos ->
     h !! i = Some a -> h !! ((i - 1) / 2)%nat = Some b -> key b <= key a) ∧
  (forall (i : nat) a g, (0 < i)%nat -> ((i - 1) / 2)%nat = pos -> (0 < pos)%nat ->
     h !! i = Some a -> h !! ((pos - 1) / 2)%nat = Some g -> key g <= key a).

(** Four jobs of priority 0, to be put in this order. *)
Definition job_a := VX.new_job VX.FileJob ["a"] [] None 0 false false.
Definition job_b := VX.new_job VX.FileJob ["b"] [] None 0 false false.
Definition job_c := VX.new_job VX.FileJob ["c"] [] None 0 false false.
Definition job_d := VX.new_job VX.FileJob ["d"] [] None 0 false false.

(** ** The dependency graph: the words of the statements *)

(** In vx a job depends on the job that one of its deps is bound to. *)
Definition vx_edge (σ : VX.dsl) (j c : nat) : Prop :=
  exists jb d, VX.job_objs σ !! j = Some jb ∧ d ∈ VX.ds_unique jb ∧
               VX.job_of_target σ !! d = Some c.

Definition vx_tasked (σ : VX.dsl) (j : nat) : Prop :=
  exists jb t, VX.job_objs σ !! j = Some jb ∧ VX.jtask jb = Some t.

(** The declarations before a run: every binding of the job table is to
    a job of the store, and no job has a task. *)
Definition vx_declared (σ : VX.dsl) : Prop :=
  (forall t j, VX.job_of_target σ !! t = Some j ->
     (j < length (VX.job_objs σ))%nat) ∧
  (forall j, ~ vx_tasked σ j).

(** What the walk keeps true, from the declarations [σ0] on. *)
Record vx_inv (σ0 σ : VX.dsl) : Prop := {
  vi_old : forall j jb0, VX.job_objs σ0 !! j = Some jb0 ->
    exists jb, VX.job_objs σ !! j = Some jb ∧ VX.ds_unique jb = VX.ds_unique jb0;
  vi_new : forall j jb, (length (VX.job_objs σ0) <= j)%nat ->
    VX.job_objs σ !! j = Some jb -> VX.ds_unique jb = ∅;
  vi_bound : forall d c, VX.job_of_target σ !! d = Some c ->
    (c < length (VX.job_objs σ))%nat ∧
    ((c < length (VX.job_objs σ0))%nat -> VX.job_of_target σ0 !! d = Some c);
  vi_sub : VX.job_of_target σ0 ⊆ VX.job_of_target σ;
  vi_closed : forall j c, vx_tasked σ j -> vx_edge σ0 j c -> vx_tasked σ c;
  vi_acyclic : forall j, vx_tasked σ j -> ~ tc (vx_edge σ0) j j;
}.

(** The call chain is a path of the graph that ends in [j]. *)
Fixpoint chain_path (σ0 : VX.dsl) (cc : list nat) (j : nat) : Prop :=
  match cc with
  | [] => True
  | y :: cc' =>
      ((j < length (VX.job_objs σ0))%nat -> vx_edge σ0 y j) ∧ chain_path σ0 cc' y
  end.

(** The error of [invoke]: the job named lies on a cycle and is in the
    chain named. *)
Definition cycle_error (σ0 : VX.dsl) (e : exn) : Prop :=
  exists c chain, e = Err (MsgCircularJob c chain) ∧ c ∈ chain ∧
                  tc (vx_edge σ0) c c.

(** In v4 likewise, on the jobs of the table. *)
Definition v4_edge (σ : V4.dsl) (j c : nat) : Prop :=
  exists jb d, V4.jobs σ !! j = Some jb ∧ d ∈ V4.unique_ds jb ∧
               V4._job_of_target σ !! d = Some c.

Definition v4_visited (σ : V4.dsl) (j : nat) : Prop :=
  exists jb, V4.jobs σ !! j = Some jb ∧ V4.visited jb = true.

(** The declarations before a run in which a job has one target: a
    binding of the table is to a job of the store whose only target it
    is, and no job is marked. *)
Definition v4_declared (σ : V4.dsl) : Prop :=
  (forall t j, V4._job_of_target σ !! t = Some j ->
     exists jb, V4.jobs σ !! j = Some jb ∧ V4.ts jb = [t]) ∧
  (forall j, ~ v4_visited σ j).

(** The errors of [_make_graph] about a target without a job. *)
Definition leaf_error (e : exn) : Prop :=
  e = AssertionError ∨ (exists t, e = Err (MsgNetloc t)) ∨
  (exists t, e = Err (MsgNoRule t)) ∨
  (exists k old new, e = Err (MsgOverwriteMeta k old new)).

(** The cycle error of [_make_graph]: the target named is in the chain
    named and its job lies on a cycle. *)
Definition v4_cycle_error (σ0 : V4.dsl) (e : exn) : Prop :=
  exists t chain j, e = Err (MsgCircular t chain) ∧ t ∈ chain ∧
    V4._job_of_target σ0 !! t = Some j ∧ tc (v4_edge σ0) j j.

Definition v4_error (σ0 : V4.dsl) (e : exn) : Prop :=
  v4_cycle_error σ0 e ∨ leaf_error e.

(** A job is done with: it is marked and is the job of no target of the
    chain. *)
Definition v4_black (σ0 σ : V4.dsl) (cc : list string) (j : nat) : Prop :=
  v4_visited σ j ∧ forall t, t ∈ cc -> V4._job_of_target σ0 !! t ≠ Some j.

Record v4_inv (σ0 σ : V4.dsl) : Prop := {
  v4i_old : forall j jb0, V4.jobs σ0 !! j = Some jb0 ->
    exists jb, V4.jobs σ !! j = Some jb ∧ V4.unique_ds jb = V4.unique_ds jb0;
  v4i_new : forall j jb, (length (V4.jobs σ0) <= j)%nat ->
    V4.jobs σ !! j = Some jb -> V4.unique_ds jb = [];
  v4i_bound : forall d c, V4._job_of_target σ !! d = Some c ->
    (c < length (V4.jobs σ))%nat ∧
    ((c < length (V4.jobs σ0))%nat -> V4._job_of_target σ0 !! d = Some c);
  v4i_sub : V4._job_of_target σ0 ⊆ V4._job_of_target σ;
}.

Definition v4_closed (σ0 σ : V4.dsl) (cc : list string) : Prop :=
  (forall j c, v4_black σ0 σ cc j -> v4_edge σ0 j c -> v4_black σ0 σ cc c) ∧
  (forall j, v4_black σ0 σ cc j -> ~ tc (v4_edge σ0) j j).

(** The jobs [js] of a call chain form a path, the latest first. *)
Definition chain_link {N} (edge : N -> N -> Prop) (js : list N) (j : N) : Prop :=
  match js with
  | [] => True
  | y :: _ => edge y j
  end.
Fixpoint chain_ok {N} (edge : N -> N -> Prop) (js : list N) : Prop :=
  match js with
  | [] => True
  | y :: js' => chain_link edge js' y ∧ chain_ok edge js'
  end.

(** ** Declarations for the examples of the walk *)

(** [@file(["a"], ["a"])]: a target that is its own dep. *)
Definition vx_self_loop : VX.dsl :=
  (VX.file ["a"] ["a"] None None false 0 (VX.DSL_init false false)).1.
Definition v4_self_loop : V4.dsl :=
  (V4.file (V4.DSL_init false) ["a"] ["a"] None None false 0 (V4.ActUser 0)).1.

(** The state in which [finish] of v4 starts the walk. *)
Definition v4_start (σ : V4.dsl) : V4.gstate :=
  {| V4.g_dsl := σ; V4.g_meta := ∅; V4.dependent_jobs := ∅;
     V4.leaf_jobs := [] |}.

(** [r] needs [p] and [q]; [p] needs [x], which no job makes and which
    does not exist; [q] needs itself. *)
Definition v4_no_rule : V4.dsl :=
  let s1 := (V4.file (V4.DSL_init false) ["r"] ["p"; "q"] None None false 0
               (V4.ActUser 0)).1 in
  let s2 := (V4.file s1 ["p"] ["x"] None None false 0 (V4.ActUser 1)).1 in
  (V4.file s2 ["q"] ["q"] None None false 0 (V4.ActUser 2)).1.

(** One job makes [t1] and [t2] from [d]; [d] is made from [t2]. *)
Definition v4_siblings : V4.dsl :=
  let s1 := (V4.file (V4.DSL_init false) ["t1"; "t2"] ["d"] None None false 0
               (V4.ActUser 0)).1 in
  (V4.file s1 ["d"] ["t2"] None None false 0 (V4.ActUser 1)).1.

(** [r] needs [a] and [b]; [a] needs nothing; [b] needs itself. *)
Definition vx_early : VX.dsl :=
  let s1 := (VX.file ["r"] ["a"; "b"] None None false 0
               (VX.DSL_init false false)).1 in
  let s2 := (VX.decorate 0 (VX.ActUser 0) s1).1 in
  let s3 := (VX.file ["a"] [] None None false 0 s2).1 in
  let s4 := (VX.decorate 1 (VX.ActUser 1) s3).1 in
  let s5 := (VX.file ["b"] ["b"] None None false 0 s4).1 in
  (VX.decorate 2 (VX.ActUser 2) s5).1.

(** The checks of [vx_declared] and [v4_declared], as they are run on
    given declarations. *)
Definition vx_declared_check (σ : VX.dsl) : bool :=
  bool_decide (map_Forall (fun _ j => (j < length (VX.job_objs σ))%nat)
                 (VX.job_of_target σ))
  && forallb (fun jb => match VX.jtask jb with None => true | Some _ => false end)
       (VX.job_objs σ).

Definition v4_declared_check (σ : V4.dsl) : bool :=
  bool_decide (map_Forall (fun t j => V4.ts <$> V4.jobs σ !! j = Some [t])
                 (V4._job_of_target σ))
  && forallb (fun jb => negb (V4.visited jb)) (V4.jobs σ).

(** ** The run of vx: what the threads keep true *)

(** The job that a worker thread holds, from the moment it takes the job
    off a queue to the moment it sets the [done] event of the job. *)
Definition holds (p : VX.worker_pc) : option nat :=
  match p with
  | VX.WNeedUpdate j | VX.WSkip j | VX.WGate j | VX.WExecute j
  | VX.WRunning j | VX.WSetExecuted j | VX.WSetSuccessed j
  | VX.WRmTargets j _ | VX.WAfterRm j | VX.WDec j | VX.WDoneSet j => Some j
  | _ => None
  end.

(** The jobs on the queues of the pool. *)
Definition queued (s : VX.sys) : list nat :=
  VX._queue (VX.thread_pool s) ++ VX._serial_queue (VX.thread_pool s).

(** The jobs that the pool has and has not finished with. *)
Definition active (s : VX.sys) : list nat :=
  queued s ++ omap holds (VX.workers s).

Definition succ (s : VX.sys) (c : nat) : Prop :=
  exists cb, VX.job_of s c = Some cb ∧ VX.successed cb = true.

(** A job is over without success: its [done] event is set and its flag
    [successed] is not. *)
Definition failed (s : VX.sys) (d : nat) : Prop :=
  exists db, VX.job_of s d = Some db ∧ VX.done db = true ∧
             VX.successed db = false.

(** The children of the task of [j]: its direct dependencies. *)
Definition dep_of (s : VX.sys) (j c : nat) : Prop :=
  exists jb tk, VX.job_of s j = Some jb ∧ VX.jtask jb = Some tk ∧
                c ∈ VX.children tk.

(** The targets that [rm_targets] of the job goes through; the method of
    a phony job does nothing. *)
Definition targets_of {R} (E : VX.env R) (jb : VX.job) : list string :=
  match VX.kind jb with
  | VX.FileJob => VX.set_iter E (VX.ts_unique jb)
  | VX.PhonyJob => []
  end.

(** In the events [l], [rm_targets] of [j] has dealt with [t]: [rm] was
    called, or [t] was found to be marked [keep]. *)
Definition handled (j : nat) (l : list event) (t : string) : Prop :=
  EvRm j t ∈ l ∨ EvKeep j t ∈ l.

(** In the events [l], the error of [j] is in the queue of deferred
    errors (under [keep_going]) or the die-sequence has run. *)
Definition settled (keep_going : bool) (j : nat) (l : list event) : Prop :=
  if keep_going then EvDefer j ∈ l else EvDie ∈ l.

Definition cleaned {R} (E : VX.env R) (s : VX.sys) (j : nat)
    (l : list event) : Prop :=
  exists jb, VX.job_of s j = Some jb ∧
    (forall t, t ∈ targets_of E jb -> handled j l t) ∧
    settled (VX._keep_going (VX.thread_pool s)) j l.

Definition task_ok (s : VX.sys) (jb : VX.job) (tk : VX.task) : Prop :=
  match VX.pc tk with
  | VX.AtWait _ => VX.done jb = false
  | VX.AtAll i =>
      VX.done jb = false ∧
      forall k c, (k < i)%nat -> VX.children tk !! k = Some c -> succ s c
  | VX.AtEnq =>
      VX.done jb = false ∧ forall c, c ∈ VX.children tk -> succ s c
  | VX.AtAssert => forall c, c ∈ VX.children tk -> succ s c
  | VX.AtDoneSet => VX.done jb = false
  | VX.Finished => VX.error tk = None -> VX.done jb = true
  end.

Definition job_ok (s : VX.sys) (j : nat) (jb : VX.job) : Prop :=
  (VX.successed jb = true -> EvEnq j ∈ VX.trace s) ∧
  (VX.done jb = true -> EvDoneSet j ∈ VX.trace s) ∧
  match VX.jtask jb with
  | None => VX.done jb = false
  | Some tk => task_ok s jb tk
  end.

(** The task is past the test of the children. *)
Definition past_test (tk : VX.task) : Prop :=
  VX.pc tk = VX.AtAssert ∨ VX.pc tk = VX.Finished.

(** A job that was put on a queue of the pool has a task that is past
    the test of its children, which have all succeeded. *)
Definition enq_ok (s : VX.sys) (j : nat) : Prop :=
  exists jb tk, VX.job_of s j = Some jb ∧ VX.jtask jb = Some tk ∧
    past_test tk ∧ forall c, c ∈ VX.children tk -> succ s c.

Definition active_ok (s : VX.sys) (j : nat) : Prop :=
  EvEnq j ∈ VX.trace s ∧
  exists jb, VX.job_of s j = Some jb ∧ VX.done jb = false.

Definition worker_ok {R} (E : VX.env R) (s : VX.sys) (p : VX.worker_pc)
    : Prop :=
  match p with
  | VX.WNeedUpdate j | VX.WSkip j | VX.WGate j | VX.WExecute j
  | VX.WRunning j | VX.WSetExecuted j | VX.WSetSuccessed j =>
      EvRaised j ∉ VX.trace s
  | VX.WRmTargets j rest =>
      EvRaised j ∈ VX.trace s ∧
      exists jb pre, VX.job_of s j = Some jb ∧
        targets_of E jb = pre ++ rest ∧
        forall t, t ∈ pre -> handled j (VX.trace s) t
  | VX.WAfterRm j =>
      EvRaised j ∈ VX.trace s ∧
      exists jb, VX.job_of s j = Some jb ∧
        forall t, t ∈ targets_of E jb -> handled j (VX.trace s) t
  | VX.WDec j | VX.WDoneSet j =>
      EvRaised j ∈ VX.trace s -> cleaned E s j (VX.trace s)
  | VX.WTaskPut j => EvDoneSet j ∈ VX.trace s
  | _ => True
  end.

(** What holds of the events [l0] that came before the event [e]. *)
Definition event_ok {R} (E : VX.env R) (s : VX.sys) (e : event)
    (l0 : list event) : Prop :=
  match e with
  | EvDoneSet j => EvRaised j ∈ l0 -> cleaned E s j l0
  | EvTaskPut j => EvDoneSet j ∈ l0
  | EvRequeue p c => EvDoneSet c ∈ l0
  | EvRm j _ | EvKeep j _ | EvDefer j => EvRaised j ∈ l0
  | EvAction j | EvRaised j => EvEnq j ∈ l0
  | _ => True
  end.

(** Every event of [l], the latest first, came when it could. *)
Fixpoint trace_ok {R} (E : VX.env R) (s : VX.sys) (l : list event) : Prop :=
  match l with
  | [] => True
  | e :: l0 => event_ok E s e l0 ∧ trace_ok E s l0
  end.

Record sys_inv {R} (E : VX.env R) (s : VX.sys) : Prop := {
  si_nodup : NoDup (active s);
  si_active : forall j, j ∈ active s -> active_ok s j;
  si_queued : forall j, j ∈ queued s -> EvRaised j ∉ VX.trace s;
  si_worker : forall w p, VX.workers s !! w = Some p -> worker_ok E s p;
  si_job : forall j jb, VX.job_of s j = Some jb -> job_ok s j jb;
  si_enq : forall j, EvEnq j ∈ VX.trace s -> enq_ok s j;
  si_trace : trace_ok E s (VX.trace s);
}.

(** The declarations before a run: no job has a task, none is over. *)
Definition sys_ready (σ : VX.dsl) : Prop :=
  forall j jb, VX.job_objs σ !! j = Some jb ->
    VX.jtask jb = None ∧ VX.done jb = false ∧ VX.successed jb = false.

(** The job of a task that is over. *)
Definition fin_job (e : option exn) (jb : VX.job) : VX.job :=
  VX.set_task jb
    ((fun tk => VX.set_waited (VX.set_t_done tk e) []) <$> VX.jtask jb).

(** How a step may change a job of the store. *)
Definition job_le (jb jb' : VX.job) : Prop :=
  VX.kind jb' = VX.kind jb ∧ VX.ts_unique jb' = VX.ts_unique jb ∧
  VX.ds_unique jb' = VX.ds_unique jb ∧
  (VX.done jb = true -> VX.done jb' = true) ∧
  (VX.successed jb = true -> VX.successed jb' = true) ∧
  (forall tk, VX.jtask jb = Some tk ->
     exists tk', VX.jtask jb' = Some tk' ∧
       VX.children tk' = VX.children tk ∧ (past_test tk -> past_test tk')).

(** The jobs of [s] are there in [s'], changed as a step may. *)
Definition jobs_le (s s' : VX.sys) : Prop :=
  forall j jb, VX.job_of s j = Some jb ->
    exists jb', VX.job_of s' j = Some jb' ∧ job_le jb jb'.

(** What a step does to the jobs that the pool has: nothing, or it adds
    one (the coordinator, at [self._enq()]), or it drops one (a worker
    that has set [done], or that dies). *)
Inductive act_step (s s' : VX.sys) : Prop :=
| act_same :
    active s' ≡ₚ active s -> (forall j, j ∈ queued s' -> j ∈ queued s) ->
    act_step s s'
| act_push j tk :
    active s' ≡ₚ j :: active s -> queued s' ≡ₚ j :: queued s ->
    VX.trace s' = EvEnq j :: VX.trace s ->
    VX.task_of s j = Some tk -> VX.pc tk = VX.AtEnq ->
    act_step s s'
| act_drop j :
    active s ≡ₚ j :: active s' -> (forall j, j ∈ queued s' -> j ∈ queued s) ->
    act_step s s'.

(** ** A run in which an action raises *)

(** [r] is made from [a]; [a] is made from nothing. *)
Definition vx_fail_dsl : VX.dsl :=
  let s1 := (VX.file ["r"] ["a"] None None false 0
               (VX.DSL_init false false)).1 in
  let s2 := (VX.decorate 0 (VX.ActUser 0) s1).1 in
  let s3 := (VX.file ["a"] [] None None false 0 s2).1 in
  (VX.decorate 1 (VX.ActUser 1) s3).1.

Definition fail_init : VX.sys := VX.sys_init vx_fail_dsl true 1 1 false.

(** The main thread invokes [r]; the coordinator brings the task of [a]
    to [self._enq()]; a worker takes [a], whose action raises, removes
    the target and sets the [done] event of [a]. *)
Definition fail_run1 : list VX.label :=
  [VX.LChild "a"; VX.LTask 1 []; VX.LTask 0 [1%nat]]
  ++ replicate 4 (VX.LCoord VX.Yes)
  ++ replicate 6 (VX.LWorker 0 VX.Yes)
  ++ [VX.LWorker 0 VX.No]
  ++ replicate 5 (VX.LWorker 0 VX.Yes).

(** The worker puts the task of [a] back; the coordinator ends the task of
    [a] and runs the task of [r] to its end. *)
Definition fail_run2 : list VX.label :=
  replicate 2 (VX.LWorker 0 VX.Yes) ++ replicate 8 (VX.LCoord VX.Yes).

Definition fail_mid : VX.sys :=
  default fail_init (VX.run E_elements fail_run1 fail_init).
Definition fail_end : VX.sys :=
  default fail_mid (VX.run E_elements fail_run2 fail_mid).

(** One job makes [a] and [b]; no adapter is registered, so [rm] raises
    [NotImplementedError]. *)
Definition vx_two_targets : VX.dsl :=
  let s1 := (VX.file ["a"; "b"] [] None None false 0
               (VX.DSL_init false false)).1 in
  (VX.decorate 0 (VX.ActUser 0) s1).1.

(** The action of the job raises, and then the first call of [rm]. *)
Definition rm_run : list VX.label :=
  [VX.LTask 0 []]
  ++ replicate 4 (VX.LCoord VX.Yes)
  ++ replicate 6 (VX.LWorker 0 VX.Yes)
  ++ [VX.LWorker 0 VX.No; VX.LWorker 0 VX.Fails].

(** The check of [sys_ready], as it is run on given declarations. *)
Definition sys_ready_check (σ : VX.dsl) : bool :=
  forallb (fun jb => match VX.jtask jb with
                     | None => negb (VX.done jb) && negb (VX.successed jb)
                     | Some _ => false
                     end) (VX.job_objs σ).

(** ** A run in which every action returns *)

(** The declarations of [vx_fail_dsl]: [r] is made from [a].  The main
    thread invokes [r]; a worker runs [a], whose action returns; the
    coordinator brings the task of [r] to [self._enq()]; the worker runs
    [r]; the coordinator ends the task of [r]. *)
Definition ok_run : list VX.label :=
  [VX.LChild "a"; VX.LTask 1 []; VX.LTask 0 [1%nat]]
  ++ replicate 4 (VX.LCoord VX.Yes)
  ++ replicate 13 (VX.LWorker 0 VX.Yes)
  ++ replicate 9 (VX.LCoord VX.Yes)
  ++ replicate 13 (VX.LWorker 0 VX.Yes)
  ++ replicate 2 (VX.LCoord VX.Yes).

Definition ok_end : VX.sys :=
  default fail_init (VX.run E_elements ok_run fail_init).

(** The run [fail_run1], up to the moment at which the worker is inside
    the action of [a]. *)
Definition busy_run : list VX.label := take 13 fail_run1.
Definition busy_mid : VX.sys :=
  default fail_init (VX.run E_elements busy_run fail_init).

(** ** The end of [DSL.run] *)

(** [DSL.run], after the loops over the targets: the errors that the
    workers deferred are logged, and their presence is an error. *)
Definition DSL_run_end (s : VX.sys) : result unit :=
  if bool_decide (0 < length (VX.deferred_errors (VX.thread_pool s)))%nat
  then Raise (Err MsgExecutionFailed)
  else Ok ().

(** Once the action of a job has raised and the [done] event of the job
    is set, the error is on the queue of deferred errors or the
    die-sequence has run. *)
Definition raised_done (s : VX.sys) : Prop :=
  forall j jb, EvRaised j ∈ VX.trace s -> VX.job_of s j = Some jb ->
    VX.done jb = true ->
    settled (VX._keep_going (VX.thread_pool s)) j (VX.trace s).

(** ** More runs for the examples *)

(** One job, under [--dry-run]. *)
Definition vx_dry_dsl : VX.dsl :=
  let s1 := (VX.file ["a"] [] None None false 0 (VX.DSL_init true false)).1 in
  (VX.decorate 0 (VX.ActUser 0) s1).1.

Definition dry_run_run : list VX.label :=
  [VX.LTask 0 []] ++ replicate 4 (VX.LCoord VX.Yes)
  ++ replicate 12 (VX.LWorker 0 VX.Yes) ++ replicate 2 (VX.LCoord VX.Yes).

(** The run [fail_run2], up to the moment at which the task of [r] is at
    [all(child.successed for child in children)]. *)
Definition fail_at_all : VX.sys :=
  default fail_mid (VX.run E_elements (take 8 fail_run2) fail_mid).

(** The state in which [rm_run] ends. *)
Definition rm_end : VX.sys :=
  default fail_init
    (VX.run E_elements rm_run (VX.sys_init vx_two_targets true 1 1 false)).

(** The job of [a] in [fail_mid]: its [done] event is set. *)
Definition mid_job_a : VX.job :=
  default job_a (VX.job_of fail_mid 1).

(** ** The run of vx: actions, threads and serial jobs *)

(** The job that a worker holds and whose action it has not called. *)
Definition before_action (p : VX.worker_pc) : option nat :=
  match p with
  | VX.WNeedUpdate j | VX.WGate j | VX.WExecute j => Some j
  | _ => None
  end.

(** The jobs whose action was called, the latest first. *)
Definition actions (l : list event) : list nat :=
  omap (fun e => match e with EvAction j => Some j | _ => None end) l.

Definition fresh_ok (s : VX.sys) : Prop :=
  (forall j, j ∈ queued s -> EvAction j ∉ VX.trace s) ∧
  (forall w p j, VX.workers s !! w = Some p -> before_action p = Some j ->
     EvAction j ∉ VX.trace s) ∧
  NoDup (actions (VX.trace s)).

(** The number of items of a list that pass a test. *)
Definition count {A} (f : A -> bool) (l : list A) : nat :=
  length (List.filter f l).

(** The thread has not returned. *)
Definition is_live (p : VX.worker_pc) : bool :=
  match p with
  | VX.WExited => false
  | _ => true
  end.

(** The worker threads that have not returned are in [_threads], whose
    members are threads that were started, and which holds at most
    [_n_max] threads (one, if [_n_max] is zero). *)
Definition threads_ok_of (ws : list VX.worker_pc) (T : gset nat) (n : nat)
    : Prop :=
  (count is_live ws <= size T)%nat ∧
  (forall t, t ∈ T -> (t < length ws)%nat) ∧
  (size T <= max 1 n)%nat.

Definition threads_ok (s : VX.sys) : Prop :=
  threads_ok_of (VX.workers s) (VX._threads (VX.thread_pool s))
    (VX._n_max (VX.thread_pool s)).

(** [j.serial], for the job [j] of the store. *)
Definition serial_of (σ : VX.dsl) (j : nat) : bool :=
  default false (VX.serial <$> VX.job_objs σ !! j).

(** The worker has acquired [_serial_queue_lock] and not released it. *)
Definition has_slot (σ : VX.dsl) (p : VX.worker_pc) : bool :=
  match p with
  | VX.WSerial => true
  | VX.WNeedUpdate j | VX.WSkip j | VX.WGate j | VX.WExecute j
  | VX.WRunning j | VX.WSetExecuted j | VX.WSetSuccessed j
  | VX.WRmTargets j _ | VX.WAfterRm j | VX.WDec j | VX.WDoneSet j
  | VX.WTaskPut j | VX.WRelease j => serial_of σ j
  | _ => false
  end.

(** The worker is inside the action of a serial job. *)
Definition runs_serial (σ : VX.dsl) (p : VX.worker_pc) : bool :=
  match p with
  | VX.WRunning j => serial_of σ j
  | _ => false
  end.

(** The slots taken and the slots left are [ns] at most, and no serial
    job is on the general queue. *)
Definition serial_ok (ns : nat) (s : VX.sys) : Prop :=
  (VX._serial_queue_lock (VX.thread_pool s)
   + count (has_slot (VX.s_dsl s)) (VX.workers s) <= ns)%nat ∧
  forall j, j ∈ VX._queue (VX.thread_pool s) ->
    serial_of (VX.s_dsl s) j = false.

(** One serial job; the run goes up to the moment at which the worker
    is inside its action. *)
Definition vx_serial_dsl : VX.dsl :=
  let s1 := (VX.file ["a"] [] None None true 0 (VX.DSL_init false false)).1 in
  (VX.decorate 0 (VX.ActUser 0) s1).1.

Definition serial_run : list VX.label :=
  [VX.LTask 0 []] ++ replicate 4 (VX.LCoord VX.Yes)
  ++ replicate 5 (VX.LWorker 0 VX.Yes).

Definition serial_mid : VX.sys :=
  default fail_init
    (VX.run E_elements serial_run (VX.sys_init vx_serial_dsl true 2 1 false)).

(** ** What a staleness check may change *)

(** From [w] to [w'] the times of the per-run cache and the entries of
    the metadata table are kept, and without [use_hash] so are the cache
    files. *)
Definition grows (uh : bool) (w w' : V4.world) : Prop :=
  V4.time_of_dep_cache w ⊆ V4.time_of_dep_cache w' ∧
  (forall u m, V4.meta_tbl w !! u = Some m -> V4.meta_tbl w' !! u = Some m) ∧
  (uh = false -> V4.cache_files w' = V4.cache_files w).

(** ** Declarations for the examples *)

(** [r] is made from [a] and [b]; [a] and [b] are made from nothing. *)
Definition v4_three : V4.dsl :=
  let s1 := (V4.file (V4.DSL_init false) ["r"] ["a"; "b"] None None false 0
               (V4.ActUser 0)).1 in
  let s2 := (V4.file s1 ["a"] [] None None false 0 (V4.ActUser 1)).1 in
  (V4.file s2 ["b"] [] None None false 0 (V4.ActUser 2)).1.

(** [all] is declared phony twice, [clean] once, with an action. *)
Definition v4_phonies : V4.dsl :=
  let s1 := V4.phony (V4.DSL_init false) "all" ["a"] (Some "build") None in
  let s2 := V4.phony s1 "clean" [] None (Some 5) in
  let s3 := default s2 (match V4.phony_decorate s2 "clean" (V4.ActUser 7) with
                        | Ok s => Some s | Raise _ => None end) in
  V4.phony s3 "all" ["b"] None None.

(** ** Staleness under dry run *)

(** Under [args.dry_run] of vx, the job of a dep of [jb] has executed. *)
Definition dep_has_executed (σ : VX.dsl) (deps : list string) : Prop :=
  exists d c cb, d ∈ deps ∧ VX.job_of_target σ !! d = Some c ∧
                 VX.job_objs σ !! c = Some cb ∧ VX.executed cb = true.

(** Three local files: [s] is newer than [d], and [t] is newer than both. *)
Definition E4_three : V4.env :=
  E4_local {["s" := (6, "h0"); "d" := (5, "h1"); "t" := (7, "h2")]} 9.

(** [d] is made from [s], and [t] is made from [d]. *)
Definition v4_job_d : V4.job :=
  V4.new_job V4.FileJob (V4.ActUser 0) ["d"] ["s"] [] 0 false false.
Definition v4_job_t : V4.job :=
  V4.new_job V4.FileJob (V4.ActUser 1) ["t"] ["d"] [] 0 false false.

(** ** The roots of a run of vx *)

(** The first loop of [DSL.run]:
    [for target in self.args.targets: self.job_of_target[target].invoke()]. *)
Fixpoint DSL_run_invoke {R} (E : VX.env R) (fuel : nat)
    (targets : list string) : ST VX.dsl unit :=
  match targets with
  | [] => mret ()
  | target :: rest =>
      σ ← get_state;
      match VX.job_of_target σ !! target with
      | None => lift (Raise KeyError)
      | Some j => _ ← VX.invoke E fuel j []; DSL_run_invoke E fuel rest
      end
  end.

(** A root of [targets] that is bound to no job. *)
Definition unbound_root (σ0 : VX.dsl) (targets : list string) (e : exn)
    : Prop :=
  e = KeyError ∧ exists t, t ∈ targets ∧ VX.job_of_target σ0 !! t = None.

(** [r] needs [b], which needs itself; [a] needs nothing. *)
Definition vx_second_root : VX.dsl :=
  let s1 := (VX.file ["a"] [] None None false 0
               (VX.DSL_init false false)).1 in
  let s2 := (VX.file ["r"] ["b"] None None false 0 s1).1 in
  (VX.file ["b"] ["b"] None None false 0 s2).1.

(** ** The run of vx: the children of a task, and a job that is lost *)

(** Every child of a task is a job of the store. *)
Definition children_ok (s : VX.sys) : Prop :=
  forall j jb tk c, VX.job_of s j = Some jb -> VX.jtask jb = Some tk ->
    c ∈ VX.children tk -> is_Some (VX.job_of s c).

(** ** The run of vx: a job that the pool has lost *)

(** The events that follow the error of the action of [j]: a target is
    dealt with, the error is put on the queue of deferred errors, the
    [done] event is set. *)
Definition after_raise (j : nat) (e : event) : bool :=
  match e with
  | EvRm x _ | EvKeep x _ | EvDefer x | EvDoneSet x => bool_decide (x = j)
  | _ => false
  end.

(** The pool has lost the job [j]: it was put on a queue, no queue and no
    worker has it, and its [done] event is not set. *)
Definition lost (s : VX.sys) (j : nat) : Prop :=
  EvEnq j ∈ VX.trace s ∧ (j ∉ active s) ∧
  exists jb, VX.job_of s j = Some jb ∧ VX.done jb = false.

(** The worker or the task that an event of a step comes from, in the
    state before the step. *)
Definition event_src (s : VX.sys) (e : event) : Prop :=
  match e with
  | EvDoneSet x =>
      (exists w, VX.workers s !! w = Some (VX.WDoneSet x)) ∨
      (exists tk, VX.task_of s x = Some tk ∧ VX.pc tk = VX.AtDoneSet)
  | EvDefer x => exists w, VX.workers s !! w = Some (VX.WAfterRm x)
  | EvRm x _ | EvKeep x _ =>
      exists w rest, VX.workers s !! w = Some (VX.WRmTargets x rest)
  | _ => True
  end.

(** ** A run in which [rm] raises *)

(** Local files, kept with their modification times: [rm] and [mtime_of]
    of a file that is not there raise [OSError]. *)
Definition disk_adapter : VX.adapter (gmap string Z) :=
  {| VX.a_rm := fun uri _ fs =>
       match fs !! uri with
       | Some _ => (delete uri fs, Ok ())
       | None => (fs, Raise OSError)
       end;
     VX.a_mtime_of := fun uri _ _ fs =>
       (fs, match fs !! uri with Some t => Ok t | None => Raise OSError end) |}.

(** An environment in which a URI is a local file unless it starts with
    [x:], and only the scheme [file] has an adapter. *)
Definition E_disk : VX.env (gmap string Z) :=
  {| VX.uriparse := fun s =>
       Ok {| scheme := if String.prefix "x:" s then "x" else "file";
             netloc := "localhost"; path := s;
             params := ""; query := ""; fragment := "" |};
     VX.of_scheme := fun sch =>
       if decide (sch = "file") then Some disk_adapter else None;
     VX.set_iter := elements |}.

(** One job makes the local file [c] and the resources [x:a] and [x:b]. *)
Definition vx_mixed : VX.dsl :=
  let s1 := (VX.file ["c"; "x:a"; "x:b"] [] None None false 0
               (VX.DSL_init false false)).1 in
  (VX.decorate 0 (VX.ActUser 0) s1).1.

Definition job_mixed : VX.job :=
  VX.set_f (VX.new_job VX.FileJob ["c"; "x:a"; "x:b"] [] None 0 false false)
    (VX.ActUser 0).

(** No file is there. *)
Definition w_mixed : VX.world (gmap string Z) :=
  {| VX.w_dsl := vx_mixed; VX.w_res := ∅; VX.w_log := [] |}.

Definition mixed_init : VX.sys := VX.sys_init vx_mixed true 1 1 false.

(** The job is found stale, its action raises, and [rm] of [c] raises
    [OSError], which [rm_targets] catches. *)
Definition mixed_run : list VX.label :=
  [VX.LTask 0 []]
  ++ replicate 4 (VX.LCoord VX.Yes)
  ++ replicate 6 (VX.LWorker 0 VX.Yes)
  ++ [VX.LWorker 0 VX.No; VX.LWorker 0 VX.Yes].

Definition mixed_mid : VX.sys :=
  default mixed_init (VX.run E_disk mixed_run mixed_init).

(** * Deduplication: v4 [_unique], vx [set] *)
Section UniqueFacts.
Import V4.

Lemma _unique_loop_fresh xs : forall seen ret,
  V4._unique_loop xs seen ret = ret ++ fresh_of seen xs.
Proof.
  induction xs as [|x xs IH]; intros seen ret; simpl.
  - by rewrite app_nil_r.
  - case_decide; rewrite IH; [done|]. by rewrite <- app_assoc.
Qed.

Lemma _unique_fresh xs : V4._unique xs = fresh_of ∅ xs.
Proof. unfold V4._unique. by rewrite _unique_loop_fresh. Qed.

Lemma fresh_of_elem xs : forall seen x,
  x ∈ fresh_of seen xs <-> x ∈ xs ∧ x ∉ seen.
Proof.
  induction xs as [|y xs IH]; intros seen x; simpl.
  - set_solver.
  - case_decide.
    + rewrite IH. set_solver.
    + rewrite elem_of_cons, IH. destruct (decide (x = y)); set_solver.
Qed.

Lemma fresh_of_NoDup xs : forall seen, NoDup (fresh_of seen xs).
Proof.
  induction xs as [|y xs IH]; intros seen; simpl.
  - constructor.
  - case_decide; [apply IH|].
    constructor; [|apply IH]. rewrite fresh_of_elem. set_solver.
Qed.

Lemma first_index_cons_ne x y l :
  y ≠ x -> first_index x (y :: l) = S <$> first_index x l.
Proof. intros. simpl. by case_decide. Qed.

Lemma first_index_elem x l : x ∈ l -> is_Some (first_index x l).
Proof.
  induction l as [|y l IH]; [by intros ?%elem_of_nil|].
  intros Hin. simpl. case_decide; [by eexists|].
  apply elem_of_cons in Hin as [->|Hin]; [done|].
  destruct (IH Hin) as [n ->]. by eexists.
Qed.

Lemma fresh_of_order xs : forall seen (i j : nat) a b,
  (i < j)%nat ->
  fresh_of seen xs !! i = Some a -> fresh_of seen xs !! j = Some b ->
  exists ia ib, first_index a xs = Some ia ∧ first_index b xs = Some ib
                ∧ (ia < ib)%nat.
Proof.
  induction xs as [|x xs IH]; intros seen i j a b Hij Ha Hb; simpl in *.
  - by rewrite lookup_nil in Ha.
  - assert (Hne : forall k c sn, fresh_of sn xs !! k = Some c -> x ∈ sn -> x ≠ c).
    { intros k c sn Hk Hx ->. apply list_elem_of_lookup_2, fresh_of_elem in Hk.
      tauto. }
    case_decide as Hx.
    + destruct (IH _ _ _ _ _ Hij Ha Hb) as (ia & ib & Hia & Hib & Hlt).
      exists (S ia), (S ib).
      rewrite !decide_False by eauto. rewrite Hia, Hib. simpl.
      repeat split; [done..|lia].
    + destruct i as [|i]; destruct j as [|j]; try lia; simpl in *.
      * injection Ha as <-.
        assert (x ≠ b) by (eapply Hne; [done|set_solver]).
        destruct (first_index_elem b xs) as [ib Hib].
        { apply list_elem_of_lookup_2, fresh_of_elem in Hb. tauto. }
        exists 0%nat, (S ib). rewrite decide_True by done.
        rewrite decide_False by done. rewrite Hib. simpl.
        repeat split; [done..|lia].
      * assert (Hij' : (i < j)%nat) by lia.
        destruct (IH _ _ _ _ _ Hij' Ha Hb) as (ia & ib & Hia & Hib & Hlt).
        exists (S ia), (S ib).
        rewrite !decide_False by (eapply Hne; [done|set_solver]).
        rewrite Hia, Hib. simpl. repeat split; [done..|lia].
Qed.

(** C8, as amended.  In v4 the unique deps of a job are [_unique(ds)]:
    every dep once, in the order of the first occurrences in [ds].  In vx
    they are [set(ds)]: every dep once, in the order in which the set is
    iterated. *)
Theorem C8_deps_unique :
  (forall k fn ts ds descs prio uh sr,
     let j := V4.new_job k fn ts ds descs prio uh sr in
     V4.unique_ds j = V4._unique ds ∧
     NoDup (V4.unique_ds j) ∧
     (forall x, x ∈ V4.unique_ds j <-> x ∈ ds) ∧
     (forall (i i' : nat) a b, (i < i')%nat ->
        V4.unique_ds j !! i = Some a -> V4.unique_ds j !! i' = Some b ->
        exists ia ib, first_index a ds = Some ia ∧ first_index b ds = Some ib
                      ∧ (ia < ib)%nat)) ∧
  (forall R (E : VX.env R) k ts ds desc prio uh sr,
     set_iter_ok E ->
     let j := VX.new_job k ts ds desc prio uh sr in
     NoDup (VX.set_iter E (VX.ds_unique j)) ∧
     (forall x, x ∈ VX.set_iter E (VX.ds_unique j) <-> x ∈ ds)).
Proof.
  split.
  - intros k fn ts ds descs prio uh sr j. simpl.
    rewrite _unique_fresh. split; [done|]. split; [apply fresh_of_NoDup|].
    split.
    + intros x. rewrite fresh_of_elem. set_solver.
    + apply fresh_of_order.
  - intros R E k ts ds desc prio uh sr HE j. simpl.
    destruct (HE (list_to_set ds)) as [Hnd Hel]. split; [done|].
    intros x. rewrite Hel. set_solver.
Qed.

Lemma set_iter_ok_elements : set_iter_ok E_elements.
Proof.
  intros X. split; [apply NoDup_elements|]. intros x. apply elem_of_elements.
Qed.

Lemma C8_deps_unique_witness :
  NoDup (VX.set_iter E_elements
           (VX.ds_unique (VX.new_job VX.FileJob ["t"] ["b"; "a"; "b"] None 0 false false))).
Proof.
  apply (proj2 C8_deps_unique unit E_elements VX.FileJob ["t"] ["b"; "a"; "b"]
           None 0 false false set_iter_ok_elements).
Defined.

(** C8 as stated fails for vx: [set(["a", "b"])] and [set(["b", "a"])] are
    the same set, so no iteration of [ds_unique] can follow the order of
    the first occurrences in both declarations. *)
Lemma C8_order_lost_in_vx :
  ~ (exists iter : gset string -> list string,
       forall ds, iter (VX.ds_unique (VX.new_job VX.FileJob ["t"] ds None 0 false false))
                  = V4._unique ds).
Proof.
  intros [iter H].
  pose proof (H ["a"; "b"]) as H1. pose proof (H ["b"; "a"]) as H2.
  assert (Heq : VX.ds_unique (VX.new_job VX.FileJob ["t"] ["a"; "b"] None 0 false false)
                = VX.ds_unique (VX.new_job VX.FileJob ["t"] ["b"; "a"] None 0 false false)).
  { simpl. set_solver. }
  rewrite Heq, H2 in H1. vm_compute in H1. discriminate.
Qed.

End UniqueFacts.

(** * The job table: a target is bound once *)
Section JobTable.

Lemma _set_unique_Ok {V} (d d' : gmap string V) k v :
  V4._set_unique d k v = Ok d' <-> d !! k = None ∧ d' = <[k := v]> d.
Proof.
  unfold V4._set_unique. destruct (d !! k); split; intros H;
    try discriminate; try (destruct H; discriminate).
  - injection H as <-. done.
  - destruct H as [_ ->]. done.
Qed.

Lemma _set_unique_Raise {V} (d : gmap string V) k v e :
  V4._set_unique d k v = Raise e <-> is_Some (d !! k) ∧ e = Err (MsgKeyInDict k).
Proof.
  unfold V4._set_unique. destruct (d !! k) eqn:Hk; split; intros H.
  - injection H as <-. eauto.
  - destruct H as [_ ->]. done.
  - discriminate.
  - destruct H as [[? ?] _]. discriminate.
Qed.

(** The loop over the targets never rebinds a target. *)
Lemma set_unique_each_mono ts : forall d j d' r,
  V4.set_unique_each d ts j = (d', r) -> d ⊆ d'.
Proof.
  induction ts as [|t ts IH]; intros d j d' r; simpl.
  - intros [= <- <-]. done.
  - destruct (V4._set_unique d t j) as [d1|e] eqn:H1.
    + apply _set_unique_Ok in H1 as [Hn ->]. intros H%IH.
      etrans; [|exact H]. by apply insert_subseteq.
    + intros [= <- <-]. done.
Qed.

(** When it ends well, the targets were free and distinct, and they are
    now bound to [j]; nothing else has changed. *)
Lemma set_unique_each_Ok ts : forall d j d',
  V4.set_unique_each d ts j = (d', Ok ()) ->
  NoDup ts ∧
  (forall t, t ∈ ts -> d !! t = None ∧ d' !! t = Some j) ∧
  (forall t, t ∉ ts -> d' !! t = d !! t).
Proof.
  induction ts as [|t ts IH]; intros d j d'; simpl.
  - intros [= <-]. split; [constructor|]. split; [|done].
    intros t Ht. by apply elem_of_nil in Ht.
  - destruct (V4._set_unique d t j) as [d1|e] eqn:H1; [|discriminate].
    apply _set_unique_Ok in H1 as [Hn ->]. intros H.
    pose proof (set_unique_each_mono _ _ _ _ _ H) as Hsub.
    destruct (IH _ _ _ H) as (Hnd & Hin & Hout).
    assert (Ht : t ∉ ts).
    { intros Ht. destruct (Hin t Ht) as [Hc _]. by rewrite lookup_insert_eq in Hc. }
    split; [by constructor|]. split.
    + intros t' [->|Ht']%elem_of_cons.
      * split; [done|]. eapply lookup_weaken; [|exact Hsub].
        apply lookup_insert_eq.
      * destruct (Hin t' Ht') as [Hc Hd]. split; [|done].
        destruct (decide (t = t')) as [->|]; [done|].
        by rewrite lookup_insert_ne in Hc.
    + intros t' Ht'. apply not_elem_of_cons in Ht' as [? ?].
      rewrite Hout by done. by rewrite lookup_insert_ne.
Qed.

(** A target that is already bound makes the loop raise. *)
Lemma set_unique_each_bound ts : forall d j d' r t,
  V4.set_unique_each d ts j = (d', r) ->
  t ∈ ts -> is_Some (d !! t) ->
  exists t', t' ∈ ts ∧ r = Raise (Err (MsgKeyInDict t')).
Proof.
  induction ts as [|t0 ts IH]; intros d j d' r t; simpl.
  - intros _ Ht. by apply elem_of_nil in Ht.
  - destruct (V4._set_unique d t0 j) as [d1|e] eqn:H1.
    + apply _set_unique_Ok in H1 as [Hn ->]. intros H Ht Hb.
      apply elem_of_cons in Ht as [->|Ht].
      { rewrite Hn in Hb. by destruct Hb. }
      destruct (IH _ _ _ _ t H Ht) as (t' & Ht' & ->).
      { destruct (decide (t0 = t)) as [->|].
        - rewrite lookup_insert_eq. eauto.
        - by rewrite lookup_insert_ne. }
      exists t'. split; [by right|done].
    + apply _set_unique_Raise in H1 as [_ ->]. intros [= <- <-] _ _.
      exists t0. split; [by left|done].
Qed.

Lemma register_targets_set_unique_each ts d j :
  VX.register_targets d ts j = V4.set_unique_each d ts j.
Proof.
  revert d. induction ts as [|t ts IH]; intros d; simpl; [done|].
  unfold VX.NonOverwritableDict_setitem, V4._set_unique.
  destruct (d !! t); [done|]. apply IH.
Qed.

Lemma _collect_phonies_loop_mono items : forall js d fop dop pop js' d' r,
  V4._collect_phonies_loop js d items fop dop pop = (js', d', r) -> d ⊆ d'.
Proof.
  induction items as [|[target deps] items IH];
    intros js d fop dop pop js' d' r; simpl.
  - intros [= _ <- _]. done.
  - destruct (V4.alist_get dop target); [|by intros [= _ <- _]].
    destruct (V4._set_unique d target (length js)) as [d1|e] eqn:H1;
      [|by intros [= _ <- _]].
    apply _set_unique_Ok in H1 as [Hn ->]. intros H%IH.
    etrans; [|exact H]. by apply insert_subseteq.
Qed.

Lemma _collect_phonies_loop_bound items :
  forall js d fop dop pop js' d' r target,
  V4._collect_phonies_loop js d items fop dop pop = (js', d', r) ->
  target ∈ items.*1 -> is_Some (d !! target) ->
  exists e, r = Raise e.
Proof.
  induction items as [|[t0 deps] items IH];
    intros js d fop dop pop js' d' r target; simpl.
  - intros _ Ht. by apply elem_of_nil in Ht.
  - destruct (V4.alist_get dop t0); [|intros [= _ _ <-]; eauto].
    destruct (V4._set_unique d t0 (length js)) as [d1|e] eqn:H1;
      [|intros [= _ _ <-]; eauto].
    apply _set_unique_Ok in H1 as [Hn ->]. intros H Ht Hb.
    apply elem_of_cons in Ht as [->|Ht].
    { rewrite Hn in Hb. by destruct Hb. }
    eapply IH; [exact H|exact Ht|].
    destruct (decide (t0 = target)) as [->|].
    + rewrite lookup_insert_eq. eauto.
    + by rewrite lookup_insert_ne.
Qed.

(** C7.  Declaring a job for a target that the job table already binds
    raises, at the declaration ([DSL.file] of v4, the constructor of a job
    in vx) or when the phony jobs are registered ([_collect_phonies] of
    v4).  No declaration ever rebinds a target, and one that succeeds binds
    each of its targets, which were all free, to the new job and changes
    nothing else: a target is bound to one job. *)
Theorem C7_target_bound_once :
  (forall σ targets deps desc uh sr prio fn σ' r,
     V4.file σ targets deps desc uh sr prio fn = (σ', r) ->
     (forall t, t ∈ targets -> is_Some (V4._job_of_target σ !! t) ->
        exists t', t' ∈ targets ∧ r = Raise (Err (MsgKeyInDict t'))) ∧
     (forall t j, V4._job_of_target σ !! t = Some j ->
        V4._job_of_target σ' !! t = Some j) ∧
     (r = Ok () ->
        NoDup targets ∧
        (forall t, t ∈ targets ->
           V4._job_of_target σ !! t = None ∧
           V4._job_of_target σ' !! t = Some (length (V4.jobs σ))) ∧
        (forall t, t ∉ targets ->
           V4._job_of_target σ' !! t = V4._job_of_target σ !! t))) ∧
  (forall σ σ' r,
     V4._collect_phonies σ = (σ', r) ->
     (forall t, t ∈ (V4._deps_of_phony σ).*1 ->
        is_Some (V4._job_of_target σ !! t) -> exists e, r = Raise e) ∧
     (forall t j, V4._job_of_target σ !! t = Some j ->
        V4._job_of_target σ' !! t = Some j)) ∧
  (forall jb σ σ' r,
     VX.construct jb σ = (σ', r) ->
     (forall t, t ∈ VX.ts jb -> is_Some (VX.job_of_target σ !! t) ->
        exists t', t' ∈ VX.ts jb ∧ r = Raise (Err (MsgKeyInDict t'))) ∧
     (forall t j, VX.job_of_target σ !! t = Some j ->
        VX.job_of_target σ' !! t = Some j) ∧
     (forall id, r = Ok id ->
        id = length (VX.job_objs σ) ∧ NoDup (VX.ts jb) ∧
        (forall t, t ∈ VX.ts jb ->
           VX.job_of_target σ !! t = None ∧ VX.job_of_target σ' !! t = Some id) ∧
        (forall t, t ∉ VX.ts jb ->
           VX.job_of_target σ' !! t = VX.job_of_target σ !! t))).
Proof.
  split; [|split].
  - intros σ targets deps desc uh sr prio fn σ' r. unfold V4.file.
    destruct (V4.set_unique_each _ _ _) as [d r0] eqn:H. intros [= <- <-].
    simpl. split; [|split].
    + intros t Ht Hb. eapply set_unique_each_bound; eauto.
    + intros t j Hj. eapply lookup_weaken; [exact Hj|].
      eapply set_unique_each_mono; eauto.
    + intros ->. by apply set_unique_each_Ok.
  - intros σ σ' r. unfold V4._collect_phonies.
    destruct (V4._collect_phonies_loop _ _ _ _ _ _) as [[js d] r0] eqn:H.
    intros [= <- <-]. simpl. split.
    + intros t Ht Hb. eapply _collect_phonies_loop_bound; eauto.
    + intros t j Hj. eapply lookup_weaken; [exact Hj|].
      eapply _collect_phonies_loop_mono; eauto.
  - intros jb σ σ' r. unfold VX.construct.
    rewrite register_targets_set_unique_each.
    destruct (V4.set_unique_each _ _ _) as [d r0] eqn:H. intros [= <- <-].
    simpl. split; [|split].
    + intros t Ht Hb.
      destruct (set_unique_each_bound _ _ _ _ _ t H Ht Hb) as (t' & Ht' & ->).
      eauto.
    + intros t j Hj. eapply lookup_weaken; [exact Hj|].
      eapply set_unique_each_mono; eauto.
    + intros id Hid. destruct r0 as [[]|]; [|discriminate].
      injection Hid as <-. split; [done|]. by apply set_unique_each_Ok.
Qed.

(** A second [@file("a", ...)] in v4. *)
Lemma C7_target_bound_once_witness :
  exists t', t' ∈ ["b"; "a"] ∧
    (V4.file (V4.file (V4.DSL_init false) ["a"] [] None None false 0 (V4.ActUser 0)).1
       ["b"; "a"] [] None None false 0 (V4.ActUser 1)).2
    = Raise (Err (MsgKeyInDict t')).
Proof.
  refine (proj1 (proj1 C7_target_bound_once _ ["b"; "a"] [] None None false 0
                   (V4.ActUser 1) _ _ _) "a" _ _).
  - apply surjective_pairing.
  - by right; left.
  - vm_compute. eauto.
Defined.

End JobTable.

(** * The metadata table: vx replaces, v4 merges *)
Section Metadata.

Lemma meta_loop_spec kwargs : forall m m' r,
  V4.meta_loop m kwargs = (m', r) ->
  m ⊆ m' ∧
  (r = Ok () ->
     (forall k v, (k, v) ∈ kwargs -> m' !! k = Some v) ∧
     (forall k, k ∉ kwargs.*1 -> m' !! k = m !! k)) ∧
  (forall k v old, (k, v) ∈ kwargs -> m !! k = Some old -> old ≠ v ->
     exists k' old' v', r = Raise (Err (MsgOverwriteMeta k' old' v'))).
Proof.
  induction kwargs as [|[k0 v0] kwargs IH]; intros m m' r; simpl.
  - intros [= <- <-]. split; [done|]. split.
    + intros _. split; [|done]. intros k v H. by apply elem_of_nil in H.
    + intros k v old H. by apply elem_of_nil in H.
  - destruct (m !! k0) as [old0|] eqn:Hk0.
    + case_decide as Hold.
      * subst old0. rewrite insert_id by done. intros H.
        destruct (IH _ _ _ H) as (Hs & Hok & Hbad).
        split; [done|]. split.
        -- intros ->. destruct (Hok eq_refl) as [Hin Hout]. split.
           ++ intros k v [[= -> ->]|Hkv]%elem_of_cons; [|by apply Hin].
              eapply lookup_weaken; [exact Hk0|exact Hs].
           ++ intros k Hk. apply not_elem_of_cons in Hk as [_ Hk]. by apply Hout.
        -- intros k v old [[= -> ->]|Hkv]%elem_of_cons Hm Hne; [congruence|].
           by eapply Hbad.
      * intros [= <- <-]. split; [done|]. split; [discriminate|].
        intros. eauto.
    + intros H. destruct (IH _ _ _ H) as (Hs & Hok & Hbad).
      split; [etrans; [|exact Hs]; by apply insert_subseteq|]. split.
      * intros ->. destruct (Hok eq_refl) as [Hin Hout]. split.
        -- intros k v [[= -> ->]|Hkv]%elem_of_cons; [|by apply Hin].
           eapply lookup_weaken; [|exact Hs]. apply lookup_insert_eq.
        -- intros k Hk. apply not_elem_of_cons in Hk as [Hne Hk].
           rewrite (Hout k Hk). by rewrite lookup_insert_ne.
      * intros k v old [[= -> ->]|Hkv]%elem_of_cons Hm Hne; [congruence|].
        eapply (Hbad k v old); [done| |done].
        rewrite lookup_insert_ne; [done|]. intros ->. congruence.
Qed.

Lemma options_of_getitem tbl uri :
  (V4.TDefaultDict_getitem tbl uri).2 = options_of tbl uri
  ∧ forall u, options_of (V4.TDefaultDict_getitem tbl uri).1 u = options_of tbl u.
Proof.
  unfold V4.TDefaultDict_getitem, options_of.
  destruct (tbl !! uri) eqn:H; simpl; [done|]. split; [done|].
  intros u. destruct (decide (uri = u)) as [->|].
  - by rewrite lookup_insert_eq, H.
  - by rewrite lookup_insert_ne.
Qed.

Lemma VX_getitem_V4 tbl uri :
  VX.TDefaultDict_getitem tbl uri = V4.TDefaultDict_getitem tbl uri.
Proof. done. Qed.

(** The turns of [rm_targets] leave the options of every URI as they
    read. *)
Lemma metadata_getitem_options t σ :
  (VX.metadata_getitem t σ).2 = Ok (options_of (VX.metadata σ) t)
  ∧ forall u, options_of (VX.metadata (VX.metadata_getitem t σ).1) u
              = options_of (VX.metadata σ) u.
Proof.
  unfold VX.metadata_getitem. rewrite VX_getitem_V4.
  destruct (options_of_getitem (VX.metadata σ) t) as [H1 H2].
  destruct (V4.TDefaultDict_getitem (VX.metadata σ) t) as [tbl m]; simpl in *.
  by subst m.
Qed.

Section RmTargets.
Context {R : Type}.
Variable E : VX.env R.

Lemma on_dsl_getitem t (w : VX.world R) :
  VX.on_dsl (VX.metadata_getitem t) w
  = ({| VX.w_dsl := (VX.metadata_getitem t (VX.w_dsl w)).1;
        VX.w_res := VX.w_res w; VX.w_log := VX.w_log w |},
     Ok (options_of (VX.metadata (VX.w_dsl w)) t)).
Proof.
  unfold VX.on_dsl.
  destruct (metadata_getitem_options t (VX.w_dsl w)) as [H _].
  destruct (VX.metadata_getitem t (VX.w_dsl w)) as [σ r]; simpl in *.
  by subst r.
Qed.

Lemma rm_options t (w w' : VX.world R) r u :
  VX.rm E t w = (w', r) ->
  options_of (VX.metadata (VX.w_dsl w')) u = options_of (VX.metadata (VX.w_dsl w)) u
  ∧ VX.w_log w' = VX.w_log w.
Proof.
  unfold VX.rm, mbind, ST_bind, lift.
  destruct (VX.uriparse E t) as [puri|e]; [|by intros [= <- <-]].
  rewrite on_dsl_getitem.
  destruct (metadata_getitem_options t (VX.w_dsl w)) as [_ Hopt].
  case_decide.
  - destruct (VX.assert _); [|intros [= <- <-]; simpl; auto].
    destruct (VX.of_scheme E (scheme puri)).
    + unfold VX.on_res. simpl. destruct (VX.a_rm _ _ _ _).
      intros [= <- <-]; simpl; auto.
    + intros [= <- <-]; simpl; auto.
  - destruct (VX.of_scheme E (scheme puri)).
    + unfold VX.on_res. simpl. destruct (VX.a_rm _ _ _ _).
      intros [= <- <-]; simpl; auto.
    + intros [= <- <-]; simpl; auto.
Qed.

(** One turn: what it logs, and that it leaves the options as they read. *)
Lemma rm_target_spec j t (w w' : VX.world R) r :
  VX.rm_target E j t w = (w', r) ->
  (forall u, options_of (VX.metadata (VX.w_dsl w')) u
             = options_of (VX.metadata (VX.w_dsl w)) u) ∧
  VX.w_log w' =
    (if VX.keeps (options_of (VX.metadata (VX.w_dsl w)) t) then VX.w_log w
     else EvRm j t :: VX.w_log w) ∧
  (forall e, r = Raise e -> is_missing e = false).
Proof.
  unfold VX.rm_target, mbind, ST_bind. rewrite on_dsl_getitem.
  destruct (metadata_getitem_options t (VX.w_dsl w)) as [_ Hopt].
  destruct (VX.keeps _).
  - intros [= <- <-]. simpl. split; [done|]. split; [done|discriminate].
  - unfold VX.log, VX.try_rm. simpl.
    destruct (VX.rm E t _) as [w1 r1] eqn:Hrm.
    destruct (rm_options _ _ _ _ t Hrm) as [_ Hlog].
    assert (Ho : forall u, options_of (VX.metadata (VX.w_dsl w1)) u
                           = options_of (VX.metadata (VX.w_dsl w)) u).
    { intros u. destruct (rm_options _ _ _ _ u Hrm) as [-> _]. apply Hopt. }
    simpl in Hlog. destruct r1 as [[]|e].
    + intros [= <- <-]. split; [done|]. split; [done|discriminate].
    + destruct (is_missing e) eqn:He; intros [= <- <-].
      * split; [done|]. split; [done|discriminate].
      * split; [done|]. split; [done|]. by intros ? [= <-].
Qed.

(** The loop attempts every target that is not kept, in turn, as long as
    no deletion raises past the handler. *)
Lemma rm_each_spec j ts : forall (w w' : VX.world R) r,
  VX.rm_each E j ts w = (w', r) ->
  (forall u, options_of (VX.metadata (VX.w_dsl w')) u
             = options_of (VX.metadata (VX.w_dsl w)) u) ∧
  (r = Ok () ->
   VX.w_log w' =
     reverse (EvRm j <$> filter (fun t => VX.keeps (options_of (VX.metadata (VX.w_dsl w)) t) = false) ts)
     ++ VX.w_log w).
Proof.
  induction ts as [|t ts IH]; intros w w' r; simpl.
  - intros [= <- <-]. done.
  - unfold mbind, ST_bind.
    destruct (VX.rm_target E j t w) as [w1 r1] eqn:H1.
    destruct (rm_target_spec _ _ _ _ _ H1) as (Ho1 & Hl1 & _).
    destruct r1 as [[]|e]; [|intros [= <- <-]; split; [done|discriminate]].
    intros H. destruct (IH _ _ _ H) as [Ho Hl].
    split; [intros u; by rewrite Ho, Ho1|].
    intros Hr. rewrite (Hl Hr), Hl1.
    rewrite (list_filter_iff _ (fun t => VX.keeps (options_of (VX.metadata (VX.w_dsl w)) t) = false) ts)
      by (intros x; by rewrite Ho1).
    rewrite filter_cons. destruct (VX.keeps (options_of _ t)) eqn:Hk.
    + rewrite decide_False by done. done.
    + rewrite decide_True by done. simpl. by rewrite reverse_cons, <- app_assoc.
Qed.
End RmTargets.

(** C10.  In vx a call of [meta] stores the options of that call as the
    whole entry of the URI, whatever the entry was: after
    [meta(u, keep=True)] and then [meta(u, **kwargs)] without [keep], the
    flag is gone, and [rm_targets] of a file job with the target [u], when
    it runs to its end, has called [rm(u)].  In v4 a call of [meta] adds to
    the entry: it never changes an option that is set, it raises an [Err]
    when asked to, and when it returns the entry holds the old options and
    the new ones. *)
Theorem C10_meta_replaces_or_merges :
  (forall uri kw1 kw2 σ,
     let σ1 := (VX.meta uri kw1 σ).1 in
     VX.meta uri kw2 σ1 = (VX.set_metadata σ1 (<[uri := list_to_map kw2]> (VX.metadata σ1)), Ok uri)
     ∧ options_of (VX.metadata (VX.meta uri kw2 σ1).1) uri = list_to_map kw2) ∧
  (forall R (E : VX.env R) (w w' : VX.world R) j jb u kw2,
     VX.job_objs (VX.w_dsl w) !! j = Some jb ->
     VX.kind jb = VX.FileJob ->
     u ∈ VX.set_iter E (VX.ts_unique jb) ->
     "keep" ∉ kw2.*1 ->
     let σ2 := (VX.meta u kw2 (VX.meta u [("keep", VBool true)] (VX.w_dsl w)).1).1 in
     let w2 := {| VX.w_dsl := σ2; VX.w_res := VX.w_res w; VX.w_log := [] |} in
     VX.rm_targets E j w2 = (w', Ok ()) ->
     EvRm j u ∈ VX.w_log w') ∧
  (forall tbl name kwargs tbl' r,
     V4.meta tbl name kwargs = (tbl', r) ->
     (forall k v, options_of tbl name !! k = Some v ->
        options_of tbl' name !! k = Some v) ∧
     (forall k v old, (k, v) ∈ kwargs -> options_of tbl name !! k = Some old ->
        old ≠ v ->
        exists k' old' v', r = Raise (Err (MsgOverwriteMeta k' old' v'))) ∧
     (r = Ok name ->
        (forall k v, (k, v) ∈ kwargs -> options_of tbl' name !! k = Some v) ∧
        (forall k, k ∉ kwargs.*1 ->
           options_of tbl' name !! k = options_of tbl name !! k))).
Proof.
  split; [|split].
  - intros uri kw1 kw2 σ σ1. split; [done|].
    unfold options_of. simpl. by rewrite lookup_insert_eq.
  - intros R E w w' j jb u kw2 Hj Hk Hu Hkeep σ2 w2.
    unfold VX.rm_targets, mbind, ST_bind, get_state.
    assert (Hj2 : VX.job_objs (VX.w_dsl w2) !! j = Some jb) by exact Hj.
    rewrite Hj2, Hk. intros H.
    destruct (rm_each_spec E _ _ _ _ _ H) as [_ Hlog].
    rewrite (Hlog eq_refl), app_nil_r.
    apply elem_of_reverse, list_elem_of_fmap. exists u. split; [done|].
    apply list_elem_of_filter. split; [|done].
    unfold options_of. simpl. rewrite lookup_insert_eq. simpl.
    unfold VX.keeps.
    destruct (list_to_map kw2 !! "keep") eqn:Hl; [|done].
    apply elem_of_list_to_map_2 in Hl. exfalso. apply Hkeep.
    apply list_elem_of_fmap. by exists ("keep", p).
  - intros tbl name kwargs tbl' r. unfold V4.meta.
    destruct (options_of_getitem tbl name) as [Hm Ho].
    destruct (V4.TDefaultDict_getitem tbl name) as [tbl1 m]. simpl in Hm.
    subst m.
    destruct (V4.meta_loop _ kwargs) as [m' r0] eqn:Hloop.
    intros [= <- <-].
    destruct (meta_loop_spec _ _ _ _ Hloop) as (Hs & Hok & Hbad).
    assert (Hn : options_of (<[name := m']> tbl1) name = m').
    { unfold options_of. by rewrite lookup_insert_eq. }
    rewrite Hn. split; [|split].
    + intros k v Hk. eapply lookup_weaken; [exact Hk|exact Hs].
    + intros k v old Hkv Hold Hne.
      destruct (Hbad k v old Hkv Hold Hne) as (k' & old' & v' & ->). eauto.
    + intros Hr. destruct r0 as [[]|]; [|discriminate]. by apply Hok.
Qed.

(** The flag set by a first call is gone after a second one, and the
    target is deleted when the action fails. *)
Lemma C10_meta_replaces_or_merges_witness :
  EvRm 0 "a" ∈
    VX.w_log
      (VX.rm_targets E_local 0
         {| VX.w_dsl :=
              (VX.meta "a" [("credential", VStr "key.json")]
                 (VX.meta "a" [("keep", VBool true)]
                    (VX.file ["a"] [] None None false 0
                       (VX.DSL_init false false)).1).1).1;
            VX.w_res := {["a" := 5]};
            VX.w_log := [] |}).1.
Proof.
  refine (proj1 (proj2 C10_meta_replaces_or_merges) _ E_local
            {| VX.w_dsl := (VX.file ["a"] [] None None false 0
                              (VX.DSL_init false false)).1;
               VX.w_res := {["a" := 5]}; VX.w_log := [] |}
            _ 0%nat _ "a" [("credential", VStr "key.json")] _ _ _ _ _).
  - reflexivity.
  - reflexivity.
  - vm_compute. by left.
  - simpl. intros [H|H]%elem_of_cons; [discriminate|by apply elem_of_nil in H].
  - vm_compute. reflexivity.
Defined.

End Metadata.

(** * The staleness rule *)
Section StalenessFacts.

Lemma fold_left_max_spec l : forall x,
  is_max_of (fold_left Z.max l x) (x :: l).
Proof.
  induction l as [|y l IH]; intros x; simpl.
  - split; [by left|]. intros z ->%list_elem_of_singleton. lia.
  - destruct (IH (Z.max x y)) as [Hin Hle]. split.
    + apply elem_of_cons in Hin as [->|Hin].
      * destruct (Z.max_spec x y) as [[_ ->]|[_ ->]]; [right; by left|by left].
      * right. by right.
    + intros z Hz. assert (Hxy : Z.max x y <= fold_left Z.max l (Z.max x y))
        by (apply Hle; by left).
      apply elem_of_cons in Hz as [->|[->|Hz]%elem_of_cons]; [lia|lia|].
      apply Hle. by right.
Qed.

Lemma fold_left_min_spec l : forall x,
  is_min_of (fold_left Z.min l x) (x :: l).
Proof.
  induction l as [|y l IH]; intros x; simpl.
  - split; [by left|]. intros z ->%list_elem_of_singleton. lia.
  - destruct (IH (Z.min x y)) as [Hin Hle]. split.
    + apply elem_of_cons in Hin as [->|Hin].
      * destruct (Z.min_spec x y) as [[_ ->]|[_ ->]]; [by left|right; by left].
      * right. by right.
    + intros z Hz. assert (Hxy : fold_left Z.min l (Z.min x y) <= Z.min x y)
        by (apply Hle; by left).
      apply elem_of_cons in Hz as [->|[->|Hz]%elem_of_cons]; [lia|lia|].
      apply Hle. by right.
Qed.

Lemma is_max_of_unique m m' l : is_max_of m l -> is_max_of m' l -> m = m'.
Proof. intros [H1 H2] [H3 H4]. apply H2 in H3. apply H4 in H1. lia. Qed.

Lemma is_min_of_unique m m' l : is_min_of m l -> is_min_of m' l -> m = m'.
Proof. intros [H1 H2] [H3 H4]. apply H2 in H3. apply H4 in H1. lia. Qed.

Lemma gt_time_spec ld t :
  gt_time (py_max_default ld) t = true <-> exists m, is_max_of m ld ∧ m > t.
Proof.
  destruct ld as [|x l]; simpl.
  - split; [discriminate|]. intros (m & [Hm _] & _). by apply elem_of_nil in Hm.
  - rewrite bool_decide_eq_true. pose proof (fold_left_max_spec l x) as Hmax.
    split.
    + intros H. eauto.
    + intros (m & Hm & Hgt). by rewrite (is_max_of_unique _ _ _ Hmax Hm).
Qed.

Section Body.
Context {S : Type}.
Variables probe_target probe_dep : string -> ST S Z.

(** What [need_update_body] returns, from what the two rounds of probes
    give. *)
Lemma need_update_body_spec ts ds (s s1 s2 : S) rt ld :
  ts ≠ [] ->
  gen_values probe_target ts s = (s1, rt) ->
  (forall e, rt = Raise e -> is_missing e = true) ->
  gen_values probe_dep ds s1 = (s2, Ok ld) ->
  exists b,
    need_update_body probe_target probe_dep ts ds s = (s2, Ok b) ∧
    (b = true <-> stale rt ld) ∧
    (forall lt m, rt = Ok lt -> is_max_of m ld -> is_min_of m lt -> b = false) ∧
    (forall lt, rt = Ok lt -> ld = [] -> b = false).
Proof.
  intros Hts Ht Hmiss Hd. unfold need_update_body, mbind, ST_bind.
  rewrite Ht. destruct rt as [lt|e].
  - assert (Hlt : length lt = length ts).
    { clear -Ht. revert s lt Ht. induction ts as [|t ts IH]; intros s lt; simpl.
      - by intros [= <- <-].
      - unfold mbind, ST_bind. destruct (probe_target t s) as [s' [x|e]]; [|done].
        destruct (gen_values probe_target ts s') as [s'' [l|e]] eqn:H; [|done].
        intros [= <- <-]. simpl. f_equal. eauto. }
    destruct lt as [|x lt]; [destruct ts; done|].
    unfold lift. simpl. rewrite Hd. simpl.
    pose proof (fold_left_min_spec lt x) as Hmin.
    eexists. split; [done|]. split; [|split].
    + rewrite gt_time_spec. split.
      * intros (m & Hm & Hgt). right. eauto 10.
      * intros [[e He]|(lt' & m & t & [= <-] & Hm & Ht' & Hgt)]; [done|].
        exists m. split; [done|].
        by rewrite (is_min_of_unique _ _ _ Hmin Ht').
    + intros lt' m [= <-] Hm Hm'. apply not_true_is_false.
      rewrite gt_time_spec. intros (m' & Hmax & Hgt).
      rewrite (is_max_of_unique _ _ _ Hmax Hm) in Hgt.
      rewrite (is_min_of_unique _ _ _ Hmin Hm') in Hgt. lia.
    + intros lt' [= <-] ->. done.
  - rewrite (Hmiss e eq_refl). rewrite Hd. simpl.
    exists true. split; [done|]. split; [|split]; [|done..].
    split; [|done]. intros _. left. eauto.
Qed.

(** A probe of a target that raises anything else is not absorbed. *)
Lemma need_update_body_raises ts ds (s s1 : S) e :
  gen_values probe_target ts s = (s1, Raise e) -> is_missing e = false ->
  need_update_body probe_target probe_dep ts ds s = (s1, Raise e).
Proof.
  intros Ht He. unfold need_update_body, mbind, ST_bind. by rewrite Ht, He.
Qed.
End Body.

End StalenessFacts.

(** * The hash-time cache *)
Section HashCache.
Variable E : V4.env.

Lemma path_nonempty_assert (puri : URI) :
  path puri ≠ "" -> V4.assert (negb (String.eqb (path puri) "")) = Ok ().
Proof.
  intros H. unfold V4.assert.
  destruct (String.eqb_spec (path puri) ""); [done|done].
Qed.

(** C4.  The cache file of the URI exists, holds a record
    [(t_cached, h_cached)], and is not newer than the resource.  When the
    digest computed now is [h_cached], the record stays, the cache file
    gets the current time as its modification time, and [t_cached] is
    returned; otherwise the record becomes [(t_uri, h_now)] and [t_uri] is
    returned.  Hence, as long as the digest is the cached one, the value
    returned is [t_cached] whatever [t_uri] is: a new modification time
    alone does not change what the oracle says of the dep. *)
Theorem C4_hash_cache_hit_or_refresh :
  forall t_uri force_hash puri w c t_cached h_cached h_now,
    path puri ≠ "" ->
    V4.cache_files w !! cache_path_of E puri = Some c ->
    V4.content c = Ok (t_cached, h_cached) ->
    force_hash () = Ok h_now ->
    (V4.st_mtime c <= t_uri ->
       (h_now = h_cached ->
          V4._min_of_t_uri_and_t_cache E t_uri force_hash puri w
          = (V4.set_cache_files w
               (<[cache_path_of E puri :=
                    {| V4.st_mtime := V4.time_time E;
                       V4.content := Ok (t_cached, h_cached) |}]>
                  (V4.cache_files w)),
             Ok t_cached)) ∧
       (h_now ≠ h_cached ->
          V4._min_of_t_uri_and_t_cache E t_uri force_hash puri w
          = (V4.set_cache_files w
               (<[cache_path_of E puri :=
                    {| V4.st_mtime := V4.time_time E;
                       V4.content := Ok (t_uri, h_now) |}]>
                  (V4.cache_files w)),
             Ok t_uri))) ∧
    (h_now = h_cached ->
       (V4._min_of_t_uri_and_t_cache E t_uri force_hash puri w).2 = Ok t_cached).
Proof.
  intros t_uri force_hash puri w c t_cached h_cached h_now Hp Hc Hcont Hh.
  unfold V4._min_of_t_uri_and_t_cache, mbind, ST_bind, lift, get_state.
  rewrite (path_nonempty_assert _ Hp).
  fold (cache_path_of E puri). rewrite Hc, Hcont.
  split.
  - intros Hle. rewrite bool_decide_eq_false_2 by lia. rewrite Hh.
    split; intros Heq.
    + rewrite decide_True by done. unfold V4.utime. rewrite Hc, Hcont. done.
    + rewrite decide_False by done. done.
  - intros Heq. case_bool_decide; [done|]. rewrite Hh.
    rewrite decide_True by done. unfold V4.utime. by rewrite Hc.
Qed.
End HashCache.

Section HashCacheExamples.

Lemma C4_hash_cache_hit_or_refresh_witness :
  V4._min_of_t_uri_and_t_cache (E4_local ∅ 60) 50 (fun _ => Ok "h")
    (local_uri "d") w4_cached
  = (V4.set_cache_files w4_cached
       (<[cache_path_of (E4_local ∅ 60) (local_uri "d") :=
            {| V4.st_mtime := 60; V4.content := Ok (10, "h") |}]>
          (V4.cache_files w4_cached)),
     Ok 10).
Proof.
  apply (C4_hash_cache_hit_or_refresh (E4_local ∅ 60) 50 (fun _ => Ok "h")
           (local_uri "d") w4_cached
           {| V4.st_mtime := 20; V4.content := Ok (10, "h") |} 10 "h" "h");
    [discriminate|reflexivity|reflexivity|reflexivity|simpl; lia|reflexivity].
Defined.

(** Scenario 3 of the spec.  The target ["t"] was built at 15 from the dep
    ["d"]; [touch d] at 50 leaves the content as it is.  The next check,
    at 60, compares digests, finds the job up to date and advances the
    modification time of the cache file. *)
Lemma hash_gated_no_rebuild :
  let E := E4_local {["t" := (15, "ht"); "d" := (50, "h")]} 60 in
  let j := V4.new_job V4.FileJob (V4.ActUser 0) ["t"] ["d"] [] 0 true false in
  (V4.need_update E j w4_cached).2 = Ok false ∧
  V4.st_mtime <$>
    (V4.cache_files (V4.need_update E j w4_cached).1
       !! cache_path_of E (local_uri "d")) = Some 60.
Proof. vm_compute. done. Qed.

(** Without the hash the same touch makes the job stale. *)
Lemma mtime_only_rebuild :
  let E := E4_local {["t" := (15, "ht"); "d" := (50, "h")]} 60 in
  let j := V4.new_job V4.FileJob (V4.ActUser 0) ["t"] ["d"] [] 0 false false in
  (V4.need_update E j w4_cached).2 = Ok true.
Proof. vm_compute. done. Qed.

(** C5 fails on the code.  The docstrings promise
    [min(uri_time, cache_time)].  A dep whose record says 100 is replaced
    by a file last modified at 50; the cache file, written at 200, is newer
    than the resource, and the oracle answers 100, which exceeds the
    modification time of the resource. *)
Lemma C5_mtime_exceeds_t_uri :
  let E := E4_local {["d" := (50, "h2")]} 300 in
  let w := {| V4.meta_tbl := ∅; V4.time_of_dep_cache := ∅;
              V4.cache_files :=
                {[ cache_path_of E (local_uri "d") :=
                     {| V4.st_mtime := 200; V4.content := Ok (100, "h1") |} ]} |} in
  V4.getmtime E "d" = Ok 50 ∧
  (V4.mtime_of E "d" false VNone w).2 = Ok 50 ∧
  (V4.mtime_of E "d" true VNone w).2 = Ok 100 ∧
  (V4._min_of_t_uri_and_t_cache E 50 (fun _ => V4._hash_of_path E "d")
     (local_uri "d") w).2 = Ok 100.
Proof. vm_compute. done. Qed.

End HashCacheExamples.

(** * The priority queue *)
Ltac Zify.zify_post_hook ::= Z.to_euclidean_division_equations.

#[local] Arguments Nat.div : simpl never.
#[local] Arguments Nat.mul : simpl never.

Section HeapPerm.
Context {A : Type}.
Variable lt : A -> A -> bool.

Lemma cons_insert_swap (l : list A) : forall (j : nat) x y,
  (j < length l)%nat -> x :: <[j := y]> l ≡ₚ y :: <[j := x]> l.
Proof.
  induction l as [|b l IH]; intros j x y Hj; simpl in *; [lia|].
  destruct j as [|j]; simpl.
  - apply perm_swap.
  - rewrite (perm_swap b x). rewrite (IH j x y) by lia. apply perm_swap.
Qed.

Lemma insert_swap_perm (l : list A) : forall (i j : nat) x y,
  i ≠ j -> (i < length l)%nat -> (j < length l)%nat ->
  <[i := x]> (<[j := y]> l) ≡ₚ <[i := y]> (<[j := x]> l).
Proof.
  induction l as [|b l IH]; intros i j x y Hij Hi Hj; simpl in *; [lia|].
  destruct i as [|i], j as [|j]; simpl; try lia.
  - apply cons_insert_swap. lia.
  - symmetry. apply cons_insert_swap. lia.
  - f_equiv. apply IH; lia.
Qed.

(** Moving the hole from [pos] to [c], whose item goes to [pos]. *)
Lemma move_hole_perm (h : list A) (pos c : nat) cv x :
  pos ≠ c -> (pos < length h)%nat -> h !! c = Some cv ->
  <[c := x]> (<[pos := cv]> h) ≡ₚ <[pos := x]> h.
Proof.
  intros Hne Hpos Hc. pose proof (lookup_lt_Some _ _ _ Hc) as Hlen.
  rewrite (insert_swap_perm h c pos x cv) by (done || lia).
  rewrite (list_insert_insert_ne h c pos) by done.
  by rewrite (list_insert_id h c cv).
Qed.

Lemma _siftdown_loop_perm turns : forall (h : list A) (pos : nat) x h' pos',
  (pos < length h)%nat ->
  Heapq._siftdown_loop lt turns h 0 pos x = (h', pos') ->
  (pos' < length h')%nat ∧ length h' = length h ∧
  <[pos' := x]> h' ≡ₚ <[pos := x]> h.
Proof.
  induction turns as [|turns IH]; intros h pos x h' pos' Hpos; simpl.
  - intros [= <- <-]. done.
  - case_bool_decide as H0; [|intros [= <- <-]; done].
    destruct (h !! ((pos - 1) / 2)%nat) as [parent|] eqn:Hp;
      [|intros [= <- <-]; done].
    destruct (lt x parent); [|intros [= <- <-]; done].
    intros H. apply IH in H as (H1 & H2 & H3).
    + rewrite length_insert in H2. split; [done|]. split; [done|].
      rewrite H3. apply move_hole_perm; [lia|done|done].
    + rewrite length_insert. lia.
Qed.

Lemma _siftdown_perm (h : list A) (pos : nat) :
  Heapq._siftdown lt h 0 pos ≡ₚ h.
Proof.
  unfold Heapq._siftdown. destruct (h !! pos) as [x|] eqn:Hx; [|done].
  destruct (Heapq._siftdown_loop lt pos h 0 pos x) as [h' pos'] eqn:H.
  apply _siftdown_loop_perm in H as (_ & _ & ->); [|by eapply lookup_lt_Some].
  by rewrite list_insert_id.
Qed.

Lemma _siftup_loop_perm turns : forall (h : list A) (pos : nat) h' pos',
  (pos < length h)%nat ->
  Heapq._siftup_loop lt turns h (length h) pos = (h', pos') ->
  (pos' < length h')%nat ∧ length h' = length h ∧
  forall x, <[pos' := x]> h' ≡ₚ <[pos := x]> h.
Proof.
  induction turns as [|turns IH]; intros h pos h' pos' Hpos; simpl.
  - intros [= <- <-]. done.
  - case_bool_decide as H0; [|intros [= <- <-]; done].
    set (c := match h !! (2 * pos + 1)%nat, h !! (2 * pos + 1 + 1)%nat with
              | Some l, Some r =>
                  if bool_decide (2 * pos + 1 + 1 < length h)%nat && negb (lt l r)
                  then (2 * pos + 1 + 1)%nat else (2 * pos + 1)%nat
              | _, _ => (2 * pos + 1)%nat
              end).
    assert (Hc : (c = 2 * pos + 1 ∨ c = 2 * pos + 2)%nat ∧ (c < length h)%nat).
    { subst c. destruct (h !! (2 * pos + 1)%nat) eqn:Hl; [|lia].
      destruct (h !! (2 * pos + 1 + 1)%nat) eqn:Hr; [|lia].
      apply lookup_lt_Some in Hr. destruct (_ && _); lia. }
    destruct Hc as [Hc Hclt].
    destruct (lookup_lt_is_Some_2 h c Hclt) as [cv Hcv]. rewrite Hcv.
    intros H. rewrite <- (length_insert h pos cv) in H.
    apply IH in H as (H1 & H2 & H3).
    + rewrite length_insert in H2. split; [done|]. split; [done|].
      intros x. rewrite H3. apply move_hole_perm; [lia|done|done].
    + rewrite length_insert. lia.
Qed.

Lemma _siftup_perm (h : list A) : Heapq._siftup lt h 0 ≡ₚ h.
Proof.
  unfold Heapq._siftup. destruct (h !! 0%nat) as [x|] eqn:Hx; [|done].
  destruct (Heapq._siftup_loop lt (length h) h (length h) 0) as [h' pos'] eqn:H.
  apply _siftup_loop_perm in H as (_ & _ & H); [|by eapply lookup_lt_Some].
  rewrite _siftdown_perm, H. by rewrite list_insert_id.
Qed.

Lemma heappush_perm (h : list A) x : Heapq.heappush lt h x ≡ₚ x :: h.
Proof.
  unfold Heapq.heappush. rewrite _siftdown_perm.
  by rewrite Permutation_app_comm.
Qed.

Lemma heappop_None (h : list A) : Heapq.heappop lt h = None <-> h = [].
Proof.
  unfold Heapq.heappop. destruct h as [|a h] using rev_ind; [done|].
  rewrite last_snoc, removelast_last. split; [|by destruct h].
  by destruct h.
Qed.

Lemma heappop_perm (h : list A) x h' :
  Heapq.heappop lt h = Some (x, h') -> h ≡ₚ x :: h'.
Proof.
  unfold Heapq.heappop. destruct h as [|z h _] using rev_ind; [done|].
  rewrite last_snoc, removelast_last. destruct h as [|r h].
  - intros [= <- <-]. done.
  - intros [= <- <-]. rewrite _siftup_perm. simpl. f_equiv.
    symmetry. apply Permutation_cons_append.
Qed.
End HeapPerm.

Section HeapOrder.
Context {A : Type}.
Variable lt : A -> A -> bool.
Variable key : A -> Z.
Hypothesis lt_key : forall a b, lt a b = bool_decide (key a < key b).

Lemma heap_ok_root (h : list A) r :
  heap_ok key h -> h !! 0%nat = Some r ->
  forall (i : nat) x, h !! i = Some x -> key r <= key x.
Proof.
  intros Hok Hr i. induction i as [i IH] using lt_wf_ind. intros x Hx.
  destruct (decide (i = 0%nat)) as [->|Hi].
  - rewrite Hr in Hx. injection Hx as ->. lia.
  - pose proof (lookup_lt_Some _ _ _ Hx) as Hlen.
    destruct (lookup_lt_is_Some_2 h ((i - 1) / 2)%nat) as [y Hy]; [lia|].
    etrans; [apply (IH ((i - 1) / 2)%nat); [lia|exact Hy]|].
    apply (Hok i); [lia|done|done].
Qed.

(** Filling the hole with an item that is between the parent of the hole
    and its children gives a heap. *)
Lemma hole_fill (h : list A) (pos : nat) x :
  hole key h pos ->
  (forall (i : nat) a, (0 < i)%nat -> ((i - 1) / 2)%nat = pos ->
     h !! i = Some a -> key x <= key a) ->
  (pos = 0%nat ∨
   exists parent, h !! ((pos - 1) / 2)%nat = Some parent ∧ key parent <= key x) ->
  heap_ok key (<[pos := x]> h).
Proof.
  intros (Hlen & Haway & Hgrand) Hchild Hpar i a b Hi Ha Hb.
  destruct (decide (i = pos)) as [->|Hne].
  - rewrite list_lookup_insert_eq in Ha by done. injection Ha as <-.
    rewrite list_lookup_insert_ne in Hb by lia.
    destruct Hpar as [->|(parent & Hp & Hle)]; [lia|]. congruence.
  - rewrite list_lookup_insert_ne in Ha by done.
    destruct (decide (((i - 1) / 2)%nat = pos)) as [Hp|Hp].
    + rewrite Hp, list_lookup_insert_eq in Hb by done. injection Hb as <-.
      by apply (Hchild i a).
    + rewrite list_lookup_insert_ne in Hb by done. by apply (Haway i a b).
Qed.

Lemma hole_insert (h : list A) (pos : nat) x :
  hole key h pos -> hole key (<[pos := x]> h) pos.
Proof.
  intros (Hlen & Haway & Hgrand). split; [by rewrite length_insert|]. split.
  - intros i a b Hi Hne Hp Ha Hb.
    rewrite list_lookup_insert_ne in Ha, Hb by done. by apply (Haway i a b).
  - intros i a g Hi Hp Hpos Ha Hg.
    rewrite list_lookup_insert_ne in Ha, Hg by lia. by apply (Hgrand i a g).
Qed.

Lemma _siftdown_loop_ok turns : forall (h : list A) (pos : nat) x h' pos',
  (pos <= turns)%nat -> hole key h pos ->
  (forall (i : nat) a, (0 < i)%nat -> ((i - 1) / 2)%nat = pos ->
     h !! i = Some a -> key x <= key a) ->
  Heapq._siftdown_loop lt turns h 0 pos x = (h', pos') ->
  heap_ok key (<[pos' := x]> h').
Proof.
  induction turns as [|turns IH]; intros h pos x h' pos' Hturns Hhole Hchild;
    simpl.
  - intros [= <- <-]. apply hole_fill; [done|done|left; lia].
  - case_bool_decide as H0;
      [|intros [= <- <-]; apply hole_fill; [done|done|left; lia]].
    pose proof Hhole as (Hlen & Haway & Hgrand).
    destruct (lookup_lt_is_Some_2 h ((pos - 1) / 2)%nat) as [parent Hp]; [lia|].
    rewrite Hp, lt_key. case_bool_decide as Hlt.
    + apply IH; [lia| |].
      * split; [rewrite length_insert; lia|]. split.
        -- intros i a b Hi Hne Hpp Ha Hb.
           assert (i ≠ pos) by (intros ->; done).
           rewrite list_lookup_insert_ne in Ha by done.
           destruct (decide (((i - 1) / 2)%nat = pos)) as [Hip|Hip].
           ++ rewrite Hip, list_lookup_insert_eq in Hb by done.
              injection Hb as <-. by apply (Hgrand i a parent).
           ++ rewrite list_lookup_insert_ne in Hb by done. by apply (Haway i a b).
        -- intros i a g Hi Hip Hpp Ha Hg.
           rewrite list_lookup_insert_ne in Hg by lia.
           assert (Hgp : key g <= key parent).
           { apply (Haway ((pos - 1) / 2)%nat); [lia|lia|lia|done|done]. }
           destruct (decide (i = pos)) as [->|Hne].
           ++ rewrite list_lookup_insert_eq in Ha by done. by injection Ha as <-.
           ++ rewrite list_lookup_insert_ne in Ha by done.
              etrans; [exact Hgp|]. apply (Haway i); [done|done|lia|done|].
              by rewrite Hip.
      * intros i a Hi Hip Ha.
        destruct (decide (i = pos)) as [->|Hne].
        -- rewrite list_lookup_insert_eq in Ha by done. injection Ha as <-. lia.
        -- rewrite list_lookup_insert_ne in Ha by done.
           assert (key parent <= key a); [|lia].
           apply (Haway i); [done|done|lia|done|]. by rewrite Hip.
    + intros [= <- <-]. apply hole_fill; [done|done|].
      right. exists parent. split; [done|lia].
Qed.

Lemma _siftup_loop_ok turns : forall (h : list A) (pos : nat) h' pos',
  (length h - pos <= turns)%nat -> hole key h pos ->
  Heapq._siftup_loop lt turns h (length h) pos = (h', pos') ->
  hole key h' pos' ∧ (length h' <= 2 * pos' + 1)%nat.
Proof.
  induction turns as [|turns IH]; intros h pos h' pos' Hturns Hhole; simpl.
  - destruct Hhole as [Hlen _]. lia.
  - case_bool_decide as H0; [|intros [= <- <-]; split; [done|lia]].
    pose proof Hhole as (Hlen & Haway & Hgrand).
    set (c := match h !! (2 * pos + 1)%nat, h !! (2 * pos + 1 + 1)%nat with
              | Some l, Some r =>
                  if bool_decide (2 * pos + 1 + 1 < length h)%nat && negb (lt l r)
                  then (2 * pos + 1 + 1)%nat else (2 * pos + 1)%nat
              | _, _ => (2 * pos + 1)%nat
              end).
    assert (Hc : exists cv, h !! c = Some cv ∧
                   (c = 2 * pos + 1 ∨ c = 2 * pos + 2)%nat ∧
                   forall (c' : nat) a, (0 < c')%nat -> ((c' - 1) / 2)%nat = pos ->
                     h !! c' = Some a -> key cv <= key a).
    { subst c.
      destruct (lookup_lt_is_Some_2 h (2 * pos + 1)%nat) as [l Hl]; [lia|].
      rewrite Hl. destruct (h !! (2 * pos + 1 + 1)%nat) as [r|] eqn:Hr.
      - pose proof (lookup_lt_Some _ _ _ Hr).
        rewrite bool_decide_eq_true_2 by done. rewrite lt_key. simpl.
        case_bool_decide as Hlr; simpl.
        + exists l. split; [done|]. split; [lia|]. intros c' a Hc' Hp Ha.
          assert (Hcc : (c' = 2 * pos + 1 ∨ c' = 2 * pos + 1 + 1)%nat) by lia.
          destruct Hcc as [->| ->]; [rewrite Hl in Ha|rewrite Hr in Ha];
            injection Ha as <-; lia.
        + exists r. split; [done|]. split; [lia|]. intros c' a Hc' Hp Ha.
          assert (Hcc : (c' = 2 * pos + 1 ∨ c' = 2 * pos + 1 + 1)%nat) by lia.
          destruct Hcc as [->| ->]; [rewrite Hl in Ha|rewrite Hr in Ha];
            injection Ha as <-; lia.
      - exists l. split; [done|]. split; [lia|]. intros c' a Hc' Hp Ha.
        assert (Hcc : (c' = 2 * pos + 1 ∨ c' = 2 * pos + 1 + 1)%nat) by lia.
        destruct Hcc as [->| ->]; [rewrite Hl in Ha|rewrite Hr in Ha];
          [injection Ha as <-; lia|done]. }
    destruct Hc as (cv & Hcv & Hc & Hmin). rewrite Hcv.
    pose proof (lookup_lt_Some _ _ _ Hcv) as Hclen.
    intros H. rewrite <- (length_insert h pos cv) in H.
    apply IH in H; [done|rewrite length_insert; lia|].
    split; [rewrite length_insert; lia|]. split.
    + intros i a b Hi Hne Hp Ha Hb.
      destruct (decide (i = pos)) as [->|Hipos].
      * rewrite list_lookup_insert_eq in Ha by done. injection Ha as <-.
        rewrite list_lookup_insert_ne in Hb by lia.
        apply (Hgrand c); [lia|lia|lia|done|done].
      * rewrite list_lookup_insert_ne in Ha by done.
        destruct (decide (((i - 1) / 2)%nat = pos)) as [Hip|Hip].
        -- rewrite Hip, list_lookup_insert_eq in Hb by done.
           injection Hb as <-. by apply (Hmin i).
        -- rewrite list_lookup_insert_ne in Hb by done. by apply (Haway i a b).
    + intros i a g Hi Hip Hcpos Ha Hg.
      assert (Hpc : ((c - 1) / 2)%nat = pos) by lia.
      rewrite Hpc, list_lookup_insert_eq in Hg by done. injection Hg as <-.
      rewrite list_lookup_insert_ne in Ha by lia.
      apply (Haway i); [done|lia|lia|done|]. by rewrite Hip.
Qed.

Lemma _siftup_ok (h : list A) :
  hole key h 0 -> heap_ok key (Heapq._siftup lt h 0).
Proof.
  intros Hhole. unfold Heapq._siftup.
  pose proof Hhole as (Hlen & _).
  destruct (lookup_lt_is_Some_2 h 0%nat Hlen) as [x Hx]. rewrite Hx.
  destruct (Heapq._siftup_loop lt (length h) h (length h) 0) as [h' pos'] eqn:H.
  pose proof (_siftup_loop_perm lt _ _ _ _ _ Hlen H) as (Hpos' & Hlen' & _).
  apply _siftup_loop_ok in H as [Hh' Hleaf]; [|lia|done].
  unfold Heapq._siftdown. rewrite list_lookup_insert_eq by done.
  destruct (Heapq._siftdown_loop lt pos' _ 0 pos' x) as [h'' pos''] eqn:H2.
  eapply _siftdown_loop_ok; [| | |exact H2]; [lia|by apply hole_insert|].
  intros i a Hi Hip Ha. apply lookup_lt_Some in Ha.
  rewrite length_insert in Ha. lia.
Qed.

Lemma heappush_ok (h : list A) x :
  heap_ok key h -> heap_ok key (Heapq.heappush lt h x).
Proof.
  intros Hok. unfold Heapq.heappush, Heapq._siftdown.
  rewrite list_lookup_middle by done.
  destruct (Heapq._siftdown_loop lt (length h) _ 0 (length h) x)
    as [h' pos'] eqn:H.
  eapply _siftdown_loop_ok; [| | |exact H]; [lia| |].
  - split; [rewrite length_app; simpl; lia|]. split.
    + intros i a b Hi Hne Hp Ha Hb.
      pose proof (lookup_lt_Some _ _ _ Ha) as Hlen.
      rewrite length_app in Hlen. simpl in Hlen.
      rewrite lookup_app_l in Ha, Hb by lia. by eapply Hok.
    + intros i a g Hi Hp Hpos Ha Hg. apply lookup_lt_Some in Ha.
      rewrite length_app in Ha. simpl in Ha. lia.
  - intros i a Hi Hp Ha. apply lookup_lt_Some in Ha.
    rewrite length_app in Ha. simpl in Ha. lia.
Qed.

Lemma heappop_ok (h : list A) x h' :
  heap_ok key h -> Heapq.heappop lt h = Some (x, h') ->
  heap_ok key h' ∧ forall y, y ∈ h -> key x <= key y.
Proof.
  intros Hok. unfold Heapq.heappop.
  destruct h as [|z h _] using rev_ind; [done|].
  rewrite last_snoc, removelast_last. destruct h as [|r h].
  - intros [= <- <-]. split.
    + intros i a b _ Ha. by rewrite lookup_nil in Ha.
    + intros y ->%list_elem_of_singleton. lia.
  - intros [= <- <-]. split.
    + apply _siftup_ok. split; [simpl; lia|]. split.
      * intros i a b Hi Hne Hp Ha Hb.
        pose proof (lookup_lt_Some _ _ _ Ha) as Hlen. simpl in Hlen.
        apply (Hok i); [done| |].
        -- rewrite lookup_app_l by (simpl; lia).
           destruct i; [lia|]. exact Ha.
        -- rewrite lookup_app_l by (simpl; lia).
           destruct ((i - 1) / 2)%nat; [lia|]. exact Hb.
      * intros i a g Hi Hp Hpos. lia.
    + intros y [i Hy]%list_elem_of_lookup.
      by eapply (heap_ok_root _ r Hok).
Qed.

Lemma queue_of_heap_ok (q : list A) : queue_of lt q -> heap_ok key q.
Proof.
  induction 1 as [|q x _ IH|q x q' _ IH Hget].
  - intros i a b _ Ha. by rewrite lookup_nil in Ha.
  - by apply heappush_ok.
  - by destruct (heappop_ok _ _ _ IH Hget).
Qed.
End HeapOrder.

Section JobQueue.

Lemma job_lt_key a b :
  VX.__lt__ a b = bool_decide (VX.priority a < VX.priority b).
Proof. done. Qed.

(** C9, as amended.  A queue of the pool holds its jobs as a heap on
    their priority.  [get] fails on the empty queue only; the job it
    returns is taken out of the queue and no job left in the queue has a
    lower priority integer.  Among jobs of the same priority the heap
    decides, which is not the order of insertion. *)
Theorem C9_lowest_priority_first :
  forall q : list VX.job,
    queue_of VX.__lt__ q ->
    (Heapq.get VX.__lt__ q = None <-> q = []) ∧
    forall j q',
      Heapq.get VX.__lt__ q = Some (j, q') ->
      q ≡ₚ j :: q' ∧
      (forall j', j' ∈ q' -> VX.priority j <= VX.priority j') ∧
      queue_of VX.__lt__ q'.
Proof.
  intros q Hq. split; [apply heappop_None|].
  intros j q' Hget. pose proof (heappop_perm _ _ _ _ Hget) as Hperm.
  split; [done|]. split; [|by eapply queue_get].
  intros j' Hj'.
  eapply (heappop_ok _ _ job_lt_key); [|exact Hget|].
  - by apply (queue_of_heap_ok _ _ job_lt_key).
  - rewrite Hperm. by right.
Qed.

(** A job of priority 1 is put before a job of priority 0, which leaves
    first. *)
Lemma C9_lowest_priority_first_witness :
  let hi := VX.new_job VX.FileJob ["hi"] [] None 1 false false in
  let q := Heapq.put VX.__lt__ (Heapq.put VX.__lt__ [] hi) job_a in
  q ≡ₚ job_a :: [hi] ∧
  (forall j', j' ∈ [hi] -> VX.priority job_a <= VX.priority j') ∧
  queue_of VX.__lt__ [hi].
Proof.
  intros hi q.
  apply (proj2 (C9_lowest_priority_first q
                  (queue_put _ _ _ (queue_put _ _ _ (queue_empty _))))).
  vm_compute. reflexivity.
Defined.

(** C9 as stated fails on ties.  The jobs a, b, c, d have the same
    priority and are put in this order; a leaves first, and then c leaves
    while b, put before c, is still in the queue. *)
Lemma C9_tie_counterexample :
  let q := foldl (Heapq.put VX.__lt__) [] [job_a; job_b; job_c; job_d] in
  Heapq.get VX.__lt__ q = Some (job_a, [job_c; job_b; job_d]) ∧
  Heapq.get VX.__lt__ [job_c; job_b; job_d] = Some (job_c, [job_b; job_d]) ∧
  VX.priority job_b = VX.priority job_c ∧
  job_b ≠ job_c.
Proof.
  split; [vm_compute; reflexivity|]. split; [vm_compute; reflexivity|].
  split; [reflexivity|]. intros H. apply (f_equal VX.ts) in H. discriminate.
Qed.
End JobQueue.

(** * The walk of the graph *)
Section Graphs.
Context {N : Type}.
Variable edge : N -> N -> Prop.

(** A job outside a set that is closed under the edges, all of whose
    successors are in the set, is on no cycle. *)
Lemma closed_no_cycle (B : N -> Prop) j :
  (forall y c, B y -> edge y c -> B c) ->
  ~ B j -> (forall c, edge j c -> B c) -> ~ tc edge j j.
Proof.
  intros Hcl Hj Hsucc Htc.
  assert (Hrtc : forall y z, rtc edge y z -> B y -> B z).
  { induction 1; eauto. }
  inversion Htc as [? ? Hjc|? c ? Hjc Hcj]; subst.
  - apply Hj. by apply Hsucc.
  - apply Hj. apply (Hrtc c); [by apply tc_rtc|by apply Hsucc].
Qed.

Lemma closed_reach (B : N -> Prop) r j :
  (forall y c, B y -> edge y c -> B c) -> B r -> rtc edge r j -> B j.
Proof. intros Hcl Hr H. induction H; eauto. Qed.
End Graphs.

Lemma NoDup_bounded_length (l : list nat) (n : nat) :
  NoDup l -> (forall y, y ∈ l -> (y < n)%nat) -> (length l <= n)%nat.
Proof.
  intros Hnd Hb. transitivity (length (seq 0%nat n)); [|by rewrite length_seq].
  apply submseteq_length.
  apply NoDup_submseteq; [done|]. intros y Hy. apply elem_of_seq.
  specialize (Hb y Hy). lia.
Qed.

Section VxInvoke.
Context {R : Type}.
Variable E : VX.env R.
Hypothesis HE : set_iter_ok E.
Variable σ0 : VX.dsl.
Let N0 := length (VX.job_objs σ0).

Lemma vx_inv_init : vx_declared σ0 -> vx_inv σ0 σ0.
Proof.
  intros [Hb Ht]. split.
  - eauto.
  - intros j jb Hj Hjb. apply lookup_lt_Some in Hjb. lia.
  - intros d c Hd. split; [by eapply Hb|done].
  - done.
  - intros j c Hj. by apply Ht in Hj.
  - intros j Hj. by apply Ht in Hj.
Qed.

(** A member of the chain reaches the head of the chain. *)
Lemma chain_path_reach cc : forall j c,
  chain_path σ0 cc j -> (forall y, y ∈ cc -> (y < N0)%nat) -> c ∈ cc ->
  match cc with [] => False | y :: _ => rtc (vx_edge σ0) c y end.
Proof.
  induction cc as [|y cc IH]; intros j c Hp Hold Hc; simpl in *.
  - by apply elem_of_nil in Hc.
  - destruct Hp as [_ Hp]. apply elem_of_cons in Hc as [->|Hc]; [done|].
    assert (Hold' : forall z, z ∈ cc -> (z < N0)%nat).
    { intros z Hz. apply Hold. by right. }
    specialize (IH y c Hp Hold' Hc). destruct cc as [|y' cc']; [done|].
    eapply rtc_r; [exact IH|]. destruct Hp as [Hp _]. apply Hp.
    apply Hold. by left.
Qed.

Lemma chain_path_cycle cc j :
  chain_path σ0 cc j -> (forall y, y ∈ cc -> (y < N0)%nat) -> j ∈ cc ->
  tc (vx_edge σ0) j j.
Proof.
  intros Hp Hold Hj. pose proof (chain_path_reach cc j j Hp Hold Hj) as H.
  destruct cc as [|y cc']; [done|]. destruct Hp as [Hp _].
  eapply tc_rtc_l; [exact H|]. apply tc_once, Hp. by apply Hold.
Qed.

Ltac unfold_st :=
  unfold mbind, mret, ST_bind, ST_ret, lift, get_state, put_state in *.

(** [child_of] does not raise: it finds the job of [d], or declares a
    leaf for it. *)
Lemma child_of_spec d σ :
  vx_inv σ0 σ ->
  exists σ1 child,
    VX.child_of d σ = (σ1, Ok child) ∧ vx_inv σ0 σ1 ∧
    (forall y, vx_tasked σ1 y <-> vx_tasked σ y) ∧
    VX.job_of_target σ ⊆ VX.job_of_target σ1 ∧
    (length (VX.job_objs σ) <= length (VX.job_objs σ1))%nat ∧
    VX.job_of_target σ1 !! d = Some child.
Proof.
  intros Hinv. unfold VX.child_of. unfold_st.
  destruct (VX.job_of_target σ !! d) as [c|] eqn:Hd.
  - exists σ, c. split; [done|]. split; [done|]. split; [done|].
    split; [done|]. split; [lia|done].
  - unfold VX.meta, VX.file. unfold_st. simpl.
    unfold VX.construct. simpl. unfold VX.NonOverwritableDict_setitem.
    rewrite Hd. simpl. unfold VX.decorate. simpl.
    rewrite list_lookup_middle by done. simpl.
    rewrite lookup_insert_eq.
    eexists _, _. split; [reflexivity|]. simpl.
    set (nj := VX.new_job VX.FileJob [d] [] None 0
                 (default (VX.dsl_use_hash σ) None) false).
    assert (Hlook : forall y jb,
              <[length (VX.job_objs σ) := VX.set_f nj (VX.ActNoRule d)]>
                (VX.job_objs σ ++ [nj]) !! y = Some jb ->
              VX.job_objs σ !! y = Some jb ∨
              (y = length (VX.job_objs σ) ∧ jb = VX.set_f nj (VX.ActNoRule d))).
    { intros y jb. destruct (decide (y = length (VX.job_objs σ))) as [->|Hne].
      - rewrite list_lookup_insert_eq by (rewrite length_app; simpl; lia).
        intros [= <-]. by right.
      - rewrite list_lookup_insert_ne by done. intros Hy.
        apply lookup_app_Some in Hy as [Hy|[Hge Hy]]; [by left|].
        apply list_lookup_singleton_Some in Hy as [Hy _]. lia. }
    assert (Hkeep : forall y jb, VX.job_objs σ !! y = Some jb ->
              <[length (VX.job_objs σ) := VX.set_f nj (VX.ActNoRule d)]>
                (VX.job_objs σ ++ [nj]) !! y = Some jb).
    { intros y jb Hy. pose proof (lookup_lt_Some _ _ _ Hy).
      rewrite list_lookup_insert_ne by lia. by apply lookup_app_l_Some. }
    assert (Ht : forall y,
              vx_tasked
                {| VX.dry_run := VX.dry_run σ;
                   VX.job_objs := <[length (VX.job_objs σ) := VX.set_f nj (VX.ActNoRule d)]>
                                    (VX.job_objs σ ++ [nj]);
                   VX.jobs := {[length (VX.job_objs σ)]} ∪ VX.jobs σ;
                   VX.job_of_target := <[d := length (VX.job_objs σ)]> (VX.job_of_target σ);
                   VX.dsl_use_hash := VX.dsl_use_hash σ;
                   VX.time_of_dep_cache := VX.time_of_dep_cache σ;
                   VX.metadata := <[d := list_to_map [("keep", VBool true)]]> (VX.metadata σ);
                   VX.ctx_queue := VX.ctx_queue σ |} y
              <-> vx_tasked σ y).
    { intros y. unfold vx_tasked. simpl. split.
      - intros (jb & t & Hy & Htk). apply Hlook in Hy as [Hy|[-> ->]]; [eauto|done].
      - intros (jb & t & Hy & Htk). eauto. }
    split; [|split; [exact Ht|]].
    + destruct Hinv as [Hold Hnew Hbound Hsub Hcl Hac]. split; simpl.
      * intros j jb0 Hj. destruct (Hold j jb0 Hj) as (jb & Hjb & Hds). eauto.
      * intros j jb Hj Hjb. apply Hlook in Hjb as [Hjb|[-> ->]]; [eauto|].
        simpl. set_solver.
      * intros t c. rewrite length_insert, length_app. simpl.
        destruct (decide (d = t)) as [->|Hne].
        -- rewrite lookup_insert_eq. intros [= <-]. split; [lia|].
           intros Hlt. exfalso.
           assert (length (VX.job_objs σ0) <= length (VX.job_objs σ))%nat; [|lia].
           destruct (decide (length (VX.job_objs σ0) <= length (VX.job_objs σ))%nat);
             [done|].
           destruct (lookup_lt_is_Some_2 (VX.job_objs σ0) (length (VX.job_objs σ)))
             as [jb0 Hjb0]; [lia|].
           destruct (Hold _ _ Hjb0) as (jb & Hjb & _).
           apply lookup_lt_Some in Hjb. lia.
        -- rewrite lookup_insert_ne by done. intros Hc.
           destruct (Hbound _ _ Hc) as [H1 H2]. split; [lia|done].
      * etrans; [exact Hsub|]. by apply insert_subseteq.
      * intros j c Hj He. apply Ht. apply Ht in Hj. eauto.
      * intros j Hj. apply Ht in Hj. eauto.
    + split; [by apply insert_subseteq|].
      split; [rewrite length_insert, length_app; simpl; lia|].
      apply lookup_insert_eq.
Qed.



(** What a call in the state [σ] with the chain [cc] leaves: a state
    [σ'] that extends [σ], in which no job of the chain has a task. *)
Definition vx_post (cc : list nat) (σ σ' : VX.dsl) : Prop :=
  vx_inv σ0 σ' ∧
  (forall y, vx_tasked σ y -> vx_tasked σ' y) ∧
  VX.job_of_target σ ⊆ VX.job_of_target σ' ∧
  (length (VX.job_objs σ) <= length (VX.job_objs σ'))%nat ∧
  (forall y, y ∈ cc -> ~ vx_tasked σ' y).

Definition vx_pre (cc : list nat) (j : nat) (σ : VX.dsl) : Prop :=
  vx_inv σ0 σ ∧ (j < length (VX.job_objs σ))%nat ∧
  (forall y, y ∈ cc -> (y < N0)%nat ∧ ~ vx_tasked σ y) ∧
  NoDup cc ∧ chain_path σ0 cc j.

Definition vx_result (j : nat) (σ' : VX.dsl) (r : result nat) : Prop :=
  match r with
  | Ok x => x = j ∧ vx_tasked σ' j
  | Raise e => cycle_error σ0 e
  end.

Lemma vx_post_trans cc σ σ1 σ2 :
  vx_post cc σ σ1 -> vx_post cc σ1 σ2 -> vx_post cc σ σ2.
Proof.
  intros (_ & Ht1 & Hs1 & Hl1 & _) (Hi & Ht2 & Hs2 & Hl2 & Hc).
  split; [done|]. split; [eauto|]. split; [by etrans|]. split; [lia|done].
Qed.

Lemma invoke_children_spec (rec : nat -> ST VX.dsl nat) j cc :
  (forall child σ σ' r,
     vx_pre (j :: cc) child σ -> rec child σ = (σ', r) ->
     vx_post (j :: cc) σ σ' ∧ vx_result child σ' r) ->
  forall deps σ σ' r,
    vx_inv σ0 σ ->
    (forall y, y ∈ cc -> (y < N0)%nat) ->
    (forall y, y ∈ j :: cc -> ~ vx_tasked σ y) ->
    NoDup (j :: cc) -> chain_path σ0 cc j ->
    (forall d, d ∈ deps ->
       exists jb0, VX.job_objs σ0 !! j = Some jb0 ∧ d ∈ VX.ds_unique jb0) ->
    VX.invoke_children rec deps σ = (σ', r) ->
    vx_post (j :: cc) σ σ' ∧
    match r with
    | Ok _ => forall d, d ∈ deps ->
        exists c, VX.job_of_target σ' !! d = Some c ∧ vx_tasked σ' c
    | Raise e => cycle_error σ0 e
    end.
Proof.
  intros Hrec deps. induction deps as [|d deps IH];
    intros σ σ' r Hinv Hold Hunt Hnd Hpath Hd; simpl; unfold_st.
  - intros [= <- <-]. split.
    + split; [done|]. split; [done|]. split; [done|]. split; [lia|done].
    + intros d Hd'. by apply elem_of_nil in Hd'.
  - destruct (child_of_spec d σ Hinv)
      as (σ1 & child & -> & Hinv1 & Ht1 & Hs1 & Hl1 & Hb1).
    assert (Hpost1 : vx_post (j :: cc) σ σ1).
    { split; [done|]. split; [intros y; apply Ht1|]. split; [done|].
      split; [done|]. intros y Hy Hty. apply Ht1 in Hty. by eapply Hunt. }
    destruct (Hd d) as (jb0 & Hjb0 & Hdin); [by left|].
    pose proof (lookup_lt_Some _ _ _ Hjb0) as HjN0. fold N0 in HjN0.
    destruct (rec child σ1) as [σ2 r1] eqn:Hrec1.
    destruct (Hrec child σ1 σ2 r1) as [Hpost2 Hres2]; [|done|].
    { split; [done|]. split; [by eapply vi_bound|]. split.
      - intros y Hy. split.
        + apply elem_of_cons in Hy as [->|Hy]; [done|by apply Hold].
        + intros Hty. apply Ht1 in Hty. by eapply Hunt.
      - split; [done|]. simpl. split; [|done]. intros Hc.
        exists jb0, d. split; [done|]. split; [done|].
        by eapply vi_bound. }
    destruct r1 as [c|e].
    + destruct Hres2 as [-> Htc].
      destruct Hpost2 as (Hinv2 & Ht2 & Hs2 & Hl2 & Hunt2).
      destruct (VX.invoke_children rec deps σ2) as [σ3 r2] eqn:Hloop.
      destruct (IH σ2 σ3 r2) as [Hpost3 Hres3]; try done.
      { intros d' Hd'. apply Hd. by right. }
      assert (Hpost : vx_post (j :: cc) σ σ3).
      { eapply vx_post_trans; [exact Hpost1|].
        eapply vx_post_trans; [|exact Hpost3]. done. }
      destruct r2 as [rest|e]; intros [= <- <-]; (split; [done|]); [|done].
      destruct Hpost3 as (_ & Ht3 & Hs3 & _ & _).
      intros d' [->|Hd']%elem_of_cons; [|by apply Hres3].
      exists child. split; [|by apply Ht3].
      eapply lookup_weaken; [|exact Hs3].
      eapply lookup_weaken; [exact Hb1|exact Hs2].
    + intros [= <- <-]. split; [|done].
      eapply vx_post_trans; [exact Hpost1|exact Hpost2].
Qed.

Lemma vx_tasked_alter σ j t y :
  (forall jb, VX.job_objs σ !! j = Some jb -> VX.jtask jb = None) ->
  vx_tasked
    (VX.set_job_objs σ (alter (fun jb => VX.set_task jb (Some t)) j (VX.job_objs σ))) y
  <-> vx_tasked σ y ∨ (y = j ∧ (j < length (VX.job_objs σ))%nat).
Proof.
  intros Hnone. unfold vx_tasked. simpl. destruct (decide (j = y)) as [->|Hne].
  - rewrite list_lookup_alter_eq. split.
    + intros (jb & t' & Hy & _). right. split; [done|].
      destruct (VX.job_objs σ !! y) eqn:H; [|done].
      by eapply lookup_lt_Some.
    + intros [(jb & t' & Hy & Ht)|[_ Hlt]].
      * rewrite (Hnone _ Hy) in Ht. done.
      * destruct (lookup_lt_is_Some_2 _ _ Hlt) as [jb Hjb]. rewrite Hjb.
        simpl. eauto.
  - rewrite list_lookup_alter_ne by done. split; [by left|].
    intros [H|[-> _]]; done.
Qed.

Lemma invoke_spec fuel : forall j cc σ σ' r,
  (N0 + 1 <= fuel + length cc)%nat ->
  vx_pre cc j σ ->
  VX.invoke E fuel j cc σ = (σ', r) ->
  vx_post cc σ σ' ∧ vx_result j σ' r.
Proof.
  induction fuel as [|fuel IH]; intros j cc σ σ' r Hfuel Hpre.
  - destruct Hpre as (_ & _ & Hcc & Hnd & _).
    pose proof (NoDup_bounded_length cc N0 Hnd) as Hlen.
    assert (length cc <= N0)%nat; [|lia]. apply Hlen. intros y Hy. by apply Hcc.
  - destruct Hpre as (Hinv & Hj & Hcc & Hnd & Hpath). simpl.
    assert (Hrefl : vx_post cc σ σ).
    { split; [done|]. split; [done|]. split; [done|]. split; [lia|].
      intros y Hy. by apply Hcc. }
    case_decide as Hin.
    + unfold_st. intros [= <- <-]. split; [done|].
      exists j, cc. split; [done|]. split; [done|].
      eapply chain_path_cycle; [exact Hpath| |done].
      intros y Hy. by apply Hcc.
    + unfold_st.
      destruct (lookup_lt_is_Some_2 _ _ Hj) as [jb Hjb]. rewrite Hjb.
      destruct (VX.jtask jb) as [t|] eqn:Htask.
      { intros [= <- <-]. split; [done|]. split; [done|]. by exists jb, t. }
      destruct (VX.invoke_children _ _ σ) as [σ2 r2] eqn:Hloop.
      assert (Huntj : ~ vx_tasked σ j).
      { intros (jb' & t & Hjb' & Ht). congruence. }
      eapply (invoke_children_spec _ j cc) in Hloop as [Hpost2 Hres2]; cycle 1.
      { intros child σa σb ra Hprea Hcall. eapply IH; [|exact Hprea|exact Hcall].
        simpl. lia. }
      { done. }
      { intros y Hy. by apply Hcc. }
      { intros y [->|Hy]%elem_of_cons; [done|]. by apply Hcc. }
      { by constructor. }
      { done. }
      { intros d Hd. apply (proj2 (HE _)) in Hd.
        destruct (decide (j < N0)%nat) as [Hlt|Hge].
        - destruct (lookup_lt_is_Some_2 _ _ Hlt) as [jb0 Hjb0].
          destruct (vi_old _ _ Hinv _ _ Hjb0) as (jb' & Hjb' & Hds).
          exists jb0. split; [done|]. congruence.
        - rewrite (vi_new _ _ Hinv j jb) in Hd; [set_solver|unfold N0 in Hge; lia|done]. }
      destruct Hpost2 as (Hinv2 & Ht2 & Hs2 & Hl2 & Hunt2).
      destruct r2 as [children|e].
      2:{ intros [= <- <-]. split; [|done]. split; [done|]. split; [done|].
          split; [done|]. split; [done|]. intros y Hy. apply Hunt2. by right. }
      unfold VX.task_put. simpl. intros [= <- <-].
      assert (Hj2 : (j < length (VX.job_objs σ2))%nat) by lia.
      assert (Hnone2 : forall jb2, VX.job_objs σ2 !! j = Some jb2 ->
                VX.jtask jb2 = None).
      { intros jb2 Hjb2. destruct (VX.jtask jb2) eqn:Ht; [|done].
        exfalso. apply (Hunt2 j); [by left|]. by exists jb2, t. }
      set (tk := VX.new_task children).
      set (σ3 := VX.set_job_objs σ2
                   (alter (fun jb => VX.set_task jb (Some tk)) j (VX.job_objs σ2))).
      assert (Htk : forall y, vx_tasked σ3 y <-> vx_tasked σ2 y ∨ y = j).
      { intros y. unfold σ3. rewrite vx_tasked_alter by done. naive_solver. }
      assert (Htk' : forall q y,
                vx_tasked (VX.set_ctx_queue σ3 q) y <-> vx_tasked σ3 y) by done.
      assert (Hchildren : forall c, vx_edge σ0 j c -> vx_tasked σ2 c).
      { intros c (jb0 & d & Hjb0 & Hd & Hdc).
        destruct (vi_old _ _ Hinv _ _ Hjb0) as (jb' & Hjb' & Hds).
        assert (jb' = jb) by congruence. subst jb'.
        destruct (Hres2 d) as (c' & Hc' & Htc').
        { apply (proj2 (HE _)). by rewrite Hds. }
        assert (c' = c); [|by subst].
        pose proof (lookup_weaken _ _ _ _ Hdc (vi_sub _ _ Hinv2)). congruence. }
      split.
      * split; [|split; [|split; [|split]]].
        -- destruct Hinv2 as [Hold Hnew Hbound Hsub Hcl Hac]. split; simpl.
           ++ intros y jb0 Hy. destruct (Hold y jb0 Hy) as (jby & Hjby & Hds).
              destruct (decide (j = y)) as [->|Hne].
              ** rewrite list_lookup_alter_eq, Hjby. simpl. eauto.
              ** rewrite list_lookup_alter_ne by done. eauto.
           ++ intros y jby Hy. destruct (decide (j = y)) as [->|Hne].
              ** rewrite list_lookup_alter_eq.
                 destruct (VX.job_objs σ2 !! y) as [jb2|] eqn:Hjb2; [|done].
                 simpl. intros [= <-]. simpl. by eapply Hnew.
              ** rewrite list_lookup_alter_ne by done. by eapply Hnew.
           ++ intros d c Hd. rewrite length_alter. by apply Hbound.
           ++ done.
           ++ intros y c Hy He. apply Htk', Htk. left.
              apply Htk', Htk in Hy as [Hy| ->]; [by eapply Hcl|by apply Hchildren].
           ++ intros y Hy. apply Htk', Htk in Hy as [Hy| ->]; [by apply Hac|].
              apply (closed_no_cycle _ (vx_tasked σ2)); [exact Hcl| |exact Hchildren].
              apply Hunt2. by left.
        -- intros y Hy. apply Htk', Htk. left. by apply Ht2.
        -- done.
        -- simpl. rewrite length_alter. done.
        -- intros y Hy Hty. apply Htk', Htk in Hty as [Hty| ->]; [|done].
           apply (Hunt2 y); [by right|done].
      * split; [done|]. apply Htk', Htk. by right.
Qed.
End VxInvoke.

Section VxInvokeTop.
Context {R : Type}.
Variable E : VX.env R.

(** The walk of vx finds every cycle that the root reaches. *)
Lemma vx_invoke_cycle σ0 root fuel j :
  set_iter_ok E -> vx_declared σ0 ->
  (root < length (VX.job_objs σ0))%nat ->
  rtc (vx_edge σ0) root j -> tc (vx_edge σ0) j j ->
  (length (VX.job_objs σ0) + 1 <= fuel)%nat ->
  exists σ' c chain,
    VX.invoke E fuel root [] σ0 = (σ', Raise (Err (MsgCircularJob c chain))) ∧
    c ∈ chain ∧ tc (vx_edge σ0) c c.
Proof.
  intros HE Hdecl Hroot Hreach Hcyc Hfuel.
  destruct (VX.invoke E fuel root [] σ0) as [σ' r] eqn:Hrun.
  destruct (invoke_spec E HE σ0 fuel root [] σ0 σ' r) as [Hpost Hres];
    [simpl; lia| |done|].
  { split; [by apply vx_inv_init|]. split; [done|]. split.
    - intros y Hy. by apply elem_of_nil in Hy.
    - split; [constructor|done]. }
  destruct r as [x|e].
  - exfalso. destruct Hres as [_ Ht]. destruct Hpost as (Hinv & _).
    eapply (vi_acyclic _ _ Hinv j); [|done].
    eapply closed_reach; [|exact Ht|exact Hreach].
    intros y c Hy Hyc. by eapply vi_closed.
  - destruct Hres as (c & chain & -> & Hc & Htc). eauto 10.
Qed.
End VxInvokeTop.

Section ChainFacts.
Context {N : Type}.
Variable edge : N -> N -> Prop.

Lemma chain_ok_reach (js : list N) c :
  chain_ok edge js -> c ∈ js ->
  match js with [] => False | y :: _ => rtc edge c y end.
Proof.
  induction js as [|y js IH]; intros Hok Hc; simpl in *.
  - by apply elem_of_nil in Hc.
  - destruct Hok as [Hl Hok]. apply elem_of_cons in Hc as [->|Hc]; [done|].
    specialize (IH Hok Hc). destruct js as [|y' js']; [done|].
    eapply rtc_r; [exact IH|exact Hl].
Qed.

Lemma chain_ok_cycle (js : list N) j :
  chain_ok edge js -> chain_link edge js j -> j ∈ js -> tc edge j j.
Proof.
  intros Hok Hl Hj. pose proof (chain_ok_reach js j Hok Hj) as H.
  destruct js as [|y js']; [done|].
  eapply tc_rtc_l; [exact H|]. by apply tc_once.
Qed.
End ChainFacts.

Section V4MakeGraph.
Variable E : V4.env.
Variable σ0 : V4.dsl.
Hypothesis Hdecl : v4_declared σ0.
Let N0 := length (V4.jobs σ0).

Ltac unfold_st :=
  unfold mbind, mret, ST_bind, ST_ret, lift, get_state, put_state in *.

Lemma v4_target_inj t t' j :
  V4._job_of_target σ0 !! t = Some j -> V4._job_of_target σ0 !! t' = Some j ->
  t = t'.
Proof.
  intros H1 H2. destruct Hdecl as [Hs _].
  destruct (Hs _ _ H1) as (jb & Hjb & Ht). destruct (Hs _ _ H2) as (jb' & Hjb' & Ht').
  congruence.
Qed.

Lemma v4_bound_old t j :
  V4._job_of_target σ0 !! t = Some j -> (j < N0)%nat.
Proof.
  intros H. destruct Hdecl as [Hs _]. destruct (Hs _ _ H) as (jb & Hjb & _).
  by eapply lookup_lt_Some.
Qed.

Lemma v4_inv_init : v4_inv σ0 σ0.
Proof.
  split.
  - eauto.
  - intros j jb Hj Hjb. apply lookup_lt_Some in Hjb. lia.
  - intros d c Hd. split; [by eapply v4_bound_old|done].
  - done.
Qed.

Lemma v4_closed_init cc : v4_closed σ0 σ0 cc.
Proof.
  destruct Hdecl as [_ Hv]. split.
  - intros j c [Hj _]. by apply Hv in Hj.
  - intros j [Hj _]. by apply Hv in Hj.
Qed.

Lemma elem_of_insert_sorted {A} (key : A -> option Z) x y l :
  y ∈ V4.insert_sorted key x l <-> y = x ∨ y ∈ l.
Proof.
  induction l as [|z l IH]; simpl.
  - set_solver.
  - destruct (V4.key_le _ _); [set_solver|]. rewrite !elem_of_cons, IH. tauto.
Qed.

Lemma elem_of_sorted {A} (key : A -> option Z) y l :
  y ∈ V4.sorted key l <-> y ∈ l.
Proof.
  unfold V4.sorted. induction l as [|z l IH]; simpl; [done|].
  rewrite elem_of_insert_sorted, IH. set_solver.
Qed.

Lemma meta_result tbl name kwargs tbl' r :
  V4.meta tbl name kwargs = (tbl', r) ->
  r = Ok name ∨ exists k old new, r = Raise (Err (MsgOverwriteMeta k old new)).
Proof.
  unfold V4.meta. destruct (V4.TDefaultDict_getitem tbl name) as [tbl1 m].
  destruct (V4.meta_loop m kwargs) as [m' r0] eqn:Hloop. intros [= <- <-].
  assert (H : r0 = Ok () ∨ exists k old new, r0 = Raise (Err (MsgOverwriteMeta k old new))).
  { clear -Hloop. revert m m' r0 Hloop.
    induction kwargs as [|[k v] kw IH]; intros m m' r0; simpl.
    - intros [= <- <-]. by left.
    - destruct (m !! k) as [old|]; [|apply IH].
      case_decide; [apply IH|]. intros [= <- <-]. right. eauto. }
  destruct H as [->|(k & o & n & ->)]; [by left|right; eauto].
Qed.

(** [declare_leaf] binds a new job without deps to the target, or raises
    about the metadata. *)
Lemma declare_leaf_spec target fn g g1 r :
  v4_inv σ0 (V4.g_dsl g) ->
  V4._job_of_target (V4.g_dsl g) !! target = None ->
  V4.declare_leaf target fn g = (g1, r) ->
  match r with
  | Raise e => leaf_error e
  | Ok _ =>
      v4_inv σ0 (V4.g_dsl g1) ∧
      (forall y, v4_visited (V4.g_dsl g1) y <-> v4_visited (V4.g_dsl g) y) ∧
      V4._job_of_target (V4.g_dsl g) ⊆ V4._job_of_target (V4.g_dsl g1) ∧
      (length (V4.jobs (V4.g_dsl g)) <= length (V4.jobs (V4.g_dsl g1)))%nat ∧
      V4._job_of_target (V4.g_dsl g1) !! target = Some (length (V4.jobs (V4.g_dsl g)))
  end.
Proof.
  intros Hinv Hnone. unfold V4.declare_leaf.
  destruct (V4.meta _ _ _) as [tbl rm] eqn:Hmeta.
  apply meta_result in Hmeta as [->|(k & o & n & ->)].
  2:{ intros [= <- <-]. right. right. right. eauto. }
  unfold V4.file. simpl. unfold V4._set_unique. rewrite Hnone.
  intros [= <- <-]. simpl.
  set (σ := V4.g_dsl g) in *.
  set (nj := V4.new_job V4.FileJob fn [target] [] [None] V4._PRIORITY_DEFAULT
               (default (V4.dsl_use_hash σ) None) false).
  assert (Hlook : forall y jb, (V4.jobs σ ++ [nj]) !! y = Some jb ->
            V4.jobs σ !! y = Some jb ∨ (y = length (V4.jobs σ) ∧ jb = nj)).
  { intros y jb Hy. apply lookup_app_Some in Hy as [Hy|[Hge Hy]]; [by left|].
    apply list_lookup_singleton_Some in Hy as [Hy <-]. right. split; [lia|done]. }
  assert (Hv : forall y,
            v4_visited
              {| V4.jobs := V4.jobs σ ++ [nj];
                 V4._job_of_target := <[target := length (V4.jobs σ)]> (V4._job_of_target σ);
                 V4._f_of_phony := V4._f_of_phony σ;
                 V4._deps_of_phony := V4._deps_of_phony σ;
                 V4._descs_of_phony := V4._descs_of_phony σ;
                 V4._priority_of_phony := V4._priority_of_phony σ;
                 V4.dsl_use_hash := V4.dsl_use_hash σ |} y
            <-> v4_visited σ y).
  { intros y. unfold v4_visited. simpl. split.
    - intros (jb & Hy & Hvis). apply Hlook in Hy as [Hy|[-> ->]]; [eauto|done].
    - intros (jb & Hy & Hvis). exists jb. split; [|done]. by apply lookup_app_l_Some. }
  split; [|split; [exact Hv|]].
  - destruct Hinv as [Hold Hnew Hbound Hsub]. split; simpl.
    + intros j jb0 Hj. destruct (Hold j jb0 Hj) as (jb & Hjb & Hds).
      exists jb. split; [|done]. by apply lookup_app_l_Some.
    + intros j jb Hj Hjb. apply Hlook in Hjb as [Hjb|[-> ->]]; [eauto|done].
    + intros t c. rewrite length_app. simpl.
      destruct (decide (target = t)) as [->|Hne].
      * rewrite lookup_insert_eq. intros [= <-]. split; [lia|].
        intros Hlt. exfalso.
        destruct (lookup_lt_is_Some_2 (V4.jobs σ0) (length (V4.jobs σ)))
          as [jb0 Hjb0]; [lia|].
        destruct (Hold _ _ Hjb0) as (jb & Hjb & _).
        apply lookup_lt_Some in Hjb. lia.
      * rewrite lookup_insert_ne by done. intros Hc.
        destruct (Hbound _ _ Hc) as [H1 H2]. split; [lia|done].
    + etrans; [exact Hsub|]. by apply insert_subseteq.
  - split; [by apply insert_subseteq|].
    split; [rewrite length_app; simpl; lia|]. apply lookup_insert_eq.
Qed.

Lemma make_leaf_job_spec target g g1 r :
  v4_inv σ0 (V4.g_dsl g) ->
  V4._job_of_target (V4.g_dsl g) !! target = None ->
  V4.make_leaf_job E target g = (g1, r) ->
  match r with
  | Raise e => leaf_error e
  | Ok _ =>
      v4_inv σ0 (V4.g_dsl g1) ∧
      (forall y, v4_visited (V4.g_dsl g1) y <-> v4_visited (V4.g_dsl g) y) ∧
      V4._job_of_target (V4.g_dsl g) ⊆ V4._job_of_target (V4.g_dsl g1) ∧
      (length (V4.jobs (V4.g_dsl g)) <= length (V4.jobs (V4.g_dsl g1)))%nat ∧
      V4._job_of_target (V4.g_dsl g1) !! target = Some (length (V4.jobs (V4.g_dsl g)))
  end.
Proof.
  intros Hinv Hnone. unfold V4.make_leaf_job. unfold_st.
  destruct (V4.assert _) as [[]|e] eqn:Has.
  2:{ intros [= <- <-]. unfold V4.assert in Has. destruct (bool_decide _); [done|].
      injection Has as <-. by left. }
  destruct (V4._uriparse E target) as [ptarget|e] eqn:Hparse.
  2:{ intros [= <- <-]. unfold V4._uriparse in Hparse.
      case_decide; [|done]. injection Hparse as <-. right. left. eauto. }
  case_decide.
  - destruct (V4.lexists E target).
    + intros Hd. by eapply declare_leaf_spec.
    + intros [= <- <-]. right. right. left. eauto.
  - intros Hd. by eapply declare_leaf_spec.
Qed.

Definition v4_pre (cc : list string) (js : list nat) (t : string)
    (g : V4.gstate) : Prop :=
  v4_inv σ0 (V4.g_dsl g) ∧ v4_closed σ0 (V4.g_dsl g) cc ∧
  Forall2 (fun y jy => V4._job_of_target σ0 !! y = Some jy) cc js ∧
  NoDup js ∧ chain_ok (v4_edge σ0) js ∧
  (forall jt, V4._job_of_target σ0 !! t = Some jt ->
     chain_link (v4_edge σ0) js jt).

Definition v4_post (cc : list string) (g g' : V4.gstate) : Prop :=
  v4_inv σ0 (V4.g_dsl g') ∧ v4_closed σ0 (V4.g_dsl g') cc ∧
  (forall y, v4_visited (V4.g_dsl g) y -> v4_visited (V4.g_dsl g') y) ∧
  V4._job_of_target (V4.g_dsl g) ⊆ V4._job_of_target (V4.g_dsl g').

Definition v4_result (cc : list string) (t : string) (g g' : V4.gstate)
    (r : result unit) : Prop :=
  match r with
  | Ok _ =>
      v4_post cc g g' ∧
      exists j, V4._job_of_target (V4.g_dsl g') !! t = Some j ∧
                v4_black σ0 (V4.g_dsl g') cc j
  | Raise e => v4_error σ0 e
  end.

Lemma v4_black_mono σ σ' cc j :
  (forall y, v4_visited σ y -> v4_visited σ' y) ->
  v4_black σ0 σ cc j -> v4_black σ0 σ' cc j.
Proof. intros Hm [Hv Hs]. split; [by apply Hm|done]. Qed.

Lemma v4_black_weaken σ t cc j :
  v4_black σ0 σ (t :: cc) j -> v4_black σ0 σ cc j.
Proof. intros [Hv Hs]. split; [done|]. intros y Hy. apply Hs. by right. Qed.

Lemma make_graph_deps_spec (rec : string -> ST V4.gstate unit) t j cc js :
  (forall dep g g' r,
     v4_pre (t :: cc) (j :: js) dep g -> rec dep g = (g', r) ->
     v4_result (t :: cc) dep g g' r) ->
  Forall2 (fun y jy => V4._job_of_target σ0 !! y = Some jy) (t :: cc) (j :: js) ->
  NoDup (j :: js) -> chain_ok (v4_edge σ0) (j :: js) ->
  forall deps g g' r,
    v4_inv σ0 (V4.g_dsl g) -> v4_closed σ0 (V4.g_dsl g) (t :: cc) ->
    (forall d, d ∈ deps ->
       exists jb0, V4.jobs σ0 !! j = Some jb0 ∧ d ∈ V4.unique_ds jb0) ->
    V4.make_graph_deps rec j deps g = (g', r) ->
    match r with
    | Ok _ =>
        v4_post (t :: cc) g g' ∧
        forall d, d ∈ deps ->
          exists c, V4._job_of_target (V4.g_dsl g') !! d = Some c ∧
                    v4_black σ0 (V4.g_dsl g') (t :: cc) c
    | Raise e => v4_error σ0 e
    end.
Proof.
  intros Hrec Hf2 Hnd Hok deps. induction deps as [|d deps IH];
    intros g g' r Hinv Hcl Hd; simpl; unfold_st.
  - intros [= <- <-]. split; [by split|].
    intros d Hd'. by apply elem_of_nil in Hd'.
  - unfold V4.add_dependent. simpl.
    match goal with
    | |- context [rec d ?g1] => set (ga := g1)
    end.
    destruct (rec d ga) as [g2 r1] eqn:Hrec1.
    specialize (Hrec d ga g2 r1).
    destruct (Hd d) as (jb0 & Hjb0 & Hdin); [by left|].
    assert (Hpre : v4_pre (t :: cc) (j :: js) d ga).
    { split; [done|]. split; [done|]. split; [done|]. split; [done|].
      split; [done|]. intros jd Hjd. simpl. exists jb0, d. done. }
    specialize (Hrec Hpre Hrec1).
    destruct r1 as [[]|e]; [|intros [= <- <-]; done].
    destruct Hrec as [(Hinv2 & Hcl2 & Hv2 & Hs2) (c & Hc & Hblack)].
    destruct (V4.make_graph_deps rec j deps g2) as [g3 r2] eqn:Hloop.
    specialize (IH g2 g3 r2 Hinv2 Hcl2).
    intros [= <- <-]. destruct r2 as [[]|e]; [|apply IH; [|done]].
    2:{ intros d' Hd'. apply Hd. by right. }
    destruct IH as [(Hinv3 & Hcl3 & Hv3 & Hs3) Hdeps]; [|done|].
    { intros d' Hd'. apply Hd. by right. }
    split.
    + split; [done|]. split; [done|]. split; [intros y Hy; by apply Hv3, Hv2|].
      etrans; [exact Hs2|exact Hs3].
    + intros d' [->|Hd']%elem_of_cons; [|by apply Hdeps].
      exists c. split; [by eapply lookup_weaken|]. by eapply v4_black_mono.
Qed.

Lemma v4_visited_set σ id y :
  (id < length (V4.jobs σ))%nat ->
  v4_visited (V4.set_visited σ id) y <-> v4_visited σ y ∨ y = id.
Proof.
  intros Hid. unfold v4_visited. simpl. destruct (decide (id = y)) as [->|Hne].
  - rewrite list_lookup_alter_eq.
    destruct (lookup_lt_is_Some_2 _ _ Hid) as [jb Hjb]. rewrite Hjb. simpl.
    split; [by right|]. intros _. eauto.
  - rewrite list_lookup_alter_ne by done. split; [by left|].
    intros [H| ->]; done.
Qed.

Lemma v4_inv_set_visited σ id : v4_inv σ0 σ -> v4_inv σ0 (V4.set_visited σ id).
Proof.
  intros [Hold Hnew Hbound Hsub]. split; simpl.
  - intros y jb0 Hy. destruct (Hold y jb0 Hy) as (jby & Hjby & Hds).
    destruct (decide (id = y)) as [->|Hne].
    + rewrite list_lookup_alter_eq, Hjby. simpl. eauto.
    + rewrite list_lookup_alter_ne by done. eauto.
  - intros y jby Hy. destruct (decide (id = y)) as [->|Hne].
    + rewrite list_lookup_alter_eq.
      destruct (V4.jobs σ !! y) as [jb2|] eqn:Hjb2; [|done].
      simpl. intros [= <-]. simpl. by eapply Hnew.
    + rewrite list_lookup_alter_ne by done. by eapply Hnew.
  - intros d c Hd. rewrite length_alter. by apply Hbound.
  - done.
Qed.

Lemma Forall2_job_of cc js t :
  Forall2 (fun y jy => V4._job_of_target σ0 !! y = Some jy) cc js ->
  t ∈ cc -> exists jt, jt ∈ js ∧ V4._job_of_target σ0 !! t = Some jt.
Proof.
  intros Hf [i Hi]%list_elem_of_lookup.
  destruct (Forall2_lookup_l _ _ _ _ _ Hf Hi) as (jt & Hjt & Hb).
  exists jt. split; [by eapply list_elem_of_lookup_2|done].
Qed.

Lemma Forall2_target_of cc js j :
  Forall2 (fun y jy => V4._job_of_target σ0 !! y = Some jy) cc js ->
  j ∈ js -> exists t, t ∈ cc ∧ V4._job_of_target σ0 !! t = Some j.
Proof.
  intros Hf [i Hi]%list_elem_of_lookup.
  destruct (Forall2_lookup_r _ _ _ _ _ Hf Hi) as (t & Ht & Hb).
  exists t. split; [by eapply list_elem_of_lookup_2|done].
Qed.

Lemma _make_graph_spec fuel : forall t cc js g g' r,
  (N0 + 1 <= fuel + length cc)%nat ->
  v4_pre cc js t g ->
  V4._make_graph E fuel t cc g = (g', r) ->
  v4_result cc t g g' r.
Proof.
  induction fuel as [|fuel IH]; intros t cc js g g' r Hfuel Hpre.
  - destruct Hpre as (_ & _ & Hf2 & Hnd & _).
    pose proof (NoDup_bounded_length js N0 Hnd) as Hlen.
    pose proof (Forall2_length _ _ _ Hf2).
    assert (length js <= N0)%nat; [|lia]. apply Hlen. intros y Hy.
    destruct (Forall2_target_of _ _ _ Hf2 Hy) as (ty & _ & Hty).
    by eapply v4_bound_old.
  - destruct Hpre as (Hinv & Hcl & Hf2 & Hnd & Hok & Hlink). simpl.
    case_decide as Hin.
    { unfold_st. intros [= <- <-]. left.
      destruct (Forall2_job_of _ _ _ Hf2 Hin) as (jt & Hjt & Hb).
      exists t, cc, jt. split; [done|]. split; [done|]. split; [done|].
      eapply chain_ok_cycle; [exact Hok|by apply Hlink|done]. }
    unfold_st.
    (* the target gets a job *)
    match goal with
    | |- context [let (_, _) := ?x in _] =>
        destruct x as [g1 r1] eqn:Hstep
    end.
    assert (Hr1 :
      match r1 with
      | Raise e => leaf_error e
      | Ok _ =>
          v4_inv σ0 (V4.g_dsl g1) ∧
          (forall y, v4_visited (V4.g_dsl g1) y <-> v4_visited (V4.g_dsl g) y) ∧
          V4._job_of_target (V4.g_dsl g) ⊆ V4._job_of_target (V4.g_dsl g1) ∧
          is_Some (V4._job_of_target (V4.g_dsl g1) !! t)
      end).
    { case_decide as Hb.
      - injection Hstep as <- <-. done.
      - apply make_leaf_job_spec in Hstep; [|done|].
        + destruct r1; [|done]. destruct Hstep as (? & ? & ? & ? & ?). eauto 10.
        + by apply eq_None_not_Some. }
    clear Hstep.
    destruct r1 as [[]|e]; [|intros [= <- <-]; by right].
    destruct Hr1 as (Hinv1 & Hv1 & Hs1 & [id Hid]). rewrite Hid.
    destruct (v4i_bound _ _ Hinv1 _ _ Hid) as [Hidlt Hidold].
    destruct (lookup_lt_is_Some_2 _ _ Hidlt) as [jb Hjb]. rewrite Hjb.
    assert (Hcl1 : v4_closed σ0 (V4.g_dsl g1) cc).
    { destruct Hcl as [Hc1 Hc2]. split.
      - intros y c [Hy Hys] Hyc. destruct (Hc1 y c) as [Hcv Hcs]; [|done|].
        + split; [by apply Hv1|done].
        + split; [by apply Hv1|done].
      - intros y [Hy Hys]. apply Hc2. split; [by apply Hv1|done]. }
    assert (Hstatic : forall y, y ∈ cc -> V4._job_of_target σ0 !! y ≠ Some id).
    { intros y Hy Hyid. pose proof (v4_bound_old _ _ Hyid) as Hlt.
      apply Hin. by rewrite <- (v4_target_inj y t id Hyid (Hidold Hlt)). }
    destruct (V4.visited jb) eqn:Hvis.
    { intros [= <- <-]. split.
      - split; [done|]. split; [done|]. split; [intros y; apply Hv1|done].
      - exists id. split; [done|]. split; [by exists jb|done]. }
    (* the job is marked and its deps are walked *)
    simpl.
    set (σ1 := V4.g_dsl g1) in *.
    set (σ2 := V4.set_visited σ1 id).
    assert (Hinv2 : v4_inv σ0 σ2) by by apply v4_inv_set_visited.
    assert (Hv2 : forall y, v4_visited σ2 y <-> v4_visited σ1 y ∨ y = id)
      by (intros y; by apply v4_visited_set).
    assert (Hnv : ~ v4_visited σ1 id).
    { intros (jb' & Hjb' & Hvis'). congruence. }
    match goal with
    | |- context [V4.make_graph_deps ?f id ?l ?ga] =>
        destruct (V4.make_graph_deps f id l ga) as [g3 r3] eqn:Hloop
    end.
    destruct (V4.unique_ds jb) as [|d0 ds0] eqn:Hds.
    + (* a job without deps *)
      simpl in Hloop. unfold_st. injection Hloop as <- <-.
      unfold V4.add_leaf. simpl. intros [= <- <-]. simpl.
      assert (Hnoedge : forall c, ~ v4_edge σ0 id c).
      { intros c (jb0 & d & Hjb0 & Hd & _).
        destruct (v4i_old _ _ Hinv1 _ _ Hjb0) as (jb' & Hjb' & Hds').
        assert (jb' = jb) by congruence. subst jb'.
        rewrite <- Hds', Hds in Hd. by apply elem_of_nil in Hd. }
      split.
      * split; [done|]. split; [|split].
        -- destruct Hcl1 as [Hc1 Hc2]. split.
           ++ intros y c [Hy Hys] Hyc. apply Hv2 in Hy as [Hy| ->].
              ** eapply v4_black_mono; [|by apply (Hc1 y c)].
                 intros z Hz. apply Hv2. by left.
              ** by apply Hnoedge in Hyc.
           ++ intros y [Hy Hys]. apply Hv2 in Hy as [Hy| ->]; [by apply Hc2|].
              intros Htc. inversion Htc as [? ? He|? c ? He _]; by apply Hnoedge in He.
        -- intros y Hy. apply Hv2. left. by apply Hv1.
        -- done.
      * exists id. split; [done|]. split; [apply Hv2; by right|done].
    + (* a job with deps is a job of the declarations *)
      assert (HidN0 : (id < N0)%nat).
      { destruct (decide (id < N0)%nat) as [|Hge]; [done|].
        rewrite (v4i_new _ _ Hinv1 id jb) in Hds; [done|unfold N0 in Hge; lia|done]. }
      specialize (Hidold HidN0).
      destruct (lookup_lt_is_Some_2 _ _ HidN0) as [jb0 Hjb0].
      destruct (v4i_old _ _ Hinv1 _ _ Hjb0) as (jb' & Hjb' & Hds0).
      assert (jb' = jb) by congruence. subst jb'.
      assert (Hnd' : NoDup (id :: js)).
      { constructor; [|done]. intros Hidjs.
        destruct (Forall2_target_of _ _ _ Hf2 Hidjs) as (y & Hy & Hyid).
        by apply (Hstatic y). }
      assert (Hcl2 : v4_closed σ0 σ2 (t :: cc)).
      { destruct Hcl1 as [Hc1 Hc2].
        assert (Hback : forall y, v4_black σ0 σ2 (t :: cc) y -> v4_black σ0 σ1 cc y).
        { intros y [Hy Hys]. split.
          - apply Hv2 in Hy as [Hy| ->]; [done|]. exfalso.
            apply (Hys t); [by left|done].
          - intros z Hz. apply Hys. by right. }
        split.
        - intros y c Hy Hyc. destruct (Hc1 y c (Hback y Hy) Hyc) as [Hcv Hcs].
          split; [apply Hv2; by left|].
          intros z [->|Hz]%elem_of_cons; [|by apply Hcs].
          intros Htc. assert (c = id) by congruence. by subst c.
        - intros y Hy. by apply Hc2, Hback. }
      eapply (make_graph_deps_spec _ t id cc js) in Hloop; cycle 1.
      { intros dep ga gb ra Hprea Hcall. eapply IH; [|exact Hprea|exact Hcall].
        simpl. lia. }
      { by constructor. }
      { done. }
      { split; [by apply Hlink|done]. }
      { done. }
      { done. }
      { intros d Hd. apply elem_of_sorted in Hd. exists jb0.
        split; [done|]. by rewrite <- Hds0, Hds. }
      destruct r3 as [[]|e]; [|intros [= <- <-]; done].
      destruct Hloop as [(Hinv3 & Hcl3 & Hv3 & Hs3) Hdeps].
      intros [= <- <-]. simpl in *.
      set (σ3 := V4.g_dsl g3) in *.
      assert (Hvid : v4_visited σ3 id) by (apply Hv3, Hv2; by right).
      assert (Hchildren : forall c, v4_edge σ0 id c -> v4_black σ0 σ3 (t :: cc) c).
      { intros c (jb0' & d & Hjb0' & Hd & Hdc).
        assert (jb0' = jb0) by congruence. subst jb0'.
        destruct (Hdeps d) as (c' & Hc' & Hb').
        { apply (elem_of_sorted (V4._key_to_sort_unique_ds σ1) d (d0 :: ds0)). by rewrite <- Hds, Hds0. }
        assert (c' = c); [|by subst].
        pose proof (lookup_weaken _ _ _ _ Hdc (v4i_sub _ _ Hinv3)). congruence. }
      assert (Hnotb : ~ v4_black σ0 σ3 (t :: cc) id).
      { intros [_ Hs]. apply (Hs t); [by left|done]. }
      assert (Hfwd : forall y, y ≠ id -> v4_black σ0 σ3 cc y ->
                v4_black σ0 σ3 (t :: cc) y).
      { intros y Hne [Hy Hys]. split; [done|].
        intros z [->|Hz]%elem_of_cons; [congruence|by apply Hys]. }
      split.
      * split; [done|]. split; [|split].
        -- destruct Hcl3 as [Hc1 Hc2]. split.
           ++ intros y c Hy Hyc. apply (v4_black_weaken _ t).
              destruct (decide (y = id)) as [->|Hne]; [by apply Hchildren|].
              by apply (Hc1 y c); [apply Hfwd|].
           ++ intros y Hy. destruct (decide (y = id)) as [->|Hne].
              ** by apply (closed_no_cycle _ (v4_black σ0 σ3 (t :: cc))).
              ** by apply Hc2, Hfwd.
        -- intros y Hy. apply Hv3, Hv2. left. by apply Hv1.
        -- etrans; [exact Hs1|exact Hs3].
      * exists id. split; [exact (lookup_weaken _ _ _ _ Hid Hs3)|].
        split; [exact Hvid|exact Hstatic].
Qed.

Lemma make_graphs_spec fuel :
  (N0 + 1 <= fuel)%nat -> forall targets g g' r,
  v4_inv σ0 (V4.g_dsl g) -> v4_closed σ0 (V4.g_dsl g) [] ->
  V4.make_graphs E fuel targets g = (g', r) ->
  match r with
  | Ok _ =>
      v4_post [] g g' ∧
      forall t, t ∈ targets ->
        exists j, V4._job_of_target (V4.g_dsl g') !! t = Some j ∧
                  v4_black σ0 (V4.g_dsl g') [] j
  | Raise e => v4_error σ0 e
  end.
Proof.
  intros Hfuel targets. induction targets as [|t targets IH];
    intros g g' r Hinv Hcl; simpl; unfold_st.
  - intros [= <- <-]. split; [by split|].
    intros t Ht. by apply elem_of_nil in Ht.
  - destruct (V4._make_graph E fuel t [] g) as [g1 r1] eqn:Hrun.
    apply (_make_graph_spec fuel t [] []) in Hrun; [|simpl; lia|].
    2:{ split; [done|]. split; [done|]. split; [constructor|].
        split; [constructor|]. done. }
    destruct r1 as [[]|e]; [|intros [= <- <-]; done].
    destruct Hrun as [(Hinv1 & Hcl1 & Hv1 & Hs1) (j & Hj & Hblack)].
    destruct (V4.make_graphs E fuel targets g1) as [g2 r2] eqn:Hrest.
    intros [= <- <-]. specialize (IH g1 g2 r2 Hinv1 Hcl1 Hrest).
    destruct r2 as [[]|e]; [|done].
    destruct IH as [(Hinv2 & Hcl2 & Hv2 & Hs2) Hall]. split.
    + split; [done|]. split; [done|]. split; [intros y Hy; by apply Hv2, Hv1|].
      etrans; [exact Hs1|exact Hs2].
    + intros t' [->|Ht']%elem_of_cons; [|by apply Hall].
      exists j. split; [exact (lookup_weaken _ _ _ _ Hj Hs2)|].
      by eapply v4_black_mono.
Qed.

(** The walk of v4 fails when a root reaches a cycle, for jobs with one
    target. *)
Lemma v4_make_graphs_cycle targets root jr j fuel meta dj lj :
  root ∈ targets ->
  V4._job_of_target σ0 !! root = Some jr ->
  rtc (v4_edge σ0) jr j -> tc (v4_edge σ0) j j ->
  (N0 + 1 <= fuel)%nat ->
  exists g' e,
    V4.make_graphs E fuel targets
      {| V4.g_dsl := σ0; V4.g_meta := meta; V4.dependent_jobs := dj;
         V4.leaf_jobs := lj |} = (g', Raise e) ∧
    v4_error σ0 e.
Proof.
  intros Hin Hroot Hreach Hcyc Hfuel.
  set (g0 := {| V4.g_dsl := σ0; V4.g_meta := meta; V4.dependent_jobs := dj;
                V4.leaf_jobs := lj |}).
  destruct (V4.make_graphs E fuel targets g0) as [g' r] eqn:Hrun.
  apply (make_graphs_spec fuel Hfuel) in Hrun;
    [|apply v4_inv_init|apply v4_closed_init].
  destruct r as [[]|e]; [|by exists g', e].
  exfalso. destruct Hrun as [(Hinv & [Hc1 Hc2] & _) Hall].
  destruct (Hall root Hin) as (jr' & Hjr' & Hblack).
  pose proof (lookup_weaken _ _ _ _ Hroot (v4i_sub _ _ Hinv)) as Hroot'.
  assert (jr' = jr) by congruence. subst jr'.
  apply (Hc2 j); [|done].
  by apply (closed_reach (v4_edge σ0) (v4_black σ0 (V4.g_dsl g') []) jr j).
Qed.
End V4MakeGraph.

Section WalkExamples.

Lemma vx_declared_check_ok σ : vx_declared_check σ = true -> vx_declared σ.
Proof.
  unfold vx_declared_check. intros [H1 H2]%andb_prop. split.
  - intros t j Ht. apply bool_decide_eq_true in H1. by apply (H1 t j).
  - intros j (jb & tk & Hjb & Htk).
    rewrite forallb_forall in H2. specialize (H2 jb).
    rewrite Htk in H2. assert (false = true); [|done]. apply H2.
    apply list_elem_of_In. by eapply list_elem_of_lookup_2.
Qed.

Lemma v4_declared_check_ok σ : v4_declared_check σ = true -> v4_declared σ.
Proof.
  unfold v4_declared_check. intros [H1 H2]%andb_prop. split.
  - intros t j Ht. apply bool_decide_eq_true in H1. specialize (H1 t j Ht).
    simpl in H1. destruct (V4.jobs σ !! j) as [jb|]; [|done].
    exists jb. split; [done|]. by injection H1.
  - intros j (jb & Hjb & Hv).
    rewrite forallb_forall in H2. specialize (H2 jb).
    rewrite Hv in H2. assert (false = true); [|done]. apply H2.
    apply list_elem_of_In. by eapply list_elem_of_lookup_2.
Qed.

(** In v4 a cycle that closes through another target of a job with two
    targets is not found: the walk from [t1] of [v4_siblings] returns,
    with no job without deps to start from. *)
Lemma v4_sibling_cycle_undetected :
  V4._job_of_target v4_siblings !! "t1" = Some 0%nat ∧
  tc (v4_edge v4_siblings) 0%nat 0%nat ∧
  forall fuel, (4 <= fuel)%nat ->
    exists g', V4.make_graphs (E4_local ∅ 0) fuel ["t1"] (v4_start v4_siblings)
               = (g', Ok ()) ∧ V4.leaf_jobs g' = [].
Proof.
  split; [reflexivity|]. split.
  - eapply tc_l; [|apply tc_once].
    + eexists _, "d". split; [reflexivity|]. split; [|reflexivity]. by left.
    + eexists _, "t2". split; [reflexivity|]. split; [|reflexivity]. by left.
  - intros fuel Hfuel.
    do 4 (destruct fuel as [|fuel]; [lia|]). eexists. split; reflexivity.
Qed.

(** In vx the thread of the task context and the workers run while the
    main thread is in [invoke]: with [vx_early] the action of [a] is
    called after the main thread has made the task of [a] and before it
    comes to [b], at which [invoke] raises. *)
Lemma vx_action_before_cycle_error :
  (VX.invoke E_elements 5 0 [] vx_early).2
    = Raise (Err (MsgCircularJob 2 [2%nat; 0%nat])) ∧
  VX.set_iter E_elements {["a"; "b"]} = ["a"; "b"] ∧
  exists s,
    VX.run E_elements
      ([VX.LChild "a"; VX.LTask 1 []]
       ++ replicate 4 (VX.LCoord VX.Yes)
       ++ replicate 6 (VX.LWorker 0 VX.Yes))
      (VX.sys_init vx_early false 1 1 false) = Some s ∧
    VX.trace s = [EvAction 1; EvEnq 1].
Proof.
  split; [by vm_compute|]. split; [by vm_compute|].
  eexists. split; by vm_compute.
Qed.

End WalkExamples.

(** * The run of vx *)
Section SysBasics.

Lemma child_of_jobs d σ σ' r :
  VX.child_of d σ = (σ', r) ->
  VX.job_objs σ' = VX.job_objs σ ∨
  exists jb, VX.job_objs σ' = VX.job_objs σ ++ [jb] ∧
    VX.jtask jb = None ∧ VX.done jb = false ∧ VX.successed jb = false.
Proof.
  unfold VX.child_of, VX.meta, VX.file, VX.construct, VX.decorate.
  unfold mbind, mret, ST_bind, ST_ret, lift, get_state, put_state.
  destruct (VX.job_of_target σ !! d) eqn:Hd; [intros [= <- <-]; by left|].
  simpl. unfold VX.NonOverwritableDict_setitem. rewrite Hd. simpl.
  rewrite lookup_app_r by done. rewrite Nat.sub_diag. simpl.
  rewrite lookup_insert_eq. intros [= <- <-]. right. simpl.
  eexists. split.
  { rewrite insert_app_r_alt by done. rewrite Nat.sub_diag. reflexivity. }
  done.
Qed.

(** What the updates of a state leave of its parts. *)
Lemma job_of_upd_job s j g k :
  VX.job_of (VX.upd_job s j g) k
  = if decide (k = j) then g <$> VX.job_of s k else VX.job_of s k.
Proof.
  unfold VX.job_of, VX.upd_job. simpl. case_decide as Hk.
  - subst. apply list_lookup_alter_eq.
  - by apply list_lookup_alter_ne.
Qed.

Lemma job_of_upd_task s j g k :
  VX.job_of (VX.upd_task s j g) k
  = if decide (k = j)
    then (fun jb => VX.set_task jb (g <$> VX.jtask jb)) <$> VX.job_of s k
    else VX.job_of s k.
Proof. apply job_of_upd_job. Qed.

Lemma put_each_obs ps : forall s c,
  VX.job_objs (VX.s_dsl (VX.put_each s c ps)) = VX.job_objs (VX.s_dsl s) ∧
  VX.thread_pool (VX.put_each s c ps) = VX.thread_pool s ∧
  VX.workers (VX.put_each s c ps) = VX.workers s ∧
  VX.trace (VX.put_each s c ps)
  = reverse ((fun p => EvRequeue p c) <$> ps) ++ VX.trace s.
Proof.
  induction ps as [|p ps IH]; intros s c; simpl; [done|].
  destruct (IH (VX.emit (VX.ctx_put s p) (EvRequeue p c)) c)
    as (-> & -> & -> & ->).
  repeat split. simpl. rewrite reverse_cons, <- app_assoc. done.
Qed.

Lemma finish_task_obs s t :
  (forall k, VX.job_of (VX.finish_task s t) k
     = if decide (k = t) then fin_job None <$> VX.job_of s k
       else VX.job_of s k) ∧
  VX.thread_pool (VX.finish_task s t) = VX.thread_pool s ∧
  VX.workers (VX.finish_task s t) = VX.workers s ∧
  exists ps, VX.trace (VX.finish_task s t)
             = reverse ((fun p => EvRequeue p t) <$> ps) ++ VX.trace s.
Proof.
  unfold VX.finish_task, VX._put_waited.
  pose proof (fun k => job_of_upd_task s t (fun tk => VX.set_t_done tk None) k)
    as Hs1.
  assert (Hp1 : VX.thread_pool (VX.upd_task s t (fun tk => VX.set_t_done tk None))
                = VX.thread_pool s) by done.
  assert (Hw1 : VX.workers (VX.upd_task s t (fun tk => VX.set_t_done tk None))
                = VX.workers s) by done.
  assert (Ht1 : VX.trace (VX.upd_task s t (fun tk => VX.set_t_done tk None))
                = VX.trace s) by done.
  revert Hs1 Hp1 Hw1 Ht1.
  generalize (VX.upd_task s t (fun tk => VX.set_t_done tk None)).
  intros s1 Hs1 Hp1 Hw1 Ht1.
  destruct (VX.task_of s1 t) as [tk|] eqn:Htk.
  - destruct (put_each_obs (VX.waited tk)
                (VX.upd_task s1 t (fun t0 => VX.set_waited t0 [])) t)
      as (Hj & Hp & Hw & Ht).
    split; [|split; [|split]].
    + intros k.
      transitivity (VX.job_of (VX.upd_task s1 t (fun t0 => VX.set_waited t0 [])) k).
      { unfold VX.job_of. simpl. by rewrite Hj. }
      rewrite job_of_upd_task, Hs1. case_decide; [|done].
      destruct (VX.job_of s k) as [jb|]; [|done]. simpl.
      unfold fin_job. simpl. destruct (VX.jtask jb); reflexivity.
    + simpl. rewrite Hp. simpl. exact Hp1.
    + simpl. rewrite Hw. simpl. exact Hw1.
    + exists (VX.waited tk). simpl. rewrite Ht. simpl. by rewrite Ht1.
  - split; [|split; [|split]]; [|done|done|by exists []].
    intros k. transitivity (VX.job_of s1 k); [done|]. rewrite Hs1.
    case_decide as Hk; [|done]. subst k.
    unfold VX.task_of in Htk. rewrite Hs1 in Htk.
    rewrite decide_True in Htk by done.
    destruct (VX.job_of s t) as [jb|]; [|done]. simpl in *.
    unfold fin_job. destruct (VX.jtask jb); [done|]. done.
Qed.

Lemma push_job_obs s j a :
  VX.s_dsl (VX.push_job s j a) = VX.s_dsl s ∧
  VX._keep_going (VX.thread_pool (VX.push_job s j a))
    = VX._keep_going (VX.thread_pool s) ∧
  omap holds (VX.workers (VX.push_job s j a)) = omap holds (VX.workers s) ∧
  (forall w p, VX.workers (VX.push_job s j a) !! w = Some p ->
     p = VX.WTop ∨ VX.workers s !! w = Some p) ∧
  ((VX.trace (VX.push_job s j a) = VX.trace s ∧
    queued (VX.push_job s j a) = queued s) ∨
   (VX.trace (VX.push_job s j a) = EvEnq j :: VX.trace s ∧
    queued (VX.push_job s j a) ≡ₚ j :: queued s)).
Proof.
  unfold VX.push_job. destruct (VX.stop (VX.thread_pool s)).
  { split; [done|]. split; [done|]. split; [done|]. split; [eauto|]. by left. }
  set (p' := if default false (VX.serial <$> VX.job_of s j) then _ else _).
  assert (Hq : VX._queue p' ++ VX._serial_queue p' ≡ₚ j :: queued s).
  { unfold p', queued. destruct (default false _); simpl;
      unfold Heapq.put; rewrite heappush_perm; [|done].
    by rewrite Permutation_middle. }
  assert (Hk : VX._keep_going p' = VX._keep_going (VX.thread_pool s)).
  { unfold p'. by destruct (default false _). }
  destruct (_ || _); simpl.
  - split; [done|]. split; [done|]. split.
    { rewrite omap_app. simpl. by rewrite app_nil_r. }
    split.
    { intros w p [Hw|[_ Hw]]%lookup_app_Some; [by right|].
      left. destruct (w - _)%nat; simpl in Hw; [by injection Hw|done]. }
    right. done.
  - split; [done|]. split; [done|]. split; [done|]. split; [eauto|].
    right. done.
Qed.

Lemma omap_holds_insert (ws : list VX.worker_pc) w p p' :
  ws !! w = Some p ->
  exists l1 l2,
    omap holds ws = l1 ++ option_list (holds p) ++ l2 ∧
    omap holds (<[w := p']> ws) = l1 ++ option_list (holds p') ++ l2.
Proof.
  intros Hw. pose proof (take_drop_middle ws w p Hw) as Heq.
  exists (omap holds (take w ws)), (omap holds (drop (S w) ws)).
  split.
  - rewrite <- Heq at 1. rewrite omap_app. simpl.
    by destruct (holds p).
  - rewrite <- Heq at 1.
    assert (Hlen : w = length (take w ws)).
    { rewrite length_take. apply lookup_lt_Some in Hw. lia. }
    rewrite Hlen at 1. rewrite insert_app_r_alt by done.
    rewrite Nat.sub_diag. simpl. rewrite omap_app. simpl.
    by destruct (holds p').
Qed.

Lemma get_perm (lt : nat -> nat -> bool) q j q' :
  Heapq.get lt q = Some (j, q') -> q ≡ₚ j :: q'.
Proof. apply heappop_perm. Qed.

End SysBasics.

Section SysInv.
Context {R : Type}.
Variable E : VX.env R.

Ltac step_inv H :=
  unfold VX.step_of, VX.main_child, VX.main_task, VX.coord_step,
    VX.worker_step, VX.metadata_getitem, VX.TDefaultDict_getitem in H;
  repeat (case_match; try discriminate); simplify_eq.

Ltac abstract_fin s t :=
  let Hj := fresh "Hfj" in let Hp := fresh "Hfp" in
  let Hw := fresh "Hfw" in let Ht := fresh "Hft" in
  let ps := fresh "ps" in
  destruct (finish_task_obs s t) as (Hj & Hp & Hw & ps & Ht);
  let s0 := fresh "s0" in let Heq := fresh "Heq" in
  remember (VX.finish_task s t) as s0 eqn:Heq; clear Heq.

Ltac abstract_push s t a :=
  let Hd := fresh "Hpd" in let Hk := fresh "Hpk" in
  let Hh := fresh "Hph" in let Hw := fresh "Hpw" in
  let Ht := fresh "Hpt" in
  destruct (push_job_obs s t a) as (Hd & Hk & Hh & Hw & Ht);
  let s0 := fresh "s0" in let Heq := fresh "Heq" in
  remember (VX.push_job s t a) as s0 eqn:Heq; clear Heq.

Ltac abstract_special :=
  repeat match goal with
  | |- context [VX.finish_task ?s ?t] => abstract_fin s t
  | H : context [VX.finish_task ?s ?t] |- _ => abstract_fin s t
  | |- context [VX.push_job ?s ?t ?a] => abstract_push s t a
  | H : context [VX.push_job ?s ?t ?a] |- _ => abstract_push s t a
  end.

Ltac sys_simpl :=
  cbv zeta in *;
  unfold VX.worker_dies, VX._die, VX.set_worker, VX.ctx_put, VX.upd_task,
    VX.upd_job, VX.emit, VX.with_pool, VX.with_workers, VX.with_coord,
    VX.with_ctx_stop, VX.with_dsl, VX.task_of, VX.job_of in *;
  cbn [VX.trace VX.workers VX.thread_pool VX.s_dsl VX.coord VX.ctx_stop
       VX.job_objs VX.set_job_objs VX.set_ctx_queue VX.set_metadata
       VX._keep_going VX.set_deferred_errors VX.set_threads VX.set_queue
       VX.set_serial_queue VX.set_serial_queue_lock VX.set_n_running
       VX.set_stop VX._queue VX._serial_queue] in *.

Ltac alter_cases :=
  repeat match goal with
  | |- context [alter ?g ?j ?l !! ?j] =>
      rewrite (list_lookup_alter_eq g l j)
  | H : context [alter ?g ?j ?l !! ?j] |- _ =>
      rewrite (list_lookup_alter_eq g l j) in H
  | H : ?x ≠ ?j |- context [alter ?g ?j ?l !! ?x] =>
      rewrite (list_lookup_alter_ne g l j x) by done
  | H : ?x ≠ ?j, H' : context [alter ?g ?j ?l !! ?x] |- _ =>
      rewrite (list_lookup_alter_ne g l j x) in H' by done
  | |- context [alter ?g ?j ?l !! ?x] =>
      destruct (decide (x = j)) as [->|?]
  | H : context [alter ?g ?j ?l !! ?x] |- _ =>
      destruct (decide (x = j)) as [->|?]
  end.

Lemma job_le_refl jb : job_le jb jb.
Proof. repeat split; eauto. Qed.

Lemma job_le_trans a b c : job_le a b -> job_le b c -> job_le a c.
Proof.
  intros (? & ? & ? & ? & ? & Ht1) (? & ? & ? & ? & ? & Ht2).
  repeat split; try congruence; eauto.
  intros tk Htk. destruct (Ht1 tk Htk) as (tk1 & Htk1 & ? & ?).
  destruct (Ht2 tk1 Htk1) as (tk2 & Htk2 & ? & ?). exists tk2.
  split; [done|]. split; [congruence|eauto].
Qed.

Ltac job_le_tac xb :=
  unfold job_le, fin_job, past_test; simpl;
  destruct (VX.jtask xb) eqn:?; simpl in *;
  repeat split; try done; intros; simplify_eq/=;
  try (eexists; split; [reflexivity|]; split; [done|]; simpl;
       intros [?|?]; first [congruence | by left | by right]).

(** A step keeps the jobs of the store: what is declared of a job stays,
    the flags [done] and [successed] are not reset, and a task keeps its
    children. *)
Lemma step_mono l s s' : VX.step_of E l s = Some s' -> jobs_le s s'.
Proof.
  unfold jobs_le. intros H. step_inv H; intros x xb Hxb; abstract_special; sys_simpl.
  all: try (exists xb; split; [done|apply job_le_refl]).
  all: try (rewrite ?Hfj, ?Hpd; repeat case_decide; subst; alter_cases;
            rewrite ?Hxb in *; simpl in *; eexists; (split; [reflexivity|]);
            first [apply job_le_refl | job_le_tac xb]; fail).
  destruct (child_of_jobs _ _ _ _ H1) as [->|(nb & -> & _)].
  - exists xb. split; [done|apply job_le_refl].
  - exists xb. split; [|apply job_le_refl].
    apply lookup_app_l_Some. done.
Qed.

Ltac worker_moves :=
  match goal with
  | H : VX.workers ?s !! ?w = Some ?p
    |- context [omap holds (<[?w := ?p']> (VX.workers ?s))] =>
      let l1 := fresh "l1" in let l2 := fresh "l2" in
      let Ha := fresh "Ha" in let Hb := fresh "Hb" in
      destruct (omap_holds_insert (VX.workers s) w p p' H)
        as (l1 & l2 & Ha & Hb);
      simpl in Ha, Hb; rewrite ?Ha, ?Hb
  end.

Ltac perm_tac :=
  simpl; rewrite <- ?Permutation_middle; simpl; rewrite ?app_nil_r;
  try done.

Ltac act_unfold :=
  unfold active, queued; sys_simpl;
  repeat match goal with
  | H : VX.thread_pool _ = _ |- _ => rewrite H
  | H : VX.workers _ = _ |- _ => rewrite H
  end;
  try worker_moves.

Ltac get_tac :=
  match goal with
  | H : Heapq.get _ _ = Some _ |- _ => apply get_perm in H
  end.

Lemma step_active l s s' : VX.step_of E l s = Some s' -> act_step s s'.
Proof.
  intros H. step_inv H; abstract_special.
  all: try (by apply act_same).
  all: try (apply act_same; act_unfold; done).
  all: try (get_tac; apply act_same; act_unfold;
            [match goal with H : _ ≡ₚ _ |- _ => rewrite H end; perm_tac
            |intros x; match goal with H : _ ≡ₚ _ |- _ => rewrite H end;
             rewrite !elem_of_app, ?elem_of_cons; tauto]; fail).
  all: try (match goal with
            | H : VX.workers _ !! _ = Some ?p |- _ =>
                match eval simpl in (holds p) with
                | Some ?j => apply (act_drop _ _ j)
                | None => apply act_same
                end
            end; act_unfold; perm_tac; fail).
  - (* the coordinator, at [self._enq()] *)
    destruct Hpt as [[Ht Hq]|[Ht Hq]].
    + apply act_same; unfold active; sys_simpl.
      * change (queued (VX.Build_sys _ _ _ _ _ _)) with (queued s0).
        by rewrite Hq, Hph.
      * intros x. change (queued (VX.Build_sys _ _ _ _ _ _)) with (queued s0).
        by rewrite Hq.
    + apply (act_push _ _ t t0); [| | |done|done]; unfold active; sys_simpl.
      * change (queued (VX.Build_sys _ _ _ _ _ _)) with (queued s0).
        by rewrite Hq, Hph.
      * change (queued (VX.Build_sys _ _ _ _ _ _)) with (queued s0). done.
      * done.
  - (* a worker, at [assert j.serial] *)
    get_tac. apply (act_drop _ _ n); act_unfold.
    + match goal with H : _ ≡ₚ _ |- _ => rewrite H end. perm_tac.
    + intros x. match goal with H : _ ≡ₚ _ |- _ => rewrite H end.
      rewrite !elem_of_app, elem_of_cons. tauto.
Qed.

Lemma step_trace l s s' :
  VX.step_of E l s = Some s' -> exists new, VX.trace s' = new ++ VX.trace s.
Proof.
  intros H. step_inv H; abstract_special; sys_simpl.
  all: try (by exists []).
  all: try (by eexists [_]).
  all: try (by eexists [_; _]).
  - destruct Hpt as [[-> _]|[-> _]]; [by exists []|by eexists [_]].
  - rewrite Hft. eauto.
  - rewrite Hft. eexists (_ ++ [_]). by rewrite <- app_assoc.
Qed.

Lemma step_keep_going l s s' :
  VX.step_of E l s = Some s' ->
  VX._keep_going (VX.thread_pool s') = VX._keep_going (VX.thread_pool s).
Proof.
  intros H. step_inv H; abstract_special; sys_simpl; try done.
  all: by rewrite ?Hfp.
Qed.

Lemma succ_mono s s' c : jobs_le s s' -> succ s c -> succ s' c.
Proof.
  intros Hle (cb & Hcb & Hs). destruct (Hle c cb Hcb) as (cb' & Hcb' & Hl).
  exists cb'. split; [done|]. by apply Hl.
Qed.

Lemma enq_ok_mono s s' j : jobs_le s s' -> enq_ok s j -> enq_ok s' j.
Proof.
  intros Hle (jb & tk & Hjb & Htk & Hpc & Hch).
  destruct (Hle j jb Hjb) as (jb' & Hjb' & Hl).
  destruct Hl as (_ & _ & _ & _ & _ & Ht).
  destruct (Ht tk Htk) as (tk' & Htk' & Hc & Hp).
  exists jb', tk'. split; [done|]. split; [done|]. split; [by apply Hp|].
  intros c Hcin. rewrite Hc in Hcin. eapply succ_mono; eauto.
Qed.

Lemma targets_of_le jb jb' :
  job_le jb jb' -> targets_of E jb' = targets_of E jb.
Proof.
  intros (Hk & Ht & _). unfold targets_of. by rewrite Hk, Ht.
Qed.

Lemma cleaned_mono s s' j l :
  jobs_le s s' ->
  VX._keep_going (VX.thread_pool s') = VX._keep_going (VX.thread_pool s) ->
  cleaned E s j l -> cleaned E s' j l.
Proof.
  intros Hle Hkg (jb & Hjb & Hh & Hs).
  destruct (Hle j jb Hjb) as (jb' & Hjb' & Hl).
  exists jb'. split; [done|]. rewrite (targets_of_le _ _ Hl). rewrite Hkg.
  done.
Qed.

Lemma handled_weaken j l l' t :
  (forall e, e ∈ l -> e ∈ l') -> handled j l t -> handled j l' t.
Proof. intros Hsub [H|H]; [left|right]; by apply Hsub. Qed.

Lemma settled_weaken kg j l l' :
  (forall e, e ∈ l -> e ∈ l') -> settled kg j l -> settled kg j l'.
Proof. unfold settled. intros Hsub. destruct kg; apply Hsub. Qed.

Lemma cleaned_weaken s j l l' :
  (forall e, e ∈ l -> e ∈ l') -> cleaned E s j l -> cleaned E s j l'.
Proof.
  intros Hsub (jb & Hjb & Hh & Hs). exists jb. split; [done|]. split.
  - intros t Ht. eapply handled_weaken; eauto.
  - eapply settled_weaken; eauto.
Qed.

Lemma event_ok_mono s s' e l0 :
  jobs_le s s' ->
  VX._keep_going (VX.thread_pool s') = VX._keep_going (VX.thread_pool s) ->
  event_ok E s e l0 -> event_ok E s' e l0.
Proof.
  intros Hle Hkg. destruct e; simpl; try done.
  intros H Hr. eapply cleaned_mono; eauto.
Qed.

Lemma trace_ok_mono s s' l :
  jobs_le s s' ->
  VX._keep_going (VX.thread_pool s') = VX._keep_going (VX.thread_pool s) ->
  trace_ok E s l -> trace_ok E s' l.
Proof.
  intros Hle Hkg. induction l as [|e l IH]; simpl; [done|].
  intros [He Hl]. split; [by eapply event_ok_mono|by apply IH].
Qed.

Lemma trace_ok_requeues s t ps l :
  EvDoneSet t ∈ l -> trace_ok E s l ->
  trace_ok E s (reverse ((fun p => EvRequeue p t) <$> ps) ++ l).
Proof.
  intros Hd Hl. induction ps as [|p ps IH] using rev_ind; [done|].
  rewrite fmap_app, reverse_app. simpl. split; [|done].
  apply elem_of_app. by right.
Qed.

Lemma trace_ok_split s l l1 e l0 :
  trace_ok E s l -> l = l1 ++ e :: l0 -> event_ok E s e l0.
Proof.
  revert l. induction l1 as [|e1 l1 IH]; intros l Hl ->; simpl in Hl.
  - by destruct Hl.
  - destruct Hl as [_ Hl]. by eapply IH.
Qed.

(** Two threads that hold a job hold different jobs. *)
Lemma holds_inj (ws : list VX.worker_pc) w w' p p' j :
  NoDup (omap holds ws) -> ws !! w = Some p -> ws !! w' = Some p' ->
  holds p = Some j -> holds p' = Some j -> w = w'.
Proof.
  revert w w'. induction ws as [|q ws IH]; intros w w' Hnd Hw Hw' Hp Hp';
    [done|].
  assert (Hin : forall v r, ws !! v = Some r -> holds r = Some j ->
                  j ∈ omap holds ws).
  { intros v r Hv Hr. apply list_elem_of_omap. exists r.
    split; [by eapply list_elem_of_lookup_2|done]. }
  simpl in Hnd. destruct w as [|w], w' as [|w']; simpl in *; simplify_eq.
  - done.
  - rewrite Hp in Hnd. apply NoDup_cons in Hnd as [Hn _].
    exfalso. apply Hn. by eapply Hin.
  - rewrite Hp' in Hnd. apply NoDup_cons in Hnd as [Hn _].
    exfalso. apply Hn. by eapply Hin.
  - f_equal. eapply IH; eauto.
    destruct (holds q); [by apply NoDup_cons in Hnd as [_ ?]|done].
Qed.

Lemma holds_active s w p j :
  VX.workers s !! w = Some p -> holds p = Some j -> j ∈ active s.
Proof.
  intros Hw Hp. unfold active. apply elem_of_app. right.
  apply list_elem_of_omap. exists p.
  split; [by eapply list_elem_of_lookup_2|done].
Qed.


Lemma task_of_Some s t tk :
  VX.task_of s t = Some tk ->
  exists jb, VX.job_of s t = Some jb ∧ VX.jtask jb = Some tk.
Proof.
  unfold VX.task_of. destruct (VX.job_of s t) as [jb|]; [|done].
  simpl. eauto.
Qed.

Lemma requeue_elem e t ps :
  e ∈ reverse ((fun p => EvRequeue p t) <$> ps) -> exists p, e = EvRequeue p t.
Proof.
  rewrite elem_of_reverse, list_elem_of_fmap. intros (p & -> & _). eauto.
Qed.

Ltac old_event H :=
  rewrite ?elem_of_app, ?elem_of_cons in H;
  repeat match type of H with
  | _ ∨ _ => destruct H as [H|H]; [try discriminate H|]
  end;
  try (apply requeue_elem in H as [? H]; discriminate H).

Lemma step_si_enq l s s' :
  VX.step_of E l s = Some s' -> sys_inv E s ->
  forall j, EvEnq j ∈ VX.trace s' -> enq_ok s' j.
Proof.
  intros Hstep Hinv x Hx. pose proof (step_mono _ _ _ Hstep) as Hle.
  assert (Hold : EvEnq x ∈ VX.trace s -> enq_ok s' x).
  { intros Hx0. eapply enq_ok_mono; [done|]. by apply (si_enq _ _ Hinv). }
  step_inv Hstep; abstract_special.
  all: try (sys_simpl; by apply Hold).
  all: try (sys_simpl; rewrite ?Hft in Hx; old_event Hx; by apply Hold).
  (* the coordinator, at [self._enq()] *)
  simpl in Hx. destruct Hpt as [[Ht _]|[Ht _]]; rewrite Ht in Hx;
    [by apply Hold|].
  apply elem_of_cons in Hx as [[= ->]|Hx]; [|by apply Hold].
  destruct (task_of_Some _ _ _ H1) as (jb & Hjb & Htk).
  destruct (Hle t jb Hjb) as (jb' & Hjb' & Hl).
  pose proof (si_job _ _ Hinv t jb Hjb) as (_ & _ & Hok).
  rewrite Htk in Hok. unfold task_ok in Hok. rewrite H3 in Hok.
  destruct Hok as [_ Hch].
  destruct Hl as (_ & _ & _ & _ & _ & Hl). destruct (Hl _ Htk) as (tk' & Htk' & Hc & _).
  exists jb', tk'. split; [done|]. split; [done|]. split.
  - revert Hjb' Htk'. unfold VX.job_of. simpl. rewrite Hpd.
    rewrite list_lookup_alter_eq. fold (VX.job_of s t). rewrite Hjb. simpl.
    intros [= <-]. simpl. rewrite Htk. simpl. intros [= <-]. by left.
  - intros c Hcin. rewrite Hc in Hcin. eapply succ_mono; eauto.
Qed.

Lemma trace_ok_elem s l e :
  trace_ok E s l -> e ∈ l -> exists l1 l0, l = l1 ++ e :: l0 ∧ event_ok E s e l0.
Proof.
  intros Hl [l1 [l0 ->]]%list_elem_of_split. exists l1, l0. split; [done|].
  by eapply trace_ok_split.
Qed.

Lemma raised_enq s j :
  sys_inv E s -> EvRaised j ∈ VX.trace s -> EvEnq j ∈ VX.trace s.
Proof.
  intros Hinv Hr.
  destruct (trace_ok_elem _ _ _ (si_trace _ _ Hinv) Hr) as (l1 & l0 & -> & He).
  simpl in He. rewrite elem_of_app, elem_of_cons. auto.
Qed.

Lemma action_enq s j :
  sys_inv E s -> EvAction j ∈ VX.trace s -> EvEnq j ∈ VX.trace s.
Proof.
  intros Hinv Hr.
  destruct (trace_ok_elem _ _ _ (si_trace _ _ Hinv) Hr) as (l1 & l0 & -> & He).
  simpl in He. rewrite elem_of_app, elem_of_cons. auto.
Qed.

(** A job that was put on a queue has a task that is past the test. *)
Lemma enq_past_test s j jb tk :
  sys_inv E s -> EvEnq j ∈ VX.trace s ->
  VX.job_of s j = Some jb -> VX.jtask jb = Some tk -> past_test tk.
Proof.
  intros Hinv He Hjb Htk.
  destruct (si_enq _ _ Hinv j He) as (jb' & tk' & Hjb' & Htk' & Hp & _).
  congruence.
Qed.

Ltac worker_facts Hinv :=
  try match goal with
  | Hw : VX.workers _ !! _ = Some _ |- _ =>
      let Hwok := fresh "Hwok" in
      pose proof (si_worker _ _ Hinv _ _ Hw) as Hwok; simpl in Hwok;
      try (let Hact := fresh "Hact" in
           pose proof (si_active _ _ Hinv _ (holds_active _ _ _ _ Hw eq_refl))
             as Hact;
           destruct Hact as [Hact ?])
  end.

Lemma step_si_trace l s s' :
  VX.step_of E l s = Some s' -> sys_inv E s -> trace_ok E s' (VX.trace s').
Proof.
  intros Hstep Hinv. pose proof (step_mono _ _ _ Hstep) as Hle.
  pose proof (step_keep_going _ _ _ Hstep) as Hkg.
  assert (Hold : trace_ok E s' (VX.trace s)).
  { eapply trace_ok_mono; [done|done|]. apply (si_trace _ _ Hinv). }
  assert (Hev : forall e l0, event_ok E s e l0 -> event_ok E s' e l0).
  { intros e l0. by apply event_ok_mono. }
  clear Hle Hkg.
  step_inv Hstep; abstract_special; worker_facts Hinv.
  all: try (sys_simpl; by apply Hold).
  all: try (sys_simpl; cbn [trace_ok];
            repeat match goal with |- _ ∧ _ => split end;
            first [apply Hold | apply Hev; simpl; tauto]).
  - (* the coordinator, at [self._enq()] *)
    simpl. destruct Hpt as [[-> _]|[-> _]]; [done|]. by split.
  - (* the coordinator, after [yield self._enq()] *)
    rewrite Hft. apply trace_ok_requeues; [|done].
    match goal with
    | Hj : VX.job_of s t = Some ?jb, Hd : VX.done ?jb = true |- _ =>
        by apply (si_job _ _ Hinv t jb Hj)
    end.
  - (* the coordinator, at [self.done.set()] *)
    rewrite Hft. simpl. apply trace_ok_requeues; [by left|].
    split; [|done]. simpl. intros Hr. exfalso.
    apply (raised_enq _ _ Hinv) in Hr.
    destruct (task_of_Some _ _ _ H1) as (jb & Hjb & Htk).
    destruct (enq_past_test _ _ _ _ Hinv Hr Hjb Htk); congruence.
Qed.

Lemma not_active_at s j tk :
  sys_inv E s -> VX.task_of s j = Some tk -> ~ past_test tk -> j ∉ active s.
Proof.
  intros Hinv Htk Hp Hin. destruct (si_active _ _ Hinv j Hin) as [He _].
  destruct (task_of_Some _ _ _ Htk) as (jb & Hjb & Htk').
  by apply Hp, (enq_past_test _ _ _ _ Hinv He Hjb Htk').
Qed.

Lemma step_si_nodup l s s' :
  VX.step_of E l s = Some s' -> sys_inv E s -> NoDup (active s').
Proof.
  intros Hstep Hinv. pose proof (si_nodup _ _ Hinv) as Hnd.
  destruct (step_active _ _ _ Hstep) as [Hp _|j tk Hp _ _ Htk Hpc|j Hp _].
  - by rewrite Hp.
  - rewrite Hp. apply NoDup_cons. split; [|done].
    apply (not_active_at _ _ tk Hinv Htk). intros [?|?]; congruence.
  - rewrite Hp in Hnd. by apply NoDup_cons in Hnd as [_ ?].
Qed.

(** The event [EvRaised] is new only for a job that a worker holds. *)
Lemma step_new_raised l s s' x :
  VX.step_of E l s = Some s' -> EvRaised x ∈ VX.trace s' ->
  EvRaised x ∈ VX.trace s ∨
  exists w rest, VX.workers s' = <[w := VX.WRmTargets x rest]> (VX.workers s) ∧
    (VX.workers s !! w = Some (VX.WExecute x) ∨
     VX.workers s !! w = Some (VX.WRunning x)) ∧
    queued s' = queued s.
Proof.
  intros Hstep Hx. step_inv Hstep; abstract_special.
  all: try (sys_simpl; by left).
  all: try (sys_simpl; rewrite ?Hft in Hx; old_event Hx; by left).
  all: try (sys_simpl; apply elem_of_cons in Hx as [[= ->]|Hx]; [|by left];
            right; eexists _, _; split; [reflexivity|]; split; [|done];
            eauto; fail).
  simpl in Hx. left. destruct Hpt as [[Ht _]|[Ht _]]; rewrite Ht in Hx;
    [done|]. by old_event Hx.
Qed.

Lemma active_queued_held s w p j :
  NoDup (active s) -> VX.workers s !! w = Some p -> holds p = Some j ->
  j ∉ queued s.
Proof.
  unfold active. intros [_ [Hd _]]%NoDup_app Hw Hp Hq.
  apply (Hd j Hq). apply list_elem_of_omap. exists p.
  split; [by eapply list_elem_of_lookup_2|done].
Qed.

Lemma step_si_queued l s s' :
  VX.step_of E l s = Some s' -> sys_inv E s ->
  forall j, j ∈ queued s' -> EvRaised j ∉ VX.trace s'.
Proof.
  intros Hstep Hinv x Hq Hr.
  assert (Hold : x ∈ queued s -> False).
  { intros Hq0.
    destruct (step_new_raised _ _ _ _ Hstep Hr) as [Hr0|(w & rest & _ & Hw & _)].
    - by apply (si_queued _ _ Hinv x).
    - destruct Hw as [Hw|Hw];
        by apply (active_queued_held _ _ _ x (si_nodup _ _ Hinv) Hw). }
  destruct (step_active _ _ _ Hstep) as [_ Hsub|j tk _ Hp Ht Htk Hpc|j _ Hsub].
  - by apply Hold, Hsub.
  - rewrite Hp in Hq. apply elem_of_cons in Hq as [->|Hq]; [|by apply Hold].
    rewrite Ht in Hr. old_event Hr. apply (raised_enq _ _ Hinv) in Hr.
    destruct (task_of_Some _ _ _ Htk) as (jb & Hjb & Htk').
    destruct (enq_past_test _ _ _ _ Hinv Hr Hjb Htk'); congruence.
  - by apply Hold, Hsub.
Qed.

(** The flag [done] of a job is set when the pool has finished with the
    job, or never had it. *)
Lemma step_done_inactive l s s' x xb xb' :
  VX.step_of E l s = Some s' -> sys_inv E s ->
  VX.job_of s x = Some xb -> VX.done xb = false ->
  VX.job_of s' x = Some xb' -> VX.done xb' = true ->
  x ∉ active s'.
Proof.
  intros Hstep Hinv Hxb Hd Hxb' Hd'. pose proof (si_nodup _ _ Hinv) as Hnd.
  pose proof (step_active _ _ _ Hstep) as Hact.
  step_inv Hstep; abstract_special.
  all: try (exfalso; sys_simpl; rewrite ?Hfj, ?Hpd in *;
            repeat case_decide; subst; alter_cases;
            rewrite ?Hxb in *; simplify_eq/=; congruence).
  - (* the main thread declares a leaf *)
    exfalso. revert Hxb'. unfold VX.job_of in *. simpl.
    destruct (child_of_jobs _ _ _ _ H0) as [->|(nb & -> & _ & Hnb & _)].
    + congruence.
    + rewrite (lookup_app_l_Some _ _ _ _ Hxb). congruence.
  - (* the coordinator, at [self.done.set()] *)
    assert (Heq : active s0 = active s).
    { unfold active, queued. by rewrite Hfp, Hfw. }
    rewrite Heq. destruct (decide (x = t)) as [->|Hne].
    + apply (not_active_at _ _ t0 Hinv H1). intros [?|?]; congruence.
    + exfalso. rewrite Hfj in Hxb'. rewrite decide_False in Hxb' by done.
      revert Hxb'. unfold VX.job_of in *. simpl.
      rewrite list_lookup_alter_ne by done. congruence.
  - (* a worker, at [j.done.set()] *)
    destruct (decide (x = j)) as [->|Hne].
    + unfold active, queued in *. sys_simpl.
      destruct (omap_holds_insert _ _ _ (VX.WTaskPut j) H0)
        as (l1 & l2 & Ha & Hb).
      simpl in Ha, Hb. rewrite Hb. rewrite Ha in Hnd.
      rewrite !NoDup_app in Hnd. destruct Hnd as (_ & Hq & _ & Hl & Hn).
      apply NoDup_cons in Hn as [Hn _].
      rewrite elem_of_app. intros [Hin|[Hin|Hin]%elem_of_app].
      * apply (Hq j Hin). rewrite elem_of_app, elem_of_cons. auto.
      * by apply (Hl j Hin); left.
      * done.
    + exfalso. revert Hxb'. unfold VX.job_of in *. simpl.
      rewrite list_lookup_alter_ne by done. congruence.
Qed.

(** The flag [successed] of a job is set by the worker that holds it. *)
Lemma step_successed_active l s s' x xb xb' :
  VX.step_of E l s = Some s' ->
  VX.job_of s x = Some xb -> VX.successed xb = false ->
  VX.job_of s' x = Some xb' -> VX.successed xb' = true ->
  x ∈ active s.
Proof.
  intros Hstep Hxb Hd Hxb' Hd'.
  step_inv Hstep; abstract_special.
  all: try (exfalso; sys_simpl; rewrite ?Hfj, ?Hpd in *;
            repeat case_decide; subst; alter_cases;
            rewrite ?Hxb in *; simplify_eq/=; congruence).
  1: { exfalso. revert Hxb'. unfold VX.job_of in *. simpl.
       destruct (child_of_jobs _ _ _ _ H0) as [->|(nb & -> & _ & Hnb & _)].
       - congruence.
       - rewrite (lookup_app_l_Some _ _ _ _ Hxb). congruence. }
  all: destruct (decide (x = j)) as [->|Hne];
    [by eapply holds_active
    |exfalso; revert Hxb'; unfold VX.job_of in *; simpl;
     rewrite list_lookup_alter_ne by done; congruence].
Qed.

(** A job that is over without success stays so. *)
Lemma step_failed l s s' d :
  VX.step_of E l s = Some s' -> sys_inv E s -> failed s d -> failed s' d.
Proof.
  intros Hstep Hinv (db & Hdb & Hd & Hs).
  destruct (step_mono _ _ _ Hstep d db Hdb) as (db' & Hdb' & Hl).
  exists db'. split; [done|]. split; [by apply Hl|].
  destruct (VX.successed db') eqn:Hs'; [|done]. exfalso.
  pose proof (step_successed_active _ _ _ _ _ _ Hstep Hdb Hs Hdb' Hs') as Hin.
  destruct (si_active _ _ Hinv d Hin) as (_ & db0 & Hdb0 & Hd0). congruence.
Qed.

Lemma step_si_active l s s' :
  VX.step_of E l s = Some s' -> sys_inv E s ->
  forall j, j ∈ active s' -> active_ok s' j.
Proof.
  intros Hstep Hinv x Hx.
  destruct (step_trace _ _ _ Hstep) as [new Hnew].
  assert (Hold : x ∈ active s -> active_ok s' x).
  { intros Hin. destruct (si_active _ _ Hinv x Hin) as (He & xb & Hxb & Hd).
    split; [rewrite Hnew, elem_of_app; by right|].
    destruct (step_mono _ _ _ Hstep x xb Hxb) as (xb' & Hxb' & Hl).
    exists xb'. split; [done|].
    destruct (VX.done xb') eqn:Hd'; [|done]. exfalso.
    by apply (step_done_inactive _ _ _ _ _ _ Hstep Hinv Hxb Hd Hxb' Hd'). }
  destruct (step_active _ _ _ Hstep) as [Hp _|j tk Hp _ Ht Htk Hpc|j Hp _].
  - rewrite Hp in Hx. by apply Hold.
  - rewrite Hp in Hx. apply elem_of_cons in Hx as [->|Hx]; [|by apply Hold].
    split; [rewrite Ht; by left|].
    destruct (task_of_Some _ _ _ Htk) as (jb & Hjb & Htk').
    destruct (step_mono _ _ _ Hstep j jb Hjb) as (jb' & Hjb' & Hl).
    exists jb'. split; [done|].
    pose proof (si_job _ _ Hinv j jb Hjb) as (_ & _ & Hok).
    rewrite Htk' in Hok. unfold task_ok in Hok. rewrite Hpc in Hok.
    destruct Hok as [Hd _].
    destruct (VX.done jb') eqn:Hd'; [|done]. exfalso.
    apply (step_done_inactive _ _ _ _ _ _ Hstep Hinv Hjb Hd Hjb' Hd').
    rewrite Hp. by left.
  - apply Hold. rewrite Hp. by right.
Qed.

Lemma task_ok_mono s s' jb tk :
  (forall c, succ s c -> succ s' c) -> task_ok s jb tk -> task_ok s' jb tk.
Proof.
  intros Hs. unfold task_ok. destruct (VX.pc tk); try done.
  - intros [? H]. split; [done|]. eauto.
  - intros [? H]. split; [done|]. eauto.
  - eauto.
Qed.

Lemma job_ok_mono s s' j jb :
  (forall e, e ∈ VX.trace s -> e ∈ VX.trace s') ->
  (forall c, succ s c -> succ s' c) ->
  job_ok s j jb -> job_ok s' j jb.
Proof.
  intros Ht Hs (H1 & H2 & H3). split; [eauto|]. split; [eauto|].
  destruct (VX.jtask jb); [|done]. by eapply task_ok_mono.
Qed.

Lemma job_of_with_coord s c k : VX.job_of (VX.with_coord s c) k = VX.job_of s k.
Proof. done. Qed.

Lemma job_ok_waited s j jb (g : VX.task -> list nat) :
  job_ok s j jb ->
  job_ok s j (VX.set_task jb ((fun ck => VX.set_waited ck (g ck)) <$> VX.jtask jb)).
Proof.
  intros (H1 & H2 & H3). split; [done|]. split; [done|]. simpl.
  destruct (VX.jtask jb); simpl; done.
Qed.

Lemma step_si_job l s s' :
  VX.step_of E l s = Some s' -> sys_inv E s ->
  forall j jb, VX.job_of s' j = Some jb -> job_ok s' j jb.
Proof.
  intros Hstep Hinv x xb' Hxb'.
  assert (Hsucc : forall c, succ s c -> succ s' c).
  { intros c. apply succ_mono. by eapply step_mono. }
  assert (Htr : forall e, e ∈ VX.trace s -> e ∈ VX.trace s').
  { destruct (step_trace _ _ _ Hstep) as [new ->]. intros e He.
    apply elem_of_app. by right. }
  assert (Hold : forall xb, VX.job_of s x = Some xb -> job_ok s' x xb).
  { intros xb Hxb. eapply job_ok_mono; [done|done|]. by apply (si_job _ _ Hinv). }
  step_inv Hstep; abstract_special.
  all: try (by apply Hold).
  all: try (sys_simpl; rewrite ?Hfj, ?Hpd in *; alter_cases;
            by apply Hold).
  all: try match goal with
       | Hc : VX.coord _ = VX.CNext ?t, Ht : VX.task_of _ ?t = Some ?t0 |- _ =>
           destruct (decide (x = t)) as [->|Hne];
           [destruct (task_of_Some _ _ _ Ht) as (jb & Hjb & Htk);
            pose proof (si_job _ _ Hinv t jb Hjb) as (Ho1 & Ho2 & Ho3);
            rewrite Htk in Ho3; unfold task_ok in Ho3
           |]
       end.
  all: try (sys_simpl; rewrite ?Hfj, ?Hpd in *;
            repeat case_decide; try done; alter_cases; by apply Hold).
  all: try (match goal with Hp : VX.pc _ = _ |- _ => rewrite Hp in Ho3 end;
            revert Hxb'; sys_simpl; rewrite ?Hfj, ?Hpd in *;
            repeat case_decide; try done; alter_cases;
            rewrite ?Hjb; simpl; intros [= <-];
            (split; [|split]); simpl;
            [try (by intros; apply Htr; auto)..|];
            rewrite ?Htk; simpl; unfold task_ok; simpl;
            try done; try tauto).
  all: try (split; [tauto|intros; lia]).
  all: try match goal with
       | H0 : VX.workers _ !! _ = Some ?p |- _ =>
           match eval simpl in (holds p) with
           | Some ?j =>
               destruct (decide (x = j)) as [->|Hne];
               [|sys_simpl; alter_cases; by apply Hold];
               destruct (si_active _ _ Hinv j (holds_active _ _ _ _ H0 eq_refl))
                 as (Henq & jb & Hjb & Hdone);
               destruct (Hold jb Hjb) as (Hn1 & Hn2 & Hn3);
               destruct (si_enq _ _ Hinv j Henq)
                 as (jb0 & tk & Hjb0 & Htk & Hpast & _);
               assert (jb0 = jb) by congruence; subst jb0;
               revert Hxb'; unfold VX.job_of in Hjb |- *; simpl;
               rewrite list_lookup_alter_eq, Hjb; simpl; intros [= <-]
           end
       end.
  - (* the main thread declares a leaf *)
    revert Hxb'. unfold VX.job_of at 1. simpl.
    destruct (child_of_jobs _ _ _ _ H0) as [->|(nb & -> & Hnt & Hnd & Hns)].
    + apply Hold.
    + intros [Hxb'|[_ Hxb']]%lookup_app_Some; [by apply Hold|].
      destruct (x - _)%nat; [|done]. injection Hxb' as <-.
      split; [by rewrite Hns|]. split; [by rewrite Hnd|]. by rewrite Hnt.
  - (* the main thread makes the task *)
    destruct (decide (x = j)) as [->|Hne].
    + pose proof (si_job _ _ Hinv j j0 H0) as (Ho1 & Ho2 & Ho3).
      rewrite H1 in Ho3.
      revert Hxb'. sys_simpl. alter_cases. rewrite H0. simpl. intros [= <-].
      split; [|split]; simpl; [intros; apply Htr; auto..|].
      done.
    + sys_simpl. alter_cases. by apply Hold.
  - (* the coordinator: the task waits for a child *)
    rewrite job_of_with_coord, !job_of_upd_task in Hxb'.
    rewrite (decide_False (P := x = t)) in Hxb' by done.
    case_decide; [|by apply Hold].
    destruct (VX.job_of s x) as [xb|] eqn:Hxb; [|done].
    simpl in Hxb'. injection Hxb' as <-.
    by apply job_ok_waited, Hold.
  - (* the coordinator: one more child has succeeded *)
    destruct Ho3 as [Hd Hc]. split; [done|]. intros k c Hk Hkc. apply Hsucc.
    destruct (decide (k = i)) as [->|].
    + rewrite H4 in Hkc. injection Hkc as <-. by exists j.
    + apply (Hc k c); [lia|done].
  - (* the coordinator: all children have succeeded *)
    destruct Ho3 as [Hd Hc]. split; [done|].
    intros c [k Hk]%list_elem_of_lookup. apply Hsucc, (Hc k c); [|done].
    apply lookup_ge_None in H4. apply lookup_lt_Some in Hk. lia.
  - (* the coordinator, at [self._enq()] *)
    intros c Hc. apply Hsucc. by apply Ho3.
  - (* the coordinator, after [yield self._enq()] *)
    intros _. congruence.
  - (* the coordinator, at [self.done.set()] *)
    intros _. rewrite Hft, elem_of_app. right. by left.
  - (* [j.successed = True], the job needed no update *)
    split; [intros; by apply Htr|]. split; [done|]. exact Hn3.
  - (* [j.executed = True] *)
    split; [done|]. split; [done|]. exact Hn3.
  - (* [j.successed = True] *)
    split; [intros; by apply Htr|]. split; [done|]. exact Hn3.
  - (* [j.done.set()] *)
    split; [done|]. split; [intros; by left|]. simpl.
    rewrite Htk in Hn3 |- *. unfold task_ok in *. simpl.
    destruct Hpast as [Hp|Hp]; rewrite Hp in Hn3 |- *; done.
Qed.

Lemma worker_ok_step s s' p :
  jobs_le s s' ->
  VX._keep_going (VX.thread_pool s') = VX._keep_going (VX.thread_pool s) ->
  (forall e, e ∈ VX.trace s -> e ∈ VX.trace s') ->
  (forall j, holds p = Some j -> EvRaised j ∈ VX.trace s' ->
     EvRaised j ∈ VX.trace s) ->
  worker_ok E s p -> worker_ok E s' p.
Proof.
  intros Hle Hkg Htr Hr.
  assert (Hh : forall j t, handled j (VX.trace s) t -> handled j (VX.trace s') t).
  { intros j t. by apply handled_weaken. }
  assert (Hc : forall j, cleaned E s j (VX.trace s) -> cleaned E s' j (VX.trace s')).
  { intros j Hcl. eapply cleaned_weaken; [exact Htr|]. by eapply cleaned_mono. }
  destruct p; simpl; try done;
    try (intros Hn Hin; apply Hn; by apply Hr).
  - intros (Hin & jb & pre & Hjb & Hpre & Hall).
    destruct (Hle j jb Hjb) as (jb' & Hjb' & Hl).
    split; [by apply Htr|]. exists jb', pre. split; [done|].
    rewrite (targets_of_le _ _ Hl). split; [done|]. intros t Ht. by apply Hh, Hall.
  - intros (Hin & jb & Hjb & Hall).
    destruct (Hle j jb Hjb) as (jb' & Hjb' & Hl).
    split; [by apply Htr|]. exists jb'. split; [done|].
    rewrite (targets_of_le _ _ Hl). intros t Ht. by apply Hh, Hall.
  - intros Hcl Hin. apply Hc, Hcl. by apply Hr.
  - intros Hcl Hin. apply Hc, Hcl. by apply Hr.
  - apply Htr.
Qed.

Lemma nodup_held s : NoDup (active s) -> NoDup (omap holds (VX.workers s)).
Proof. unfold active. by intros (_ & _ & ?)%NoDup_app. Qed.

(** A thread that a step leaves where it is keeps what holds of it. *)
Lemma worker_unchanged l s s' w p :
  VX.step_of E l s = Some s' -> sys_inv E s ->
  VX.workers s !! w = Some p -> VX.workers s' !! w = Some p ->
  worker_ok E s' p.
Proof.
  intros Hstep Hinv Hw Hw'.
  apply (worker_ok_step s s'); [by eapply step_mono|by eapply step_keep_going| |
                                |by apply (si_worker _ _ Hinv w)].
  - destruct (step_trace _ _ _ Hstep) as [new ->]. intros e He.
    apply elem_of_app. by right.
  - intros j Hj Hr.
    destruct (step_new_raised _ _ _ _ Hstep Hr) as [|(w1 & rest & Hws & Hw1 & _)];
      [done|]. exfalso.
    pose proof (nodup_held _ (si_nodup _ _ Hinv)) as Hnd.
    assert (w = w1).
    { destruct Hw1 as [Hw1|Hw1];
        by eapply (holds_inj _ w w1 _ _ j Hnd Hw Hw1). }
    subst w1. rewrite Hws in Hw'.
    rewrite list_lookup_insert_eq in Hw' by by eapply lookup_lt_Some.
    destruct Hw1 as [Hw1|Hw1]; congruence.
Qed.

Lemma step_si_worker l s s' :
  VX.step_of E l s = Some s' -> sys_inv E s ->
  forall w p, VX.workers s' !! w = Some p -> worker_ok E s' p.
Proof.
  intros Hstep Hinv w0 p0 Hw'.
  assert (Hun : VX.workers s !! w0 = Some p0 -> worker_ok E s' p0).
  { intros Hw. by eapply worker_unchanged. }
  pose proof (step_mono _ _ _ Hstep) as Hle.
  pose proof (step_keep_going _ _ _ Hstep) as Hkg.
  step_inv Hstep; abstract_special; worker_facts Hinv.
  all: try (by apply Hun).
  all: try (by apply Hun; rewrite ?Hfw in Hw').
  all: try (revert Hw'; sys_simpl;
            intros [(-> & <- & _)|(Hne & Hw')]%list_lookup_insert_Some;
            [|by apply Hun]; simpl; try done).
  all: try (by left).
  all: try (apply not_elem_of_cons; by split).
  all: try (get_tac;
            match goal with
            | Hq : _ ≡ₚ ?n :: _ |- EvRaised ?n ∉ _ =>
                apply (si_queued _ _ Hinv n); unfold queued;
                rewrite Hq, ?elem_of_app, ?elem_of_cons; auto
            end; fail).
  all: try (split; [by left|];
            match goal with
            | Hj : VX.job_objs _ !! ?j = Some ?jb, Hk : VX.kind ?jb = _ |- _ =>
                exists jb, []; split; [done|]; split;
                [unfold targets_of; by rewrite Hk
                |intros t Ht; by apply elem_of_nil in Ht]
            end; fail).
  all: try (destruct Hwok as (Hr & jb & pre & Hjb & Hpre & Hall);
            split; [by right|]; exists jb, (pre ++ [s0]);
            split; [done|]; split; [by rewrite Hpre, <- app_assoc|];
            intros t [Ht|Ht%list_elem_of_singleton]%elem_of_app;
            [eapply handled_weaken; [|by apply Hall];
             intros e He; by right
            |subst t; first [by left; left | by right; left]]; fail).
  - (* the coordinator, at [self._enq()] *)
    simpl in Hw'. destruct (Hpw _ _ Hw') as [->|Hw]; [done|by apply Hun].
  - (* [rm_targets] returns *)
    destruct Hwok as (Hr & jb & pre & Hjb & Hpre & Hall).
    split; [done|]. exists jb. split; [done|].
    rewrite Hpre, app_nil_r. done.
  - (* [self.deferred_errors.put((j, e_str))] *)
    destruct Hwok as (Hr & jb & Hjb & Hall). intros _.
    exists jb. split; [done|]. split.
    + intros t Ht. eapply handled_weaken; [|by apply Hall].
      intros e He. by right.
    + unfold settled. simpl.
      match goal with Hk : VX._keep_going _ = true |- _ => rewrite Hk end.
      by left.
  - (* [self._die(e_str)] *)
    destruct Hwok as (Hr & jb & Hjb & Hall). intros _.
    exists jb. split; [done|]. split.
    + intros t Ht. eapply handled_weaken; [|by apply Hall].
      intros e He. by right.
    + unfold settled. simpl.
      match goal with Hk : VX._keep_going _ = false |- _ => rewrite Hk end.
      by left.
Qed.

(** A step keeps what the threads keep true. *)
Lemma step_sys_inv l s s' :
  VX.step_of E l s = Some s' -> sys_inv E s -> sys_inv E s'.
Proof.
  intros Hstep Hinv. split.
  - by eapply step_si_nodup.
  - by eapply step_si_active.
  - by eapply step_si_queued.
  - by eapply step_si_worker.
  - by eapply step_si_job.
  - by eapply step_si_enq.
  - by eapply step_si_trace.
Qed.

Lemma sys_inv_init σ kg n ns laf :
  sys_ready σ -> sys_inv E (VX.sys_init σ kg n ns laf).
Proof.
  intros Hr. split; simpl.
  - apply NoDup_nil_2.
  - intros j Hj. by apply elem_of_nil in Hj.
  - intros j Hj. by apply elem_of_nil in Hj.
  - intros w p Hw. done.
  - intros j jb Hjb. destruct (Hr j jb Hjb) as (Ht & Hd & Hs).
    split; [by rewrite Hs|]. split; [by rewrite Hd|]. by rewrite Ht.
  - intros j Hj. by apply elem_of_nil in Hj.
  - done.
Qed.

Lemma run_sys_inv ls : forall s s',
  VX.run E ls s = Some s' -> sys_inv E s -> sys_inv E s'.
Proof.
  induction ls as [|l ls IH]; intros s s'; simpl.
  - by intros [= <-].
  - destruct (VX.step_of E l s) as [s1|] eqn:Hstep; [|done]. simpl.
    intros Hrun Hinv. eapply IH; [done|]. by eapply step_sys_inv.
Qed.

Lemma run_jobs_le ls : forall s s', VX.run E ls s = Some s' -> jobs_le s s'.
Proof.
  induction ls as [|l ls IH]; intros s s'; simpl.
  - intros [= <-] j jb Hjb. exists jb. split; [done|apply job_le_refl].
  - destruct (VX.step_of E l s) as [s1|] eqn:Hstep; [|done]. simpl.
    intros Hrun j jb Hjb.
    destruct (step_mono _ _ _ Hstep j jb Hjb) as (jb1 & Hjb1 & Hl1).
    destruct (IH _ _ Hrun j jb1 Hjb1) as (jb2 & Hjb2 & Hl2).
    exists jb2. split; [done|]. by eapply job_le_trans.
Qed.

Lemma run_failed ls : forall s s' d,
  VX.run E ls s = Some s' -> sys_inv E s -> failed s d -> failed s' d.
Proof.
  induction ls as [|l ls IH]; intros s s' d; simpl.
  - by intros [= <-].
  - destruct (VX.step_of E l s) as [s1|] eqn:Hstep; [|done]. simpl.
    intros Hrun Hinv Hf. eapply IH; [done|by eapply step_sys_inv|].
    by eapply step_failed.
Qed.

Lemma run_keep_going ls : forall s s',
  VX.run E ls s = Some s' ->
  VX._keep_going (VX.thread_pool s') = VX._keep_going (VX.thread_pool s).
Proof.
  induction ls as [|l ls IH]; intros s s'; simpl.
  - by intros [= <-].
  - destruct (VX.step_of E l s) as [s1|] eqn:Hstep; [|done]. simpl.
    intros Hrun. rewrite (IH _ _ Hrun). by eapply step_keep_going.
Qed.

Lemma dep_of_mono s s' j c : jobs_le s s' -> dep_of s j c -> dep_of s' j c.
Proof.
  intros Hle (jb & tk & Hjb & Htk & Hc).
  destruct (Hle j jb Hjb) as (jb' & Hjb' & Hl).
  destruct Hl as (_ & _ & _ & _ & _ & Ht).
  destruct (Ht tk Htk) as (tk' & Htk' & Hch & _).
  exists jb', tk'. by rewrite Hch.
Qed.

Lemma tc_dep_of_mono s s' j d :
  jobs_le s s' -> tc (dep_of s) j d -> tc (dep_of s') j d.
Proof.
  intros Hle Htc. induction Htc as [x y H|x y z H _ IH].
  - apply tc_once. by eapply dep_of_mono.
  - eapply tc_l; [|exact IH]. by eapply dep_of_mono.
Qed.

(** A job that was put on a queue has no child without success. *)
Lemma enq_children s j c :
  sys_inv E s -> EvEnq j ∈ VX.trace s -> dep_of s j c -> succ s c.
Proof.
  intros Hinv He (jb & tk & Hjb & Htk & Hc).
  destruct (si_enq _ _ Hinv j He) as (jb' & tk' & Hjb' & Htk' & _ & Hall).
  apply Hall. congruence.
Qed.

Lemma succ_enq s j : sys_inv E s -> succ s j -> EvEnq j ∈ VX.trace s.
Proof.
  intros Hinv (jb & Hjb & Hs). by apply (si_job _ _ Hinv j jb Hjb).
Qed.

Lemma failed_not_succ s d : failed s d -> ~ succ s d.
Proof. intros (db & Hdb & _ & Hs) (db' & Hdb' & Hs'). congruence. Qed.

(** No job above a job that is over without success is put on a queue. *)
Lemma blocked_above s j d :
  sys_inv E s -> tc (dep_of s) j d -> failed s d ->
  (EvEnq j ∉ VX.trace s) ∧ exists c, dep_of s j c ∧ ~ succ s c.
Proof.
  intros Hinv Htc Hf. induction Htc as [j d Hjd|j c d Hjc Hcd IH].
  - assert (Hns : ~ succ s d) by by apply failed_not_succ.
    split; [|by exists d]. intros He. apply Hns. by eapply enq_children.
  - destruct (IH Hf) as [Hne _].
    assert (Hns : ~ succ s c).
    { intros Hs. by apply Hne, succ_enq. }
    split; [|by exists c]. intros He. apply Hns. by eapply enq_children.
Qed.

(** [rm_targets] finds [keep] for a target whose metadata say so, and
    calls [rm] for a target whose metadata do not. *)
Lemma step_keep_rm l s s' j t :
  VX.step_of E l s = Some s' ->
  (EvKeep j t ∈ VX.trace s' -> EvKeep j t ∉ VX.trace s ->
   VX.keeps (VX.TDefaultDict_getitem (VX.metadata (VX.s_dsl s)) t).2 = true) ∧
  (EvRm j t ∈ VX.trace s' -> EvRm j t ∉ VX.trace s ->
   VX.keeps (VX.TDefaultDict_getitem (VX.metadata (VX.s_dsl s)) t).2 = false).
Proof.
  intros Hstep.
  step_inv Hstep; abstract_special; sys_simpl.
  all: try (split; intros Hin Hnin; done).
  all: try (split; intros Hin Hnin; rewrite ?Hft in Hin; old_event Hin; done).
  all: try (split; intros Hin Hnin; old_event Hin;
            first [done
                  |simplify_eq; unfold VX.TDefaultDict_getitem;
                   match goal with
                   | Hm : VX.metadata _ !! _ = _ |- _ => rewrite Hm
                   end; simpl; done]).
  simpl. split; intros Hin Hnin; destruct Hpt as [[Ht _]|[Ht _]];
    rewrite Ht in Hin; old_event Hin; done.
Qed.
End SysInv.

Section CoordProgress.
Context {R : Type}.
Variable E : VX.env R.

Lemma succ_upd_task s j g c : succ (VX.upd_task s j g) c <-> succ s c.
Proof.
  unfold succ. rewrite job_of_upd_task. case_decide as Hc; [subst c|done].
  destruct (VX.job_of s j) as [jb|]; simpl; [|by split; intros (? & ? & ?)].
  split.
  - intros (cb & [= <-] & Hs). by exists jb.
  - intros (cb & [= <-] & Hs). eexists. split; [done|]. done.
Qed.

(** The task of a job with a child that has not succeeded, once it is at
    the test of its children, sets the [done] event of the job: the
    coordinator goes through the children up to the first one without
    success, and the task ends, without [self._enq()]. *)
Lemma coord_skips_job a n : forall s j jb tk i,
  (length (VX.children tk) - i = n)%nat ->
  VX.coord s = VX.CNext j ->
  VX.job_of s j = Some jb -> VX.jtask jb = Some tk ->
  VX.t_done tk = false -> VX.pc tk = VX.AtAll i ->
  (forall c, c ∈ VX.children tk -> is_Some (VX.job_of s c)) ->
  (exists m c, (i <= m)%nat ∧ VX.children tk !! m = Some c ∧ ~ succ s c) ->
  exists k s',
    VX.run E (replicate k (VX.LCoord a)) s = Some s' ∧
    (exists jb', VX.job_of s' j = Some jb' ∧ VX.done jb' = true) ∧
    (exists ps, VX.trace s'
       = reverse ((fun p => EvRequeue p j) <$> ps) ++ EvDoneSet j :: VX.trace s) ∧
    VX.coord s' = VX.CIdle.
Proof.
  induction n as [|n IH]; intros s j jb tk i Hn Hc Hjb Htk Hd Hpc Hjobs
    (m & c & Him & Hm & Hns).
  { apply lookup_lt_Some in Hm. lia. }
  assert (Htask : VX.task_of s j = Some tk).
  { unfold VX.task_of. by rewrite Hjb. }
  destruct (lookup_lt_is_Some_2 (VX.children tk) i) as [c0 Hc0].
  { apply lookup_lt_Some in Hm. lia. }
  destruct (Hjobs c0) as [cb Hcb]; [by eapply list_elem_of_lookup_2|].
  assert (Hstep : VX.coord_step a s
    = if VX.successed cb
      then Some (VX.upd_task s j (fun tk => VX.set_pc tk (VX.AtAll (S i))))
      else Some (VX.upd_task s j (fun tk => VX.set_pc tk VX.AtDoneSet))).
  { unfold VX.coord_step. by rewrite Hc, Htask, Hd, Hpc, Hc0, Hcb. }
  destruct (VX.successed cb) eqn:Hs.
  - (* the child has succeeded: on to the next *)
    set (s1 := VX.upd_task s j (fun tk => VX.set_pc tk (VX.AtAll (S i)))).
    destruct (IH s1 j (VX.set_task jb (Some (VX.set_pc tk (VX.AtAll (S i)))))
                (VX.set_pc tk (VX.AtAll (S i))) (S i))
      as (k & s' & Hrun & Hdone & Htr & Hco); try done.
    + simpl. lia.
    + unfold s1. rewrite job_of_upd_task, decide_True by done.
      rewrite Hjb. simpl. by rewrite Htk.
    + intros c' Hc'. unfold s1. rewrite job_of_upd_task.
      case_decide; [subst c'; by rewrite Hjb|by apply Hjobs].
    + exists m, c. split; [|split; [done|]].
      * destruct (decide (m = i)) as [->|]; [|lia]. exfalso. apply Hns.
        assert (c = c0) by congruence. subst c. by exists cb.
      * unfold s1. by rewrite succ_upd_task.
    + exists (S k), s'. split; [|done].
      simpl. change (VX.step_of E (VX.LCoord a) s) with (VX.coord_step a s).
      by rewrite Hstep.
  - (* the child has not: [self.done.set()] *)
    set (s1 := VX.upd_task s j (fun tk => VX.set_pc tk VX.AtDoneSet)).
    assert (Hjb1 : VX.job_of s1 j
                   = Some (VX.set_task jb (Some (VX.set_pc tk VX.AtDoneSet)))).
    { unfold s1. rewrite job_of_upd_task, decide_True by done.
      rewrite Hjb. simpl. by rewrite Htk. }
    assert (Hstep2 : VX.coord_step a s1
      = Some (VX.finish_task
                (VX.emit (VX.upd_job s1 j VX.set_done) (EvDoneSet j)) j)).
    { assert (Hc1 : VX.coord s1 = VX.CNext j) by done.
      unfold VX.coord_step. rewrite Hc1. unfold VX.task_of. rewrite Hjb1.
      simpl. by rewrite Hd. }
    exists 2%nat. eexists. split.
    { cbn [VX.run replicate]. unfold VX.step_of. rewrite Hstep.
      cbn [mbind option_bind]. fold s1. rewrite Hstep2. reflexivity. }
    destruct (finish_task_obs
                (VX.emit (VX.upd_job s1 j VX.set_done) (EvDoneSet j)) j)
      as (Hfj & _ & _ & ps & Hft).
    split; [|split; [|done]].
    + rewrite Hfj, decide_True by done.
      change (VX.job_of (VX.emit ?x _) j) with (VX.job_of x j).
      rewrite job_of_upd_job, decide_True by done. rewrite Hjb1. simpl.
      eexists. split; [reflexivity|done].
    + exists ps. by rewrite Hft.
Qed.
End CoordProgress.

Section RunExamples.

Lemma sys_ready_check_ok σ : sys_ready_check σ = true -> sys_ready σ.
Proof.
  unfold sys_ready_check. rewrite forallb_forall. intros Hall j jb Hjb.
  specialize (Hall jb). destruct (VX.jtask jb).
  - assert (false = true); [|done]. apply Hall.
    apply list_elem_of_In. by eapply list_elem_of_lookup_2.
  - destruct (VX.done jb), (VX.successed jb); try done;
      (assert (false = true); [|done]); apply Hall;
      apply list_elem_of_In; by eapply list_elem_of_lookup_2.
Qed.

(** At the end of the run [fail_run1], [fail_run2] the task of [r] is over
    and has set the [done] event of [r], whose action was not called. *)
Lemma fail_run_ends :
  VX.trace fail_end
    = [EvDoneSet 0; EvRequeue 0 1; EvTaskPut 1; EvDoneSet 1; EvDefer 1;
       EvRm 1 "a"; EvRaised 1; EvAction 1; EvEnq 1] ∧
  (fun jb => (VX.done jb, VX.successed jb)) <$> VX.job_of fail_end 0
    = Some (true, false).
Proof. by vm_compute. Qed.

End RunExamples.

(** * The run of vx: what follows from the invariant *)
Section RunFacts.
Context {R : Type}.
Variable E : VX.env R.

Lemma reach_inv σ kg n ns laf ls s :
  sys_ready σ -> VX.run E ls (VX.sys_init σ kg n ns laf) = Some s ->
  sys_inv E s.
Proof.
  intros Hready Hrun. eapply run_sys_inv; [exact Hrun|]. by apply sys_inv_init.
Qed.

Lemma enq_deps s j :
  sys_inv E s -> EvEnq j ∈ VX.trace s ->
  forall d, tc (dep_of s) j d -> succ s d ∧ EvEnq d ∈ VX.trace s.
Proof.
  intros Hinv Hj d Htc. induction Htc as [j c Hjc|j c d Hjc _ IH].
  - pose proof (enq_children E s j c Hinv Hj Hjc) as Hs.
    split; [done|]. by apply (succ_enq E).
  - apply IH. apply (succ_enq E); [done|]. by apply (enq_children E s j c).
Qed.

(** In a run of vx the action of a job is called only after the job was
    put on a queue of the pool, and a job is put on a queue only when
    every job it depends on, directly or through other jobs, has
    [successed] set (and was itself put on a queue before). *)
Theorem vx_deps_succeed_first σ kg n ns laf ls s j :
  sys_ready σ ->
  VX.run E ls (VX.sys_init σ kg n ns laf) = Some s ->
  (forall l1 l0, VX.trace s = l1 ++ EvAction j :: l0 -> EvEnq j ∈ l0) ∧
  (EvEnq j ∈ VX.trace s ->
   forall d, tc (dep_of s) j d -> succ s d ∧ EvEnq d ∈ VX.trace s).
Proof.
  intros Hready Hrun.
  pose proof (reach_inv _ _ _ _ _ _ _ Hready Hrun) as Hinv.
  split.
  - intros l1 l0 Heq.
    apply (trace_ok_split E _ _ _ _ _ (si_trace _ _ Hinv) Heq).
  - by apply enq_deps.
Qed.

(** In a run of vx no job is on the queues of the pool twice, no job is
    held by two worker threads, and a job that a worker holds is on no
    queue.  A job that is queued or held has been put on a queue by its
    task, and its [done] event is not set. *)
Theorem vx_job_held_once σ kg n ns laf ls s :
  sys_ready σ ->
  VX.run E ls (VX.sys_init σ kg n ns laf) = Some s ->
  NoDup (queued s) ∧
  (forall w w' p p' j,
     VX.workers s !! w = Some p -> VX.workers s !! w' = Some p' ->
     holds p = Some j -> holds p' = Some j -> w = w') ∧
  (forall w p j,
     VX.workers s !! w = Some p -> holds p = Some j -> j ∉ queued s) ∧
  (forall j, j ∈ active s ->
     EvEnq j ∈ VX.trace s ∧
     exists jb, VX.job_of s j = Some jb ∧ VX.done jb = false).
Proof.
  intros Hready Hrun.
  pose proof (reach_inv _ _ _ _ _ _ _ Hready Hrun) as Hinv.
  pose proof (si_nodup _ _ Hinv) as Hnd.
  split; [|split; [|split]].
  - unfold active in Hnd. by apply NoDup_app in Hnd as [? _].
  - intros w w' p p' j Hw Hw' Hp Hp'.
    eapply holds_inj; [by apply nodup_held|done..].
  - intros w p j Hw Hp. by eapply active_queued_held.
  - intros j Hj. apply (si_active _ _ Hinv j Hj).
Qed.

(** In a run of vx the [done] event and the flag [successed] of a job
    are never reset, the targets and the deps of a job do not change, and
    the children of its task are those the task was made with. *)
Theorem vx_flags_monotone ls s s' j jb :
  VX.run E ls s = Some s' ->
  VX.job_of s j = Some jb ->
  exists jb', VX.job_of s' j = Some jb' ∧
    VX.kind jb' = VX.kind jb ∧
    VX.ts_unique jb' = VX.ts_unique jb ∧
    VX.ds_unique jb' = VX.ds_unique jb ∧
    (VX.done jb = true -> VX.done jb' = true) ∧
    (VX.successed jb = true -> VX.successed jb' = true) ∧
    (forall tk, VX.jtask jb = Some tk ->
       exists tk', VX.jtask jb' = Some tk' ∧
                   VX.children tk' = VX.children tk).
Proof.
  intros Hrun Hjb.
  destruct (run_jobs_le E ls s s' Hrun j jb Hjb)
    as (jb' & Hjb' & Hk & Hts & Hds & Hd & Hs & Ht).
  exists jb'. repeat split; try done.
  intros tk Htk. destruct (Ht tk Htk) as (tk' & Htk' & Hc & _). eauto.
Qed.

(** The [else] branch of [task_of_invoke].  The coordinator is in the
    task of [j], at [all(child.successed for child in children)], and a
    child not yet looked at has not succeeded.  Then the coordinator, in a
    number of steps of its own, sets the [done] event of [j] without
    putting [j] on a queue of the pool, puts back the tasks that wait for
    the task of [j], and is ready for the next task. *)
Theorem vx_task_skips_job a s j jb tk i m c :
  VX.coord s = VX.CNext j ->
  VX.job_of s j = Some jb -> VX.jtask jb = Some tk ->
  VX.t_done tk = false -> VX.pc tk = VX.AtAll i ->
  (forall c, c ∈ VX.children tk -> is_Some (VX.job_of s c)) ->
  (i <= m)%nat -> VX.children tk !! m = Some c -> ~ succ s c ->
  exists k s',
    VX.run E (replicate k (VX.LCoord a)) s = Some s' ∧
    (exists jb', VX.job_of s' j = Some jb' ∧ VX.done jb' = true) ∧
    (exists ps, VX.trace s'
       = reverse ((fun p => EvRequeue p j) <$> ps) ++ EvDoneSet j :: VX.trace s) ∧
    VX.coord s' = VX.CIdle.
Proof.
  intros Hc Hjb Htk Hd Hpc Hall Him Hm Hs.
  eapply (coord_skips_job E a _ s j jb tk i eq_refl); eauto.
Qed.
End RunFacts.

Section RunFactsExamples.

Lemma ok_run_ends :
  VX.run E_elements ok_run fail_init = Some ok_end ∧
  VX.trace ok_end
  = [EvTaskPut 0; EvDoneSet 0; EvAction 0; EvEnq 0; EvRequeue 0 1;
     EvTaskPut 1; EvDoneSet 1; EvAction 1; EvEnq 1].
Proof. by vm_compute. Qed.

Lemma vx_deps_succeed_first_witness :
  (forall l1 l0, VX.trace ok_end = l1 ++ EvAction 0%nat :: l0 ->
     EvEnq 0%nat ∈ l0) ∧
  (EvEnq 0%nat ∈ VX.trace ok_end ->
   forall d, tc (dep_of ok_end) 0%nat d ->
     succ ok_end d ∧ EvEnq d ∈ VX.trace ok_end).
Proof.
  apply (vx_deps_succeed_first E_elements vx_fail_dsl true 1 1 false ok_run).
  - by apply sys_ready_check_ok.
  - by vm_compute.
Defined.

Lemma busy_mid_worker : VX.workers busy_mid = [VX.WRunning 1].
Proof. by vm_compute. Qed.

Lemma vx_job_held_once_witness :
  NoDup (queued busy_mid) ∧
  (forall w w' p p' j,
     VX.workers busy_mid !! w = Some p -> VX.workers busy_mid !! w' = Some p' ->
     holds p = Some j -> holds p' = Some j -> w = w') ∧
  (forall w p j,
     VX.workers busy_mid !! w = Some p -> holds p = Some j ->
     j ∉ queued busy_mid) ∧
  (forall j, j ∈ active busy_mid ->
     EvEnq j ∈ VX.trace busy_mid ∧
     exists jb, VX.job_of busy_mid j = Some jb ∧ VX.done jb = false).
Proof.
  apply (vx_job_held_once E_elements vx_fail_dsl true 1 1 false busy_run).
  - by apply sys_ready_check_ok.
  - by vm_compute.
Defined.
End RunFactsExamples.

(** * The run of vx: stopping, dry run, deferred errors *)
Section RunMore.
Context {R : Type}.
Variable E : VX.env R.

Ltac step_inv H :=
  unfold VX.step_of, VX.main_child, VX.main_task, VX.coord_step,
    VX.worker_step, VX.metadata_getitem, VX.TDefaultDict_getitem in H;
  repeat (case_match; try discriminate); simplify_eq.

Ltac abstract_fin s t :=
  let Hj := fresh "Hfj" in let Hp := fresh "Hfp" in
  let Hw := fresh "Hfw" in let Ht := fresh "Hft" in
  let ps := fresh "ps" in
  destruct (finish_task_obs s t) as (Hj & Hp & Hw & ps & Ht);
  let s0 := fresh "s0" in let Heq := fresh "Heq" in
  remember (VX.finish_task s t) as s0 eqn:Heq; clear Heq.

Ltac abstract_push s t a :=
  let Hd := fresh "Hpd" in let Hk := fresh "Hpk" in
  let Hh := fresh "Hph" in let Hw := fresh "Hpw" in
  let Ht := fresh "Hpt" in
  destruct (push_job_obs s t a) as (Hd & Hk & Hh & Hw & Ht);
  let s0 := fresh "s0" in let Heq := fresh "Heq" in
  remember (VX.push_job s t a) as s0 eqn:Heq; clear Heq.

Ltac abstract_special :=
  repeat match goal with
  | |- context [VX.finish_task ?s ?t] => abstract_fin s t
  | H : context [VX.finish_task ?s ?t] |- _ => abstract_fin s t
  | |- context [VX.push_job ?s ?t ?a] => abstract_push s t a
  | H : context [VX.push_job ?s ?t ?a] |- _ => abstract_push s t a
  end.

Ltac sys_simpl :=
  cbv zeta in *;
  unfold VX.worker_dies, VX._die, VX.set_worker, VX.ctx_put, VX.upd_task,
    VX.upd_job, VX.emit, VX.with_pool, VX.with_workers, VX.with_coord,
    VX.with_ctx_stop, VX.with_dsl, VX.task_of, VX.job_of in *;
  cbn [VX.trace VX.workers VX.thread_pool VX.s_dsl VX.coord VX.ctx_stop
       VX.job_objs VX.set_job_objs VX.set_ctx_queue VX.set_metadata
       VX._keep_going VX.set_deferred_errors VX.set_threads VX.set_queue
       VX.set_serial_queue VX.set_serial_queue_lock VX.set_n_running
       VX.set_stop VX._queue VX._serial_queue] in *.

Ltac alter_cases :=
  repeat match goal with
  | |- context [alter ?g ?j ?l !! ?j] =>
      rewrite (list_lookup_alter_eq g l j)
  | H : context [alter ?g ?j ?l !! ?j] |- _ =>
      rewrite (list_lookup_alter_eq g l j) in H
  | H : ?x ≠ ?j |- context [alter ?g ?j ?l !! ?x] =>
      rewrite (list_lookup_alter_ne g l j x) by done
  | H : ?x ≠ ?j, H' : context [alter ?g ?j ?l !! ?x] |- _ =>
      rewrite (list_lookup_alter_ne g l j x) in H' by done
  | |- context [alter ?g ?j ?l !! ?x] =>
      destruct (decide (x = j)) as [->|?]
  | H : context [alter ?g ?j ?l !! ?x] |- _ =>
      destruct (decide (x = j)) as [->|?]
  end.

Lemma run_preserves (P : VX.sys -> Prop) :
  (forall l s s', VX.step_of E l s = Some s' -> P s -> P s') ->
  forall ls s s', VX.run E ls s = Some s' -> P s -> P s'.
Proof.
  intros Hstep ls. induction ls as [|l ls IH]; intros s s' Hrun HP; simpl in Hrun.
  - by simplify_eq.
  - destruct (VX.step_of E l s) as [s1|] eqn:Hs; [|done]. simpl in Hrun.
    eapply IH; [exact Hrun|]. by eapply Hstep.
Qed.

Lemma push_job_stopped s j a :
  VX.stop (VX.thread_pool s) = true -> VX.push_job s j a = s.
Proof. intros H. unfold VX.push_job. by rewrite H. Qed.

Lemma push_job_stop s j a :
  VX.stop (VX.thread_pool (VX.push_job s j a)) = VX.stop (VX.thread_pool s) ∧
  VX.ctx_stop (VX.push_job s j a) = VX.ctx_stop s.
Proof.
  unfold VX.push_job. repeat case_match; done.
Qed.

Lemma put_each_stop ps : forall s c,
  VX.ctx_stop (VX.put_each s c ps) = VX.ctx_stop s.
Proof. induction ps as [|p ps IH]; intros s c; simpl; [done|]. by rewrite IH. Qed.

Lemma finish_task_stop s t :
  VX.ctx_stop (VX.finish_task s t) = VX.ctx_stop s.
Proof.
  unfold VX.finish_task, VX._put_waited. simpl.
  case_match; [|done]. by rewrite put_each_stop.
Qed.

Lemma step_stopped l s s' :
  VX.step_of E l s = Some s' -> VX.stop (VX.thread_pool s) = true ->
  VX.stop (VX.thread_pool s') = true ∧
  (forall j, EvEnq j ∈ VX.trace s' -> EvEnq j ∈ VX.trace s).
Proof.
  intros H Hstop. step_inv H;
    rewrite ?push_job_stopped by done; abstract_special; sys_simpl;
    rewrite ?Hfp, ?Hft;
    (split; [done|]); intros x Hx;
    rewrite ?elem_of_app, ?elem_of_cons in Hx;
    repeat match type of Hx with
    | _ ∨ _ => destruct Hx as [Hx|Hx]; [try discriminate Hx|]
    end;
    try (apply requeue_elem in Hx as [? Hx]; discriminate Hx); try done.
Qed.

Ltac old_ev H :=
  rewrite ?elem_of_app, ?elem_of_cons in H;
  repeat match type of H with
  | _ ∨ _ => destruct H as [H|H]; [try discriminate H|]
  end;
  try (apply requeue_elem in H as [? H]; discriminate H).

Lemma step_die l s s' :
  VX.step_of E l s = Some s' ->
  (VX.stop (VX.thread_pool s) = true -> VX.stop (VX.thread_pool s') = true) ∧
  (VX.ctx_stop s = true -> VX.ctx_stop s' = true) ∧
  (EvDie ∈ VX.trace s' ->
   EvDie ∈ VX.trace s ∨
   (VX.stop (VX.thread_pool s') = true ∧ VX.ctx_stop s' = true)).
Proof.
  intros H. step_inv H;
    repeat match goal with
    | |- context [VX.push_job ?s ?t ?a] =>
        let H1 := fresh in let H2 := fresh in
        destruct (push_job_stop s t a) as [H1 H2];
        destruct (push_job_obs s t a) as (_ & _ & _ & _ & [[? _]|[? _]]);
        remember (VX.push_job s t a)
    | |- context [VX.finish_task ?s ?t] =>
        pose proof (finish_task_stop s t);
        destruct (finish_task_obs s t) as (_ & ? & _ & ? & ?);
        remember (VX.finish_task s t)
    end;
    sys_simpl;
    (split; [try congruence; try done|]);
    (split; [try congruence; try done|]);
    intros Hx;
    repeat match goal with
    | H : VX.trace _ = _ |- _ => rewrite H in *; clear H
    end;
    old_ev Hx; try (by left); try (by right).
Qed.

Lemma child_of_more d σ σ' r :
  VX.child_of d σ = (σ', r) ->
  VX.dry_run σ' = VX.dry_run σ ∧
  (VX.job_objs σ' = VX.job_objs σ ∨
   exists jb, VX.job_objs σ' = VX.job_objs σ ++ [jb] ∧ VX.serial jb = false).
Proof.
  unfold VX.child_of, VX.meta, VX.file, VX.construct, VX.decorate.
  unfold mbind, mret, ST_bind, ST_ret, lift, get_state, put_state.
  destruct (VX.job_of_target σ !! d) eqn:Hd; [intros [= <- <-]; split; [done|by left]|].
  simpl. unfold VX.NonOverwritableDict_setitem. rewrite Hd. simpl.
  rewrite lookup_app_r by done. rewrite Nat.sub_diag. simpl.
  rewrite lookup_insert_eq. intros [= <- <-]. split; [done|]. right. simpl.
  eexists. split.
  { rewrite insert_app_r_alt by done. rewrite Nat.sub_diag. reflexivity. }
  done.
Qed.

Lemma put_each_dry ps : forall s c,
  VX.dry_run (VX.s_dsl (VX.put_each s c ps)) = VX.dry_run (VX.s_dsl s).
Proof. induction ps as [|p ps IH]; intros s c; simpl; [done|]. by rewrite IH. Qed.

Lemma finish_task_dry s t :
  VX.dry_run (VX.s_dsl (VX.finish_task s t)) = VX.dry_run (VX.s_dsl s).
Proof.
  unfold VX.finish_task, VX._put_waited. simpl.
  case_match; [|done]. by rewrite put_each_dry.
Qed.

Lemma step_dry_run l s s' :
  VX.step_of E l s = Some s' ->
  VX.dry_run (VX.s_dsl s') = VX.dry_run (VX.s_dsl s) ∧
  (VX.dry_run (VX.s_dsl s) = true ->
   forall j, EvAction j ∈ VX.trace s' -> EvAction j ∈ VX.trace s).
Proof.
  intros H. step_inv H;
    repeat match goal with
    | H : VX.child_of _ _ = _ |- _ => apply child_of_more in H as [? _]
    | |- context [VX.push_job ?s ?t ?a] =>
        destruct (push_job_obs s t a) as (? & _ & _ & _ & [[? _]|[? _]]);
        remember (VX.push_job s t a)
    | |- context [VX.finish_task ?s ?t] =>
        pose proof (finish_task_dry s t);
        destruct (finish_task_obs s t) as (_ & _ & _ & ? & ?);
        remember (VX.finish_task s t)
    end;
    sys_simpl;
    (split; [try congruence; try done; try (simpl; congruence)|]);
    intros Hdry ? Hx;
    repeat match goal with
    | H : VX.trace _ = _ |- _ => rewrite H in *; clear H
    end;
    old_ev Hx; try done; try congruence.
Qed.

Lemma push_job_deferred s j a :
  VX.deferred_errors (VX.thread_pool (VX.push_job s j a))
  = VX.deferred_errors (VX.thread_pool s).
Proof. unfold VX.push_job. repeat case_match; done. Qed.

Lemma step_deferred l s s' :
  VX.step_of E l s = Some s' ->
  (forall j, EvDefer j ∈ VX.trace s <-> j ∈ VX.deferred_errors (VX.thread_pool s)) ->
  forall j, EvDefer j ∈ VX.trace s' <-> j ∈ VX.deferred_errors (VX.thread_pool s').
Proof.
  intros H IH. step_inv H;
    repeat match goal with
    | |- context [VX.push_job ?s ?t ?a] =>
        pose proof (push_job_deferred s t a);
        destruct (push_job_obs s t a) as (_ & _ & _ & _ & [[? _]|[? _]]);
        remember (VX.push_job s t a)
    | |- context [VX.finish_task ?s ?t] =>
        destruct (finish_task_obs s t) as (_ & ? & _ & ? & ?);
        remember (VX.finish_task s t)
    end;
    sys_simpl; intros jx;
    repeat match goal with
    | H : VX.trace _ = _ |- _ => rewrite H in *; clear H
    | H : VX.thread_pool _ = _ |- _ => rewrite H in *; clear H
    | H : VX.deferred_errors _ = _ |- _ => rewrite H in *; clear H
    end;
    simpl; rewrite <- ?IH;
    try (split; [intros Hx; old_ev Hx; done | intros Hx; set_solver]).
  rewrite elem_of_cons, elem_of_app, list_elem_of_singleton, IH.
  split; [intros [Heq|?]; [injection Heq as ->|]; auto | intros [?| ->]; auto].
Qed.

Lemma step_sets_done l s s' x xb xb' :
  VX.step_of E l s = Some s' ->
  VX.job_of s x = Some xb -> VX.done xb = false ->
  VX.job_of s' x = Some xb' -> VX.done xb' = true ->
  (exists w, VX.workers s !! w = Some (VX.WDoneSet x)) ∨
  (exists tk, VX.jtask xb = Some tk ∧ VX.pc tk = VX.AtDoneSet).
Proof.
  intros H Hx Hd Hx' Hd'. step_inv H;
    try match goal with
    | H : VX.child_of _ _ = _ |- _ =>
        apply child_of_jobs in H as [H|(? & H & _)]
    end;
    abstract_special;
    repeat match goal with
    | H : forall k, VX.job_of _ k = _ |- _ => rewrite H in *; clear H
    | H : VX.s_dsl _ = _ |- _ => unfold VX.job_of in *; rewrite H in *; clear H
    end;
    sys_simpl; simpl in *; alter_cases;
    repeat case_decide; simplify_eq/=;
    try congruence.
  { rewrite H1 in Hx'. rewrite (lookup_app_l_Some _ _ _ _ Hx) in Hx'. congruence. }
  all: repeat match goal with
       | H : VX.job_objs _ !! ?k = Some _,
         H' : context [VX.job_objs _ !! ?k] |- _ => rewrite H in H'
       end; simplify_eq/=; try congruence; eauto.
  rewrite Hpd in Hx'. rewrite Hx in Hx'. simplify_eq/=. congruence.
Qed.

Lemma step_raised_done l s s' :
  VX.step_of E l s = Some s' -> sys_inv E s -> raised_done s -> raised_done s'.
Proof.
  intros Hstep Hinv IH j jb' Hr Hjb' Hd'.
  pose proof (step_mono E l s s' Hstep) as Hle.
  pose proof (step_keep_going E l s s' Hstep) as Hkg.
  destruct (step_trace E l s s' Hstep) as [new Htr].
  assert (Hsub : forall e, e ∈ VX.trace s -> e ∈ VX.trace s').
  { intros e He. rewrite Htr. apply elem_of_app. by right. }
  destruct (step_new_raised E l s s' j Hstep Hr)
    as [Hold|(w & rest & Hw' & Hw & Hq)].
  - pose proof (raised_enq E s j Hinv Hold) as Henq.
    destruct (si_enq _ _ Hinv j Henq) as (jb & tk & Hjb & Htk & Hpast & _).
    destruct (Hle j jb Hjb) as (jb2 & Hjb2 & Hle2).
    assert (jb2 = jb') by congruence. subst jb2.
    rewrite Hkg. destruct (VX.done jb) eqn:Hd.
    + eapply settled_weaken; [exact Hsub|]. by eapply IH.
    + destruct (step_sets_done l s s' j jb jb' Hstep Hjb Hd Hjb' Hd')
        as [[w Hw]|(tk0 & Htk0 & Hpc)].
      * pose proof (si_worker _ _ Hinv _ _ Hw) as Hok. simpl in Hok.
        destruct (Hok Hold) as (jb0 & _ & _ & Hs).
        eapply settled_weaken; [exact Hsub|exact Hs].
      * assert (tk0 = tk) by congruence. subst tk0.
        destruct Hpast; congruence.
  - exfalso.
    assert (Hact : j ∈ active s).
    { destruct Hw as [Hw|Hw]; by eapply holds_active. }
    destruct (si_active _ _ Hinv j Hact) as [_ (jb & Hjb & Hd)].
    apply (step_done_inactive E l s s' j jb jb' Hstep Hinv Hjb Hd Hjb' Hd').
    apply (holds_active s' w (VX.WRmTargets j rest) j); [|done].
    rewrite Hw'. apply list_lookup_insert_eq.
    destruct Hw as [Hw|Hw]; by eapply lookup_lt_Some.
Qed.

(** The die-sequence is final.  From the moment [_die] has run, the flag
    [stop] of the pool and the flag [stop] of the task context stay set,
    and no job is put on a queue of the pool any more: [push_job] returns
    at once.  The loop of the coordinator ends when it is next between two
    tasks, and a worker leaves its loop when it next comes to the top. *)
Theorem vx_die_stops σ kg n ns laf ls s ls' s' :
  VX.run E ls (VX.sys_init σ kg n ns laf) = Some s ->
  EvDie ∈ VX.trace s ->
  VX.run E ls' s = Some s' ->
  VX.stop (VX.thread_pool s') = true ∧ VX.ctx_stop s' = true ∧
  (forall j, EvEnq j ∈ VX.trace s' -> EvEnq j ∈ VX.trace s) ∧
  (forall a, VX.coord s' = VX.CIdle ->
     VX.step_of E (VX.LCoord a) s' = Some (VX.with_coord s' VX.CExited)) ∧
  (forall w a, VX.workers s' !! w = Some VX.WTop ->
     VX.step_of E (VX.LWorker w a) s' = Some (VX.set_worker s' w VX.WLeave)).
Proof.
  intros Hrun Hdie Hrun'.
  assert (Hflags : VX.stop (VX.thread_pool s) = true ∧ VX.ctx_stop s = true).
  { refine (run_preserves
              (fun s => EvDie ∈ VX.trace s ->
                 VX.stop (VX.thread_pool s) = true ∧ VX.ctx_stop s = true)
              _ ls _ s Hrun _ Hdie).
    - intros l s1 s2 Hstep IH Hd.
      destruct (step_die l s1 s2 Hstep) as (H1 & H2 & H3).
      destruct (H3 Hd) as [Hold|Hnew]; [|done].
      destruct (IH Hold). auto.
    - simpl. intros Hx. by apply elem_of_nil in Hx. }
  destruct Hflags as [Hstop Hctx].
  assert (Hall : (VX.stop (VX.thread_pool s') = true ∧ VX.ctx_stop s' = true) ∧
                 (forall j, EvEnq j ∈ VX.trace s' -> EvEnq j ∈ VX.trace s)).
  { refine (run_preserves
              (fun s1 => (VX.stop (VX.thread_pool s1) = true ∧ VX.ctx_stop s1 = true) ∧
                 (forall j, EvEnq j ∈ VX.trace s1 -> EvEnq j ∈ VX.trace s))
              _ ls' s s' Hrun' _).
    - intros l s1 s2 Hstep [[H1 H2] H3].
      destruct (step_stopped l s1 s2 Hstep H1) as [H4 H5].
      destruct (step_die l s1 s2 Hstep) as (_ & H6 & _).
      split; [auto|]. intros j Hj. auto.
    - auto. }
  destruct Hall as [[Hstop' Hctx'] Henq].
  split; [done|]. split; [done|]. split; [done|]. split.
  - intros a Hc. simpl. unfold VX.coord_step. by rewrite Hc, Hctx'.
  - intros w a Hw. simpl. unfold VX.worker_step. by rewrite Hw, Hstop'.
Qed.

(** Under [--dry-run] no action is ever called. *)
Theorem vx_dry_run_no_action σ kg n ns laf ls s :
  VX.dry_run σ = true ->
  VX.run E ls (VX.sys_init σ kg n ns laf) = Some s ->
  VX.dry_run (VX.s_dsl s) = true ∧ forall j, EvAction j ∉ VX.trace s.
Proof.
  intros Hdry Hrun.
  refine (run_preserves
            (fun s => VX.dry_run (VX.s_dsl s) = true ∧
                      forall j, EvAction j ∉ VX.trace s)
            _ ls _ s Hrun _).
  - intros l s1 s2 Hstep [H1 H2].
    destruct (step_dry_run l s1 s2 Hstep) as [H3 H4].
    split; [congruence|]. intros j Hj. by apply (H2 j), H4.
  - split; [done|]. simpl. intros j Hj. by apply elem_of_nil in Hj.
Qed.

(** A failure is not lost.  When the action of a job has raised and the
    [done] event of the job is set, then under [keep_going] the job is in
    the queue of deferred errors, so that [DSL.run] ends with the error
    "Execution failed."; without [keep_going] the die-sequence has run and
    both [stop] flags are set.  The queue of deferred errors holds the
    jobs that were deferred, and only jobs whose action raised. *)
Theorem vx_failure_reported σ kg n ns laf ls s :
  sys_ready σ ->
  VX.run E ls (VX.sys_init σ kg n ns laf) = Some s ->
  (forall j jb, EvRaised j ∈ VX.trace s -> VX.job_of s j = Some jb ->
     VX.done jb = true ->
     if kg
     then j ∈ VX.deferred_errors (VX.thread_pool s) ∧
          DSL_run_end s = Raise (Err MsgExecutionFailed)
     else VX.stop (VX.thread_pool s) = true ∧ VX.ctx_stop s = true) ∧
  (forall j, j ∈ VX.deferred_errors (VX.thread_pool s) ->
     EvRaised j ∈ VX.trace s) ∧
  (DSL_run_end s = Ok () <-> VX.deferred_errors (VX.thread_pool s) = []).
Proof.
  intros Hready Hrun.
  pose proof (reach_inv E _ _ _ _ _ _ _ Hready Hrun) as Hinv.
  assert (Hkg : VX._keep_going (VX.thread_pool s) = kg).
  { by rewrite (run_keep_going E _ _ _ Hrun). }
  assert (Hdef : forall j, EvDefer j ∈ VX.trace s
                           <-> j ∈ VX.deferred_errors (VX.thread_pool s)).
  { refine (run_preserves
              (fun s => forall j, EvDefer j ∈ VX.trace s
                                  <-> j ∈ VX.deferred_errors (VX.thread_pool s))
              step_deferred ls _ s Hrun _).
    simpl. intros j. split; intros Hx; by apply elem_of_nil in Hx. }
  assert (Hrd : sys_inv E s ∧ raised_done s).
  { refine (run_preserves (fun s => sys_inv E s ∧ raised_done s)
              _ ls _ s Hrun _).
    - intros l s1 s2 Hstep [H1 H2]. split.
      + by eapply step_sys_inv.
      + by eapply step_raised_done.
    - split; [by apply sys_inv_init|].
      intros j jb Hx. simpl in Hx. by apply elem_of_nil in Hx. }
  destruct Hrd as [_ Hrd].
  split; [|split].
  - intros j jb Hr Hjb Hd. pose proof (Hrd j jb Hr Hjb Hd) as Hs.
    rewrite Hkg in Hs. unfold settled in Hs. destruct kg.
    + apply Hdef in Hs. split; [done|]. unfold DSL_run_end.
      rewrite bool_decide_eq_true_2; [done|].
      destruct (VX.deferred_errors (VX.thread_pool s)); [|simpl; lia].
      by apply elem_of_nil in Hs.
    + refine (run_preserves
                (fun s => EvDie ∈ VX.trace s ->
                   VX.stop (VX.thread_pool s) = true ∧ VX.ctx_stop s = true)
                _ ls _ s Hrun _ Hs).
      * intros l s1 s2 Hstep IH Hd1.
        destruct (step_die l s1 s2 Hstep) as (H1 & H2 & H3).
        destruct (H3 Hd1) as [Hold|Hnew]; [|done].
        destruct (IH Hold). auto.
      * simpl. intros Hx. by apply elem_of_nil in Hx.
  - intros j Hj. apply Hdef in Hj.
    destruct (trace_ok_elem E s _ _ (si_trace _ _ Hinv) Hj)
      as (l1 & l0 & Heq & Hev).
    simpl in Hev. rewrite Heq. apply elem_of_app. right. by right.
  - unfold DSL_run_end.
    destruct (VX.deferred_errors (VX.thread_pool s)); cbn [length].
    + by rewrite bool_decide_eq_false_2 by lia.
    + rewrite bool_decide_eq_true_2 by lia. split; discriminate.
Qed.
End RunMore.

Section RunMoreExamples.

Lemma vx_die_stops_witness :
  let s' := VX.with_coord rm_end VX.CExited in
  VX.stop (VX.thread_pool s') = true ∧ VX.ctx_stop s' = true ∧
  (forall j, EvEnq j ∈ VX.trace s' -> EvEnq j ∈ VX.trace rm_end) ∧
  (forall a, VX.coord s' = VX.CIdle ->
     VX.step_of E_elements (VX.LCoord a) s'
     = Some (VX.with_coord s' VX.CExited)) ∧
  (forall w a, VX.workers s' !! w = Some VX.WTop ->
     VX.step_of E_elements (VX.LWorker w a) s'
     = Some (VX.set_worker s' w VX.WLeave)).
Proof.
  apply (vx_die_stops E_elements vx_two_targets true 1 1 false rm_run rm_end
           [VX.LCoord VX.Yes]).
  - by vm_compute.
  - vm_compute. by left.
  - by vm_compute.
Defined.

Lemma vx_dry_run_no_action_witness :
  exists s,
    VX.run E_elements dry_run_run (VX.sys_init vx_dry_dsl false 1 1 false)
      = Some s ∧
    VX.trace s = [EvTaskPut 0; EvDoneSet 0; EvEnq 0] ∧
    VX.dry_run (VX.s_dsl s) = true ∧ forall j, EvAction j ∉ VX.trace s.
Proof.
  eexists. split; [by vm_compute|]. split; [by vm_compute|].
  apply (vx_dry_run_no_action E_elements vx_dry_dsl false 1 1 false dry_run_run).
  - reflexivity.
  - by vm_compute.
Defined.

Lemma vx_failure_reported_witness :
  (forall j jb, EvRaised j ∈ VX.trace fail_end -> VX.job_of fail_end j = Some jb ->
     VX.done jb = true ->
     j ∈ VX.deferred_errors (VX.thread_pool fail_end) ∧
     DSL_run_end fail_end = Raise (Err MsgExecutionFailed)) ∧
  (forall j, j ∈ VX.deferred_errors (VX.thread_pool fail_end) ->
     EvRaised j ∈ VX.trace fail_end) ∧
  (DSL_run_end fail_end = Ok ()
   <-> VX.deferred_errors (VX.thread_pool fail_end) = []).
Proof.
  apply (vx_failure_reported E_elements vx_fail_dsl true 1 1 false
           (fail_run1 ++ fail_run2) fail_end).
  - by apply sys_ready_check_ok.
  - by vm_compute.
Defined.

Lemma vx_flags_monotone_witness :
  exists jb', VX.job_of fail_end 1 = Some jb' ∧
    VX.kind jb' = VX.kind mid_job_a ∧
    VX.ts_unique jb' = VX.ts_unique mid_job_a ∧
    VX.ds_unique jb' = VX.ds_unique mid_job_a ∧
    (VX.done mid_job_a = true -> VX.done jb' = true) ∧
    (VX.successed mid_job_a = true -> VX.successed jb' = true) ∧
    (forall tk, VX.jtask mid_job_a = Some tk ->
       exists tk', VX.jtask jb' = Some tk' ∧
                   VX.children tk' = VX.children tk).
Proof.
  apply (vx_flags_monotone E_elements fail_run2 fail_mid fail_end 1%nat
           mid_job_a).
  - by vm_compute.
  - by vm_compute.
Defined.

Lemma fail_at_all_unsucc : ~ succ fail_at_all 1.
Proof.
  intros (cb & Hcb & Hs). vm_compute in Hcb. injection Hcb as <-. discriminate.
Qed.

Lemma vx_task_skips_job_witness :
  exists k s',
    VX.run E_elements (replicate k (VX.LCoord VX.Yes)) fail_at_all = Some s' ∧
    (exists jb', VX.job_of s' 0 = Some jb' ∧ VX.done jb' = true) ∧
    (exists ps, VX.trace s'
       = reverse ((fun p => EvRequeue p 0%nat) <$> ps)
         ++ EvDoneSet 0 :: VX.trace fail_at_all) ∧
    VX.coord s' = VX.CIdle.
Proof.
  apply (vx_task_skips_job E_elements VX.Yes fail_at_all 0%nat
           (default job_a (VX.job_of fail_at_all 0))
           (VX.set_pc (VX.new_task [1%nat]) (VX.AtAll 0)) 0%nat 0%nat 1%nat).
  - by vm_compute.
  - by vm_compute.
  - by vm_compute.
  - reflexivity.
  - reflexivity.
  - intros c Hc. apply list_elem_of_singleton in Hc as ->. vm_compute. eauto.
  - lia.
  - reflexivity.
  - apply fail_at_all_unsucc.
Defined.
End RunMoreExamples.

(** * The run of vx: an action is called once *)
Section ActionOnce.
Context {R : Type}.
Variable E : VX.env R.

Ltac step_inv H :=
  unfold VX.step_of, VX.main_child, VX.main_task, VX.coord_step,
    VX.worker_step, VX.metadata_getitem, VX.TDefaultDict_getitem in H;
  repeat (case_match; try discriminate); simplify_eq.

Ltac abstract_fin s t :=
  let Hj := fresh "Hfj" in let Hp := fresh "Hfp" in
  let Hw := fresh "Hfw" in let Ht := fresh "Hft" in
  let ps := fresh "ps" in
  destruct (finish_task_obs s t) as (Hj & Hp & Hw & ps & Ht);
  let s0 := fresh "s0" in let Heq := fresh "Heq" in
  remember (VX.finish_task s t) as s0 eqn:Heq; clear Heq.

Ltac abstract_push s t a :=
  let Hd := fresh "Hpd" in let Hk := fresh "Hpk" in
  let Hh := fresh "Hph" in let Hw := fresh "Hpw" in
  let Ht := fresh "Hpt" in
  destruct (push_job_obs s t a) as (Hd & Hk & Hh & Hw & Ht);
  let s0 := fresh "s0" in let Heq := fresh "Heq" in
  remember (VX.push_job s t a) as s0 eqn:Heq; clear Heq.

Ltac abstract_special :=
  repeat match goal with
  | |- context [VX.finish_task ?s ?t] => abstract_fin s t
  | H : context [VX.finish_task ?s ?t] |- _ => abstract_fin s t
  | |- context [VX.push_job ?s ?t ?a] => abstract_push s t a
  | H : context [VX.push_job ?s ?t ?a] |- _ => abstract_push s t a
  end.

Ltac sys_simpl :=
  cbv zeta in *;
  unfold VX.worker_dies, VX._die, VX.set_worker, VX.ctx_put, VX.upd_task,
    VX.upd_job, VX.emit, VX.with_pool, VX.with_workers, VX.with_coord,
    VX.with_ctx_stop, VX.with_dsl, VX.task_of, VX.job_of in *;
  cbn [VX.trace VX.workers VX.thread_pool VX.s_dsl VX.coord VX.ctx_stop
       VX.job_objs VX.set_job_objs VX.set_ctx_queue VX.set_metadata
       VX._keep_going VX.set_deferred_errors VX.set_threads VX.set_queue
       VX.set_serial_queue VX.set_serial_queue_lock VX.set_n_running
       VX.set_stop VX._queue VX._serial_queue] in *.

Ltac alter_cases :=
  repeat match goal with
  | |- context [alter ?g ?j ?l !! ?j] =>
      rewrite (list_lookup_alter_eq g l j)
  | H : context [alter ?g ?j ?l !! ?j] |- _ =>
      rewrite (list_lookup_alter_eq g l j) in H
  | H : ?x ≠ ?j |- context [alter ?g ?j ?l !! ?x] =>
      rewrite (list_lookup_alter_ne g l j x) by done
  | H : ?x ≠ ?j, H' : context [alter ?g ?j ?l !! ?x] |- _ =>
      rewrite (list_lookup_alter_ne g l j x) in H' by done
  | |- context [alter ?g ?j ?l !! ?x] =>
      destruct (decide (x = j)) as [->|?]
  | H : context [alter ?g ?j ?l !! ?x] |- _ =>
      destruct (decide (x = j)) as [->|?]
  end.

Ltac old_ev H :=
  rewrite ?elem_of_app, ?elem_of_cons in H;
  repeat match type of H with
  | _ ∨ _ => destruct H as [H|H]; [try discriminate H|]
  end;
  try (apply requeue_elem in H as [? H]; discriminate H).

Lemma actions_app l1 l2 : actions (l1 ++ l2) = actions l1 ++ actions l2.
Proof. unfold actions. by rewrite omap_app. Qed.

Lemma actions_requeue t ps :
  actions (reverse ((fun p => EvRequeue p t) <$> ps)) = [].
Proof.
  unfold actions. induction ps as [|p ps IH]; [done|].
  rewrite fmap_cons, reverse_cons, omap_app, IH. done.
Qed.

Lemma elem_of_actions j l : j ∈ actions l <-> EvAction j ∈ l.
Proof.
  unfold actions. rewrite list_elem_of_omap. split.
  - intros (e & He & Hj). destruct e; simplify_eq. done.
  - intros H. exists (EvAction j). done.
Qed.

(** A step calls an action, of the job of a worker that is at
    [j.execute()], or it calls none. *)
Lemma step_action l s s' :
  VX.step_of E l s = Some s' ->
  (exists x w, VX.trace s' = EvAction x :: VX.trace s ∧
     VX.workers s !! w = Some (VX.WExecute x) ∧
     VX.workers s' = <[w := VX.WRunning x]> (VX.workers s) ∧
     queued s' = queued s) ∨
  actions (VX.trace s') = actions (VX.trace s).
Proof.
  intros H. step_inv H;
    repeat match goal with
    | |- context [VX.push_job ?s ?t ?a] =>
        destruct (push_job_obs s t a) as (_ & _ & _ & _ & [[? _]|[? _]]);
        remember (VX.push_job s t a)
    | |- context [VX.finish_task ?s ?t] =>
        destruct (finish_task_obs s t) as (_ & _ & _ & ? & ?);
        remember (VX.finish_task s t)
    end;
    sys_simpl;
    repeat match goal with
    | H : VX.trace _ = _ |- _ => rewrite H in *; clear H
    end;
    try (right; rewrite ?actions_app, ?actions_requeue; done).
  left. exists j, w. done.
Qed.

Lemma get_elem (lt : nat -> nat -> bool) q j q' :
  Heapq.get lt q = Some (j, q') -> j ∈ q.
Proof. intros H. apply get_perm in H. rewrite H. by left. Qed.

(** A worker that holds a job whose action it has not called held the
    job before the step, or has just taken it off a queue. *)
Lemma step_before l s s' w p j :
  VX.step_of E l s = Some s' ->
  VX.workers s' !! w = Some p -> before_action p = Some j ->
  (exists p0, VX.workers s !! w = Some p0 ∧ before_action p0 = Some j) ∨
  j ∈ queued s.
Proof.
  intros H Hw Hp. step_inv H;
    abstract_special; sys_simpl;
    repeat match goal with
    | H : VX.workers _ = _ |- _ => rewrite H in *; clear H
    end;
    try (left; by eauto);
    try (apply Hpw in Hw as [->|Hw]; [discriminate|left; by eauto]);
    try (apply list_lookup_insert_Some in Hw as [(-> & <- & _)|[_ Hw]];
         [|left; by eauto]; simpl in Hp; simplify_eq;
         try (left; by eauto));
    try (right; unfold queued; apply elem_of_app;
         first [left; by eapply get_elem | right; by eapply get_elem]).
Qed.

Lemma before_action_holds p j : before_action p = Some j -> holds p = Some j.
Proof. destruct p; simpl; congruence. Qed.

Lemma step_fresh_ok l s s' :
  VX.step_of E l s = Some s' -> sys_inv E s -> fresh_ok s -> fresh_ok s'.
Proof.
  intros Hstep Hinv (Hq & Hw & Hnd).
  destruct (step_action l s s' Hstep)
    as [(x & w0 & Htr & Hw0 & Hws & Hqs)|Hact].
  - assert (Hx : EvAction x ∉ VX.trace s) by (eapply Hw; [exact Hw0|done]).
    split; [|split].
    + intros j Hj Ha. rewrite Hqs in Hj. rewrite Htr in Ha.
      apply elem_of_cons in Ha as [Heq|Ha]; [|by apply (Hq j)].
      injection Heq as ->.
      by eapply (active_queued_held s w0 _ x (si_nodup _ _ Hinv) Hw0).
    + intros w p j Hwp Hp Ha. rewrite Hws in Hwp. rewrite Htr in Ha.
      apply list_lookup_insert_Some in Hwp as [(-> & <- & _)|[Hne Hwp]];
        [discriminate Hp|].
      apply elem_of_cons in Ha as [Heq|Ha]; [|by apply (Hw w p j)].
      injection Heq as ->. apply Hne.
      eapply (holds_inj (VX.workers s) w0 w);
        [by apply nodup_held, (si_nodup _ _ Hinv)|exact Hw0|exact Hwp|done|].
      by apply before_action_holds.
    + rewrite Htr. simpl. apply NoDup_cons. by rewrite elem_of_actions.
  - assert (Hold : forall j, EvAction j ∈ VX.trace s' -> EvAction j ∈ VX.trace s).
    { intros j. by rewrite <- !elem_of_actions, Hact. }
    split; [|split].
    + intros j Hj Ha%Hold.
      destruct (step_active E l s s' Hstep)
        as [_ Hsub|x tk _ Hperm _ Htk Hpc|x _ Hsub].
      * apply (Hq j); [by apply Hsub|done].
      * rewrite Hperm in Hj. apply elem_of_cons in Hj as [->|Hj];
          [|by apply (Hq j)].
        pose proof (action_enq E s x Hinv Ha) as He.
        destruct (task_of_Some s x tk Htk) as (jb & Hjb & Hjt).
        destruct (enq_past_test E s x jb tk Hinv He Hjb Hjt); congruence.
      * apply (Hq j); [by apply Hsub|done].
    + intros w p j Hwp Hp Ha%Hold.
      destruct (step_before l s s' w p j Hstep Hwp Hp)
        as [(p0 & Hw0 & Hp0)|Hj].
      * by apply (Hw w p0 j).
      * by apply (Hq j).
    + by rewrite Hact.
Qed.

(** In a run of vx the action of a job is called at most once. *)
Theorem vx_action_once σ kg n ns laf ls s j l1 l0 :
  sys_ready σ ->
  VX.run E ls (VX.sys_init σ kg n ns laf) = Some s ->
  VX.trace s = l1 ++ EvAction j :: l0 ->
  (EvAction j ∉ l1) ∧ (EvAction j ∉ l0).
Proof.
  intros Hready Hrun Heq.
  assert (H : sys_inv E s ∧ fresh_ok s).
  { refine (run_preserves E (fun s => sys_inv E s ∧ fresh_ok s)
              _ ls _ s Hrun _).
    - intros l s1 s2 Hstep [H1 H2]. split.
      + by eapply step_sys_inv.
      + by eapply step_fresh_ok.
    - split; [by apply sys_inv_init|].
      split; [|split]; simpl.
      + intros x Hx. by apply elem_of_nil in Hx.
      + intros w p x Hw. by rewrite lookup_nil in Hw.
      + apply NoDup_nil_2. }
  destruct H as [_ (_ & _ & Hnd)].
  rewrite Heq, actions_app in Hnd. simpl in Hnd.
  apply NoDup_app in Hnd as (_ & H1 & H2).
  apply NoDup_cons in H2 as [H2 _].
  rewrite <- !elem_of_actions. split; [|done].
  intros Hj. apply (H1 j Hj). by left.
Qed.
End ActionOnce.

(** * The run of vx: the number of worker threads *)
Section Threads.
Context {R : Type}.
Variable E : VX.env R.

Ltac step_inv H :=
  unfold VX.step_of, VX.main_child, VX.main_task, VX.coord_step,
    VX.worker_step, VX.metadata_getitem, VX.TDefaultDict_getitem in H;
  repeat (case_match; try discriminate); simplify_eq.

Ltac abstract_fin s t :=
  let Hj := fresh "Hfj" in let Hp := fresh "Hfp" in
  let Hw := fresh "Hfw" in let Ht := fresh "Hft" in
  let ps := fresh "ps" in
  destruct (finish_task_obs s t) as (Hj & Hp & Hw & ps & Ht);
  let s0 := fresh "s0" in let Heq := fresh "Heq" in
  remember (VX.finish_task s t) as s0 eqn:Heq; clear Heq.

Ltac abstract_push s t a :=
  let Hd := fresh "Hpd" in let Hk := fresh "Hpk" in
  let Hh := fresh "Hph" in let Hw := fresh "Hpw" in
  let Ht := fresh "Hpt" in
  destruct (push_job_obs s t a) as (Hd & Hk & Hh & Hw & Ht);
  let s0 := fresh "s0" in let Heq := fresh "Heq" in
  remember (VX.push_job s t a) as s0 eqn:Heq; clear Heq.

Ltac abstract_special :=
  repeat match goal with
  | |- context [VX.finish_task ?s ?t] => abstract_fin s t
  | H : context [VX.finish_task ?s ?t] |- _ => abstract_fin s t
  | |- context [VX.push_job ?s ?t ?a] => abstract_push s t a
  | H : context [VX.push_job ?s ?t ?a] |- _ => abstract_push s t a
  end.

Ltac sys_simpl :=
  cbv zeta in *;
  unfold VX.worker_dies, VX._die, VX.set_worker, VX.ctx_put, VX.upd_task,
    VX.upd_job, VX.emit, VX.with_pool, VX.with_workers, VX.with_coord,
    VX.with_ctx_stop, VX.with_dsl, VX.task_of, VX.job_of in *;
  cbn [VX.trace VX.workers VX.thread_pool VX.s_dsl VX.coord VX.ctx_stop
       VX.job_objs VX.set_job_objs VX.set_ctx_queue VX.set_metadata
       VX._keep_going VX.set_deferred_errors VX.set_threads VX.set_queue
       VX.set_serial_queue VX.set_serial_queue_lock VX.set_n_running
       VX.set_stop VX._queue VX._serial_queue] in *.

Ltac alter_cases :=
  repeat match goal with
  | |- context [alter ?g ?j ?l !! ?j] =>
      rewrite (list_lookup_alter_eq g l j)
  | H : context [alter ?g ?j ?l !! ?j] |- _ =>
      rewrite (list_lookup_alter_eq g l j) in H
  | H : ?x ≠ ?j |- context [alter ?g ?j ?l !! ?x] =>
      rewrite (list_lookup_alter_ne g l j x) by done
  | H : ?x ≠ ?j, H' : context [alter ?g ?j ?l !! ?x] |- _ =>
      rewrite (list_lookup_alter_ne g l j x) in H' by done
  | |- context [alter ?g ?j ?l !! ?x] =>
      destruct (decide (x = j)) as [->|?]
  | H : context [alter ?g ?j ?l !! ?x] |- _ =>
      destruct (decide (x = j)) as [->|?]
  end.

Lemma count_app {A} (f : A -> bool) l1 l2 :
  count f (l1 ++ l2) = (count f l1 + count f l2)%nat.
Proof. unfold count. by rewrite List.filter_app, length_app. Qed.

Lemma count_insert {A} (f : A -> bool) l w p p' :
  l !! w = Some p ->
  (count f (<[w := p']> l) + (if f p then 1 else 0)
   = count f l + (if f p' then 1 else 0))%nat.
Proof.
  unfold count. revert w. induction l as [|x l IH]; intros [|w] Hw;
    simplify_eq/=.
  - destruct (f p), (f p'); simpl; lia.
  - specialize (IH w Hw). destruct (f x); simpl; lia.
Qed.

Lemma tk_move ws T n w p p' :
  ws !! w = Some p -> is_live p = true ->
  threads_ok_of ws T n -> threads_ok_of (<[w := p']> ws) T n.
Proof.
  intros Hw Hp (H1 & H2 & H3). split; [|split; [|done]].
  - pose proof (count_insert is_live ws w p p' Hw) as Hc.
    rewrite Hp in Hc. destruct (is_live p'); lia.
  - intros t Ht. rewrite length_insert. by apply H2.
Qed.

Lemma tk_leave ws T n w p :
  ws !! w = Some p -> is_live p = true ->
  threads_ok_of ws T n ->
  threads_ok_of (<[w := VX.WExited]> ws) (T ∖ {[w]}) n.
Proof.
  intros Hw Hp (H1 & H2 & H3).
  pose proof (count_insert is_live ws w p VX.WExited Hw) as Hc.
  rewrite Hp in Hc. simpl in Hc.
  assert (Hs : (size T <= size (T ∖ {[w]}) + 1)%nat).
  { destruct (decide (w ∈ T)) as [Hin|Hout].
    - rewrite size_difference by set_solver. rewrite size_singleton. lia.
    - assert (T ∖ {[w]} = T) as -> by set_solver. lia. }
  assert (Hs' : (size (T ∖ {[w]}) <= size T)%nat).
  { apply subseteq_size. set_solver. }
  split; [lia|]. split; [|lia].
  intros t Ht. rewrite length_insert. apply H2. set_solver.
Qed.

Lemma tk_spawn ws T n :
  (size T < max 1 n)%nat ->
  threads_ok_of ws T n ->
  threads_ok_of (ws ++ [VX.WTop]) ({[length ws]} ∪ T) n.
Proof.
  intros Hlt (H1 & H2 & H3).
  assert (Hfresh : length ws ∉ T).
  { intros Hin. apply H2 in Hin. lia. }
  assert (Hs : size ({[length ws]} ∪ T) = S (size T)).
  { rewrite size_union by set_solver. by rewrite size_singleton. }
  split; [|split].
  - rewrite count_app. unfold count at 2. simpl. lia.
  - intros t Ht. rewrite length_app. simpl.
    apply elem_of_union in Ht as [Ht|Ht].
    + apply elem_of_singleton in Ht. lia.
    + apply H2 in Ht. lia.
  - lia.
Qed.

Lemma push_job_threads s j a :
  VX._n_max (VX.thread_pool (VX.push_job s j a)) = VX._n_max (VX.thread_pool s) ∧
  ((VX.workers (VX.push_job s j a) = VX.workers s ∧
    VX._threads (VX.thread_pool (VX.push_job s j a))
    = VX._threads (VX.thread_pool s)) ∨
   (VX.workers (VX.push_job s j a) = VX.workers s ++ [VX.WTop] ∧
    VX._threads (VX.thread_pool (VX.push_job s j a))
    = {[length (VX.workers s)]} ∪ VX._threads (VX.thread_pool s) ∧
    (size (VX._threads (VX.thread_pool s))
     < max 1 (VX._n_max (VX.thread_pool s)))%nat)).
Proof.
  unfold VX.push_job.
  destruct (VX.stop (VX.thread_pool s)); [split; [done|by left]|].
  cbv zeta. destruct (default false _); simpl.
  all: match goal with
       | |- context [if ?c then _ else _] => destruct c eqn:Hc
       end; simpl.
  all: split; [done|].
  all: try (left; done).
  all: right; split; [done|]; split; [done|].
  all: apply orb_prop in Hc as [Hc|Hc];
         [|apply andb_prop in Hc as [Hc _]];
         apply bool_decide_eq_true in Hc; simpl in Hc; lia.
Qed.

Lemma step_threads_ok l s s' :
  VX.step_of E l s = Some s' -> threads_ok s -> threads_ok s'.
Proof.
  unfold threads_ok. intros H IH. step_inv H;
    repeat match goal with
    | |- context [VX.push_job ?s ?t ?a] =>
        destruct (push_job_threads s t a) as (? & [[? ?]|(? & ? & ?)]);
        remember (VX.push_job s t a)
    | |- context [VX.finish_task ?s ?t] =>
        destruct (finish_task_obs s t) as (_ & ? & ? & _);
        remember (VX.finish_task s t)
    end;
    sys_simpl;
    repeat match goal with
    | H : VX.workers _ = _ |- _ => rewrite H in *; clear H
    | H : VX.thread_pool _ = _ |- _ => rewrite H in *; clear H
    | H : VX._threads _ = _ |- _ => rewrite H in *; clear H
    | H : VX._n_max _ = _ |- _ => rewrite H in *; clear H
    end;
    simpl; try done;
    try (eapply tk_move; [eassumption|done|done]);
    try (eapply tk_leave; [eassumption|done|done]);
    try (by apply tk_spawn).
Qed.

Lemma step_n_max l s s' :
  VX.step_of E l s = Some s' ->
  VX._n_max (VX.thread_pool s') = VX._n_max (VX.thread_pool s).
Proof.
  intros H. step_inv H;
    repeat match goal with
    | |- context [VX.push_job ?s ?t ?a] =>
        destruct (push_job_threads s t a) as (? & _);
        remember (VX.push_job s t a)
    | |- context [VX.finish_task ?s ?t] =>
        destruct (finish_task_obs s t) as (_ & ? & ? & _);
        remember (VX.finish_task s t)
    end;
    sys_simpl;
    repeat match goal with
    | H : VX.thread_pool _ = _ |- _ => rewrite H in *; clear H
    end;
    simpl; done.
Qed.

(** In a run of vx with [n_max > 0], as [_ThreadPool.__init__] asserts,
    at most [n_max] worker threads are alive at any moment: the threads
    that have not returned are all in [_threads], and [_threads] never
    holds more than [n_max] threads. *)
Theorem vx_threads_bounded σ kg n ns laf ls s :
  (0 < n)%nat ->
  VX.run E ls (VX.sys_init σ kg n ns laf) = Some s ->
  (count is_live (VX.workers s) <= size (VX._threads (VX.thread_pool s)))%nat ∧
  (size (VX._threads (VX.thread_pool s)) <= n)%nat.
Proof.
  intros Hn Hrun.
  assert (H : threads_ok s ∧ VX._n_max (VX.thread_pool s) = n).
  { refine (run_preserves E
              (fun s => threads_ok s ∧ VX._n_max (VX.thread_pool s) = n)
              _ ls _ s Hrun _).
    - intros l s1 s2 Hstep [H1 H2]. split.
      + by eapply step_threads_ok.
      + by rewrite (step_n_max l s1 s2 Hstep).
    - split; [|done]. unfold threads_ok, threads_ok_of.
      cbn [VX.sys_init VX.workers VX.thread_pool VX.pool_init VX._threads
           VX._n_max].
      rewrite size_empty. split; [|split].
      + unfold count. simpl. lia.
      + intros t Ht. by apply elem_of_empty in Ht.
      + lia. }
  destruct H as [(H1 & _ & H3) Hmax]. rewrite Hmax in H3.
  split; [done|lia].
Qed.
End Threads.

(** * The run of vx: serial jobs *)
Section Serial.
Context {R : Type}.
Variable E : VX.env R.

Ltac step_inv H :=
  unfold VX.step_of, VX.main_child, VX.main_task, VX.coord_step,
    VX.worker_step, VX.metadata_getitem, VX.TDefaultDict_getitem in H;
  repeat (case_match; try discriminate); simplify_eq.

Ltac abstract_fin s t :=
  let Hj := fresh "Hfj" in let Hp := fresh "Hfp" in
  let Hw := fresh "Hfw" in let Ht := fresh "Hft" in
  let ps := fresh "ps" in
  destruct (finish_task_obs s t) as (Hj & Hp & Hw & ps & Ht);
  let s0 := fresh "s0" in let Heq := fresh "Heq" in
  remember (VX.finish_task s t) as s0 eqn:Heq; clear Heq.

Ltac abstract_push s t a :=
  let Hd := fresh "Hpd" in let Hk := fresh "Hpk" in
  let Hh := fresh "Hph" in let Hw := fresh "Hpw" in
  let Ht := fresh "Hpt" in
  destruct (push_job_obs s t a) as (Hd & Hk & Hh & Hw & Ht);
  let s0 := fresh "s0" in let Heq := fresh "Heq" in
  remember (VX.push_job s t a) as s0 eqn:Heq; clear Heq.

Ltac abstract_special :=
  repeat match goal with
  | |- context [VX.finish_task ?s ?t] => abstract_fin s t
  | H : context [VX.finish_task ?s ?t] |- _ => abstract_fin s t
  | |- context [VX.push_job ?s ?t ?a] => abstract_push s t a
  | H : context [VX.push_job ?s ?t ?a] |- _ => abstract_push s t a
  end.

Ltac sys_simpl :=
  cbv zeta in *;
  unfold VX.worker_dies, VX._die, VX.set_worker, VX.ctx_put, VX.upd_task,
    VX.upd_job, VX.emit, VX.with_pool, VX.with_workers, VX.with_coord,
    VX.with_ctx_stop, VX.with_dsl, VX.task_of, VX.job_of in *;
  cbn [VX.trace VX.workers VX.thread_pool VX.s_dsl VX.coord VX.ctx_stop
       VX.job_objs VX.set_job_objs VX.set_ctx_queue VX.set_metadata
       VX._keep_going VX.set_deferred_errors VX.set_threads VX.set_queue
       VX.set_serial_queue VX.set_serial_queue_lock VX.set_n_running
       VX.set_stop VX._queue VX._serial_queue] in *.

Ltac alter_cases :=
  repeat match goal with
  | |- context [alter ?g ?j ?l !! ?j] =>
      rewrite (list_lookup_alter_eq g l j)
  | H : context [alter ?g ?j ?l !! ?j] |- _ =>
      rewrite (list_lookup_alter_eq g l j) in H
  | H : ?x ≠ ?j |- context [alter ?g ?j ?l !! ?x] =>
      rewrite (list_lookup_alter_ne g l j x) by done
  | H : ?x ≠ ?j, H' : context [alter ?g ?j ?l !! ?x] |- _ =>
      rewrite (list_lookup_alter_ne g l j x) in H' by done
  | |- context [alter ?g ?j ?l !! ?x] =>
      destruct (decide (x = j)) as [->|?]
  | H : context [alter ?g ?j ?l !! ?x] |- _ =>
      destruct (decide (x = j)) as [->|?]
  end.

Lemma put_each_serial ps : forall s c j,
  serial_of (VX.s_dsl (VX.put_each s c ps)) j = serial_of (VX.s_dsl s) j.
Proof.
  induction ps as [|p ps IH]; intros s c j; simpl; [done|]. by rewrite IH.
Qed.

Lemma serial_of_alter σ g x j :
  (forall jb, VX.serial (g jb) = VX.serial jb) ->
  serial_of (VX.set_job_objs σ (alter g x (VX.job_objs σ))) j = serial_of σ j.
Proof.
  intros Hg. unfold serial_of. simpl.
  destruct (decide (j = x)) as [->|Hne].
  - rewrite list_lookup_alter_eq. destruct (VX.job_objs σ !! x); simpl; [|done].
    by rewrite Hg.
  - by rewrite list_lookup_alter_ne.
Qed.

Lemma serial_of_ctx σ q j : serial_of (VX.set_ctx_queue σ q) j = serial_of σ j.
Proof. done. Qed.

Lemma finish_task_serial s t j :
  serial_of (VX.s_dsl (VX.finish_task s t)) j = serial_of (VX.s_dsl s) j.
Proof.
  unfold VX.finish_task, VX._put_waited. simpl.
  case_match.
  - rewrite put_each_serial. unfold VX.upd_task, VX.upd_job. simpl.
    rewrite !serial_of_alter; done.
  - unfold VX.upd_task, VX.upd_job. simpl. by rewrite serial_of_alter.
Qed.

Lemma child_of_serial d σ σ' r j :
  VX.child_of d σ = (σ', r) -> serial_of σ' j = serial_of σ j.
Proof.
  intros H. apply child_of_more in H as [_ [H|(jb & H & Hs)]];
    unfold serial_of; rewrite H; [done|].
  destruct (decide (j < length (VX.job_objs σ))%nat).
  - by rewrite lookup_app_l.
  - rewrite lookup_app_r by lia. rewrite (lookup_ge_None_2 (VX.job_objs σ)) by lia.
    destruct (j - length (VX.job_objs σ))%nat; simpl; [by rewrite Hs|done].
Qed.

(** No step changes whether a job is serial. *)
Lemma step_serial_of l s s' j :
  VX.step_of E l s = Some s' ->
  serial_of (VX.s_dsl s') j = serial_of (VX.s_dsl s) j.
Proof.
  intros H. step_inv H;
    repeat match goal with
    | H : VX.child_of _ _ = _ |- _ => apply (child_of_serial _ _ _ _ j) in H
    | |- context [VX.push_job ?s ?t ?a] =>
        destruct (push_job_obs s t a) as (? & _);
        remember (VX.push_job s t a)
    | |- context [VX.finish_task ?s ?t] =>
        pose proof (finish_task_serial s t j);
        remember (VX.finish_task s t)
    end;
    sys_simpl;
    repeat match goal with
    | H : VX.s_dsl _ = _ |- _ => rewrite H in *; clear H
    end;
    simpl; rewrite ?serial_of_ctx, ?serial_of_alter by done;
    try done; try congruence.
  rewrite H. by apply serial_of_alter.
Qed.

Lemma count_ext {A} (f g : A -> bool) l :
  (forall x, f x = g x) -> count f l = count g l.
Proof.
  intros H. unfold count. induction l as [|x l IH]; [done|]. simpl.
  rewrite H. destruct (g x); simpl; by rewrite IH.
Qed.

Lemma has_slot_ext σ σ' p :
  (forall j, serial_of σ' j = serial_of σ j) -> has_slot σ' p = has_slot σ p.
Proof. intros H. destruct p; simpl; by rewrite ?H. Qed.

Lemma push_job_serial s j a :
  VX._serial_queue_lock (VX.thread_pool (VX.push_job s j a))
  = VX._serial_queue_lock (VX.thread_pool s) ∧
  (VX.workers (VX.push_job s j a) = VX.workers s ∨
   VX.workers (VX.push_job s j a) = VX.workers s ++ [VX.WTop]) ∧
  (forall x, x ∈ VX._queue (VX.thread_pool (VX.push_job s j a)) ->
     x ∈ VX._queue (VX.thread_pool s) ∨
     (x = j ∧ serial_of (VX.s_dsl s) j = false)).
Proof.
  unfold VX.push_job.
  destruct (VX.stop (VX.thread_pool s)); [split; [done|]; split; auto|].
  cbv zeta. unfold VX.job_of. fold (serial_of (VX.s_dsl s) j).
  destruct (serial_of (VX.s_dsl s) j) eqn:Hs; simpl.
  all: match goal with
       | |- context [if ?c then _ else _] => destruct c
       end; simpl.
  all: split; [done|]; split; [auto|]; intros x Hx; auto.
  all: unfold Heapq.put in Hx; rewrite heappush_perm in Hx.
  all: apply elem_of_cons in Hx as [->|Hx]; auto.
Qed.

Lemma step_serial_ok ns l s s' :
  VX.step_of E l s = Some s' -> serial_ok ns s -> serial_ok ns s'.
Proof.
  intros H [IH1 IH2].
  pose proof (fun j => step_serial_of l s s' j H) as Hser.
  unfold serial_ok.
  rewrite (count_ext _ _ _ (fun p => has_slot_ext _ _ p Hser)).
  assert (Hgoal :
    (VX._serial_queue_lock (VX.thread_pool s')
     + count (has_slot (VX.s_dsl s)) (VX.workers s') <= ns)%nat ∧
    forall j, j ∈ VX._queue (VX.thread_pool s') ->
      serial_of (VX.s_dsl s) j = false);
    [|destruct Hgoal as [? Hq]; split; [done|];
      intros j Hj; rewrite Hser; by apply Hq].
  clear Hser. step_inv H;
    repeat match goal with
    | |- context [VX.push_job ?s ?t ?a] =>
        destruct (push_job_serial s t a) as (? & [?|?] & ?);
        remember (VX.push_job s t a)
    | |- context [VX.finish_task ?s ?t] =>
        destruct (finish_task_obs s t) as (_ & ? & ? & _);
        remember (VX.finish_task s t)
    end;
    sys_simpl;
    repeat match goal with
    | H : VX.workers _ = _ |- _ => rewrite H in *; clear H
    | H : VX.thread_pool _ = _ |- _ => rewrite H in *; clear H
    | H : VX._serial_queue_lock _ = _ |- _ => rewrite H in *; clear H
    end;
    simpl; try done;
    repeat match goal with
    | H : context [default false (VX.serial <$> VX.job_objs ?σ !! ?j)] |- _ =>
        fold (serial_of σ j) in H
    end;
    (split;
     [ try (rewrite count_app; unfold count at 2; simpl);
       try match goal with
       | Hw : VX.workers ?s !! ?w = Some ?p
         |- context [count ?f (<[?w := ?p']> (VX.workers ?s))] =>
           let Hc := fresh "Hc" in
           pose proof (count_insert f (VX.workers s) w p p' Hw) as Hc;
           simpl in Hc
       end;
       try match goal with
       | Hg : Heapq.get _ (VX._queue _) = Some (?j, _) |- _ =>
           let Hj := fresh "Hj" in
           pose proof (IH2 j (get_elem _ _ _ _ Hg)) as Hj
       end;
       repeat match goal with
       | H : serial_of _ _ = _ |- _ => rewrite H in *
       end;
       repeat match goal with
       | H : context [if serial_of ?σ ?j then _ else _] |- _ =>
           destruct (serial_of σ j)
       end;
       try lia
     | intros x Hx;
       try match goal with
       | Hg : Heapq.get _ (VX._queue _) = Some (_, _) |- _ =>
           apply get_perm in Hg
       end;
       first [ by apply IH2
             | apply IH2; set_solver
             | match goal with
               | H : forall x, _ -> _ ∨ _ |- _ =>
                   destruct (H x Hx) as [?|[-> ?]]; [by apply IH2|done]
               end
             | idtac ] ]).
  apply IH2. rewrite H3. by right.
Qed.

Lemma count_le {A} (f g : A -> bool) l :
  (forall x, f x = true -> g x = true) -> (count f l <= count g l)%nat.
Proof.
  intros H. unfold count. induction l as [|x l IH]; [done|]. simpl.
  destruct (f x) eqn:Hf.
  - rewrite (H x Hf). simpl. lia.
  - destruct (g x); simpl; lia.
Qed.

(** Jobs declared with [serial=True] run exclusively to each other, up
    to [n_serial]: in a run of vx, at any moment, at most [n_serial]
    worker threads are inside the action of a serial job.  A serial job is
    never on the general queue, from which a worker takes jobs without a
    slot of [_serial_queue_lock]. *)
Theorem vx_serial_exclusive σ kg n ns laf ls s :
  VX.run E ls (VX.sys_init σ kg n ns laf) = Some s ->
  (count (runs_serial (VX.s_dsl s)) (VX.workers s) <= ns)%nat ∧
  (forall j, j ∈ VX._queue (VX.thread_pool s) ->
     serial_of (VX.s_dsl s) j = false).
Proof.
  intros Hrun.
  assert (H : serial_ok ns s).
  { refine (run_preserves E (serial_ok ns) (step_serial_ok ns) ls _ s Hrun _).
    split; simpl.
    - unfold count. simpl. lia.
    - intros j Hj. by apply elem_of_nil in Hj. }
  destruct H as [H1 H2]. split; [|done].
  pose proof (count_le (runs_serial (VX.s_dsl s)) (has_slot (VX.s_dsl s))
                (VX.workers s)) as Hle.
  assert ((count (runs_serial (VX.s_dsl s)) (VX.workers s)
           <= count (has_slot (VX.s_dsl s)) (VX.workers s))%nat); [|lia].
  apply Hle. intros p Hp. destruct p; simpl in *; done.
Qed.
End Serial.

Section ActionExamples.

Lemma vx_action_once_witness :
  (EvAction 1%nat ∉ [EvTaskPut 0; EvDoneSet 0; EvAction 0; EvEnq 0;
                     EvRequeue 0 1; EvTaskPut 1; EvDoneSet 1]) ∧
  (EvAction 1%nat ∉ [EvEnq 1]).
Proof.
  apply (vx_action_once E_elements vx_fail_dsl true 1 1 false ok_run ok_end).
  - by apply sys_ready_check_ok.
  - by vm_compute.
  - by vm_compute.
Defined.

Lemma vx_threads_bounded_witness :
  (count is_live (VX.workers busy_mid)
   <= size (VX._threads (VX.thread_pool busy_mid)))%nat ∧
  (size (VX._threads (VX.thread_pool busy_mid)) <= 1)%nat.
Proof.
  apply (vx_threads_bounded E_elements vx_fail_dsl true 1 1 false busy_run).
  - lia.
  - by vm_compute.
Defined.

Lemma serial_mid_worker :
  VX.workers serial_mid = [VX.WRunning 0] ∧
  count (runs_serial (VX.s_dsl serial_mid)) (VX.workers serial_mid) = 1%nat.
Proof. by vm_compute. Qed.

Lemma vx_serial_exclusive_witness :
  (count (runs_serial (VX.s_dsl serial_mid)) (VX.workers serial_mid) <= 1)%nat ∧
  (forall j, j ∈ VX._queue (VX.thread_pool serial_mid) ->
     serial_of (VX.s_dsl serial_mid) j = false).
Proof.
  apply (vx_serial_exclusive E_elements vx_serial_dsl true 2 1 false serial_run).
  by vm_compute.
Defined.
End ActionExamples.

(** * The oracle of v4: what it leaves alone, what it remembers *)
Section OracleFacts.
Variable E : V4.env.

Lemma world_eta (w : V4.world) :
  {| V4.meta_tbl := V4.meta_tbl w;
     V4.time_of_dep_cache := V4.time_of_dep_cache w;
     V4.cache_files := V4.cache_files w |} = w.
Proof. by destruct w. Qed.

(** [_min_of_t_uri_and_t_cache] writes to the cache files only. *)
Lemma _min_frame t_uri fh puri w :
  let r := V4._min_of_t_uri_and_t_cache E t_uri fh puri w in
  V4.meta_tbl r.1 = V4.meta_tbl w ∧
  V4.time_of_dep_cache r.1 = V4.time_of_dep_cache w.
Proof.
  unfold V4._min_of_t_uri_and_t_cache, V4._dump_hash_time_cache, V4.utime,
    mbind, mret, ST_bind, ST_ret, lift, get_state.
  repeat (case_match; simplify_eq/=; try done).
Qed.

Lemma mtime_of_frame uri uh cred w :
  let r := V4.mtime_of E uri uh cred w in
  V4.meta_tbl r.1 = V4.meta_tbl w ∧
  V4.time_of_dep_cache r.1 = V4.time_of_dep_cache w ∧
  (uh = false -> r.1 = w).
Proof.
  unfold V4.mtime_of, V4.LocalFile_mtime_of, V4.BigQuery_mtime_of,
    V4.GoogleCloudStorage_mtime_of, mbind, mret, ST_bind, ST_ret, lift.
  repeat (case_match; simplify_eq/=; try done);
    try (match goal with
         | H : V4._min_of_t_uri_and_t_cache E ?t ?f ?p ?w = _ |- _ =>
             destruct (_min_frame t f p w) as [H1 H2]; rewrite H in H1, H2;
             simpl in H1, H2
         end; split; [done|]; split; [done|]; by intros).
  all: match goal with
       | |- context [V4._min_of_t_uri_and_t_cache E ?t ?f ?p ?w] =>
           destruct (_min_frame t f p w) as [Hm Ht]
       end; split; [done|]; split; [done|]; intros ->; discriminate.
Qed.

(** [_FileJob._time_of_dep_from_cache] answers once per dep and run.
    When it has returned a time for [d], every later call for [d], by any
    job and whatever has become of the resource and of the clock, returns
    the same time and changes nothing; the first call has stored the time
    under [d] without touching the entries of the other deps. *)
Theorem v4_dep_time_memoized j d w w1 t :
  V4._time_of_dep_from_cache E j d w = (w1, Ok t) ->
  V4.time_of_dep_cache w1 !! d = Some t ∧
  (forall d', d' ≠ d ->
     V4.time_of_dep_cache w1 !! d' = V4.time_of_dep_cache w !! d') ∧
  forall (E' : V4.env) j',
    V4._time_of_dep_from_cache E' j' d w1 = (w1, Ok t).
Proof.
  unfold V4._time_of_dep_from_cache, V4._credential_of, V4.Cache_get,
    V4.TDefaultDict_getitem, mbind, mret, ST_bind, ST_ret, get_state,
    put_state.
  intros H.
  assert (Hgoal : V4.time_of_dep_cache w1 !! d = Some t ∧
                  (forall d', d' ≠ d ->
                     V4.time_of_dep_cache w1 !! d'
                     = V4.time_of_dep_cache w !! d') ∧
                  is_Some (V4.meta_tbl w1 !! d)).
  { destruct (V4.meta_tbl w !! d) as [m|] eqn:Hm; simpl in H.
    - destruct (V4.time_of_dep_cache w !! d) as [v|] eqn:Hc.
      + injection H as <- <-. simpl. rewrite Hm. eauto.
      + match type of H with
        | context [V4.mtime_of E ?u ?h ?c ?x] =>
            destruct (mtime_of_frame u h c x) as (H1 & H2 & _);
            destruct (V4.mtime_of E u h c x) as [w' [v|e]]
        end; [|done].
        injection H as <- <-. simpl in *. rewrite lookup_insert_eq.
        split; [done|]. split.
        * intros d' Hd'. rewrite lookup_insert_ne by done. by rewrite H2.
        * rewrite H1, Hm. eauto.
    - destruct (V4.time_of_dep_cache w !! d) as [v|] eqn:Hc.
      + injection H as <- <-. simpl. rewrite lookup_insert_eq. eauto.
      + match type of H with
        | context [V4.mtime_of E ?u ?h ?c ?x] =>
            destruct (mtime_of_frame u h c x) as (H1 & H2 & _);
            destruct (V4.mtime_of E u h c x) as [w' [v|e]]
        end; [|done].
        injection H as <- <-. simpl in *. rewrite lookup_insert_eq.
        split; [done|]. split.
        * intros d' Hd'. rewrite lookup_insert_ne by done. by rewrite H2.
        * rewrite H1, lookup_insert_eq. eauto. }
  destruct Hgoal as (Ht & Hother & [m Hm]).
  split; [done|]. split; [done|].
  intros E' j'. rewrite Hm. simpl. rewrite Ht.
  unfold V4.set_meta_tbl. by rewrite world_eta.
Qed.

(** The record of the hash-time cache.  When the cache file of a URI is
    missing, or loading it raises [OSError] or [KeyError], the oracle
    computes the digest, writes the record [(t_uri, digest)] and returns
    [t_uri]; a next call for the same [t_uri] and digest returns [t_uri]
    again, whatever the clock says.  When loading the file raises
    anything else (a file that [json.load] cannot parse raises a
    [ValueError]), the exception leaves the oracle and nothing is
    written. *)
Theorem v4_hash_cache_record t_uri puri w :
  path puri ≠ "" ->
  (forall fh h,
     (V4.cache_files w !! cache_path_of E puri = None ∨
      exists c, V4.cache_files w !! cache_path_of E puri = Some c ∧
        (V4.content c = Raise OSError ∨ V4.content c = Raise KeyError)) ->
     fh () = Ok h ->
     exists w1,
       V4._min_of_t_uri_and_t_cache E t_uri fh puri w = (w1, Ok t_uri) ∧
       V4.cache_files w1
       = <[cache_path_of E puri :=
             {| V4.st_mtime := V4.time_time E;
                V4.content := Ok (t_uri, h) |}]> (V4.cache_files w) ∧
       forall (E' : V4.env) fh',
         cache_path_of E' puri = cache_path_of E puri -> fh' () = Ok h ->
         (V4._min_of_t_uri_and_t_cache E' t_uri fh' puri w1).2 = Ok t_uri) ∧
  (forall fh c e,
     V4.cache_files w !! cache_path_of E puri = Some c ->
     V4.content c = Raise e -> e ≠ OSError -> e ≠ KeyError ->
     V4._min_of_t_uri_and_t_cache E t_uri fh puri w = (w, Raise e)).
Proof.
  intros Hp. split.
  - intros fh h Hc Hh.
    assert (H1 : V4._min_of_t_uri_and_t_cache E t_uri fh puri w
                 = (V4.set_cache_files w
                      (<[cache_path_of E puri :=
                           {| V4.st_mtime := V4.time_time E;
                              V4.content := Ok (t_uri, h) |}]>
                         (V4.cache_files w)), Ok t_uri)).
    { unfold V4._min_of_t_uri_and_t_cache, mbind, ST_bind, lift, get_state.
      rewrite (path_nonempty_assert _ Hp). fold (cache_path_of E puri).
      destruct Hc as [->|(c & -> & [->| ->])]; rewrite Hh; done. }
    eexists. split; [exact H1|]. split; [done|].
    intros E' fh' Hcp Hh'.
    unfold V4._min_of_t_uri_and_t_cache, mbind, ST_bind, lift, get_state.
    rewrite (path_nonempty_assert _ Hp). fold (cache_path_of E' puri).
    rewrite Hcp. simpl. rewrite lookup_insert_eq. simpl.
    case_bool_decide; [done|]. rewrite Hh'. rewrite decide_True by done.
    unfold V4.utime. simpl. by rewrite lookup_insert_eq.
  - intros fh c e Hc He H1 H2.
    unfold V4._min_of_t_uri_and_t_cache, mbind, ST_bind, lift, get_state.
    rewrite (path_nonempty_assert _ Hp). fold (cache_path_of E puri).
    rewrite Hc, He. by destruct e.
Qed.

(** Where [mtime_of] of v4 fails before it looks at the resource: a file
    URI with a host other than [localhost] raises the [Err] of
    [_uriparse], and a scheme without an adapter raises
    [NotImplementedError]; in both cases nothing is changed.  A URI that
    parses has a scheme, and names [localhost] if it is a file URI: the
    [assert] of [mtime_of] on the host cannot fail. *)
Theorem v4_mtime_of_dispatch uri uh cred w :
  (forall e, V4._uriparse E uri = Raise e ->
     e = Err (MsgNetloc uri) ∧ V4.mtime_of E uri uh cred w = (w, Raise e)) ∧
  (forall p, V4._uriparse E uri = Ok p ->
     scheme p ≠ "" ∧
     (scheme p = "file" -> netloc p = "localhost") ∧
     (scheme p ≠ "file" -> scheme p ≠ "bq" -> scheme p ≠ "gs" ->
      V4.mtime_of E uri uh cred w = (w, Raise NotImplementedError))).
Proof.
  split.
  - intros e He. split.
    + unfold V4._uriparse in He. case_decide; by simplify_eq.
    + unfold V4.mtime_of, mbind, ST_bind, lift. by rewrite He.
  - intros p Hp. split; [|split].
    + unfold V4._uriparse in Hp. repeat case_decide; simplify_eq/=; done.
    + unfold V4._uriparse in Hp. intros Hs.
      repeat case_decide; simplify_eq/=; try done; try tauto.
      all: destruct (decide (netloc (V4.urlparse E uri) = "localhost")); tauto.
    + intros H1 H2 H3. unfold V4.mtime_of, mbind, ST_bind, lift.
      rewrite Hp. rewrite !decide_False by done. done.
Qed.

Lemma grows_refl uh w : grows uh w w.
Proof. by repeat split. Qed.

Lemma grows_trans uh w1 w2 w3 : grows uh w1 w2 -> grows uh w2 w3 -> grows uh w1 w3.
Proof.
  intros (H1 & H2 & H3) (H4 & H5 & H6). split; [by etrans|]. split; [eauto|].
  intros Hu. by rewrite H6, H3.
Qed.

Lemma _credential_of_grows uh u w : grows uh w (V4._credential_of u w).1.
Proof.
  unfold V4._credential_of, V4.TDefaultDict_getitem.
  destruct (V4.meta_tbl w !! u) eqn:Hu; simpl.
  - by repeat split.
  - split; [done|]. split; [|done]. simpl. intros u' m Hm.
    destruct (decide (u' = u)) as [->|]; [congruence|].
    by rewrite lookup_insert_ne.
Qed.

Lemma mtime_of_grows uh u c w : grows uh w (V4.mtime_of E u uh c w).1.
Proof.
  destruct (mtime_of_frame u uh c w) as (H1 & H2 & H3).
  split; [by rewrite H2|]. split; [intros u' m; by rewrite H1|].
  intros Hu. by rewrite (H3 Hu).
Qed.

Lemma probe_target_grows uh t w : grows uh w (V4.probe_target E t w).1.
Proof.
  unfold V4.probe_target, mbind, ST_bind.
  pose proof (_credential_of_grows uh t w) as H1.
  destruct (V4._credential_of t w) as [w1 [c|e]]; [|done]. simpl in H1.
  pose proof (mtime_of_grows false t c w1) as (H2 & H3 & H4).
  eapply grows_trans; [exact H1|].
  destruct (V4.mtime_of E t false c w1) as [w2 r]. simpl in *.
  assert (grows uh w1 w2); [|by destruct r].
  split; [done|]. split; [done|]. intros _. by apply H4.
Qed.

Lemma _time_of_dep_grows j d w :
  grows (V4._use_hash j) w (V4._time_of_dep_from_cache E j d w).1.
Proof.
  unfold V4._time_of_dep_from_cache, mbind, ST_bind.
  pose proof (_credential_of_grows (V4._use_hash j) d w) as H1.
  destruct (V4._credential_of d w) as [w1 [c|e]]; [|done]. simpl in H1.
  eapply grows_trans; [exact H1|].
  unfold V4.Cache_get, mbind, mret, ST_bind, ST_ret, get_state, put_state.
  destruct (V4.time_of_dep_cache w1 !! d) eqn:Hd; [apply grows_refl|].
  pose proof (mtime_of_grows (V4._use_hash j) d c w1) as H2.
  destruct (mtime_of_frame d (V4._use_hash j) c w1) as (_ & H3 & _).
  destruct (V4.mtime_of E d (V4._use_hash j) c w1) as [w2 [v|e]]; [|done].
  simpl in *. eapply grows_trans; [exact H2|].
  split; [|by split]. simpl. apply insert_subseteq. by rewrite H3.
Qed.

Lemma gen_values_grows uh (probe : string -> ST V4.world Z) xs :
  (forall x w, grows uh w (probe x w).1) ->
  forall w, grows uh w (gen_values probe xs w).1.
Proof.
  intros Hp. induction xs as [|x xs IH]; intros w; simpl; [apply grows_refl|].
  unfold mbind, ST_bind. pose proof (Hp x w) as H1.
  destruct (probe x w) as [w1 [t|e]]; [|done]. simpl in H1.
  pose proof (IH w1) as H2.
  destruct (gen_values probe xs w1) as [w2 [l|e]]; simpl in *;
    by eapply grows_trans.
Qed.

Lemma need_update_grows j w :
  grows (V4._use_hash j) w (V4.need_update E j w).1.
Proof.
  unfold V4.need_update. destruct (V4._dry_run j); [apply grows_refl|].
  unfold need_update_body, mbind, mret, ST_bind, ST_ret, lift.
  pose proof (gen_values_grows (V4._use_hash j) (V4.probe_target E) (V4.ts j)
                (probe_target_grows (V4._use_hash j)) w) as H1.
  destruct (gen_values (V4.probe_target E) (V4.ts j) w) as [w1 [l|e]];
    simpl in H1.
  - destruct (py_min l) as [t|e]; simpl.
    + pose proof (gen_values_grows (V4._use_hash j)
                    (V4._time_of_dep_from_cache E j) (V4.unique_ds j)
                    (_time_of_dep_grows j) w1) as H2.
      destruct (gen_values _ (V4.unique_ds j) w1) as [w2 [l2|e2]];
        simpl in *; by eapply grows_trans.
    + destruct (is_missing e); [|done].
      pose proof (gen_values_grows (V4._use_hash j)
                    (V4._time_of_dep_from_cache E j) (V4.unique_ds j)
                    (_time_of_dep_grows j) w1) as H2.
      destruct (gen_values _ (V4.unique_ds j) w1) as [w2 [l2|e2]];
        simpl in *; by eapply grows_trans.
  - destruct (is_missing e); [|done].
    pose proof (gen_values_grows (V4._use_hash j)
                  (V4._time_of_dep_from_cache E j) (V4.unique_ds j)
                  (_time_of_dep_grows j) w1) as H2.
    destruct (gen_values _ (V4.unique_ds j) w1) as [w2 [l2|e2]];
      simpl in *; by eapply grows_trans.
Qed.

(** A staleness check of v4 keeps the times that the per-run cache holds
    and the entries of the metadata table, and for a job without
    [use_hash] it leaves every cache file as it is. *)
Theorem v4_need_update_frame j w :
  V4.time_of_dep_cache w ⊆ V4.time_of_dep_cache (V4.need_update E j w).1 ∧
  (forall u m, V4.meta_tbl w !! u = Some m ->
     V4.meta_tbl (V4.need_update E j w).1 !! u = Some m) ∧
  (V4._use_hash j = false ->
   V4.cache_files (V4.need_update E j w).1 = V4.cache_files w).
Proof. apply need_update_grows. Qed.

(** When a staleness check of v4 raises.  An exception of a probe of a
    target that is not one of [OSError] and the two [NotFound] leaves
    [need_update], and no dep is looked at.  When the probes of the
    targets return or raise one of those, every dep is asked for its
    time, and an exception of the oracle for a dep leaves [need_update],
    also when a target is missing. *)
Theorem v4_need_update_raises j w w1 :
  V4._dry_run j = false ->
  (forall e,
     gen_values (V4.probe_target E) (V4.ts j) w = (w1, Raise e) ->
     is_missing e = false ->
     V4.need_update E j w = (w1, Raise e)) ∧
  (forall rt w2 e,
     V4.ts j ≠ [] ->
     gen_values (V4.probe_target E) (V4.ts j) w = (w1, rt) ->
     (forall e0, rt = Raise e0 -> is_missing e0 = true) ->
     gen_values (V4._time_of_dep_from_cache E j) (V4.unique_ds j) w1
       = (w2, Raise e) ->
     V4.need_update E j w = (w2, Raise e)).
Proof.
  intros Hdry. split.
  - intros e Ht He. unfold V4.need_update. rewrite Hdry.
    by apply need_update_body_raises.
  - intros rt w2 e Hts Ht Hmiss Hd. unfold V4.need_update. rewrite Hdry.
    unfold need_update_body, mbind, mret, ST_bind, ST_ret, lift.
    rewrite Ht. destruct rt as [lt|e0].
    + destruct lt as [|x lt].
      { destruct (V4.ts j) as [|t ts]; [done|]. simpl in Ht.
        unfold mbind, ST_bind in Ht.
        destruct (V4.probe_target E t w) as [? [?|?]]; [|done].
        destruct (gen_values _ ts _) as [? [?|?]]; done. }
      simpl. by rewrite Hd.
    + rewrite (Hmiss e0 eq_refl). by rewrite Hd.
Qed.
End OracleFacts.

Section OracleExamples.

Lemma v4_dep_time_memoized_witness :
  let E := E4_local {["d" := (7, "h2")]} 9 in
  let j := V4.new_job V4.FileJob (V4.ActUser 0) ["t"] ["d"] [] 0 false false in
  let w1 := (V4._time_of_dep_from_cache E j "d" w4_empty).1 in
  V4.time_of_dep_cache w1 !! "d" = Some 7 ∧
  (forall d', d' ≠ "d" ->
     V4.time_of_dep_cache w1 !! d' = V4.time_of_dep_cache w4_empty !! d') ∧
  forall (E' : V4.env) j',
    V4._time_of_dep_from_cache E' j' "d" w1 = (w1, Ok 7).
Proof.
  intros E j w1.
  apply (v4_dep_time_memoized E j "d" w4_empty w1 7).
  by vm_compute.
Defined.

Lemma v4_hash_cache_record_witness :
  let E := E4_local ∅ 60 in
  (forall fh h,
     (V4.cache_files w4_empty !! cache_path_of E (local_uri "d") = None ∨
      exists c, V4.cache_files w4_empty !! cache_path_of E (local_uri "d")
                = Some c ∧
        (V4.content c = Raise OSError ∨ V4.content c = Raise KeyError)) ->
     fh () = Ok h ->
     exists w1,
       V4._min_of_t_uri_and_t_cache E 50 fh (local_uri "d") w4_empty
       = (w1, Ok 50) ∧
       V4.cache_files w1
       = <[cache_path_of E (local_uri "d") :=
             {| V4.st_mtime := V4.time_time E;
                V4.content := Ok (50, h) |}]> (V4.cache_files w4_empty) ∧
       forall (E' : V4.env) fh',
         cache_path_of E' (local_uri "d") = cache_path_of E (local_uri "d") ->
         fh' () = Ok h ->
         (V4._min_of_t_uri_and_t_cache E' 50 fh' (local_uri "d") w1).2
         = Ok 50) ∧
  (forall fh c e,
     V4.cache_files w4_empty !! cache_path_of E (local_uri "d") = Some c ->
     V4.content c = Raise e -> e ≠ OSError -> e ≠ KeyError ->
     V4._min_of_t_uri_and_t_cache E 50 fh (local_uri "d") w4_empty
     = (w4_empty, Raise e)).
Proof.
  intros E. apply (v4_hash_cache_record E 50 (local_uri "d") w4_empty).
  discriminate.
Defined.

(** The target ["t"] and the dep ["d"] are both missing: the check
    raises the [OSError] of the dep. *)
Lemma v4_need_update_raises_witness :
  let E := E4_local ∅ 9 in
  let j := V4.new_job V4.FileJob (V4.ActUser 0) ["t"] ["d"] [] 0 false false in
  let w1 := (gen_values (V4.probe_target E) (V4.ts j) w4_empty).1 in
  let w2 := (gen_values (V4._time_of_dep_from_cache E j) (V4.unique_ds j) w1).1 in
  V4.need_update E j w4_empty = (w2, Raise OSError).
Proof.
  intros E j w1 w2.
  apply (proj2 (v4_need_update_raises E j w4_empty w1 eq_refl)
           (Raise OSError) w2 OSError).
  - discriminate.
  - by vm_compute.
  - by intros e0 [= <-].
  - by vm_compute.
Defined.
End OracleExamples.

(** * The walk of the graph: when it returns *)
Section WalkSound.

(** [invoke] of vx on declarations none of which is begun.  When it
    returns, it returns the root, and every job that the root reaches has
    a task and lies on no cycle; the bindings of the job table are kept.
    When it raises, the error is the one of a circular dependency, for a
    job that does lie on a cycle: the walk fails for no other reason. *)
Theorem vx_invoke_sound {R} (E : VX.env R) σ0 root fuel σ' r :
  set_iter_ok E -> vx_declared σ0 ->
  (root < length (VX.job_objs σ0))%nat ->
  (length (VX.job_objs σ0) + 1 <= fuel)%nat ->
  VX.invoke E fuel root [] σ0 = (σ', r) ->
  VX.job_of_target σ0 ⊆ VX.job_of_target σ' ∧
  match r with
  | Ok x =>
      x = root ∧
      forall j, rtc (vx_edge σ0) root j ->
        vx_tasked σ' j ∧ ~ tc (vx_edge σ0) j j
  | Raise e =>
      exists c chain, e = Err (MsgCircularJob c chain) ∧ c ∈ chain ∧
                      tc (vx_edge σ0) c c
  end.
Proof.
  intros HE Hdecl Hroot Hfuel Hrun.
  destruct (invoke_spec E HE σ0 fuel root [] σ0 σ' r) as [Hpost Hres];
    [simpl; lia| |done|].
  { split; [by apply vx_inv_init|]. split; [done|]. split.
    - intros y Hy. by apply elem_of_nil in Hy.
    - split; [constructor|done]. }
  destruct Hpost as (Hinv & _ & Hsub & _).
  split; [done|]. destruct r as [x|e]; [|done].
  destruct Hres as [-> Ht]. split; [done|]. intros j Hreach.
  assert (Hj : vx_tasked σ' j).
  { eapply closed_reach; [|exact Ht|exact Hreach].
    intros y c Hy Hyc. by eapply vi_closed. }
  split; [done|]. by eapply vi_acyclic.
Qed.

(** The walk of [finish] of v4 over the root targets, on declarations in
    which every job has one target and none is marked.  When it returns,
    every root target has a job, and every job that this job reaches is
    marked [visited] and lies on no cycle.  When it raises, the error is
    the one of a circular dependency, for a target whose job does lie on
    a cycle, or one of the errors about a target without a job. *)
Theorem v4_make_graphs_sound (E : V4.env) σ0 targets fuel meta dj lj g' r :
  v4_declared σ0 ->
  (length (V4.jobs σ0) + 1 <= fuel)%nat ->
  V4.make_graphs E fuel targets
    {| V4.g_dsl := σ0; V4.g_meta := meta; V4.dependent_jobs := dj;
       V4.leaf_jobs := lj |} = (g', r) ->
  match r with
  | Ok _ =>
      V4._job_of_target σ0 ⊆ V4._job_of_target (V4.g_dsl g') ∧
      forall t, t ∈ targets ->
        exists jr, V4._job_of_target (V4.g_dsl g') !! t = Some jr ∧
          forall j, rtc (v4_edge σ0) jr j ->
            v4_visited (V4.g_dsl g') j ∧ ~ tc (v4_edge σ0) j j
  | Raise e => v4_cycle_error σ0 e ∨ leaf_error e
  end.
Proof.
  intros Hdecl Hfuel Hrun.
  apply (make_graphs_spec E σ0 Hdecl fuel Hfuel) in Hrun;
    [|by apply v4_inv_init|by apply v4_closed_init].
  destruct r as [[]|e]; [|done].
  destruct Hrun as [(Hinv & [Hc1 Hc2] & _) Hall].
  split; [apply (v4i_sub _ _ Hinv)|].
  intros t Ht. destruct (Hall t Ht) as (jr & Hjr & Hblack).
  exists jr. split; [done|]. intros j Hreach.
  assert (Hj : v4_black σ0 (V4.g_dsl g') [] j).
  { by apply (closed_reach (v4_edge σ0) (v4_black σ0 (V4.g_dsl g') []) jr j). }
  split; [apply Hj|]. by apply Hc2.
Qed.
End WalkSound.

(** * Declarations *)
Section Declarations.

Lemma setdefault_extend_get {A} (d : list (string * list A)) k xs k' :
  V4.alist_get (V4.setdefault_extend d k xs) k'
  = if decide (k' = k) then Some (default [] (V4.alist_get d k) ++ xs)
    else V4.alist_get d k'.
Proof.
  induction d as [|[k0 ys] d IH]; simpl.
  - repeat case_decide; simplify_eq; done.
  - destruct (decide (k0 = k)) as [->|Hne]; simpl.
    + repeat case_decide; simplify_eq; done.
    + rewrite IH. repeat case_decide; simplify_eq; done.
Qed.

Lemma setdefault_extend_keys {A} (d : list (string * list A)) k xs :
  (V4.setdefault_extend d k xs).*1
  = if decide (k ∈ d.*1) then d.*1 else d.*1 ++ [k].
Proof.
  induction d as [|[k0 ys] d IH].
  - rewrite decide_False; [done|]. apply not_elem_of_nil.
  - cbn [V4.setdefault_extend].
    destruct (decide (k0 = k)) as [->|Hne].
    + rewrite decide_True; [done|]. rewrite fmap_cons. by left.
    + rewrite !fmap_cons, IH. cbn [fst].
      destruct (decide (k ∈ d.*1)) as [Hin|Hout].
      * rewrite decide_True; [done|]. by right.
      * rewrite decide_False; [done|].
        intros [?|?]%elem_of_cons; congruence.
Qed.

(** [DSL.phony] of v4 may be called several times for a target.  Each
    call appends its deps and its description to those the target has,
    a priority replaces the one the target has, and a call without a
    priority keeps it; the other phony targets, the order in which the
    targets were first declared, and the job table are left as they
    are. *)
Theorem v4_phony_accumulates σ t ds desc prio :
  V4.alist_get (V4._deps_of_phony (V4.phony σ t ds desc prio)) t
  = Some (default [] (V4.alist_get (V4._deps_of_phony σ) t) ++ ds) ∧
  V4.alist_get (V4._descs_of_phony (V4.phony σ t ds desc prio)) t
  = Some (default [] (V4.alist_get (V4._descs_of_phony σ) t) ++ [desc]) ∧
  V4._priority_of_phony (V4.phony σ t ds desc prio) !! t
  = match prio with
    | Some p => Some p
    | None => V4._priority_of_phony σ !! t
    end ∧
  (forall t', t' ≠ t ->
     V4.alist_get (V4._deps_of_phony (V4.phony σ t ds desc prio)) t'
     = V4.alist_get (V4._deps_of_phony σ) t' ∧
     V4.alist_get (V4._descs_of_phony (V4.phony σ t ds desc prio)) t'
     = V4.alist_get (V4._descs_of_phony σ) t' ∧
     V4._priority_of_phony (V4.phony σ t ds desc prio) !! t'
     = V4._priority_of_phony σ !! t') ∧
  (V4._deps_of_phony (V4.phony σ t ds desc prio)).*1
  = (if decide (t ∈ (V4._deps_of_phony σ).*1) then (V4._deps_of_phony σ).*1
     else (V4._deps_of_phony σ).*1 ++ [t]) ∧
  V4.jobs (V4.phony σ t ds desc prio) = V4.jobs σ ∧
  V4._job_of_target (V4.phony σ t ds desc prio) = V4._job_of_target σ.
Proof.
  unfold V4.phony. simpl. rewrite !setdefault_extend_get, !decide_True by done.
  split; [done|]. split; [done|]. split.
  { destruct prio; [by rewrite lookup_insert_eq|done]. }
  split; [|split; [apply setdefault_extend_keys|done]].
  intros t' Hne. rewrite !setdefault_extend_get, !decide_False by done.
  split; [done|]. split; [done|].
  destruct prio; [by rewrite lookup_insert_ne|done].
Qed.

Lemma _collect_phonies_loop_spec items : forall js d fop dop pop js' d',
  V4._collect_phonies_loop js d items fop dop pop = (js', d', Ok ()) ->
  exists new, js' = js ++ new ∧ length new = length items ∧
    forall (i : nat) t deps, items !! i = Some (t, deps) ->
      d !! t = None ∧ d' !! t = Some (length js + i)%nat ∧
      exists descs, V4.alist_get dop t = Some descs ∧
        new !! i = Some (V4.new_job V4.PhonyJob
                           (default V4.ActDoNothing (fop !! t)) [t] deps descs
                           (default V4._PRIORITY_DEFAULT (pop !! t))
                           false false).
Proof.
  induction items as [|[t0 deps0] items IH]; intros js d fop dop pop js' d';
    simpl.
  - intros [= <- <-]. exists []. rewrite app_nil_r. split; [done|].
    split; [done|]. intros i t deps Hi. by rewrite lookup_nil in Hi.
  - destruct (V4.alist_get dop t0) as [descs0|] eqn:Hdescs; [|done].
    unfold V4.new_phony_job. simpl.
    destruct (V4._set_unique d t0 (length js)) as [d1|e] eqn:H1; [|done].
    apply _set_unique_Ok in H1 as [Hn ->]. intros H.
    pose proof (_collect_phonies_loop_mono _ _ _ _ _ _ _ _ _ H) as Hmono.
    destruct (IH _ _ _ _ _ _ _ H) as (new & -> & Hlen & Hall).
    eexists (_ :: new). split; [by rewrite <- app_assoc|].
    split; [simpl; by rewrite Hlen|].
    intros [|i] t deps Hi; simpl in Hi.
    + injection Hi as <- <-. split; [done|]. split.
      * rewrite Nat.add_0_r. eapply lookup_weaken; [|exact Hmono].
        apply lookup_insert_eq.
      * eauto.
    + destruct (Hall i t deps Hi) as (Hd1 & Hd' & descs & Hdescs' & Hnew).
      rewrite length_app in Hd'. simpl in Hd'.
      split; [|split].
      * destruct (decide (t = t0)) as [->|Hne].
        -- by rewrite lookup_insert_eq in Hd1.
        -- by rewrite lookup_insert_ne in Hd1.
      * rewrite Hd'. f_equal. lia.
      * eauto.
Qed.

(** [_collect_phonies] of v4, when it returns: the jobs declared before
    are kept, and one phony job is added for every phony target, in the
    order in which the targets were first declared.  The job of a target
    has the target as its only target, the deps and the descriptions that
    the calls of [phony] have accumulated, the action that was given for
    it ([_do_nothing] if none was) and its priority (the default if none
    was given); the target, which had no job, is bound to it. *)
Theorem v4_collect_phonies_jobs σ σ' :
  V4._collect_phonies σ = (σ', Ok ()) ->
  exists new,
    V4.jobs σ' = V4.jobs σ ++ new ∧
    length new = length (V4._deps_of_phony σ) ∧
    forall (i : nat) t deps, V4._deps_of_phony σ !! i = Some (t, deps) ->
      V4._job_of_target σ !! t = None ∧
      V4._job_of_target σ' !! t = Some (length (V4.jobs σ) + i)%nat ∧
      exists descs, V4.alist_get (V4._descs_of_phony σ) t = Some descs ∧
        new !! i = Some (V4.new_job V4.PhonyJob
                           (default V4.ActDoNothing (V4._f_of_phony σ !! t))
                           [t] deps descs
                           (default V4._PRIORITY_DEFAULT
                              (V4._priority_of_phony σ !! t))
                           false false).
Proof.
  unfold V4._collect_phonies.
  destruct (V4._collect_phonies_loop _ _ _ _ _ _) as [[js d] r] eqn:H.
  intros [= <- ->]. simpl.
  by apply _collect_phonies_loop_spec in H.
Qed.
End Declarations.

(** * A dep without a rule *)
Section Leaf.
Context {R : Type}.
Variable E : VX.env R.

(** In vx a dep that no job makes gets a job of its own when [invoke]
    comes to it: a file job with the dep as its only target, without
    deps, whose action raises "No rule to make".  The dep is marked
    [keep], so that [rm_targets] of this job, which runs when the action
    has raised, calls [rm] for nothing and changes nothing: the engine
    does not delete a file it has no rule for. *)
Theorem vx_leaf_is_kept d σ σ' r :
  set_iter_ok E ->
  VX.job_of_target σ !! d = None ->
  VX.child_of d σ = (σ', r) ->
  let c := length (VX.job_objs σ) in
  r = Ok c ∧
  VX.job_objs σ'
  = VX.job_objs σ
    ++ [VX.set_f (VX.new_job VX.FileJob [d] [] None 0 (VX.dsl_use_hash σ) false)
          (VX.ActNoRule d)] ∧
  VX.job_of_target σ' = <[d := c]> (VX.job_of_target σ) ∧
  VX.keeps (options_of (VX.metadata σ') d) = true ∧
  forall res lg,
    VX.rm_targets E c {| VX.w_dsl := σ'; VX.w_res := res; VX.w_log := lg |}
    = ({| VX.w_dsl := σ'; VX.w_res := res; VX.w_log := lg |}, Ok ()).
Proof.
  intros HE Hd. unfold VX.child_of, VX.meta, VX.file, VX.construct, VX.decorate.
  unfold mbind, mret, ST_bind, ST_ret, lift, get_state, put_state.
  rewrite Hd. simpl. unfold VX.NonOverwritableDict_setitem. rewrite Hd. simpl.
  rewrite lookup_app_r by done. rewrite Nat.sub_diag. simpl.
  rewrite lookup_insert_eq. intros [= <- <-]. simpl.
  split; [done|]. split.
  { rewrite insert_app_r_alt by done. by rewrite Nat.sub_diag. }
  split; [done|]. split.
  { unfold options_of. by rewrite lookup_insert_eq. }
  intros res lg. unfold VX.rm_targets, mbind, ST_bind, get_state. simpl.
  rewrite insert_app_r_alt by done. rewrite Nat.sub_diag. simpl.
  rewrite lookup_app_r by done. rewrite Nat.sub_diag. simpl.
  match goal with
  | |- context [VX.set_iter E ?X] =>
      assert (Hit : VX.set_iter E X = [d]); [destruct (HE X) as [Hnd Hel]|]
  end.
  { match type of Hnd with NoDup ?l0 => destruct l0 as [|x l] end.
    - assert (H : d ∈ @nil string) by (apply Hel; set_solver).
      by apply elem_of_nil in H.
    - assert (x = d) as ->.
      { assert (H : x ∈ x :: l) by (by left). apply Hel in H. set_solver. }
      destruct l as [|y l]; [done|].
      assert (y = d) as ->.
      { assert (H : y ∈ d :: y :: l) by (right; by left).
        apply Hel in H. set_solver. }
      apply NoDup_cons in Hnd as [Hnd _]. exfalso. apply Hnd. by left. }
  rewrite Hit. simpl. unfold VX.rm_target, mbind, ST_bind. simpl.
  unfold VX.on_dsl, VX.metadata_getitem, VX.TDefaultDict_getitem. simpl.
  rewrite lookup_insert_eq. simpl. done.
Qed.
End Leaf.

Section WalkExamples2.

Lemma vx_invoke_sound_witness :
  let r := VX.invoke E_elements 3 0 [] vx_fail_dsl in
  VX.job_of_target vx_fail_dsl ⊆ VX.job_of_target r.1 ∧
  match r.2 with
  | Ok x =>
      x = 0%nat ∧
      forall j, rtc (vx_edge vx_fail_dsl) 0%nat j ->
        vx_tasked r.1 j ∧ ~ tc (vx_edge vx_fail_dsl) j j
  | Raise e =>
      exists c chain, e = Err (MsgCircularJob c chain) ∧ c ∈ chain ∧
                      tc (vx_edge vx_fail_dsl) c c
  end.
Proof.
  intros r.
  apply (vx_invoke_sound E_elements vx_fail_dsl 0%nat 3%nat r.1 r.2).
  - apply set_iter_ok_elements.
  - by apply vx_declared_check_ok.
  - vm_compute. lia.
  - vm_compute. lia.
  - apply surjective_pairing.
Defined.

Lemma vx_fail_dsl_invoked :
  (VX.invoke E_elements 3 0 [] vx_fail_dsl).2 = Ok 0%nat.
Proof. by vm_compute. Qed.

Lemma v4_make_graphs_sound_witness :
  let r := V4.make_graphs (E4_local ∅ 0) 4 ["r"] (v4_start v4_three) in
  match r.2 with
  | Ok _ =>
      V4._job_of_target v4_three ⊆ V4._job_of_target (V4.g_dsl r.1) ∧
      forall t, t ∈ ["r"] ->
        exists jr, V4._job_of_target (V4.g_dsl r.1) !! t = Some jr ∧
          forall j, rtc (v4_edge v4_three) jr j ->
            v4_visited (V4.g_dsl r.1) j ∧ ~ tc (v4_edge v4_three) j j
  | Raise e => v4_cycle_error v4_three e ∨ leaf_error e
  end.
Proof.
  intros r.
  apply (v4_make_graphs_sound (E4_local ∅ 0) v4_three ["r"] 4%nat ∅ ∅ []
           r.1 r.2).
  - by apply v4_declared_check_ok.
  - vm_compute. lia.
  - apply surjective_pairing.
Defined.

Lemma v4_three_walked :
  let r := V4.make_graphs (E4_local ∅ 0) 4 ["r"] (v4_start v4_three) in
  r.2 = Ok () ∧ V4.leaf_jobs r.1 = [1%nat; 2%nat] ∧
  V4.dependent_jobs r.1 = {["a" := [0%nat]; "b" := [0%nat]]}.
Proof. by vm_compute. Qed.

Lemma v4_collect_phonies_jobs_witness :
  exists new,
    V4.jobs (V4._collect_phonies v4_phonies).1 = V4.jobs v4_phonies ++ new ∧
    length new = length (V4._deps_of_phony v4_phonies) ∧
    forall (i : nat) t deps,
      V4._deps_of_phony v4_phonies !! i = Some (t, deps) ->
      V4._job_of_target v4_phonies !! t = None ∧
      V4._job_of_target (V4._collect_phonies v4_phonies).1 !! t
      = Some (length (V4.jobs v4_phonies) + i)%nat ∧
      exists descs,
        V4.alist_get (V4._descs_of_phony v4_phonies) t = Some descs ∧
        new !! i = Some (V4.new_job V4.PhonyJob
                           (default V4.ActDoNothing
                              (V4._f_of_phony v4_phonies !! t))
                           [t] deps descs
                           (default V4._PRIORITY_DEFAULT
                              (V4._priority_of_phony v4_phonies !! t))
                           false false).
Proof.
  apply (v4_collect_phonies_jobs v4_phonies (V4._collect_phonies v4_phonies).1).
  by vm_compute.
Defined.

Lemma v4_phonies_collected :
  V4._deps_of_phony v4_phonies = [("all", ["a"; "b"]); ("clean", [])] ∧
  (fun j => (V4.ts j, V4.ds j, V4.f j, V4.priority j))
    <$> V4.jobs (V4._collect_phonies v4_phonies).1
  = [(["all"], ["a"; "b"], V4.ActDoNothing, 0);
     (["clean"], [], V4.ActUser 7, 5)].
Proof. by vm_compute. Qed.

Lemma vx_leaf_is_kept_witness :
  let σ := VX.DSL_init false false in
  let σ' := (VX.child_of "x" σ).1 in
  let c := length (VX.job_objs σ) in
  (VX.child_of "x" σ).2 = Ok c ∧
  VX.job_objs σ'
  = VX.job_objs σ
    ++ [VX.set_f (VX.new_job VX.FileJob ["x"] [] None 0 (VX.dsl_use_hash σ) false)
          (VX.ActNoRule "x")] ∧
  VX.job_of_target σ' = <[("x" : string) := c]> (VX.job_of_target σ) ∧
  VX.keeps (options_of (VX.metadata σ') "x") = true ∧
  forall res lg,
    VX.rm_targets E_elements c
      {| VX.w_dsl := σ'; VX.w_res := res; VX.w_log := lg |}
    = ({| VX.w_dsl := σ'; VX.w_res := res; VX.w_log := lg |}, Ok ()).
Proof.
  intros σ σ' c.
  apply (vx_leaf_is_kept E_elements "x" σ σ' (VX.child_of "x" σ).2).
  - apply set_iter_ok_elements.
  - reflexivity.
  - apply surjective_pairing.
Defined.
End WalkExamples2.

(** * The staleness rule and dry run *)
Section StalenessDryRun.

Lemma dep_executed_spec σ deps :
  VX.dep_executed σ deps = true <-> dep_has_executed σ deps.
Proof.
  unfold dep_has_executed. induction deps as [|d deps IH]; simpl.
  - split; [done|]. intros (d & c & cb & Hd & _). by apply elem_of_nil in Hd.
  - destruct (VX.job_of_target σ !! d) as [c|] eqn:Hc.
    + destruct (VX.job_objs σ !! c) as [cb|] eqn:Hcb.
      * destruct (VX.executed cb) eqn:He.
        -- split; [|done]. intros _. exists d, c, cb. by repeat split; [left|..].
        -- rewrite IH. split.
           ++ intros (d' & c' & cb' & Hd' & H). exists d', c', cb'.
              split; [by right|done].
           ++ intros (d' & c' & cb' & [->|Hd']%elem_of_cons & Hc' & Hcb' & He').
              ** congruence.
              ** by exists d', c', cb'.
      * rewrite IH. split.
        -- intros (d' & c' & cb' & Hd' & H). exists d', c', cb'.
           split; [by right|done].
        -- intros (d' & c' & cb' & [->|Hd']%elem_of_cons & Hc' & Hcb' & He').
           ++ congruence.
           ++ by exists d', c', cb'.
    + rewrite IH. split.
      * intros (d' & c' & cb' & Hd' & H). exists d', c', cb'.
        split; [by right|done].
      * intros (d' & c' & cb' & [->|Hd']%elem_of_cons & Hc' & Hcb' & He').
        -- congruence.
        -- by exists d', c', cb'.
Qed.

(** C1, as amended.  Take a file job with a target whose probes of
    targets raise nothing but [OSError] or [NotFound], and whose deps all
    get a time from the oracle.  Then [need_update] of v4, for a job
    whose flag [_dry_run] is not set, and [_need_update] of vx return,
    and they return true exactly when a probe of a target raised or the
    maximum of the times of the deps is strictly greater than the minimum
    of the raw times of the targets; they return false when the two are
    equal, and when there is no dep and every target has a time.  Dry
    run sets the rule aside: [need_update] of a v4 job whose flag
    [_dry_run] is set returns true without a probe, and so does
    [need_update] of a vx file job under [args.dry_run] when the job of
    one of its deps has executed; in every other case [need_update] of a
    vx file job is [_need_update]. *)
Theorem C1_need_update :
  (forall E j w w1 w2 rt ld,
     V4._dry_run j = false ->
     V4.ts j ≠ [] ->
     gen_values (V4.probe_target E) (V4.ts j) w = (w1, rt) ->
     (forall e, rt = Raise e -> is_missing e = true) ->
     gen_values (V4._time_of_dep_from_cache E j) (V4.unique_ds j) w1 = (w2, Ok ld) ->
     exists b,
       V4.need_update E j w = (w2, Ok b) ∧
       (b = true <-> stale rt ld) ∧
       (forall lt m, rt = Ok lt -> is_max_of m ld -> is_min_of m lt -> b = false) ∧
       (forall lt, rt = Ok lt -> ld = [] -> b = false)) ∧
  (forall E j w,
     V4._dry_run j = true -> V4.need_update E j w = (w, Ok true)) ∧
  (forall R (E : VX.env R) jb w w1 w2 rt ld,
     VX.set_iter E (VX.ts_unique jb) ≠ [] ->
     gen_values (VX.probe_target E) (VX.set_iter E (VX.ts_unique jb)) w = (w1, rt) ->
     (forall e, rt = Raise e -> is_missing e = true) ->
     gen_values (VX._time_of_dep_from_cache E jb) (VX.set_iter E (VX.ds_unique jb)) w1
       = (w2, Ok ld) ->
     exists b,
       VX._need_update E jb w = (w2, Ok b) ∧
       (b = true <-> stale rt ld) ∧
       (forall lt m, rt = Ok lt -> is_max_of m ld -> is_min_of m lt -> b = false) ∧
       (forall lt, rt = Ok lt -> ld = [] -> b = false)) ∧
  (forall R (E : VX.env R) jb w,
     VX.kind jb = VX.FileJob ->
     VX.dry_run (VX.w_dsl w) = true ->
     dep_has_executed (VX.w_dsl w) (VX.set_iter E (VX.ds_unique jb)) ->
     VX.need_update E jb w = (w, Ok true)) ∧
  (forall R (E : VX.env R) jb w,
     VX.kind jb = VX.FileJob ->
     VX.dry_run (VX.w_dsl w) = false ∨
     ~ dep_has_executed (VX.w_dsl w) (VX.set_iter E (VX.ds_unique jb)) ->
     VX.need_update E jb w = VX._need_update E jb w).
Proof.
  split; [|split; [|split; [|split]]].
  - intros E j w w1 w2 rt ld Hdry Hts Ht Hm Hd. unfold V4.need_update.
    rewrite Hdry. by eapply need_update_body_spec.
  - intros E j w Hdry. unfold V4.need_update. by rewrite Hdry.
  - intros R E jb w w1 w2 rt ld Hts Ht Hm Hd. unfold VX._need_update.
    by eapply need_update_body_spec.
  - intros R E jb w Hk Hdry Hex. apply dep_executed_spec in Hex.
    unfold VX.need_update. rewrite Hk.
    unfold mbind, ST_bind, get_state, mret, ST_ret. simpl.
    by rewrite Hdry, Hex.
  - intros R E jb w Hk Hno. unfold VX.need_update. rewrite Hk.
    unfold mbind, ST_bind, get_state. simpl.
    destruct Hno as [->|Hno]; [done|].
    destruct (VX.dep_executed _ _) eqn:Hex; [|by rewrite andb_false_r].
    by apply dep_executed_spec in Hex.
Qed.

(** A dep and a target of the same age: no update. *)
Lemma C1_need_update_witness :
  exists w2 b,
    V4.need_update (E4_local {["t" := (7, "h1"); "d" := (7, "h2")]} 9)
      (V4.new_job V4.FileJob (V4.ActUser 0) ["t"] ["d"] [] 0 false false)
      w4_empty = (w2, Ok b) ∧
    (b = true <-> stale (Ok [7]) [7]) ∧
    (forall lt m, Ok [7] = Ok lt -> is_max_of m [7] -> is_min_of m lt -> b = false) ∧
    (forall lt, Ok [7] = Ok lt -> [7] = [] -> b = false).
Proof.
  eexists.
  eapply (proj1 C1_need_update _ _ _ _ _ (Ok [7]) [7]).
  - reflexivity.
  - discriminate.
  - vm_compute. reflexivity.
  - discriminate.
  - vm_compute. reflexivity.
Defined.

(** C1 as stated fails under dry run of v4.  The job of [d] is stale
    ([s] is newer than [d]); under dry run it is written, not run, and the
    worker ends with [dj.dry_run_set_self_or(need_update and
    self.dry_run())] for the job [dj] of [t], which depends on [d].  The
    job of [t] is then to be updated, although its target exists and is
    newer than its only dep. *)
Lemma C1_dry_run_counterexample :
  let need_update_d := (V4.need_update E4_three v4_job_d w4_empty).2 in
  let dj := V4.dry_run_set_self_or v4_job_t true in
  need_update_d = Ok true ∧
  V4.dry_run_set_self_or v4_job_t (true && true) = dj ∧
  V4.unique_ds dj = ["d"] ∧
  (V4.need_update E4_three dj w4_empty).2 = Ok true ∧
  (gen_values (V4.probe_target E4_three) (V4.ts dj) w4_empty).2 = Ok [7] ∧
  (gen_values (V4._time_of_dep_from_cache E4_three dj) (V4.unique_ds dj)
     w4_empty).2 = Ok [5] ∧
  ~ stale (Ok [7]) [5].
Proof.
  repeat split; try (vm_compute; reflexivity).
  intros [[e He]|(lt & m & t & [= <-] & [Hm _] & [Ht _] & Hgt)]; [discriminate|].
  apply list_elem_of_singleton in Hm, Ht. lia.
Qed.

End StalenessDryRun.

(** * The walk over the roots *)
Section VxRoots.
Context {R : Type}.
Variable E : VX.env R.
Hypothesis HE : set_iter_ok E.
Variable σ0 : VX.dsl.

Ltac unfold_st :=
  unfold mbind, mret, ST_bind, ST_ret, lift, get_state, put_state in *.

(** What the loop over the roots leaves: every root has a task, or the
    loop has raised. *)
Lemma DSL_run_invoke_spec fuel :
  (length (VX.job_objs σ0) + 1 <= fuel)%nat -> forall targets σ σ' r,
  vx_inv σ0 σ ->
  DSL_run_invoke E fuel targets σ = (σ', r) ->
  match r with
  | Ok _ =>
      vx_inv σ0 σ' ∧
      VX.job_of_target σ ⊆ VX.job_of_target σ' ∧
      (forall y, vx_tasked σ y -> vx_tasked σ' y) ∧
      forall t, t ∈ targets ->
        exists j, VX.job_of_target σ' !! t = Some j ∧ vx_tasked σ' j
  | Raise e => cycle_error σ0 e ∨ unbound_root σ0 targets e
  end.
Proof.
  intros Hfuel targets. induction targets as [|t targets IH];
    intros σ σ' r Hinv; simpl; unfold_st.
  - intros [= <- <-]. split; [done|]. split; [done|]. split; [done|].
    intros t Ht. by apply elem_of_nil in Ht.
  - destruct (VX.job_of_target σ !! t) as [j|] eqn:Hj.
    2:{ intros [= <- <-]. right. split; [done|]. exists t.
        split; [by left|].
        destruct (VX.job_of_target σ0 !! t) as [j0|] eqn:Hj0; [|done].
        by rewrite (lookup_weaken _ _ _ _ Hj0 (vi_sub _ _ Hinv)) in Hj. }
    destruct (VX.invoke E fuel j [] σ) as [σ1 r1] eqn:Hrun.
    destruct (invoke_spec E HE σ0 fuel j [] σ σ1 r1) as [Hpost Hres];
      [simpl; lia| |done|].
    { split; [done|]. split; [by apply (vi_bound _ _ Hinv t)|]. split.
      - intros y Hy. by apply elem_of_nil in Hy.
      - split; [constructor|done]. }
    destruct r1 as [x|e]; [|intros [= <- <-]; by left].
    destruct Hres as [-> Htj]. destruct Hpost as (Hinv1 & Ht1 & Hs1 & _ & _).
    destruct (DSL_run_invoke E fuel targets σ1) as [σ2 r2] eqn:Hrest.
    intros [= <- <-]. specialize (IH σ1 σ2 r2 Hinv1 Hrest).
    destruct r2 as [[]|e].
    + destruct IH as (Hinv2 & Hs2 & Ht2 & Hall).
      split; [done|]. split; [by etrans|]. split; [eauto|].
      intros t' [->|Ht']%elem_of_cons; [|by apply Hall].
      exists j. split; [|by apply Ht2].
      apply (lookup_weaken _ _ _ _ Hj). by etrans.
    + destruct IH as [Hc|(-> & t' & Ht' & Hn)]; [by left|].
      right. split; [done|]. exists t'. split; [by right|done].
Qed.

(** The loop over the roots finds every cycle that a root reaches. *)
Lemma DSL_run_invoke_cycle targets root jr j fuel :
  vx_declared σ0 -> root ∈ targets ->
  VX.job_of_target σ0 !! root = Some jr ->
  rtc (vx_edge σ0) jr j -> tc (vx_edge σ0) j j ->
  (length (VX.job_objs σ0) + 1 <= fuel)%nat ->
  exists σ' e,
    DSL_run_invoke E fuel targets σ0 = (σ', Raise e) ∧
    (cycle_error σ0 e ∨ unbound_root σ0 targets e).
Proof.
  intros Hdecl Hin Hroot Hreach Hcyc Hfuel.
  destruct (DSL_run_invoke E fuel targets σ0) as [σ' r] eqn:Hrun.
  pose proof (DSL_run_invoke_spec fuel Hfuel targets σ0 σ' r
                (vx_inv_init σ0 Hdecl) Hrun) as Hspec.
  destruct r as [[]|e]; [|by exists σ', e].
  exfalso. destruct Hspec as (Hinv & Hsub & _ & Hall).
  destruct (Hall root Hin) as (jr' & Hjr' & Ht).
  rewrite (lookup_weaken _ _ _ _ Hroot Hsub) in Hjr'. simplify_eq.
  eapply (vi_acyclic _ _ Hinv j); [|done].
  eapply closed_reach; [|exact Ht|exact Hreach].
  intros y c Hy Hyc. by eapply vi_closed.
Qed.
End VxRoots.

Section WalkRevised.

(** C3, as amended.  A root that reaches a cycle of the dependency
    graph, a job whose target is its own dep included, makes the walk
    over the roots fail.  In vx the loop of [DSL.run] that invokes the
    roots raises: the error "A circular dependency detected" for a job
    that lies on a cycle and is in the call chain it names, or
    [KeyError] for a root that no job makes.  In v4, where every job
    declared has one target, the loop of [finish] over the roots raises:
    the cycle error, for a target in the chain named whose job lies on a
    cycle, or an error about a dep without a job that the walk met
    first, which is "No rule to make", the error of a file URI on
    another host, the assertion that the dep is no phony target, or the
    error of [meta] on a target whose metadata already say [keep] is not
    true. *)
Theorem C3_cycle_detected :
  (forall R (E : VX.env R) σ0 targets root jr fuel j,
     set_iter_ok E -> vx_declared σ0 -> root ∈ targets ->
     VX.job_of_target σ0 !! root = Some jr ->
     rtc (vx_edge σ0) jr j -> tc (vx_edge σ0) j j ->
     (length (VX.job_objs σ0) + 1 <= fuel)%nat ->
     exists σ' e,
       DSL_run_invoke E fuel targets σ0 = (σ', Raise e) ∧
       ((exists c chain, e = Err (MsgCircularJob c chain) ∧ c ∈ chain ∧
                         tc (vx_edge σ0) c c) ∨
        (e = KeyError ∧
         exists t, t ∈ targets ∧ VX.job_of_target σ0 !! t = None))) ∧
  (forall (E : V4.env) σ0 targets root jr j fuel meta dj lj,
     v4_declared σ0 -> root ∈ targets ->
     V4._job_of_target σ0 !! root = Some jr ->
     rtc (v4_edge σ0) jr j -> tc (v4_edge σ0) j j ->
     (length (V4.jobs σ0) + 1 <= fuel)%nat ->
     exists g' e,
       V4.make_graphs E fuel targets
         {| V4.g_dsl := σ0; V4.g_meta := meta; V4.dependent_jobs := dj;
            V4.leaf_jobs := lj |} = (g', Raise e) ∧
       ((exists t chain c, e = Err (MsgCircular t chain) ∧ t ∈ chain ∧
           V4._job_of_target σ0 !! t = Some c ∧ tc (v4_edge σ0) c c) ∨
        (exists t, e = Err (MsgNoRule t)) ∨
        (exists t, e = Err (MsgNetloc t)) ∨
        e = AssertionError ∨
        (exists k old new, e = Err (MsgOverwriteMeta k old new)))).
Proof.
  split.
  - intros R E σ0 targets root jr fuel j HE. by apply DSL_run_invoke_cycle.
  - intros E σ0 targets root jr j fuel meta dj lj Hdecl Hin Hroot Hreach Hcyc Hfuel.
    destruct (v4_make_graphs_cycle E σ0 Hdecl targets root jr j fuel meta dj lj
                Hin Hroot Hreach Hcyc Hfuel) as (g' & e & Hrun & He).
    exists g', e. split; [done|].
    destruct He as [He|[He|[He|[He|He]]]]; eauto 10.
Qed.

(** Two roots of vx, of which the second reaches the job of [b], which
    needs itself; and [@file(["a"], ["a"])] of v4, invoked at [a]. *)
Lemma C3_cycle_detected_witness :
  (exists σ' e,
     DSL_run_invoke E_elements 4 ["a"; "r"] vx_second_root = (σ', Raise e) ∧
     ((exists c chain, e = Err (MsgCircularJob c chain) ∧ c ∈ chain ∧
                       tc (vx_edge vx_second_root) c c) ∨
      (e = KeyError ∧
       exists t, t ∈ ["a"; "r"] ∧ VX.job_of_target vx_second_root !! t = None))) ∧
  (exists g' e,
     V4.make_graphs (E4_local ∅ 0) 2 ["a"] (v4_start v4_self_loop)
       = (g', Raise e) ∧
     ((exists t chain c, e = Err (MsgCircular t chain) ∧ t ∈ chain ∧
         V4._job_of_target v4_self_loop !! t = Some c ∧
         tc (v4_edge v4_self_loop) c c) ∨
      (exists t, e = Err (MsgNoRule t)) ∨
      (exists t, e = Err (MsgNetloc t)) ∨
      e = AssertionError ∨
      (exists k old new, e = Err (MsgOverwriteMeta k old new)))).
Proof.
  split.
  - apply (proj1 C3_cycle_detected unit E_elements vx_second_root ["a"; "r"]
             "r" 1%nat 4%nat 2%nat).
    + apply set_iter_ok_elements.
    + by apply vx_declared_check_ok.
    + by right; left.
    + reflexivity.
    + apply rtc_once. eexists _, "b". split; [reflexivity|].
      split; [|reflexivity]. by vm_compute.
    + apply tc_once. eexists _, "b". split; [reflexivity|].
      split; [|reflexivity]. by vm_compute.
    + vm_compute. lia.
  - apply (proj2 C3_cycle_detected (E4_local ∅ 0) v4_self_loop ["a"] "a"
             0%nat 0%nat 2%nat ∅ ∅ []).
    + by apply v4_declared_check_ok.
    + by left.
    + reflexivity.
    + apply rtc_refl.
    + apply tc_once. eexists _, "a". split; [reflexivity|]. split; [|reflexivity].
      by left.
    + vm_compute. lia.
Defined.

(** In that run of vx the first root gets its task and the error comes
    from the second. *)
Lemma vx_second_root_error :
  (DSL_run_invoke E_elements 4 ["a"; "r"] vx_second_root).2
    = Raise (Err (MsgCircularJob 2 [2%nat; 1%nat])) ∧
  VX.jtask <$> VX.job_objs
     (DSL_run_invoke E_elements 4 ["a"; "r"] vx_second_root).1 !! 0%nat
    = Some (Some (VX.new_task [])).
Proof. split; by vm_compute. Qed.

(** The root [r] of [v4_no_rule] reaches the cycle of [q], and the walk of
    v4 fails, but with "No rule to make x": [p] is walked before [q]. *)
Lemma C3_no_rule_counterexample :
  V4._job_of_target v4_no_rule !! "r" = Some 0%nat ∧
  rtc (v4_edge v4_no_rule) 0%nat 2%nat ∧
  tc (v4_edge v4_no_rule) 2%nat 2%nat ∧
  v4_declared v4_no_rule ∧
  forall fuel, (4 <= fuel)%nat ->
    (V4.make_graphs (E4_local ∅ 0) fuel ["r"] (v4_start v4_no_rule)).2
      = Raise (Err (MsgNoRule "x")).
Proof.
  split; [reflexivity|]. split; [|split; [|split]].
  - apply rtc_once. eexists _, "q". split; [reflexivity|].
    split; [|reflexivity]. by right; left.
  - apply tc_once. eexists _, "q". split; [reflexivity|].
    split; [|reflexivity]. by left.
  - by apply v4_declared_check_ok.
  - intros fuel Hfuel.
    do 4 (destruct fuel as [|fuel]; [lia|]). reflexivity.
Qed.

End WalkRevised.

(** * The run of vx: the task of a job above a failure, and a worker
    that dies in [rm_targets] *)
Section RunRevised.
Context {R : Type}.
Variable E : VX.env R.

Ltac step_inv H :=
  unfold VX.step_of, VX.main_child, VX.main_task, VX.coord_step,
    VX.worker_step, VX.metadata_getitem, VX.TDefaultDict_getitem in H;
  repeat (case_match; try discriminate); simplify_eq.

Ltac abstract_fin s t :=
  let Hj := fresh "Hfj" in let Hp := fresh "Hfp" in
  let Hw := fresh "Hfw" in let Ht := fresh "Hft" in
  let ps := fresh "ps" in
  destruct (finish_task_obs s t) as (Hj & Hp & Hw & ps & Ht);
  let s0 := fresh "s0" in let Heq := fresh "Heq" in
  remember (VX.finish_task s t) as s0 eqn:Heq; clear Heq.

Ltac abstract_push s t a :=
  let Hd := fresh "Hpd" in let Hk := fresh "Hpk" in
  let Hh := fresh "Hph" in let Hw := fresh "Hpw" in
  let Ht := fresh "Hpt" in
  destruct (push_job_obs s t a) as (Hd & Hk & Hh & Hw & Ht);
  let s0 := fresh "s0" in let Heq := fresh "Heq" in
  remember (VX.push_job s t a) as s0 eqn:Heq; clear Heq.

Ltac abstract_special :=
  repeat match goal with
  | |- context [VX.finish_task ?s ?t] => abstract_fin s t
  | H : context [VX.finish_task ?s ?t] |- _ => abstract_fin s t
  | |- context [VX.push_job ?s ?t ?a] => abstract_push s t a
  | H : context [VX.push_job ?s ?t ?a] |- _ => abstract_push s t a
  end.

Ltac sys_simpl :=
  cbv zeta in *;
  unfold VX.worker_dies, VX._die, VX.set_worker, VX.ctx_put, VX.upd_task,
    VX.upd_job, VX.emit, VX.with_pool, VX.with_workers, VX.with_coord,
    VX.with_ctx_stop, VX.with_dsl, VX.task_of, VX.job_of in *;
  cbn [VX.trace VX.workers VX.thread_pool VX.s_dsl VX.coord VX.ctx_stop
       VX.job_objs VX.set_job_objs VX.set_ctx_queue VX.set_metadata
       VX._keep_going VX.set_deferred_errors VX.set_threads VX.set_queue
       VX.set_serial_queue VX.set_serial_queue_lock VX.set_n_running
       VX.set_stop VX._queue VX._serial_queue] in *.

Ltac alter_cases :=
  repeat match goal with
  | |- context [alter ?g ?j ?l !! ?j] =>
      rewrite (list_lookup_alter_eq g l j)
  | H : context [alter ?g ?j ?l !! ?j] |- _ =>
      rewrite (list_lookup_alter_eq g l j) in H
  | H : ?x ≠ ?j |- context [alter ?g ?j ?l !! ?x] =>
      rewrite (list_lookup_alter_ne g l j x) by done
  | H : ?x ≠ ?j, H' : context [alter ?g ?j ?l !! ?x] |- _ =>
      rewrite (list_lookup_alter_ne g l j x) in H' by done
  | |- context [alter ?g ?j ?l !! ?x] =>
      destruct (decide (x = j)) as [->|?]
  | H : context [alter ?g ?j ?l !! ?x] |- _ =>
      destruct (decide (x = j)) as [->|?]
  end.

(** The task of a job after a step is its task before the step, or it is
    new and its children have tasks. *)
Lemma step_task_back l s s' j jb' tk' :
  VX.step_of E l s = Some s' ->
  VX.job_of s' j = Some jb' -> VX.jtask jb' = Some tk' ->
  (exists jb tk, VX.job_of s j = Some jb ∧ VX.jtask jb = Some tk ∧
                 VX.children tk = VX.children tk') ∨
  (forall c, c ∈ VX.children tk' -> is_Some (VX.job_of s c)).
Proof.
  intros H Hx' Ht'. step_inv H;
    try match goal with
    | H : VX.child_of _ _ = _ |- _ =>
        apply child_of_jobs in H as [H|(? & H & ? & _)]
    end;
    abstract_special;
    repeat match goal with
    | H : forall k, VX.job_of _ k = _ |- _ => rewrite H in *; clear H
    | H : VX.s_dsl _ = _ |- _ => unfold VX.job_of in *; rewrite H in *; clear H
    end;
    sys_simpl; simpl in *; alter_cases;
    repeat case_decide; simplify_eq/=.
  all: try (left; eauto; fail).
  all: try (rewrite H1 in Hx'; left; eauto; fail).
  { rewrite H1 in Hx'. apply lookup_app_Some in Hx' as [Hx'|[_ Hx']].
    - left. eauto.
    - destruct (j - _)%nat; simpl in Hx'; [|done]. congruence. }
  all: repeat match goal with
       | H : ?o ≫= _ = Some _ |- _ =>
           destruct o eqn:?; simpl in H; [|discriminate]
       end.
  all: try rewrite Hpd in Hx'.
  all: repeat match goal with
       | H : VX.job_objs _ !! ?k = Some _,
         H' : context [VX.job_objs _ !! ?k] |- _ => rewrite H in H'
       end; simplify_eq/=.
  { right. intros c Hc. rewrite forallb_forall in H3.
    apply list_elem_of_In, H3, bool_decide_eq_true in Hc.
    destruct (VX.job_objs (VX.s_dsl s) !! c); [done|].
    by destruct Hc. }
  all: try (left; eexists _, _; split; [done|]; split; [done|]; done).
  all: try (match goal with
            | H : context [VX.jtask ?b] |- _ => destruct (VX.jtask b) eqn:?
            end; simplify_eq/=;
            left; eexists _, _; split; [done|]; split; [done|]; done).
  all: match goal with
       | H : _ <$> ?o = Some _ |- _ => destruct o eqn:?; simplify_eq/=
       end; left; eexists _, _; split; [done|]; split; [done|]; done.
Qed.

Lemma step_children_ok l s s' :
  VX.step_of E l s = Some s' -> children_ok s -> children_ok s'.
Proof.
  intros H Hok j jb' tk' c Hjb' Htk' Hc.
  assert (Hc0 : is_Some (VX.job_of s c)).
  { destruct (step_task_back _ _ _ _ _ _ H Hjb' Htk')
      as [(jb & tk & Hjb & Htk & Heq)|Hall]; [|by apply Hall].
    apply (Hok j jb tk c Hjb Htk). by rewrite Heq. }
  destruct Hc0 as [cb Hcb].
  destruct (step_mono E _ _ _ H c cb Hcb) as (cb' & Hcb' & _). by exists cb'.
Qed.

Lemma children_ok_init σ kg n ns laf :
  sys_ready σ -> children_ok (VX.sys_init σ kg n ns laf).
Proof.
  intros Hready j jb tk c Hjb Htk. destruct (Hready j jb Hjb) as [Hn _].
  congruence.
Qed.

Lemma reach_children_ok σ kg n ns laf ls s :
  sys_ready σ -> VX.run E ls (VX.sys_init σ kg n ns laf) = Some s ->
  children_ok s.
Proof.
  intros Hready Hrun.
  eapply (run_preserves E children_ok); [|exact Hrun|by apply children_ok_init].
  intros l s1 s2. apply step_children_ok.
Qed.

Lemma run_app ls1 : forall ls2 s,
  VX.run E (ls1 ++ ls2) s = VX.run E ls1 s ≫= VX.run E ls2.
Proof.
  induction ls1 as [|l ls1 IH]; intros ls2 s; simpl; [done|].
  destruct (VX.step_of E l s); simpl; [apply IH|done].
Qed.

(** No job above a job that is over without success is begun. *)
Lemma failed_dependency_safe σ kg n ns laf ls s ls' s' j d :
  sys_ready σ ->
  VX.run E ls (VX.sys_init σ kg n ns laf) = Some s ->
  tc (dep_of s) j d -> failed s d ->
  VX.run E ls' s = Some s' ->
  failed s' d ∧
  (EvEnq j ∉ VX.trace s') ∧ (EvAction j ∉ VX.trace s') ∧
  (exists c, dep_of s' j c ∧ ~ succ s' c) ∧
  forall jb, VX.job_of s' j = Some jb ->
    VX.successed jb = false ∧
    forall tk, VX.jtask jb = Some tk ->
      VX.pc tk ≠ VX.AtEnq ∧ VX.pc tk ≠ VX.AtAssert ∧
      (forall i k c, VX.pc tk = VX.AtAll i -> (k < i)%nat ->
         VX.children tk !! k = Some c -> succ s' c) ∧
      (VX.pc tk = VX.Finished -> VX.error tk = None ->
       VX.done jb = true ∧ EvDoneSet j ∈ VX.trace s').
Proof.
  intros Hready Hrun Htc Hf Hrun'.
  assert (Hinv : sys_inv E s).
  { eapply run_sys_inv; [exact Hrun|]. by apply sys_inv_init. }
  assert (Hinv' : sys_inv E s') by by eapply run_sys_inv.
  assert (Hf' : failed s' d) by by eapply run_failed.
  assert (Htc' : tc (dep_of s') j d).
  { eapply tc_dep_of_mono; [|done]. by eapply run_jobs_le. }
  destruct (blocked_above E s' j d Hinv' Htc' Hf') as (Hne & c & Hjc & Hnc).
  split; [done|]. split; [done|]. split.
  { intros Ha. by apply Hne, (action_enq E). }
  split; [by exists c|].
  intros jb Hjb. pose proof (si_job _ _ Hinv' j jb Hjb) as (Hs & Hd & Ht).
  split.
  { destruct (VX.successed jb); [|done]. exfalso. by apply Hne, Hs. }
  intros tk Htk. rewrite Htk in Ht. unfold task_ok in Ht.
  destruct Hjc as (jb' & tk' & Hjb' & Htk' & Hc).
  assert (jb' = jb) by congruence. subst jb'.
  assert (tk' = tk) by congruence. subst tk'.
  split; [|split; [|split]].
  - intros Hp. rewrite Hp in Ht. destruct Ht as [_ Hall]. by apply Hnc, Hall.
  - intros Hp. rewrite Hp in Ht. by apply Hnc, Ht.
  - intros i k c' Hp Hk Hc'. rewrite Hp in Ht. destruct Ht as [_ Hall]. eauto.
  - intros Hp He. rewrite Hp in Ht. split; [by apply Ht|]. by apply Hd, Ht.
Qed.

(** C2.  In a run of vx, from declarations none of which is begun: once a
    job [d] that [j] depends on, through the children of the tasks, is
    over without success (its [done] event is set and [successed] is
    false), it stays so, and at no later moment has [j] been put on a
    queue of the pool, has its action been called, or is [successed] set
    for it; its task is never at [yield self._enq()] or after it, and
    when the task is over without an error the [done] event of [j] is
    set.  And the task does end so: whenever the coordinator has the task
    of [j] in the test [all(child.successed for child in children)],
    after the waits for the children, its next steps end the task with
    [self.done.set()]; the [done] event of [j] is then set, [successed]
    is false, [j] was not put on a queue and its action was not called,
    and the tasks that waited for [j] are put back, to find in their turn
    a child without success. *)
Theorem C2_failed_dependency_blocks σ kg n ns laf ls s ls' s' j d :
  sys_ready σ ->
  VX.run E ls (VX.sys_init σ kg n ns laf) = Some s ->
  tc (dep_of s) j d -> failed s d ->
  VX.run E ls' s = Some s' ->
  failed s' d ∧
  (EvEnq j ∉ VX.trace s') ∧ (EvAction j ∉ VX.trace s') ∧
  (forall jb, VX.job_of s' j = Some jb ->
     VX.successed jb = false ∧
     forall tk, VX.jtask jb = Some tk ->
       VX.pc tk ≠ VX.AtEnq ∧ VX.pc tk ≠ VX.AtAssert ∧
       (VX.pc tk = VX.Finished -> VX.error tk = None ->
        VX.done jb = true ∧ EvDoneSet j ∈ VX.trace s')) ∧
  (forall a jb tk i,
     VX.coord s' = VX.CNext j ->
     VX.job_of s' j = Some jb -> VX.jtask jb = Some tk ->
     VX.t_done tk = false -> VX.pc tk = VX.AtAll i ->
     exists k s'',
       VX.run E (replicate k (VX.LCoord a)) s' = Some s'' ∧
       (exists jb', VX.job_of s'' j = Some jb' ∧ VX.done jb' = true ∧
                    VX.successed jb' = false) ∧
       (exists ps, VX.trace s''
          = reverse ((fun p => EvRequeue p j) <$> ps)
            ++ EvDoneSet j :: VX.trace s') ∧
       (EvEnq j ∉ VX.trace s'') ∧ (EvAction j ∉ VX.trace s'') ∧
       failed s'' j ∧ VX.coord s'' = VX.CIdle).
Proof.
  intros Hready Hrun Htc Hf Hrun'.
  destruct (failed_dependency_safe _ _ _ _ _ _ _ _ _ _ _ Hready Hrun Htc Hf Hrun')
    as (Hf' & Hne & Hna & (c & Hjc & Hnc) & Hjob).
  split; [done|]. split; [done|]. split; [done|]. split.
  { intros jb Hjb. destruct (Hjob jb Hjb) as [Hs Ht]. split; [done|].
    intros tk Htk. destruct (Ht tk Htk) as (? & ? & _ & ?). done. }
  intros a jb tk i Hco Hjb Htk Hd Hpc.
  assert (Hall : VX.run E (ls ++ ls') (VX.sys_init σ kg n ns laf) = Some s').
  { rewrite run_app, Hrun. done. }
  pose proof (reach_children_ok _ _ _ _ _ _ _ Hready Hall) as Hch.
  destruct Hjc as (jb0 & tk0 & Hjb0 & Htk0 & Hc).
  assert (jb0 = jb) by congruence. subst jb0.
  assert (tk0 = tk) by congruence. subst tk0.
  apply list_elem_of_lookup in Hc as [m Hm].
  destruct (Hjob jb Hjb) as [_ Ht]. destruct (Ht tk Htk) as (_ & _ & Hbelow & _).
  destruct (coord_skips_job E a _ s' j jb tk i eq_refl Hco Hjb Htk Hd Hpc)
    as (k & s'' & Hrun'' & (jb' & Hjb' & Hd') & Htr & Hci).
  { intros c' Hc'. by apply (Hch j jb tk). }
  { exists m, c. split; [|done].
    destruct (decide (i <= m)%nat); [done|]. exfalso. apply Hnc.
    apply (Hbelow i m c); [done|lia|done]. }
  exists k, s''. split; [done|].
  assert (Hall' : VX.run E (ls' ++ replicate k (VX.LCoord a)) s = Some s'').
  { rewrite run_app, Hrun'. done. }
  destruct (failed_dependency_safe _ _ _ _ _ _ _ _ _ _ _ Hready Hrun Htc Hf Hall')
    as (_ & Hne' & Hna' & _ & Hjob').
  destruct (Hjob' jb' Hjb') as [Hs' _].
  split; [by exists jb'|]. split; [done|]. split; [done|]. split; [done|].
  split; [by exists jb'|done].
Qed.
End RunRevised.

Section RunRevisedExamples.

(** The run [fail_run1], then [fail_run2] up to the moment at which the
    coordinator has the task of [r] in the test of its children: [a] is
    over without success, and the next steps of the coordinator end the
    task of [r], which depends on it, with the [done] event of [r] set. *)
Lemma C2_failed_dependency_blocks_witness :
  failed fail_at_all 1 ∧
  (EvEnq 0%nat ∉ VX.trace fail_at_all) ∧
  (EvAction 0%nat ∉ VX.trace fail_at_all) ∧
  (forall jb, VX.job_of fail_at_all 0 = Some jb ->
     VX.successed jb = false ∧
     forall tk, VX.jtask jb = Some tk ->
       VX.pc tk ≠ VX.AtEnq ∧ VX.pc tk ≠ VX.AtAssert ∧
       (VX.pc tk = VX.Finished -> VX.error tk = None ->
        VX.done jb = true ∧ EvDoneSet 0%nat ∈ VX.trace fail_at_all)) ∧
  (forall a jb tk i,
     VX.coord fail_at_all = VX.CNext 0 ->
     VX.job_of fail_at_all 0 = Some jb -> VX.jtask jb = Some tk ->
     VX.t_done tk = false -> VX.pc tk = VX.AtAll i ->
     exists k s'',
       VX.run E_elements (replicate k (VX.LCoord a)) fail_at_all = Some s'' ∧
       (exists jb', VX.job_of s'' 0 = Some jb' ∧ VX.done jb' = true ∧
                    VX.successed jb' = false) ∧
       (exists ps, VX.trace s''
          = reverse ((fun p => EvRequeue p 0%nat) <$> ps)
            ++ EvDoneSet 0 :: VX.trace fail_at_all) ∧
       (EvEnq 0%nat ∉ VX.trace s'') ∧ (EvAction 0%nat ∉ VX.trace s'') ∧
       failed s'' 0 ∧ VX.coord s'' = VX.CIdle).
Proof.
  apply (C2_failed_dependency_blocks E_elements vx_fail_dsl true 1 1 false
           fail_run1 fail_mid (take 8 fail_run2) fail_at_all 0 1).
  - by apply sys_ready_check_ok.
  - by vm_compute.
  - apply tc_once. eexists _, _. split; [reflexivity|]. split; [reflexivity|].
    by left.
  - eexists. split; [reflexivity|]. by split.
  - by vm_compute.
Defined.

(** In [fail_at_all] the coordinator has the task of [r] in the test of
    its children. *)
Lemma fail_at_all_coord :
  VX.coord fail_at_all = VX.CNext 0 ∧
  (fun tk => (VX.pc tk, VX.t_done tk, VX.children tk))
    <$> VX.task_of fail_at_all 0 = Some (VX.AtAll 0, false, [1%nat]).
Proof. split; by vm_compute. Qed.

End RunRevisedExamples.

(** * The run of vx: a worker that dies in [rm_targets] *)
Section RunLost.
Context {R : Type}.
Variable E : VX.env R.

Ltac step_inv H :=
  unfold VX.step_of, VX.main_child, VX.main_task, VX.coord_step,
    VX.worker_step, VX.metadata_getitem, VX.TDefaultDict_getitem in H;
  repeat (case_match; try discriminate); simplify_eq.

Ltac abstract_fin s t :=
  let Hj := fresh "Hfj" in let Hp := fresh "Hfp" in
  let Hw := fresh "Hfw" in let Ht := fresh "Hft" in
  let ps := fresh "ps" in
  destruct (finish_task_obs s t) as (Hj & Hp & Hw & ps & Ht);
  let s0 := fresh "s0" in let Heq := fresh "Heq" in
  remember (VX.finish_task s t) as s0 eqn:Heq; clear Heq.

Ltac abstract_push s t a :=
  let Hd := fresh "Hpd" in let Hk := fresh "Hpk" in
  let Hh := fresh "Hph" in let Hw := fresh "Hpw" in
  let Ht := fresh "Hpt" in
  destruct (push_job_obs s t a) as (Hd & Hk & Hh & Hw & Ht);
  let s0 := fresh "s0" in let Heq := fresh "Heq" in
  remember (VX.push_job s t a) as s0 eqn:Heq; clear Heq.

Ltac abstract_special :=
  repeat match goal with
  | |- context [VX.finish_task ?s ?t] => abstract_fin s t
  | H : context [VX.finish_task ?s ?t] |- _ => abstract_fin s t
  | |- context [VX.push_job ?s ?t ?a] => abstract_push s t a
  | H : context [VX.push_job ?s ?t ?a] |- _ => abstract_push s t a
  end.

Ltac sys_simpl :=
  cbv zeta in *;
  unfold VX.worker_dies, VX._die, VX.set_worker, VX.ctx_put, VX.upd_task,
    VX.upd_job, VX.emit, VX.with_pool, VX.with_workers, VX.with_coord,
    VX.with_ctx_stop, VX.with_dsl, VX.task_of, VX.job_of in *;
  cbn [VX.trace VX.workers VX.thread_pool VX.s_dsl VX.coord VX.ctx_stop
       VX.job_objs VX.set_job_objs VX.set_ctx_queue VX.set_metadata
       VX._keep_going VX.set_deferred_errors VX.set_threads VX.set_queue
       VX.set_serial_queue VX.set_serial_queue_lock VX.set_n_running
       VX.set_stop VX._queue VX._serial_queue] in *.

Ltac alter_cases :=
  repeat match goal with
  | |- context [alter ?g ?j ?l !! ?j] =>
      rewrite (list_lookup_alter_eq g l j)
  | H : context [alter ?g ?j ?l !! ?j] |- _ =>
      rewrite (list_lookup_alter_eq g l j) in H
  | H : ?x ≠ ?j |- context [alter ?g ?j ?l !! ?x] =>
      rewrite (list_lookup_alter_ne g l j x) by done
  | H : ?x ≠ ?j, H' : context [alter ?g ?j ?l !! ?x] |- _ =>
      rewrite (list_lookup_alter_ne g l j x) in H' by done
  | |- context [alter ?g ?j ?l !! ?x] =>
      destruct (decide (x = j)) as [->|?]
  | H : context [alter ?g ?j ?l !! ?x] |- _ =>
      destruct (decide (x = j)) as [->|?]
  end.

Lemma event_src_requeue s c ps e :
  e ∈ reverse ((fun p => EvRequeue p c) <$> ps) -> event_src s e.
Proof.
  intros (? & -> & _)%elem_of_reverse%list_elem_of_fmap. done.
Qed.

(** The events of a step, and where each comes from. *)
Lemma step_new_events l s s' :
  VX.step_of E l s = Some s' ->
  exists new, VX.trace s' = new ++ VX.trace s ∧
              forall e, e ∈ new -> event_src s e.
Proof.
  intros H. step_inv H; abstract_special; sys_simpl.
  all: try (exists []; split; [done|]; by intros ? ?%elem_of_nil).
  all: try (eexists [_]; split; [done|];
            intros ? ->%list_elem_of_singleton; simpl; eauto; fail).
  all: try (eexists [_; _]; split; [done|];
            intros ? [->| ->%list_elem_of_singleton]%elem_of_cons;
            simpl; eauto; fail).
  - destruct Hpt as [[-> _]|[-> _]].
    + exists []. split; [done|]. by intros ? ?%elem_of_nil.
    + eexists [_]. split; [done|]. by intros ? ->%list_elem_of_singleton.
  - rewrite Hft. eexists. split; [done|]. apply event_src_requeue.
  - rewrite Hft. eexists (_ ++ [_]). split; [by rewrite <- app_assoc|].
    intros e [He| ->%list_elem_of_singleton]%elem_of_app.
    + by eapply event_src_requeue.
    + right. unfold VX.task_of, VX.job_of. eauto.
Qed.

(** A job that the pool has lost stays lost, and none of the events that
    follow the error of its action comes. *)
Lemma step_lost l s s' j :
  VX.step_of E l s = Some s' -> sys_inv E s -> lost s j ->
  lost s' j ∧
  forall e, after_raise j e = true -> e ∈ VX.trace s' -> e ∈ VX.trace s.
Proof.
  intros H Hinv (Henq & Hna & jb & Hjb & Hd).
  assert (Hpast : forall tk, VX.task_of s j = Some tk -> past_test tk).
  { intros tk Htk. unfold VX.task_of in Htk. rewrite Hjb in Htk.
    by eapply (enq_past_test E). }
  assert (Hheld : forall w p, VX.workers s !! w = Some p -> holds p ≠ Some j).
  { intros w p Hw Hp. apply Hna. by eapply holds_active. }
  destruct (step_new_events _ _ _ H) as (new & Htr & Hnew).
  split; [split; [|split]|].
  - rewrite Htr. apply elem_of_app. by right.
  - destruct (step_active E _ _ _ H) as [Hp _|j' tk Hp _ _ Htk Hpc|j' Hp _].
    + by rewrite Hp.
    + rewrite Hp. intros [->|Hin]%elem_of_cons; [|done].
      destruct (Hpast tk Htk) as [Hq|Hq]; congruence.
    + intros Hin. apply Hna. rewrite Hp. by right.
  - destruct (step_mono E _ _ _ H j jb Hjb) as (jb' & Hjb' & _).
    exists jb'. split; [done|].
    destruct (VX.done jb') eqn:Hd'; [|done]. exfalso.
    destruct (step_sets_done E _ _ _ _ _ _ H Hjb Hd Hjb' Hd')
      as [[w Hw]|(tk & Htk & Hpc)].
    + by apply (Hheld _ _ Hw).
    + destruct (Hpast tk) as [Hq|Hq]; [|congruence..].
      unfold VX.task_of. by rewrite Hjb.
  - intros e He. rewrite Htr. intros [Hin|Hin]%elem_of_app; [|done].
    exfalso. specialize (Hnew e Hin).
    destruct e; simpl in He; try discriminate;
      apply bool_decide_eq_true in He; subst.
    + destruct Hnew as (w & rest & Hw). by apply (Hheld _ _ Hw).
    + destruct Hnew as (w & rest & Hw). by apply (Hheld _ _ Hw).
    + destruct Hnew as (w & Hw). by apply (Hheld _ _ Hw).
    + destruct Hnew as [[w Hw]|(tk & Htk & Hpc)].
      * by apply (Hheld _ _ Hw).
      * destruct (Hpast tk Htk) as [Hq|Hq]; congruence.
Qed.

Lemma run_lost ls : forall s s' j,
  VX.run E ls s = Some s' -> sys_inv E s -> lost s j ->
  lost s' j ∧
  forall e, after_raise j e = true -> e ∈ VX.trace s' -> e ∈ VX.trace s.
Proof.
  induction ls as [|l ls IH]; intros s s' j; simpl.
  - intros [= <-] _ Hl. done.
  - destruct (VX.step_of E l s) as [s1|] eqn:Hstep; [|done]. simpl.
    intros Hrun Hinv Hl.
    destruct (step_lost _ _ _ _ Hstep Hinv Hl) as [Hl1 He1].
    destruct (IH s1 s' j Hrun (step_sys_inv E _ _ _ Hstep Hinv) Hl1)
      as [Hl' He']. split; [done|]. eauto.
Qed.

(** The call of [rm] for the target [t] raises an exception that
    [rm_targets] does not catch: the worker runs the die-sequence and
    returns, and the pool has lost the job. *)
Lemma rm_raise_step s w j t rest :
  sys_inv E s ->
  VX.workers s !! w = Some (VX.WRmTargets j (t :: rest)) ->
  VX.keeps (VX.TDefaultDict_getitem (VX.metadata (VX.s_dsl s)) t).2 = false ->
  exists s1,
    VX.step_of E (VX.LWorker w VX.Fails) s = Some s1 ∧
    VX.trace s1 = EvDie :: EvRm j t :: VX.trace s ∧
    VX.stop (VX.thread_pool s1) = true ∧ VX.ctx_stop s1 = true ∧
    VX.deferred_errors (VX.thread_pool s1)
      = VX.deferred_errors (VX.thread_pool s) ∧
    VX.workers s1 !! w = Some VX.WExited ∧
    lost s1 j.
Proof.
  intros Hinv Hw Hk.
  exists (VX.worker_dies
            (VX.emit
               (VX.with_dsl s
                  (VX.set_metadata (VX.s_dsl s)
                     (VX.TDefaultDict_getitem (VX.metadata (VX.s_dsl s)) t).1))
               (EvRm j t)) w).
  split.
  { unfold VX.step_of, VX.worker_step. rewrite Hw.
    unfold VX.metadata_getitem.
    destruct (VX.TDefaultDict_getitem _ t) as [tbl m] eqn:Hg.
    simpl in Hk. rewrite Hk. reflexivity. }
  assert (Hact : j ∈ active s) by by eapply holds_active.
  destruct (si_active _ _ Hinv j Hact) as (Henq & jb & Hjb & Hd).
  split; [done|]. split; [done|]. split; [done|]. split; [done|]. split.
  { simpl. apply list_lookup_insert_eq. by eapply lookup_lt_Some. }
  split; [|split].
  - simpl. by do 2 right.
  - pose proof (si_nodup _ _ Hinv) as Hnd. unfold active in *.
    destruct (omap_holds_insert (VX.workers s) w _ VX.WExited Hw)
      as (l1 & l2 & Ha & Hb). simpl in Ha, Hb.
    change (queued s ++ omap holds (<[w := VX.WExited]> (VX.workers s)))
      with (queued s ++ omap holds (<[w := VX.WExited]> (VX.workers s))).
    unfold active, queued in *. simpl. rewrite Hb. rewrite Ha in Hnd.
    rewrite app_assoc in Hnd. apply NoDup_app in Hnd as (Hn1 & Hn2 & Hn3).
    apply NoDup_cons in Hn3 as [Hn3 _].
    rewrite app_assoc. intros [Hin|Hin]%elem_of_app; [|done].
    apply (Hn2 j Hin). by left.
  - exists jb. split; [|done]. done.
Qed.

(** C6, as amended.  In a run of vx, from declarations none of which is
    begun.  When the [done] event of a job [j] is set after
    [j.execute()] has raised, then before that [rm_targets] has dealt
    with every target it goes through, by a call of [rm] or by finding it
    marked [keep], and the error has been put on the queue of deferred
    errors (under [keep_going]) or the die-sequence has run.  The task of
    [j] is put back by the worker, and the tasks that wait for it are put
    back, only after the [done] event is set.  A call of [rm] or a
    finding of [keep] comes after the action has raised; [keep] is found
    only for a target whose metadata say so, and [rm] is called only for
    one whose metadata do not.  And when a call of [rm] raises an
    exception that [rm_targets] does not catch (the step [Fails] of a
    worker inside [rm_targets]), whether [keep_going] is set or not: the
    worker runs the die-sequence, which sets both stop flags, puts
    nothing on the queue of deferred errors, and returns; and from then
    on the stop flags stay set, the [done] event of [j] is never set, no
    further target of [j] is dealt with, and the error of [j] is not put
    on the queue of deferred errors. *)
Theorem C6_rm_targets_before_done σ kg n ns laf ls s :
  sys_ready σ ->
  VX.run E ls (VX.sys_init σ kg n ns laf) = Some s ->
  (forall j l1 l0, VX.trace s = l1 ++ EvDoneSet j :: l0 -> EvRaised j ∈ l0 ->
     exists jb, VX.job_of s j = Some jb ∧
       (forall t, t ∈ targets_of E jb -> handled j l0 t) ∧
       settled kg j l0) ∧
  (forall j l1 l0, VX.trace s = l1 ++ EvTaskPut j :: l0 -> EvDoneSet j ∈ l0) ∧
  (forall p c l1 l0, VX.trace s = l1 ++ EvRequeue p c :: l0 ->
     EvDoneSet c ∈ l0) ∧
  (forall j t l1 l0,
     VX.trace s = l1 ++ EvRm j t :: l0 ∨ VX.trace s = l1 ++ EvKeep j t :: l0 ->
     EvRaised j ∈ l0) ∧
  (forall l s1 s2 j t, VX.step_of E l s1 = Some s2 ->
     (EvKeep j t ∈ VX.trace s2 -> EvKeep j t ∉ VX.trace s1 ->
      VX.keeps (VX.TDefaultDict_getitem (VX.metadata (VX.s_dsl s1)) t).2 = true) ∧
     (EvRm j t ∈ VX.trace s2 -> EvRm j t ∉ VX.trace s1 ->
      VX.keeps (VX.TDefaultDict_getitem (VX.metadata (VX.s_dsl s1)) t).2 = false)) ∧
  (forall w j t rest,
     VX.workers s !! w = Some (VX.WRmTargets j (t :: rest)) ->
     VX.keeps (VX.TDefaultDict_getitem (VX.metadata (VX.s_dsl s)) t).2 = false ->
     exists s1,
       VX.step_of E (VX.LWorker w VX.Fails) s = Some s1 ∧
       VX.trace s1 = EvDie :: EvRm j t :: VX.trace s ∧
       VX.stop (VX.thread_pool s1) = true ∧ VX.ctx_stop s1 = true ∧
       VX.deferred_errors (VX.thread_pool s1)
         = VX.deferred_errors (VX.thread_pool s) ∧
       VX.workers s1 !! w = Some VX.WExited ∧
       forall ls' s2, VX.run E ls' s1 = Some s2 ->
         VX.stop (VX.thread_pool s2) = true ∧ VX.ctx_stop s2 = true ∧
         (exists jb, VX.job_of s2 j = Some jb ∧ VX.done jb = false) ∧
         (forall e, after_raise j e = true ->
            e ∈ VX.trace s2 -> e ∈ VX.trace s1)).
Proof.
  intros Hready Hrun.
  assert (Hinv : sys_inv E s).
  { eapply run_sys_inv; [exact Hrun|]. by apply sys_inv_init. }
  assert (Hkg : VX._keep_going (VX.thread_pool s) = kg).
  { by rewrite (run_keep_going E _ _ _ Hrun). }
  pose proof (si_trace _ _ Hinv) as Htr.
  split; [|split; [|split; [|split; [|split]]]].
  - intros j l1 l0 Heq Hr.
    pose proof (trace_ok_split E _ _ _ _ _ Htr Heq) as He. simpl in He.
    destruct (He Hr) as (jb & Hjb & Hall & Hs). exists jb. by rewrite <- Hkg.
  - intros j l1 l0 Heq. apply (trace_ok_split E _ _ _ _ _ Htr Heq).
  - intros p c l1 l0 Heq. apply (trace_ok_split E _ _ _ _ _ Htr Heq).
  - intros j t l1 l0 [Heq|Heq]; apply (trace_ok_split E _ _ _ _ _ Htr Heq).
  - intros l s1 s2 j t Hstep. by apply (step_keep_rm E l).
  - intros w j t rest Hw Hk.
    destruct (rm_raise_step s w j t rest Hinv Hw Hk)
      as (s1 & Hstep & Ht1 & Hst & Hcs & Hde & Hw1 & Hlost).
    exists s1. do 6 (split; [done|]).
    intros ls' s2 Hrun2.
    assert (Hinv1 : sys_inv E s1) by by eapply step_sys_inv.
    destruct (run_lost ls' s1 s2 j Hrun2 Hinv1 Hlost)
      as [(_ & _ & Hdone) Hev].
    assert (Hstop : VX.stop (VX.thread_pool s2) = true ∧ VX.ctx_stop s2 = true).
    { eapply (run_preserves E
                (fun x => VX.stop (VX.thread_pool x) = true ∧
                          VX.ctx_stop x = true)); [|exact Hrun2|done].
      intros l x x' Hx [Ha Hb].
      destruct (step_die E _ _ _ Hx) as (Hs1 & Hs2 & _). eauto. }
    destruct Hstop. done.
Qed.
End RunLost.

Section RunLostExamples.

(** The run [mixed_run] under [keep_going]: the worker is inside
    [rm_targets], at the target [x:a], for which [rm] raises
    [NotImplementedError]. *)
Lemma C6_rm_targets_before_done_witness :
  (forall j l1 l0, VX.trace mixed_mid = l1 ++ EvDoneSet j :: l0 ->
     EvRaised j ∈ l0 ->
     exists jb, VX.job_of mixed_mid j = Some jb ∧
       (forall t, t ∈ targets_of E_disk jb -> handled j l0 t) ∧
       settled true j l0) ∧
  (forall j l1 l0, VX.trace mixed_mid = l1 ++ EvTaskPut j :: l0 ->
     EvDoneSet j ∈ l0) ∧
  (forall p c l1 l0, VX.trace mixed_mid = l1 ++ EvRequeue p c :: l0 ->
     EvDoneSet c ∈ l0) ∧
  (forall j t l1 l0,
     VX.trace mixed_mid = l1 ++ EvRm j t :: l0 ∨
     VX.trace mixed_mid = l1 ++ EvKeep j t :: l0 ->
     EvRaised j ∈ l0) ∧
  (forall l s1 s2 j t, VX.step_of E_disk l s1 = Some s2 ->
     (EvKeep j t ∈ VX.trace s2 -> EvKeep j t ∉ VX.trace s1 ->
      VX.keeps (VX.TDefaultDict_getitem (VX.metadata (VX.s_dsl s1)) t).2 = true) ∧
     (EvRm j t ∈ VX.trace s2 -> EvRm j t ∉ VX.trace s1 ->
      VX.keeps (VX.TDefaultDict_getitem (VX.metadata (VX.s_dsl s1)) t).2 = false)) ∧
  (forall w j t rest,
     VX.workers mixed_mid !! w = Some (VX.WRmTargets j (t :: rest)) ->
     VX.keeps (VX.TDefaultDict_getitem (VX.metadata (VX.s_dsl mixed_mid)) t).2
       = false ->
     exists s1,
       VX.step_of E_disk (VX.LWorker w VX.Fails) mixed_mid = Some s1 ∧
       VX.trace s1 = EvDie :: EvRm j t :: VX.trace mixed_mid ∧
       VX.stop (VX.thread_pool s1) = true ∧ VX.ctx_stop s1 = true ∧
       VX.deferred_errors (VX.thread_pool s1)
         = VX.deferred_errors (VX.thread_pool mixed_mid) ∧
       VX.workers s1 !! w = Some VX.WExited ∧
       forall ls' s2, VX.run E_disk ls' s1 = Some s2 ->
         VX.stop (VX.thread_pool s2) = true ∧ VX.ctx_stop s2 = true ∧
         (exists jb, VX.job_of s2 j = Some jb ∧ VX.done jb = false) ∧
         (forall e, after_raise j e = true ->
            e ∈ VX.trace s2 -> e ∈ VX.trace s1)).
Proof.
  apply (C6_rm_targets_before_done E_disk vx_mixed true 1 1 false
           mixed_run mixed_mid).
  - by apply sys_ready_check_ok.
  - by vm_compute.
Defined.

(** In [mixed_mid] the worker is inside [rm_targets] of the job, which
    has dealt with [c]. *)
Lemma mixed_mid_worker :
  VX.workers mixed_mid = [VX.WRmTargets 0 ["x:a"; "x:b"]] ∧
  VX.trace mixed_mid = [EvRm 0 "c"; EvRaised 0; EvAction 0; EvEnq 0] ∧
  VX.keeps (VX.TDefaultDict_getitem (VX.metadata (VX.s_dsl mixed_mid)) "x:a").2
    = false.
Proof. split; [|split]; by vm_compute. Qed.

(** C6 as stated fails when [rm] raises.  The job of [vx_mixed] is stale
    ([need_update] returns true: the probe of [c], the first target,
    raises [OSError]), and its action raises.  Then [rm] of [c] raises
    [OSError], which [rm_targets] catches, and [rm] of [x:a] raises
    [NotImplementedError], which it does not: [rm] is not called for
    [x:b], and under [keep_going] the die-sequence runs, nothing is put
    on the queue of deferred errors, and the [done] event of the job is
    not set by the worker, which has returned. *)
Lemma C6_rm_raises_counterexample :
  VX.job_objs vx_mixed !! 0%nat = Some job_mixed ∧
  VX.set_iter E_disk (VX.ts_unique job_mixed) = ["c"; "x:a"; "x:b"] ∧
  (VX.need_update E_disk job_mixed w_mixed).2 = Ok true ∧
  (VX.try_rm E_disk "c" w_mixed).2 = Ok () ∧
  (VX.try_rm E_disk "x:a" w_mixed).2 = Raise NotImplementedError ∧
  (let r := VX.rm_targets E_disk 0 w_mixed in
   r.2 = Raise NotImplementedError ∧
   VX.w_log r.1 = [EvRm 0 "x:a"; EvRm 0 "c"]) ∧
  exists s,
    VX.run E_disk (mixed_run ++ [VX.LWorker 0 VX.Fails]) mixed_init = Some s ∧
    VX.trace s
      = [EvDie; EvRm 0 "x:a"; EvRm 0 "c"; EvRaised 0; EvAction 0; EvEnq 0] ∧
    VX._keep_going (VX.thread_pool s) = true ∧
    VX.deferred_errors (VX.thread_pool s) = [] ∧
    VX.done <$> VX.job_of s 0 = Some false ∧
    VX.workers s = [VX.WExited].
Proof.
  split; [by vm_compute|]. split; [by vm_compute|]. split; [by vm_compute|].
  split; [by vm_compute|]. split; [by vm_compute|]. split; [by vm_compute|].
  eexists. split; [by vm_compute|]. by vm_compute.
Qed.

End RunLostExamples.
